(** * Job scheduling engine: shallow embedding of [main.py]

    The development follows the Python source: the constants, the [Job]
    model, the chunk decomposition shared by both solvers, the greedy list
    scheduler ([BacktrackingSolver]), the schedule evaluator and the belief
    space of [CulturalAlgorithm].  Python integers are unbounded, hence [Z];
    dictionaries whose iteration order is observable are association lists,
    the others are [gmap]s; a raised exception is an explicit [Raise].
    Not modelled: the progress log lines of a successful run, with the
    analysis [_analyze_schedule] that writes them, wall-clock times, the
    plot and the percentage statistics of the response (those of the
    greedy solver are modelled apart, as [_calc_stats]); nor the limits of
    the interpreter: the recursion limit, which ends the traversal of a
    dependency chain of about a thousand jobs with [RecursionError], and
    the range of floats, outside which the division of two integers raises
    [OverflowError].  What is proved of a run holds of the code wherever
    these limits are not met; the exceptions of the embedding are the five
    of [exn]. *)

From Stdlib Require Import ZArith List Lia String QArith Bool DecimalString Sorted Permutation.
From stdpp Require Import gmap strings list.

Local Open Scope Z_scope.

(** ** Python exceptions as values *)

Inductive exn : Type :=
| KeyError (key : Z)
| IndexError
| ZeroDivisionError
| AssertionError
| ValueError.

(** A call returns, raises, or (for the recursive traversal, which is
    modelled with a recursion budget) exhausts its budget.  The budget the
    solvers pass is proved sufficient below, see [topological_sort_total]. *)
Inductive outcome (A : Type) : Type :=
| Ok (a : A)
| Raise (e : exn)
| OutOfFuel.
Arguments Ok {A} a.
Arguments Raise {A} e.
Arguments OutOfFuel {A}.

Definition obind {A B} (x : outcome A) (f : A -> outcome B) : outcome B :=
  match x with
  | Ok a => f a
  | Raise e => Raise e
  | OutOfFuel => OutOfFuel
  end.

Notation "x <-! c1 ; c2" := (obind c1 (fun x => c2))
  (at level 20, c1 at level 100, c2 at level 200, only parsing).

(** ** Constants and models *)

Definition FIXED_MACHINE_CAPACITY : Z := 40.
Definition NUM_MACHINES : Z := 3.
Definition MAX_CHUNK_SIZE : Z := 5.
Definition TOTAL_CAPACITY : Z := FIXED_MACHINE_CAPACITY * NUM_MACHINES.

Record Job : Type := mkJob {
  id : Z;
  name : string;
  duration : Z;
  dependencies : list Z;
  min_chunk_size : Z
}.

(** [range(n)] of Python, empty for [n <= 0]. *)
Definition range (n : Z) : list Z := map Z.of_nat (seq 0 (Z.to_nat n)).

Definition sumZ (l : list Z) : Z := fold_right Z.add 0 l.

(** ** Chunk decomposition

    [_create_intelligent_split] (lines 252-276) and the inlined copy in
    [BacktrackingSolver.solve] (lines 655-681) compute the same list of
    sizes.  [//] and [%] are floor division and the matching remainder,
    which is what [Z.div] and [Z.modulo] are; [//] by zero raises. *)

(** The loop [for i in range(n): append (base + 1 if i < rem else base)]. *)
Definition spread (base rem n : Z) : list Z :=
  map (fun i => if i <? rem then base + 1 else base) (range n).

(** The body of the second loop, for one size of the first pass. *)
Definition resplit (size : Z) : list Z :=
  if size >? MAX_CHUNK_SIZE then
    let sub_chunks := (size + MAX_CHUNK_SIZE - 1) / MAX_CHUNK_SIZE in
    let sub_base := size / sub_chunks in
    let sub_rem := size mod sub_chunks in
    spread sub_base sub_rem sub_chunks
  else [size].

Definition final_sizes (d : Z) : outcome (list Z) :=
  let num_chunks := (d + MAX_CHUNK_SIZE - 1) / MAX_CHUNK_SIZE in
  if num_chunks =? 0 then Raise ZeroDivisionError
  else
    let base := d / num_chunks in
    let remainder := d mod num_chunks in
    let initial_sizes := spread base remainder num_chunks in
    Ok (concat (map resplit initial_sizes)).

(** The decomposition as both solvers apply it: a job is split only when
    its duration exceeds [MAX_CHUNK_SIZE] (lines 241-248 and 654/711). *)
Definition chunk_sizes (job : Job) : outcome (list Z) :=
  if duration job >? MAX_CHUNK_SIZE then final_sizes (duration job)
  else Ok [duration job].


(** ** Shared data: placed chunks, violations, the response *)

(** A tuple [(job, start, end, size)] of a machine timeline. *)
Record Placed : Type := mkPlaced {
  p_job : Job;
  p_start : Z;
  p_end : Z;
  p_size : Z
}.

(** The dictionary appended to [capacity_violations]. *)
Record Violation : Type := mkViolation {
  v_job_id : Z;
  v_job_name : string;
  v_machine : Z;
  v_chunk_size : Z;
  v_exceeded_by : Z;
  v_start : Z;
  v_end : Z
}.

Record TaskChunk : Type := mkTaskChunk {
  tc_job : Job;
  tc_machine : Z;
  tc_start : Z;
  tc_end : Z;
  tc_chunk_id : Z;
  tc_total_chunks : Z;
  tc_size : Z
}.

(** [ScheduleResult], with the makespan in the number type [M] of the
    solver that builds it; [logs] holds the lines of the failure results. *)
Record ScheduleResult (M : Type) : Type := mkResult {
  success : bool;
  makespan : M;
  schedule : list (list TaskChunk);
  logs : list string;
  splits_info : list (Z * Z);
  total_work : option Z;
  capacity_violations : option (list Violation);
  error_message : option string
}.
Arguments mkResult {M}.
Arguments success {M}.
Arguments makespan {M}.
Arguments schedule {M}.
Arguments logs {M}.
Arguments splits_info {M}.
Arguments total_work {M}.
Arguments capacity_violations {M}.
Arguments error_message {M}.

(** [str(n)] for an integer. *)
Definition str_of_Z (n : Z) : string := NilZero.string_of_int (Z.to_int n).

(** The message of the strict capacity check (lines 156 and 625). *)
Definition capacity_message (job : Job) : string :=
  ("Job '" ++ name job ++ "' (" ++ str_of_Z (duration job)
   ++ " units) exceeds the 40-unit machine capacity limit")%string.

Definition _create_error_result {M} (zero : M) (msg : string) : ScheduleResult M :=
  mkResult false zero [] [msg] [] None None None.

Definition _create_capacity_error_result {M} (zero : M) (msg : string)
  : ScheduleResult M :=
  mkResult false zero [] [("❌ " ++ msg)%string] [] None None (Some msg).

(** [{job.id: job for job in jobs}]: a later job replaces an earlier one
    with the same identifier. *)
Definition make_job_dict (jobs : list Job) : gmap Z Job :=
  fold_left (fun m job => <[id job := job]> m) jobs ∅.

(** The first job the loop [for job in self.jobs: if job.duration >
    self.machine_capacity] meets. *)
Definition first_over_capacity (jobs : list Job) : option Job :=
  find (fun job => duration job >? FIXED_MACHINE_CAPACITY) jobs.

(** Python list indexing: [l[i]] accepts [-len <= i < len]. *)
Definition py_index (len : nat) (i : Z) : option nat :=
  if (0 <=? i) && (i <? Z.of_nat len) then Some (Z.to_nat i)
  else if (- Z.of_nat len <=? i) && (i <? 0) then Some (Z.to_nat (Z.of_nat len + i))
  else None.

(** [sorted(l, key=key)] / [l.sort(key=key)]: the sort compares keys with
    [<] only and is stable, so it is the insertion of each element, from
    the right, before the first one whose key is not smaller. *)
Fixpoint insert_by {A K} (lt : K -> K -> bool) (key : A -> K) (x : A) (l : list A)
  : list A :=
  match l with
  | [] => [x]
  | y :: l' =>
      if lt (key y) (key x) then y :: insert_by lt key x l' else x :: y :: l'
  end.

Definition sorted_by {A K} (lt : K -> K -> bool) (key : A -> K) (l : list A)
  : list A :=
  fold_right (insert_by lt key) [] l.

Definition sort_by {A} (key : A -> Z) (l : list A) : list A :=
  sorted_by Z.ltb key l.

(** State of the three-colour traversal: [visited], [temp], [result]. *)
Record topo_state : Type := mkTopo {
  visited : gset Z;
  temp : gset Z;
  result : list Job
}.

(** [for dep_id in job.dependencies: if not dfs(dep_id): return False]. *)
Fixpoint each_dep (dfs : Z -> topo_state -> outcome (bool * topo_state))
    (deps : list Z) (st : topo_state) : outcome (bool * topo_state) :=
  match deps with
  | [] => Ok (true, st)
  | dep_id :: rest =>
      match dfs dep_id st with
      | Ok (true, st') => each_dep dfs rest st'
      | r => r
      end
  end.

(** The loop of [_topological_sort] over [self.jobs]; [None] is the
    Python [None] returned on a cycle. *)
Fixpoint sort_loop (dfs : Z -> topo_state -> outcome (bool * topo_state))
    (jobs : list Job) (st : topo_state) : outcome (option (list Job)) :=
  match jobs with
  | [] => Ok (Some (result st))
  | job :: rest =>
      if decide (id job ∈ visited st) then sort_loop dfs rest st
      else match dfs (id job) st with
           | Ok (true, st') => sort_loop dfs rest st'
           | Ok (false, _) => Ok None
           | Raise e => Raise e
           | OutOfFuel => OutOfFuel
           end
  end.

(** ** Helpers of both solvers *)

(** The placement both simulations make once the machine [m] is chosen
    (lines 689-706 and 356-373): the chunk starts when both the job and
    the machine are free; the machine is busy until the chunk ends and the
    tuple is appended to its timeline.  Returns the start, the end and the
    updated times and timelines. *)
Definition put (m : nat) (job : Job) (size current_time : Z)
    (times : list Z) (scheds : list (list Placed))
  : Z * Z * list Z * list (list Placed) :=
  let start_time := Z.max current_time (nth m times 0) in
  let end_time := start_time + size in
  (start_time, end_time,
   <[m := end_time]> times,
   <[m := nth m scheds [] ++ [mkPlaced job start_time end_time size]]> scheds).

(** The capacity check of one placement (lines 693-702 and 360-369). *)
Definition check_capacity (job : Job) (machine size start_time end_time : Z)
    (violations : list Violation) : list Violation :=
  if end_time >? FIXED_MACHINE_CAPACITY then
    violations ++ [mkViolation (id job) (name job) machine size
                     (end_time - FIXED_MACHINE_CAPACITY) start_time end_time]
  else violations.

(** [max(machine_times)] on the three machine times. *)
Definition max_list (l : list Z) : outcome Z :=
  match l with
  | [] => Raise IndexError
  | x :: r => Ok (fold_left Z.max r x)
  end.

(** Append [v] to the list stored under [k], creating it on first use:
    [if k not in d: d[k] = []] then [d[k].append(v)]. *)
Fixpoint dict_append {A} (k : Z) (v : A) (d : list (Z * list A)) : list (Z * list A) :=
  match d with
  | [] => [(k, [v])]
  | (k', vs) :: r =>
      if k =? k' then (k', vs ++ [v]) :: r else (k', vs) :: dict_append k v r
  end.

(** [splits[job.id] = splits.get(job.id, 0) + 1]. *)
Fixpoint dict_incr (k : Z) (d : list (Z * Z)) : list (Z * Z) :=
  match d with
  | [] => [(k, 1)]
  | (k', n) :: r => if k =? k' then (k', n + 1) :: r else (k', n) :: dict_incr k r
  end.

Definition _calc_splits (scheds : list (list Placed)) : list (Z * Z) :=
  fold_left (fun splits m_sched =>
    fold_left (fun splits p => dict_incr (id (p_job p)) splits) m_sched splits)
    scheds [].

(** [_build_final] (lines 848-875): group the placed chunks by job, sort
    each group by start, number it, file each chunk under its machine and
    sort every machine by start. *)
Definition group_by_job (scheds : list (list Placed))
  : list (Z * list (nat * Placed)) :=
  fold_left (fun job_chunks '(machine_id, m_sched) =>
    fold_left (fun job_chunks p =>
      dict_append (id (p_job p)) (machine_id, p) job_chunks) m_sched job_chunks)
    (combine (seq 0 (length scheds)) scheds) [].

Definition number_chunks (chunks : list (nat * Placed)) : list TaskChunk :=
  let total := Z.of_nat (length chunks) in
  map (fun '(idx, (machine_id, p)) =>
         mkTaskChunk (p_job p) (Z.of_nat machine_id) (p_start p) (p_end p)
                     (Z.of_nat idx + 1) total (p_size p))
      (combine (seq 0 (length chunks)) chunks).

Definition build_final (key : nat * Placed -> Z) (scheds : list (list Placed))
  : list (list TaskChunk) :=
  let filed :=
    fold_left (fun final '(_, chunks) =>
      fold_left (fun final tc =>
        let m := Z.to_nat (tc_machine tc) in
        <[m := nth m final [] ++ [tc]]> final)
        (number_chunks (sort_by key chunks)) final)
      (group_by_job scheds) (repeat [] (Z.to_nat NUM_MACHINES)) in
  map (sort_by tc_start) filed.

(** ** The greedy list scheduler, [class BacktrackingSolver] *)

Module BacktrackingSolver.

(** [dfs] of lines 785-802.  A missing job skips the dependency loop and
   then fails at [self.job_dict[job_id]]. *)
Fixpoint dfs (job_dict : gmap Z Job) (fuel : nat) (job_id : Z) (st : topo_state)
  : outcome (bool * topo_state) :=
  match fuel with
  | O => OutOfFuel
  | S fuel' =>
      if decide (job_id ∈ temp st) then Ok (false, st)
      else if decide (job_id ∈ visited st) then Ok (true, st)
      else
        let st1 := mkTopo (visited st) ({[job_id]} ∪ temp st) (result st) in
        let deps_done :=
          match job_dict !! job_id with
          | Some job => each_dep (dfs job_dict fuel') (dependencies job) st1
          | None => Ok (true, st1)
          end in
        match deps_done with
        | Ok (true, st2) =>
            match job_dict !! job_id with
            | Some job =>
                Ok (true, mkTopo ({[job_id]} ∪ visited st2)
                                 (temp st2 ∖ {[job_id]})
                                 (result st2 ++ [job]))
            | None => Raise (KeyError job_id)
            end
        | r => r
        end
  end.

Definition _topological_sort (jobs : list Job) : outcome (option (list Job)) :=
  sort_loop (dfs (make_job_dict jobs) (S (length jobs))) jobs (mkTopo ∅ ∅ []).

(** Scheduling state of [solve]: [machine_times], [machine_schedules] and
    [self.capacity_violations]. *)
Record sched_state : Type := mkSched {
  machine_times : list Z;
  machine_schedules : list (list Placed);
  violations : list Violation
}.

Definition init_state : sched_state := mkSched [0; 0; 0] [[]; []; []] [].

(** [min(range(self.num_machines), key=lambda m: machine_times[m])]:
    the first index with the least time. *)
Definition min_machine (times : list Z) : nat :=
  fold_left (fun best m => if nth m times 0 <? nth best times 0 then m else best)
            (seq 1 (Z.to_nat NUM_MACHINES - 1)) 0%nat.

(** Lines 648-652: the latest end among the placed chunks of the
    dependencies, searched by job identifier on every machine. *)
Definition earliest_start (job : Job) (scheds : list (list Placed)) : Z :=
  fold_left (fun es dep_id =>
    fold_left (fun es m_sched =>
      fold_left (fun es p =>
        if id (p_job p) =? dep_id then Z.max es (p_end p) else es)
        m_sched es)
      scheds es)
    (dependencies job) 0.

(** One chunk (lines 688-709, and 712-730 for an unsplit job): returns
    the end time and the new state. *)
Definition place (job : Job) (chunk_size current_time : Z) (st : sched_state)
  : Z * sched_state :=
  let m := min_machine (machine_times st) in
  let '(start_time, end_time, times, scheds) :=
    put m job chunk_size current_time (machine_times st) (machine_schedules st) in
  (end_time,
   mkSched times scheds
     (check_capacity job (Z.of_nat m) chunk_size start_time end_time (violations st))).

(** The loop [for i, chunk_size in enumerate(final_sizes)]. *)
Fixpoint place_chunks (job : Job) (sizes : list Z) (current_time : Z)
    (st : sched_state) : sched_state :=
  match sizes with
  | [] => st
  | chunk_size :: rest =>
      let '(end_time, st') := place job chunk_size current_time st in
      place_chunks job rest end_time st'
  end.

(** The body of [for job in topological] (lines 644-732). *)
Definition schedule_job (st : sched_state) (job : Job) : outcome sched_state :=
  let es := earliest_start job (machine_schedules st) in
  if duration job >? MAX_CHUNK_SIZE then
    sizes <-! final_sizes (duration job);
    Ok (place_chunks job sizes es st)
  else
    Ok (snd (place job (duration job) es st)).

Fixpoint schedule_all (order : list Job) (st : sched_state) : outcome sched_state :=
  match order with
  | [] => Ok st
  | job :: rest => st' <-! schedule_job st job; schedule_all rest st'
  end.

(** The greedy solver sorts a job's chunks by start ([x[1]], line 858). *)
Definition _build_final (scheds : list (list Placed)) : list (list TaskChunk) :=
  build_final (fun c => p_start (snd c)) scheds.

Definition solve (jobs : list Job) : outcome (ScheduleResult Z) :=
  match first_over_capacity jobs with
  | Some job => Ok (_create_capacity_error_result 0 (capacity_message job))
  | None =>
      topological <-! _topological_sort jobs;
      match topological with
      | None | Some [] => Ok (_create_error_result 0 "Cycle Detected"%string)
      | Some order =>
          st <-! schedule_all order init_state;
          makespan <-! max_list (machine_times st);
          Ok (mkResult true makespan (_build_final (machine_schedules st)) []
                (_calc_splits (machine_schedules st))
                (Some (sumZ (map duration jobs)))
                (Some (violations st)) None)
      end
  end.

End BacktrackingSolver.

(** ** Floating-point numbers

    Fitness values are Python floats.  The operations the evaluator uses
    are kept abstract, so that what is proved holds for any arithmetic,
    IEEE doubles included: [of_Z] is the conversion of an integer operand,
    [truediv] the division [/] of two integers, [lit] a decimal literal. *)
Class FloatOps (F : Type) : Type := {
  of_Z : Z -> F;
  lit : Q -> F;
  truediv : Z -> Z -> F;
  fadd : F -> F -> F;
  fsub : F -> F -> F;
  fmul : F -> F -> F;
  fltb : F -> F -> bool
}.

(** A fitness: a float, or [float('inf')]. *)
Inductive fitness (F : Type) : Type :=
| Fin (x : F)
| Inf.
Arguments Fin {F} x.
Arguments Inf {F}.

Definition fit_ltb {F} `{FloatOps F} (a b : fitness F) : bool :=
  match a, b with
  | Fin x, Fin y => fltb x y
  | Fin _, Inf => true
  | Inf, _ => false
  end.

(** [max(l)] keeps the first element unless a later one is greater,
    [min(l)] unless a later one is smaller. *)
Definition fmax_list {F} `{FloatOps F} (x : F) (l : list F) : F :=
  fold_left (fun acc y => if fltb acc y then y else acc) l x.

Definition fmin_list {F} `{FloatOps F} (x : F) (l : list F) : F :=
  fold_left (fun acc y => if fltb y acc then y else acc) l x.

(** ** Chromosomes *)

(** A chunk descriptor [{'machine': _, 'size': _, 'order': _}]. *)
Record chunk : Type := mkChunk {
  c_machine : Z;
  c_size : Z;
  c_order : Z
}.

(** A chromosome: a dictionary from job identifier to chunk list, in
    insertion order. *)
Definition chromosome : Type := list (Z * list chunk).

Fixpoint dict_get {A} (k : Z) (d : list (Z * A)) : option A :=
  match d with
  | [] => None
  | (k', v) :: r => if k =? k' then Some v else dict_get k r
  end.

(** ** The schedule evaluator, [CulturalAlgorithm._evaluate_chromosome] *)

Module Evaluator.

Record eval_state : Type := mkEval {
  m_times : list Z;
  m_scheds : list (list Placed);
  completed : gmap Z Z;
  violations : list Violation;
  machine_loads : list Z
}.

Definition init_state : eval_state :=
  mkEval (repeat 0 (Z.to_nat NUM_MACHINES)) (repeat [] (Z.to_nat NUM_MACHINES))
         ∅ [] (repeat 0 (Z.to_nat NUM_MACHINES)).

(** Lines 323-329: [Ok false] stands for [return float('inf'), [], []]. *)
Fixpoint validate (job_dict : gmap Z Job) (items : chromosome) : outcome bool :=
  match items with
  | [] => Ok true
  | (job_id, chunks) :: rest =>
      let total_size := sumZ (map c_size chunks) in
      match job_dict !! job_id with
      | None => Raise (KeyError job_id)
      | Some job =>
          if negb (total_size =? duration job) then Ok false
          else if existsb (fun c => c_size c >? MAX_CHUNK_SIZE) chunks then Ok false
          else validate job_dict rest
      end
  end.

(** Lines 338-343: [None] when a dependency is not completed yet. *)
Fixpoint dep_start (completed : gmap Z Z) (deps : list Z) (start_time : Z)
  : option Z :=
  match deps with
  | [] => Some start_time
  | dep_id :: rest =>
      match completed !! dep_id with
      | Some t => dep_start completed rest (Z.max start_time t)
      | None => None
      end
  end.

(** Lines 353-374, one chunk: the end time and the new state. *)
Definition place (job : Job) (c : chunk) (current_time : Z) (st : eval_state)
  : outcome (Z * eval_state) :=
  match py_index (length (m_times st)) (c_machine c) with
  | None => Raise IndexError
  | Some m =>
      let '(chunk_start, chunk_end, times, scheds) :=
        put m job (c_size c) current_time (m_times st) (m_scheds st) in
      Ok (chunk_end,
          mkEval times scheds (completed st)
            (check_capacity job (c_machine c) (c_size c) chunk_start chunk_end
               (violations st))
            (<[m := nth m (machine_loads st) 0 + c_size c]> (machine_loads st)))
  end.

Fixpoint place_chunks (job : Job) (chunks : list chunk) (current_time : Z)
    (st : eval_state) : outcome (Z * eval_state) :=
  match chunks with
  | [] => Ok (current_time, st)
  | c :: rest =>
      r <-! place job c current_time st;
      place_chunks job rest (fst r) (snd r)
  end.

(** The loop [for job in order] (lines 337-376); [Ok None] stands for
    [return float('inf'), [], []]. *)
Fixpoint eval_jobs (chrom : chromosome) (order : list Job) (st : eval_state)
  : outcome (option eval_state) :=
  match order with
  | [] => Ok (Some st)
  | job :: rest =>
      match dep_start (completed st) (dependencies job) 0 with
      | None => Ok None
      | Some start_time =>
          match default [] (dict_get (id job) chrom) with
          | [] => Ok None
          | chunks =>
              r <-! place_chunks job (sort_by c_order chunks) start_time st;
              let st' := snd r in
              eval_jobs chrom rest
                (mkEval (m_times st') (m_scheds st')
                        (<[id job := fst r]> (completed st'))
                        (violations st') (machine_loads st'))
          end
      end
  end.

Definition sched_work (sched : list Placed) : Z := sumZ (map p_size sched).

Section Fitness.
Context {F : Type} `{FloatOps F}.

(** Lines 378-391. *)
Definition adjusted_makespan (st : eval_state) : outcome F :=
  makespan <-! max_list (m_times st);
  let violation_penalty := Z.of_nat (length (violations st)) * 10 in
  let total_machine_time := makespan * NUM_MACHINES in
  let total_work := sumZ (map sched_work (m_scheds st)) in
  let penalty :=
    if total_machine_time >? 0
    then fmul (fmul (fsub (of_Z 1) (truediv total_work total_machine_time))
                    (of_Z makespan)) (lit (4 # 10))
    else fmul (of_Z ((1 - 0) * makespan)) (lit (4 # 10)) in
  let machine_utilization :=
    map (fun '(m, m_sched) => truediv (sched_work m_sched)
                                      (Z.max 1 (nth m (m_times st) 0)))
        (combine (seq 0 (length (m_scheds st))) (m_scheds st)) in
  match machine_utilization with
  | [] => Raise IndexError
  | u :: us =>
      let load_balance_penalty :=
        fmul (fmul (fsub (fmax_list u us) (fmin_list u us)) (of_Z makespan))
             (lit (2 # 10)) in
      Ok (fadd (fadd (fadd (of_Z makespan) penalty) load_balance_penalty)
               (of_Z violation_penalty))
  end.

Definition _evaluate_chromosome (job_dict : gmap Z Job) (chrom : chromosome)
    (order : list Job)
  : outcome (fitness F * list (list Placed) * list Violation) :=
  valid <-! validate job_dict chrom;
  if negb valid then Ok (Inf, [], [])
  else
    r <-! eval_jobs chrom order init_state;
    match r with
    | None => Ok (Inf, [], [])
    | Some st =>
        fit <-! adjusted_makespan st;
        Ok (Fin fit, m_scheds st, violations st)
    end.

End Fitness.

End Evaluator.

(** ** The random source

    The calls of the [random] module the metaheuristic makes, threading a
    generator state [R].  No law is assumed of them: a sequence operation
    handed an index outside the sequence raises, as indexing does. *)
Class RandomGen (R : Type) : Type := {
  randint : Z -> Z -> R -> Z * R;
  random_lt : Q -> R -> bool * R;
  shuffle : list Z -> R -> list Z * R;
  choice_index : nat -> R -> nat * R;
  sample_indices : nat -> nat -> R -> list nat * R
}.

(** [random.choice(seq)]. *)
Definition choice {R} `{RandomGen R} {A} (l : list A) (g : R) : outcome (A * R) :=
  let '(i, g') := choice_index (length l) g in
  match nth_error l i with
  | Some x => Ok (x, g')
  | None => Raise IndexError
  end.

(** [random.sample(population, k)]. *)
Definition sample {R} `{RandomGen R} {A} (l : list A) (k : nat) (g : R)
  : outcome (list A * R) :=
  let '(idx, g') := sample_indices (length l) k g in
  match mapM (fun i => nth_error l i) idx with
  | Some xs => Ok (xs, g')
  | None => Raise ValueError
  end.

(** ** The belief space, [class BeliefSpace] *)

Module BeliefSpace.

Section Belief.
Context {F : Type} `{FloatOps F} {R : Type} `{RandomGen R}.

(** A scored individual [(fitness, chromosome, schedule, violations)]. *)
Definition individual : Type :=
  fitness F * chromosome * list (list Placed) * list Violation.

Definition ind_fitness (x : individual) : fitness F := fst (fst (fst x)).
Definition ind_chromosome (x : individual) : chromosome := snd (fst (fst x)).
Definition ind_schedule (x : individual) : list (list Placed) := snd (fst x).
Definition ind_violations (x : individual) : list Violation := snd x.

Record t : Type := mkBelief {
  num_machines : Z;
  global_best_chromosome : option chromosome;
  global_best_fitness : fitness F;
  global_best_schedule : option (list (list Placed));
  machine_reputation : gmap Z (list (Z * Z));
  capacity_violations_history : list Violation
}.

Definition init (num_machines : Z) : t :=
  mkBelief num_machines None Inf None ∅ [].

(** [acceptance_count = max(1, len(sorted_pop) // 5)] and the slice. *)
Definition acceptance_count (n : nat) : Z := Z.max 1 (Z.of_nat n / 5).

Definition accepted_individuals (population_fitness_list : list individual)
  : list individual :=
  let sorted_pop := sorted_by fit_ltb ind_fitness population_fitness_list in
  take (Z.to_nat (acceptance_count (length sorted_pop))) sorted_pop.

(** Lines 110-112 for one chunk; the scores of a job are a dictionary in
    insertion order, which [influence_mutation] iterates. *)
Definition bump (job_id m_id : Z) (rep : gmap Z (list (Z * Z)))
  : gmap Z (list (Z * Z)) :=
  <[job_id := dict_incr m_id (default [] (rep !! job_id))]> rep.

(** Lines 106-112 for one chromosome entry. *)
Definition learn_entry (rep : gmap Z (list (Z * Z))) (entry : Z * list chunk)
  : gmap Z (list (Z * Z)) :=
  let '(job_id, chunks) := entry in
  let rep1 := match rep !! job_id with
              | None => <[job_id := []]> rep
              | Some _ => rep
              end in
  fold_left (fun rep c => bump job_id (c_machine c) rep) chunks rep1.

Definition learn (rep : gmap Z (list (Z * Z))) (accepted : list individual)
  : gmap Z (list (Z * Z)) :=
  fold_left (fun rep x => fold_left learn_entry (ind_chromosome x) rep)
            accepted rep.

(** [update] (lines 93-112); [accepted_individuals[0]] raises on an empty
    population. *)
Definition update (bs : t) (population_fitness_list : list individual)
  : outcome t :=
  let accepted := accepted_individuals population_fitness_list in
  match accepted with
  | [] => Raise IndexError
  | current_best :: _ =>
      let bs1 :=
        if fit_ltb (ind_fitness current_best) (global_best_fitness bs) then
          mkBelief (num_machines bs)
                   (Some (ind_chromosome current_best))
                   (ind_fitness current_best)
                   (Some (ind_schedule current_best))
                   (machine_reputation bs)
                   (ind_violations current_best)
        else bs in
      Ok (mkBelief (num_machines bs1) (global_best_chromosome bs1)
                   (global_best_fitness bs1) (global_best_schedule bs1)
                   (learn (machine_reputation bs1) accepted)
                   (capacity_violations_history bs1))
  end.

(** [max(scores, key=scores.get)]: the first key with the greatest count. *)
Definition best_machine (scores : list (Z * Z)) : option Z :=
  match scores with
  | [] => None
  | (m, n) :: rest =>
      Some (fst (fold_left (fun best kv => if snd best <? snd kv then kv else best)
                           rest (m, n)))
  end.

(** [influence_mutation] (lines 114-119); the random draw is made only
    when the job has an entry. *)
Definition influence_mutation (bs : t) (job_id : Z) (g : R) : option Z * R :=
  match machine_reputation bs !! job_id with
  | None => (None, g)
  | Some scores =>
      let '(b, g') := random_lt (7 # 10) g in
      if b then (best_machine scores, g') else (None, g')
  end.

End Belief.

Arguments individual F : clear implicits.
Arguments t F : clear implicits.

(** The count a job's machine holds in the reputation table, 0 if absent. *)
Definition reputation (rep : gmap Z (list (Z * Z))) (job_id m_id : Z) : Z :=
  default 0 (dict_get m_id (default [] (rep !! job_id))).

End BeliefSpace.

(** ** The cultural algorithm, [class CulturalAlgorithm] *)

Module CulturalAlgorithm.

(** [dfs] of lines 546-565.  A missing job returns [True] at once, leaving
    its identifier in [temp]. *)
Fixpoint dfs (job_dict : gmap Z Job) (fuel : nat) (job_id : Z) (st : topo_state)
  : outcome (bool * topo_state) :=
  match fuel with
  | O => OutOfFuel
  | S fuel' =>
      if decide (job_id ∈ temp st) then Ok (false, st)
      else if decide (job_id ∈ visited st) then Ok (true, st)
      else
        let st1 := mkTopo (visited st) ({[job_id]} ∪ temp st) (result st) in
        match job_dict !! job_id with
        | None => Ok (true, st1)
        | Some job =>
            match each_dep (dfs job_dict fuel') (dependencies job) st1 with
            | Ok (true, st2) =>
                Ok (true, mkTopo ({[job_id]} ∪ visited st2)
                                 (temp st2 ∖ {[job_id]})
                                 (result st2 ++ [job]))
            | r => r
            end
        end
  end.

Definition _topological_sort (jobs : list Job) : outcome (option (list Job)) :=
  sort_loop (dfs (make_job_dict jobs) (S (length jobs))) jobs (mkTopo ∅ ∅ []).

(** The solver sorts a job's chunks by end ([x[2]], line 522). *)
Definition _build_final_schedule (scheds : list (list Placed))
  : list (list TaskChunk) :=
  build_final (fun c => p_end (snd c)) scheds.

(** [d[k] = v] on a dictionary in insertion order. *)
Fixpoint dict_set {A} (k : Z) (v : A) (d : list (Z * A)) : list (Z * A) :=
  match d with
  | [] => [(k, v)]
  | (k', v') :: r => if k =? k' then (k', v) :: r else (k', v') :: dict_set k v r
  end.

(** Lines 283-288: chunk [i] goes to [machines[i % num_machines]]. *)
Fixpoint spread_machines (machines : list Z) (i : Z) (sizes : list Z)
  : outcome (list chunk) :=
  match sizes with
  | [] => Ok []
  | s :: rest =>
      match py_index (length machines) (i mod NUM_MACHINES) with
      | None => Raise IndexError
      | Some k =>
          cs <-! spread_machines machines (i + 1) rest;
          Ok (mkChunk (nth k machines 0) s i :: cs)
      end
  end.

Section Search.
Context {F : Type} `{FloatOps F} {R : Type} `{RandomGen R}.

Definition population_size : nat := 60.
Definition generations : nat := 100.
Definition mutation_rate : Q := 5 # 10.
Definition elite_size : nat := 8.

(** A computation that draws random numbers and may raise. *)
Definition GA (A : Type) : Type := R -> outcome (A * R).

Definition ret {A} (a : A) : GA A := fun g => Ok (a, g).
Definition bind {A B} (c : GA A) (f : A -> GA B) : GA B :=
  fun g => r <-! c g; f (fst r) (snd r).
Definition draw {A} (f : R -> A * R) : GA A := fun g => Ok (f g).
Definition lift {A} (x : outcome A) : GA A := fun g => a <-! x; Ok (a, g).

Notation "x <~ c1 ; c2" := (bind c1 (fun x => c2))
  (at level 20, c1 at level 100, c2 at level 200, only parsing).

(** [_create_intelligent_split] (lines 251-293). *)
Definition _create_intelligent_split (job : Job) : GA (list chunk) :=
  final_sizes <~ lift (final_sizes (duration job));
  machines <~ draw (shuffle (range NUM_MACHINES));
  chunks <~ lift (spread_machines machines 0 final_sizes);
  if sumZ (map c_size chunks) =? duration job then ret chunks
  else lift (Raise AssertionError).

(** [_create_smart_chromosome] (lines 238-249). *)
Fixpoint _create_smart_chromosome_from (chrom : chromosome)
    (topological_order : list Job) : GA chromosome :=
  match topological_order with
  | [] => ret chrom
  | job :: rest =>
      chunks <~ (if duration job <=? MAX_CHUNK_SIZE then
                   m <~ draw (randint 0 (NUM_MACHINES - 1));
                   ret [mkChunk m (duration job) 0]
                 else _create_intelligent_split job);
      _create_smart_chromosome_from (dict_set (id job) chunks chrom) rest
  end.

Definition _create_smart_chromosome (topological_order : list Job)
  : GA chromosome :=
  _create_smart_chromosome_from [] topological_order.

(** [l[i][field] = m], with Python's index check. *)
Definition set_machine (chunks : list chunk) (i m : Z) : outcome (list chunk) :=
  match py_index (length chunks) i with
  | None => Raise IndexError
  | Some k =>
      match nth_error chunks k with
      | Some c => Ok (<[k := mkChunk m (c_size c) (c_order c)]> chunks)
      | None => Raise IndexError
      end
  end.

(** [_mutate] (lines 295-320). *)
Definition _mutate (bs : BeliefSpace.t F) (chrom : chromosome)
    (topological_order : list Job) : GA chromosome :=
  match topological_order with
  | [] => ret chrom
  | _ =>
      job <~ choice topological_order;
      match dict_get (id job) chrom with
      | None => ret chrom
      | Some chunks =>
          mutation_type <~ draw (random_lt (5 # 10));
          if duration job >? MAX_CHUNK_SIZE then
            if (mutation_type : bool) then
              cs <~ _create_intelligent_split job;
              ret (dict_set (id job) cs chrom)
            else
              match chunks with
              | [] => ret chrom
              | _ =>
                  chunk_idx <~ draw (randint 0 (Z.of_nat (length chunks) - 1));
                  m <~ draw (randint 0 (NUM_MACHINES - 1));
                  cs <~ lift (set_machine chunks chunk_idx m);
                  ret (dict_set (id job) cs chrom)
              end
          else
            influenced <~ draw (BeliefSpace.influence_mutation bs (id job));
            m <~ (match influenced with
                  | Some m => ret m
                  | None => draw (randint 0 (NUM_MACHINES - 1))
                  end);
            cs <~ lift (set_machine chunks 0 m);
            ret (dict_set (id job) cs chrom)
      end
  end.

(** [_crossover] (lines 469-478). *)
Fixpoint _crossover_from (child p1 p2 : chromosome) (order : list Job)
  : GA chromosome :=
  match order with
  | [] => ret child
  | job :: rest =>
      first <~ draw (random_lt (5 # 10));
      let parent := if (first : bool) then p1 else p2 in
      let child' := match dict_get (id job) parent with
                    | Some chunks => dict_set (id job) chunks child
                    | None => child
                    end in
      _crossover_from child' p1 p2 rest
  end.

Definition _crossover (p1 p2 : chromosome) (order : list Job) : GA chromosome :=
  _crossover_from [] p1 p2 order.

(** [min(tournament, key=lambda x: x[0])]: the first of least fitness. *)
Definition best_of (tournament : list (BeliefSpace.individual F))
  : outcome (BeliefSpace.individual F) :=
  match tournament with
  | [] => Raise ValueError
  | x :: rest =>
      Ok (fold_left (fun best y =>
            if fit_ltb (BeliefSpace.ind_fitness y) (BeliefSpace.ind_fitness best)
            then y else best) rest x)
  end.

(** [_select_parents] (lines 461-467). *)
Fixpoint select_n (n : nat) (fitness_scores : list (BeliefSpace.individual F))
  : GA (list chromosome) :=
  match n with
  | O => ret []
  | S n' =>
      tournament <~ sample fitness_scores (Nat.min 5 (length fitness_scores));
      best <~ lift (best_of tournament);
      parents <~ select_n n' fitness_scores;
      ret (BeliefSpace.ind_chromosome best :: parents)
  end.

Definition _select_parents (fitness_scores : list (BeliefSpace.individual F))
  : GA (list chromosome) :=
  select_n (length fitness_scores) fitness_scores.

(** Lines 179-182: score the population, keep the finite fitnesses. *)
Fixpoint score (job_dict : gmap Z Job) (order : list Job)
    (population : list chromosome) : outcome (list (BeliefSpace.individual F)) :=
  match population with
  | [] => Ok []
  | chrom :: rest =>
      r <-! Evaluator._evaluate_chromosome job_dict chrom order;
      scored <-! score job_dict order rest;
      let '(fit, sched, viol) := r in
      Ok (if fit_ltb fit Inf then (fit, chrom, sched, viol) :: scored else scored)
  end.

(** The loop [while len(new_population) < self.population_size]
    (lines 197-204), which runs once per missing individual. *)
Fixpoint breed (n : nat) (bs : BeliefSpace.t F) (parents : list chromosome)
    (order : list Job) : GA (list chromosome) :=
  match n with
  | O => ret []
  | S n' =>
      p1 <~ choice parents;
      p2 <~ choice parents;
      cross <~ draw (random_lt (9 # 10));
      child <~ (if (cross : bool) then _crossover p1 p2 order else ret p1);
      mut <~ draw (random_lt mutation_rate);
      child <~ (if (mut : bool) then _mutate bs child order else ret child);
      children <~ breed n' bs parents order;
      ret (child :: children)
  end.

(** One pass of [for generation in range(self.generations)]. *)
Definition generation (job_dict : gmap Z Job) (order : list Job)
    (st : BeliefSpace.t F * list chromosome)
  : GA (BeliefSpace.t F * list chromosome) :=
  let '(bs, population) := st in
  fitness_scores <~ lift (score job_dict order population);
  match fitness_scores with
  | [] => ret (bs, population)
  | _ =>
      bs' <~ lift (BeliefSpace.update bs fitness_scores);
      parents <~ _select_parents fitness_scores;
      let sorted_fitness :=
        sorted_by fit_ltb BeliefSpace.ind_fitness fitness_scores in
      let elite :=
        map BeliefSpace.ind_chromosome
            (take (Nat.min elite_size (length sorted_fitness)) sorted_fitness) in
      children <~ breed (population_size - length elite) bs' parents order;
      ret (bs', elite ++ children)
  end.

Fixpoint evolve (n : nat) (job_dict : gmap Z Job) (order : list Job)
    (st : BeliefSpace.t F * list chromosome)
  : GA (BeliefSpace.t F * list chromosome) :=
  match n with
  | O => ret st
  | S n' => st' <~ generation job_dict order st; evolve n' job_dict order st'
  end.

Fixpoint init_population (n : nat) (order : list Job) : GA (list chromosome) :=
  match n with
  | O => ret []
  | S n' =>
      chrom <~ _create_smart_chromosome order;
      rest <~ init_population n' order;
      ret (chrom :: rest)
  end.

(** [solve] (lines 144-236). *)
Definition solve (jobs : list Job) : GA (ScheduleResult (fitness F)) :=
  match first_over_capacity jobs with
  | Some job =>
      ret (_create_capacity_error_result (Fin (of_Z 0)) (capacity_message job))
  | None =>
      topological_order <~ lift (_topological_sort jobs);
      match topological_order with
      | None | Some [] =>
          ret (_create_error_result (Fin (of_Z 0))
                 "Cyclic dependencies detected!"%string)
      | Some order =>
          let job_dict := make_job_dict jobs in
          population <~ init_population population_size order;
          st <~ evolve generations job_dict order
                  (BeliefSpace.init NUM_MACHINES, population);
          let bs := fst st in
          let best_makespan := BeliefSpace.global_best_fitness bs in
          match BeliefSpace.global_best_schedule bs with
          | Some (m :: ms) =>
              if fit_ltb best_makespan Inf then
                ret (mkResult true best_makespan
                       (_build_final_schedule (m :: ms)) []
                       (_calc_splits (m :: ms))
                       (Some (sumZ (map duration jobs)))
                       (Some (BeliefSpace.capacity_violations_history bs)) None)
              else
                ret (_create_error_result (Fin (of_Z 0))
                       "No valid solution found"%string)
          | _ =>
              ret (_create_error_result (Fin (of_Z 0))
                     "No valid solution found"%string)
          end
      end
  end.

End Search.

End CulturalAlgorithm.

(** ** Reference instances

    Exact rational arithmetic for the floats and a linear congruential
    generator for the random source, used to run the model on examples. *)

Definition Qltb (x y : Q) : bool := negb (Qle_bool y x).

#[export] Instance Q_float : FloatOps Q := {
  of_Z := inject_Z;
  lit := fun q => q;
  truediv := fun a b => Qred (inject_Z a / inject_Z b)%Q;
  fadd := fun x y => Qred (x + y)%Q;
  fsub := fun x y => Qred (x - y)%Q;
  fmul := fun x y => Qred (x * y)%Q;
  fltb := Qltb
}.

Definition lcg_next (g : N) : N := ((g * 1103515245 + 12345) mod 2147483648)%N.

(** [random.shuffle]: Fisher-Yates from the last position down. *)
Fixpoint lcg_shuffle (n : nat) (l : list Z) (g : N) : list Z * N :=
  match n with
  | O => (l, g)
  | S n' =>
      let j := N.to_nat (g mod N.of_nat (S n'))%N in
      let xi := nth n' l 0 in
      let xj := nth j l 0 in
      lcg_shuffle n' (<[n' := xj]> (<[j := xi]> l)) (lcg_next g)
  end.

Fixpoint lcg_sample (k n : nat) (g : N) : list nat * N :=
  match k with
  | O => ([], g)
  | S k' =>
      let '(rest, g') := lcg_sample k' n (lcg_next g) in
      (N.to_nat (g mod N.of_nat (Nat.max 1 n))%N :: rest, g')
  end.

#[export] Instance lcg : RandomGen N := {
  randint := fun a b g => (a + Z.of_N g mod (b - a + 1), lcg_next g);
  random_lt := fun p g =>
    (Qltb (Z.of_N (g mod 1000)%N # 1000)%Q p, lcg_next g);
  shuffle := fun l g => lcg_shuffle (length l - 1) l g;
  choice_index := fun n g => (N.to_nat (g mod N.of_nat (Nat.max 1 n))%N, lcg_next g);
  sample_indices := fun n k g => lcg_sample k n g
}.

(** ** Inputs of the end-to-end scenarios *)

Definition scenario1 : list Job :=
  [mkJob 1 "A" 10 [] 1; mkJob 2 "B" 10 [] 1; mkJob 3 "C" 10 [] 1].

(** One job whose only dependency names no job of the list. *)
Definition dangling_job : Job := mkJob 1 "A" 5 [99] 1.

(** Every job has exactly one chunk, according to [splits_info]. *)
Definition one_chunk_per_job (splits : list (Z * Z)) : Prop :=
  Forall (fun kv => snd kv = 1) splits.

(** No machine runs chunks of two different jobs. *)
Definition jobs_on_distinct_machines (sched : list (list TaskChunk)) : Prop :=
  Forall (fun m_sched =>
            forall a b, In a m_sched -> In b m_sched ->
                        id (tc_job a) = id (tc_job b)) sched.

(** ** Vocabulary of the belief-space statements *)

(** The comparison [fltb] is a strict weak order, as [<] is on floats that
    are not NaN: it is asymmetric and its negation is transitive. *)
Definition strict_weak_order {K} (lt : K -> K -> bool) : Prop :=
  (forall x y, lt x y = true -> lt y x = false) /\
  (forall x y z, lt x y = false -> lt y z = false -> lt x z = false).

(** [a <= b] on fitnesses: [b] is not smaller than [a]. *)
Definition fit_le {F} `{FloatOps F} (a b : fitness F) : Prop := fit_ltb b a = false.

(** The retained best solution of a belief space. *)
Definition best_of_belief {F} (bs : BeliefSpace.t F)
  : option chromosome * fitness F * option (list (list Placed)) * list Violation :=
  (BeliefSpace.global_best_chromosome bs, BeliefSpace.global_best_fitness bs,
   BeliefSpace.global_best_schedule bs, BeliefSpace.capacity_violations_history bs).

(** Successive [update] calls of one run. *)
Fixpoint update_all {F} `{FloatOps F} (bs : BeliefSpace.t F)
    (pops : list (list (BeliefSpace.individual F))) : outcome (BeliefSpace.t F) :=
  match pops with
  | [] => Ok bs
  | pop :: rest => bs' <-! BeliefSpace.update bs pop; update_all bs' rest
  end.

(** The number of chunks that the chromosomes of [inds] place on machine
    [m_id] for job [job_id]. *)
Definition entry_count (job_id m_id : Z) (entry : Z * list chunk) : Z :=
  if fst entry =? job_id
  then Z.of_nat (length (List.filter (fun c => c_machine c =? m_id) (snd entry)))
  else 0.

Definition chunk_count {F} (job_id m_id : Z) (inds : list (BeliefSpace.individual F))
  : Z :=
  sumZ (map (fun x => sumZ (map (entry_count job_id m_id)
                               (BeliefSpace.ind_chromosome x))) inds).

(** [ceil(n / 5)]. *)
Definition ceil_fifth (n : Z) : Z := (n + 4) / 5.

(** Six scored individuals of fitness 1 to 6, each a chromosome with one
    chunk of job 1 on machine 0. *)
Definition six_individuals : list (BeliefSpace.individual Q) :=
  map (fun k => (Fin (inject_Z k), [(1, [mkChunk 0 5 0])], [], []))
      [1; 2; 3; 4; 5; 6].

(** ** Vocabulary of the scheduling statements *)

(** Every job of the order comes after the jobs it depends on. *)
Definition dep_ordered (order : list Job) : Prop :=
  forall pre job post, order = pre ++ job :: post ->
    forall d, In d (dependencies job) -> In d (map id pre).

(** In a set of placed chunks no chunk starts before a chunk of a job it
    depends on has ended. *)
Definition respects_dependencies (placed : list Placed) : Prop :=
  forall p q, In p placed -> In q placed ->
    In (id (p_job q)) (dependencies (p_job p)) -> p_end q <= p_start p.

(** Chunks listed in the order they run: the first starts at [t] or
    later, each ends its size after it starts, and each next one starts
    when the previous one has ended or later. *)
Fixpoint chained (t : Z) (pl : list Placed) : Prop :=
  match pl with
  | [] => True
  | p :: rest =>
      t <= p_start p /\ p_end p = p_start p + p_size p /\ chained (p_end p) rest
  end.

(** The placed chunks of one job, by identifier. *)
Definition chunks_of (job_id : Z) (placed : list Placed) : list Placed :=
  List.filter (fun p => id (p_job p) =? job_id) placed.

(** The timeline entry a response chunk stands for. *)
Definition tc_placed (tc : TaskChunk) : Placed :=
  mkPlaced (tc_job tc) (tc_start tc) (tc_end tc) (tc_size tc).

(** ** Vocabulary of the fitness statement *)

(** The busy-until time a timeline implies: the end of its last entry,
    0 for an idle machine. *)
Definition busy_until (sched : list Placed) : Z :=
  match last sched with
  | Some p => p_end p
  | None => 0
  end.

(** The largest of a list of integers, 0 for the empty list. *)
Definition maximum (l : list Z) : Z :=
  match l with
  | [] => 0
  | x :: r => fold_left Z.max r x
  end.

Section FitnessFormula.
Context {F : Type} {fo : FloatOps F}.

(** The fitness as a function of the returned schedule and violation
    list alone.  The utilization of a machine is its work over its busy
    time, the divisor being at least 1; the inefficiency term takes the
    efficiency as 0 when the makespan is not positive. *)
Definition utilization (sched : list Placed) : F :=
  truediv (Evaluator.sched_work sched) (Z.max 1 (busy_until sched)).

Definition fitness_of_schedule (scheds : list (list Placed)) (viol : list Violation)
  : F :=
  let makespan := maximum (map busy_until scheds) in
  let total_work := sumZ (map Evaluator.sched_work scheds) in
  let inefficiency :=
    if makespan * NUM_MACHINES >? 0
    then fmul (fmul (fsub (of_Z 1) (truediv total_work (makespan * NUM_MACHINES)))
                    (of_Z makespan)) (lit (4 # 10))
    else fmul (of_Z makespan) (lit (4 # 10)) in
  let util := map utilization scheds in
  let imbalance :=
    fmul (fmul (fsub (fmax_list (hd (of_Z 0) util) (tl util))
                     (fmin_list (hd (of_Z 0) util) (tl util)))
               (of_Z makespan)) (lit (2 # 10)) in
  fadd (fadd (fadd (of_Z makespan) inefficiency) imbalance)
       (of_Z (10 * Z.of_nat (length viol))).

(** The formula with the plain quotients [work / busy time] and
    [totalWork / (makespan * 3)]: undefined where a divisor is 0. *)
Definition plain_quotient (a b : Z) : option F :=
  if b =? 0 then None else Some (truediv a b).

Definition plain_fitness (scheds : list (list Placed)) (viol : list Violation)
  : option F :=
  let makespan := maximum (map busy_until scheds) in
  let total_work := sumZ (map Evaluator.sched_work scheds) in
  efficiency ← plain_quotient total_work (makespan * NUM_MACHINES);
  util ← mapM (fun sched => plain_quotient (Evaluator.sched_work sched)
                                            (busy_until sched)) scheds;
  let inefficiency :=
    fmul (fmul (fsub (of_Z 1) efficiency) (of_Z makespan)) (lit (4 # 10)) in
  let imbalance :=
    fmul (fmul (fsub (fmax_list (hd (of_Z 0) util) (tl util))
                     (fmin_list (hd (of_Z 0) util) (tl util)))
               (of_Z makespan)) (lit (2 # 10)) in
  Some (fadd (fadd (fadd (of_Z makespan) inefficiency) imbalance)
             (of_Z (10 * Z.of_nat (length viol)))).

End FitnessFormula.

(** One job of duration 5 placed on machine 0; machines 1 and 2 idle. *)
Definition lone_job : Job := mkJob 1 "A" 5 [] 1.
Definition lone_chromosome : chromosome := [(1, [mkChunk 0 5 0])].

(** Chunk sizes as the solver generates them: a job has a single chunk,
    or none of its chunks has a negative size. *)
Definition sizes_ok (chrom : chromosome) : Prop :=
  forall k chunks, dict_get k chrom = Some chunks ->
    (length chunks <= 1)%nat \/ Forall (fun c => 0 <= c_size c) chunks.

(** Scenario 4: job B depends on job A, duration 5 each. *)
Definition job_A : Job := mkJob 1 "A" 5 [] 1.
Definition job_B : Job := mkJob 2 "B" 5 [1] 1.

(** ** Invariants and auxiliary notions of the proofs *)

(** The response schedule of the three-jobs scenario. *)
Definition three_jobs_schedule (j1 j2 j3 : Job) : list (list TaskChunk) :=
  [ [ mkTaskChunk j1 0 0 5 1 2 5; mkTaskChunk j2 0 5 10 2 2 5;
      mkTaskChunk j3 0 10 15 2 2 5 ];
    [ mkTaskChunk j1 1 5 10 2 2 5 ];
    [ mkTaskChunk j2 2 0 5 1 2 5; mkTaskChunk j3 2 5 10 1 2 5 ] ].

(** A chromosome of the dangling-dependency input: one chunk of job 1. *)
Definition dangling_shape (chrom : chromosome) : Prop :=
  exists m, chrom = [(1, [mkChunk m 5 0])].

(** [a] is not after [b] in a sort by [key] under the comparison [lt]. *)
Definition key_le_by {A K} (lt : K -> K -> bool) (key : A -> K) (a b : A) : Prop :=
  lt (key b) (key a) = false.

(** What the traversal maintains: [visited] is the set of identifiers of
    [result], which has no repetition and is in dependency order. *)
Record topo_inv (job_dict : gmap Z Job) (st : topo_state) : Prop := mkTopoInv {
  inv_visited : forall k, k ∈ visited st <-> In k (map id (result st));
  inv_nodup : NoDup (map id (result st));
  inv_ordered : dep_ordered (result st);
  inv_known : forall job, In job (result st) -> job_dict !! id job = Some job
}.

(** What a successful call [dfs k] guarantees about the state it leaves. *)
Definition dfs_post (job_dict : gmap Z Job) (k : Z) (st st' : topo_state) : Prop :=
  topo_inv job_dict st' /\ k ∈ visited st' /\ visited st ⊆ visited st' /\
  temp st' = temp st /\
  (forall x, x ∈ visited st' -> x ∈ visited st \/ x ∉ temp st).

(** What the traversal of the cultural solver maintains: [visited] is the
    set of identifiers of [result], which has no repetition.  (A missing
    dependency stays in [temp] and is absent from [result], so [result]
    need not be dependency-closed.) *)
Record visit_inv (st : topo_state) : Prop := mkVisitInv {
  vi_visited : forall k, k ∈ visited st <-> In k (map id (result st));
  vi_nodup : NoDup (map id (result st))
}.

(** What a successful call of the cultural traversal guarantees. *)
Definition visit_post (st st' : topo_state) : Prop :=
  visit_inv st' /\ visited st ⊆ visited st' /\ temp st ⊆ temp st' /\
  (forall x, x ∈ visited st' -> x ∈ visited st \/ x ∉ temp st).

(** All placed chunks of the greedy scheduling state. *)
Definition flat (st : BacktrackingSolver.sched_state) : list Placed :=
  concat (BacktrackingSolver.machine_schedules st).

(** What the scheduling pass maintains once the jobs [done] are placed. *)
Record greedy_inv (done : list Job) (st : BacktrackingSolver.sched_state) : Prop :=
  mkGreedyInv {
    gi_len : length (BacktrackingSolver.machine_schedules st) = Z.to_nat NUM_MACHINES;
    gi_jobs : forall p, In p (flat st) -> In (p_job p) done;
    gi_deps : respects_dependencies (flat st);
    gi_trace : forall job, In job done ->
      exists sizes pl t,
        chunk_sizes job = Ok sizes /\ 0 <= t /\ chained t pl /\
        map p_size pl = sizes /\
        Permutation (chunks_of (id job) (flat st)) pl
  }.

(** The timeline entries with their machine index. *)
Definition tagged (scheds : list (list Placed)) : list (nat * Placed) :=
  concat (map (fun ms => map (pair (fst ms)) (snd ms))
              (combine (seq 0 (length scheds)) scheds)).

(** The machine index and timeline entry of a response chunk. *)
Definition tc_pair (tc : TaskChunk) : nat * Placed :=
  (Z.to_nat (tc_machine tc), tc_placed tc).

(** All placed chunks of the evaluator state. *)
Definition eflat (st : Evaluator.eval_state) : list Placed :=
  concat (Evaluator.m_scheds st).

(** The times and timelines agree, three machines each. *)
Record timelines_ok (st : Evaluator.eval_state) : Prop := mkTimelinesOk {
  tl_times : length (Evaluator.m_times st) = Z.to_nat NUM_MACHINES;
  tl_scheds : length (Evaluator.m_scheds st) = Z.to_nat NUM_MACHINES;
  tl_busy : forall m, nth m (Evaluator.m_times st) 0
                      = busy_until (nth m (Evaluator.m_scheds st) [])
}.

(** What the evaluator's job loop maintains once the jobs [done] are
    placed. *)
Record eval_inv (chrom : chromosome) (done : list Job) (st : Evaluator.eval_state)
  : Prop := mkEvalInv {
    ei_ok : timelines_ok st;
    ei_jobs : forall p, In p (eflat st) -> In (p_job p) done;
    ei_trace : forall job, In job done ->
      exists chunks pl t,
        dict_get (id job) chrom = Some chunks /\ 0 <= t /\ chained t pl /\
        map p_size pl = map c_size (sort_by c_order chunks) /\
        Permutation (chunks_of (id job) (eflat st)) pl;
    ei_completed_ids : forall k t,
      Evaluator.completed st !! k = Some t -> In k (map id done);
    ei_deps_done : forall job, In job done ->
      forall d, In d (dependencies job) -> In d (map id done);
    ei_completed : sizes_ok chrom -> forall k t,
      Evaluator.completed st !! k = Some t ->
      forall q, In q (eflat st) -> id (p_job q) = k -> p_end q <= t;
    ei_deps : sizes_ok chrom -> respects_dependencies (eflat st)
  }.

(** A chunk list with well-formed sizes, see [sizes_ok]. *)
Definition chunks_ok (chunks : list chunk) : Prop :=
  (length chunks <= 1)%nat \/ Forall (fun c => 0 <= c_size c) chunks.

(** A schedule of a feasible evaluation of a chromosome with well-formed
    chunk sizes. *)
Definition well_evaluated (F : Type) {fo : FloatOps F}
    (job_dict : gmap Z Job) (order : list Job) (s : list (list Placed)) : Prop :=
  exists chrom (f : F) viol,
    sizes_ok chrom /\
    Evaluator._evaluate_chromosome job_dict chrom order = Ok (Fin f, s, viol).

(** The retained best schedule, if any, is well evaluated. *)
Definition belief_well_evaluated {F : Type} {fo : FloatOps F}
    (job_dict : gmap Z Job) (order : list Job) (bs : BeliefSpace.t F) : Prop :=
  forall s, BeliefSpace.global_best_schedule bs = Some s ->
            well_evaluated F job_dict order s.


(** ** Vocabulary of the dependency graph *)

(** The job with identifier [a] lists [b] among its dependencies. *)
Definition depends_on (jobs : list Job) (a b : Z) : Prop :=
  exists job, In job jobs /\ id job = a /\ In b (dependencies job).

(** Some job depends on itself, directly or through other jobs. *)
Definition cyclic (jobs : list Job) : Prop :=
  exists k, tc (depends_on jobs) k k.

(** Every dependency names a job of the list. *)
Definition deps_closed (jobs : list Job) : Prop :=
  forall job d, In job jobs -> In d (dependencies job) -> In d (map id jobs).

(** The first position of [k] in [ids], the length of [ids] if absent. *)
Fixpoint position (k : Z) (ids : list Z) : nat :=
  match ids with
  | [] => O
  | x :: rest => if k =? x then O else S (position k rest)
  end.

(** ** Vocabulary of the machine timelines *)

(** What both simulations maintain of the machines: three times and three
    timelines, each machine's time the end of its last entry, and each
    timeline a chain from time 0. *)
Record machines_ok (times : list Z) (scheds : list (list Placed)) : Prop :=
  mkMachinesOk {
    mo_times : length times = Z.to_nat NUM_MACHINES;
    mo_scheds : length scheds = Z.to_nat NUM_MACHINES;
    mo_busy : forall m, nth m times 0 = busy_until (nth m scheds []);
    mo_chained : forall m, chained 0 (nth m scheds [])
  }.

(** The chunk ends after the capacity limit of 40. *)
Definition over_capacity (p : Placed) : bool := p_end p >? FIXED_MACHINE_CAPACITY.

(** The violation entry of a timeline entry of machine [m]. *)
Definition violation_of (mp : nat * Placed) : Violation :=
  let '(m, p) := mp in
  mkViolation (id (p_job p)) (name (p_job p)) (Z.of_nat m) (p_size p)
              (p_end p - FIXED_MACHINE_CAPACITY) (p_start p) (p_end p).

(** The timeline entries with their machine index, counting the machines
    from [start]; [tagged] counts from 0. *)
Definition tagged_from (start : nat) (scheds : list (list Placed))
  : list (nat * Placed) :=
  concat (map (fun ms => map (pair (fst ms)) (snd ms))
              (combine (seq start (length scheds)) scheds)).

(** The violation entries a set of timelines calls for: one for every
    entry that ends after the capacity limit. *)
Definition violations_of (scheds : list (list Placed)) : list Violation :=
  map violation_of
      (List.filter (fun mp => over_capacity (snd mp)) (tagged scheds)).

(** What the greedy scheduling pass maintains of its machines. *)
Record greedy_machines (st : BacktrackingSolver.sched_state) : Prop :=
  mkGreedyMachines {
    gm_ok : machines_ok (BacktrackingSolver.machine_times st)
                        (BacktrackingSolver.machine_schedules st);
    gm_viol : Permutation (BacktrackingSolver.violations st)
                          (violations_of (BacktrackingSolver.machine_schedules st))
  }.

(** ** The statistics of the greedy response, [BacktrackingSolver._calc_stats]

    Lines 811-832, as a function of [self.best_makespan] and
    [self.best_schedule] ([None] before a schedule is stored).  The
    makespan of the greedy solver is an integer, so the idle time and the
    total machine time are integers; the efficiency and the machine loads
    are floats. *)
Section Stats.
Context {F : Type} `{FloatOps F}.

(** The inner loop (lines 820-822) for one machine:
    [machine_work[machine_id] += size] raises for an index out of range. *)
Fixpoint add_machine_work (machine_id : nat) (machine_schedule : list Placed)
    (acc : Z * list Z) : outcome (Z * list Z) :=
  match machine_schedule with
  | [] => Ok acc
  | p :: rest =>
      let '(total_work_time, machine_work) := acc in
      match machine_work !! machine_id with
      | None => Raise IndexError
      | Some work =>
          add_machine_work machine_id rest
            (total_work_time + p_size p,
             <[machine_id := work + p_size p]> machine_work)
      end
  end.

Fixpoint add_work (schedules : list (nat * list Placed)) (acc : Z * list Z)
  : outcome (Z * list Z) :=
  match schedules with
  | [] => Ok acc
  | (machine_id, machine_schedule) :: rest =>
      acc' <-! add_machine_work machine_id machine_schedule acc;
      add_work rest acc'
  end.

Definition _calc_stats (best_makespan : Z)
    (best_schedule : option (list (list Placed)))
  : outcome (F * Z * Z * list F) :=
  match best_schedule with
  | None => Ok (of_Z 0, 0, 0, [of_Z 0; of_Z 0; of_Z 0])
  | Some schedules =>
      let total_machine_time := best_makespan * 3 in
      acc <-! add_work (combine (seq 0 (length schedules)) schedules)
                       (0, [0; 0; 0]);
      let '(total_work_time, machine_work) := acc in
      let efficiency :=
        if total_machine_time >? 0
        then fmul (truediv total_work_time total_machine_time) (of_Z 100)
        else of_Z 0 in
      let idle_time := total_machine_time - total_work_time in
      let machine_loads :=
        map (fun work =>
               if FIXED_MACHINE_CAPACITY >? 0
               then fmul (truediv work FIXED_MACHINE_CAPACITY) (of_Z 100)
               else of_Z 0) machine_work in
      Ok (efficiency, idle_time, total_machine_time, machine_loads)
  end.

End Stats.

(** The number of times the identifier [d] is listed as a dependency by
    the jobs of a list. *)
Definition references (d : Z) (jobs : list Job) : Z :=
  sumZ (map (fun job => Z.of_nat (length (List.filter (Z.eqb d) (dependencies job))))
            jobs).

(** 1 when [d] is marked in progress, else 0. *)
Definition in_progress (d : Z) (st : topo_state) : Z :=
  if decide (d ∈ temp st) then 1 else 0.

(** ** Vocabulary of the response numbering *)

(** The grouping of [_build_final]: the keys are distinct and every group
    holds entries of the job its key names. *)
Definition groups_ok (groups : list (Z * list (nat * Placed))) : Prop :=
  NoDup (map fst groups) /\
  Forall (fun g => Forall (fun mp => id (p_job (snd mp)) = fst g) (snd g)) groups.

(** The numbered chunks of one group of [_build_final]. *)
Definition numbered (key : nat * Placed -> Z) (g : Z * list (nat * Placed))
  : list TaskChunk :=
  number_chunks (sort_by key (snd g)).

(** The chunks of a response that belong to the job [job_id]. *)
Definition response_chunks (job_id : Z) (resp : list (list TaskChunk))
  : list TaskChunk :=
  List.filter (fun tc => id (tc_job tc) =? job_id) (concat resp).

(** ** Vocabulary of the evaluation statements *)

(** Every gene names a job. *)
Definition genes_known (job_dict : gmap Z Job) (chrom : chromosome) : Prop :=
  Forall (fun g => is_Some (job_dict !! fst g)) chrom.

(** Every gene fits the job it names: its sizes sum to the job's duration
    and none exceeds the maximum chunk size. *)
Definition genes_valid (job_dict : gmap Z Job) (chrom : chromosome) : Prop :=
  Forall (fun g => exists job,
            job_dict !! fst g = Some job /\
            sumZ (map c_size (snd g)) = duration job /\
            Forall (fun c => c_size c <= MAX_CHUNK_SIZE) (snd g)) chrom.

(** Every job of the order has a gene with at least one chunk. *)
Definition genes_present (chrom : chromosome) (order : list Job) : Prop :=
  forall job, In job order -> exists c cs, dict_get (id job) chrom = Some (c :: cs).

(** Every machine of every gene is a list index Python accepts for a list
    of three, and one of the three machines [0], [1], [2]. *)
Definition machines_indexable (chrom : chromosome) : Prop :=
  Forall (fun g => Forall (fun c => - NUM_MACHINES <= c_machine c < NUM_MACHINES)
                          (snd g)) chrom.

Definition machines_in_range (chrom : chromosome) : Prop :=
  Forall (fun g => Forall (fun c => 0 <= c_machine c < NUM_MACHINES) (snd g)) chrom.

(** What the evaluator maintains of its machines. *)
Definition eval_machines (st : Evaluator.eval_state) : Prop :=
  machines_ok (Evaluator.m_times st) (Evaluator.m_scheds st).

(** ** Vocabulary of the reputation statements *)

(** A reputation table as the belief space builds it: the machines of a
    job's scores are distinct and every count is positive. *)
Definition reputation_ok (rep : gmap Z (list (Z * Z))) : Prop :=
  forall job_id scores, rep !! job_id = Some scores ->
    NoDup (map fst scores) /\ Forall (fun kv => 0 < snd kv) scores.

(** The chunks that the accepted individuals of the populations [pops]
    place for job [job_id] on machine [m_id]. *)
Definition accepted_chunks {F} `{FloatOps F} (job_id m_id : Z)
    (pops : list (list (BeliefSpace.individual F))) : Z :=
  sumZ (map (fun pop => chunk_count job_id m_id (BeliefSpace.accepted_individuals pop))
            pops).

(** ** Vocabulary of the statements about the search *)

(** What the statements about the search assume of the random source,
    as Python's [random] module provides it: [randint(a, b)] lies between
    [a] and [b]; [shuffle] keeps the length of the list and introduces no
    element; [choice] and [sample] pick positions of the sequence, [sample]
    as many as asked for. *)
Record lawful_random (R : Type) {rg : RandomGen R} : Prop := mkLawful {
  randint_range : forall a b (g : R), a <= b -> a <= fst (randint a b g) <= b;
  shuffle_keeps : forall l (g : R),
    length (fst (shuffle l g)) = length l /\
    forall x, In x (fst (shuffle l g)) -> In x l;
  choice_range : forall n (g : R), (0 < n)%nat -> (fst (choice_index n g) < n)%nat;
  sample_range : forall n k (g : R), (k <= n)%nat ->
    length (fst (sample_indices n k g)) = k /\
    Forall (fun i => (i < n)%nat) (fst (sample_indices n k g))
}.

(** The computation [c], started with the generator state [g], returns a
    value that satisfies [P]: it does not raise. *)
Definition returns {R A : Type} (c : R -> outcome (A * R)) (g : R) (P : A -> Prop)
  : Prop :=
  exists a g', c g = Ok (a, g') /\ P a.

(** A chromosome as the search keeps them, for the jobs of [order]: every
    gene fits the job it names, every machine is 0, 1 or 2, and every job
    of the order has a non-empty gene. *)
Definition chromosome_ok (job_dict : gmap Z Job) (order : list Job)
    (chrom : chromosome) : Prop :=
  genes_valid job_dict chrom /\ machines_in_range chrom /\ genes_present chrom order.

(** A gene that fits [job]: it is not empty, its sizes sum to the
    duration, none exceeds the maximum chunk size, and its machines are
    0, 1 or 2. *)
Definition gene_ok (job : Job) (chunks : list chunk) : Prop :=
  chunks <> [] /\ sumZ (map c_size chunks) = duration job /\
  Forall (fun c => c_size c <= MAX_CHUNK_SIZE) chunks /\
  Forall (fun c => 0 <= c_machine c < NUM_MACHINES) chunks.

(** Every machine in the reputation table is 0, 1 or 2. *)
Definition reputation_in_range (rep : gmap Z (list (Z * Z))) : Prop :=
  forall job_id scores, rep !! job_id = Some scores ->
    Forall (fun kv => 0 <= fst kv < NUM_MACHINES) scores.

(** A scored individual as [solve] keeps them: a well-formed chromosome
    with the finite fitness, the schedule and the violations of its
    evaluation. *)
Definition individual_ok {F : Type} {fo : FloatOps F}
    (job_dict : gmap Z Job) (order : list Job) (x : BeliefSpace.individual F)
  : Prop :=
  chromosome_ok job_dict order (BeliefSpace.ind_chromosome x) /\
  exists f,
    BeliefSpace.ind_fitness x = Fin f /\
    Evaluator._evaluate_chromosome job_dict (BeliefSpace.ind_chromosome x) order
    = Ok (Fin f, BeliefSpace.ind_schedule x, BeliefSpace.ind_violations x).

(** The belief space holds a best solution: a well-formed chromosome
    together with the finite fitness, the schedule of three timelines and
    the violations of its evaluation. *)
Definition belief_found {F : Type} {fo : FloatOps F}
    (job_dict : gmap Z Job) (order : list Job) (bs : BeliefSpace.t F) : Prop :=
  exists chrom f s,
    BeliefSpace.global_best_chromosome bs = Some chrom /\
    chromosome_ok job_dict order chrom /\
    BeliefSpace.global_best_fitness bs = Fin f /\
    BeliefSpace.global_best_schedule bs = Some s /\
    length s = Z.to_nat NUM_MACHINES /\
    Evaluator._evaluate_chromosome job_dict chrom order
    = Ok (Fin f, s, BeliefSpace.capacity_violations_history bs).

(** The state of the generation loop of [solve]: sixty well-formed
    chromosomes, and a belief space whose reputation table names machines
    0, 1 and 2 only and which holds a best solution or none yet. *)
Definition search_ok {F : Type} {fo : FloatOps F}
    (job_dict : gmap Z Job) (order : list Job)
    (st : BeliefSpace.t F * list chromosome) : Prop :=
  Forall (chromosome_ok job_dict order) (snd st) /\
  length (snd st) = CulturalAlgorithm.population_size /\
  reputation_in_range (BeliefSpace.machine_reputation (fst st)) /\
  (belief_found job_dict order (fst st) \/
   BeliefSpace.global_best_fitness (fst st) = Inf).
(** ** Facts about the decomposition *)

Lemma range_length n : 0 <= n -> Z.of_nat (length (range n)) = n.
Proof.
  intros Hn. unfold range. rewrite length_map, length_seq. lia.
Qed.

Lemma range_S (k : nat) :
  range (Z.of_nat (S k)) = range (Z.of_nat k) ++ [Z.of_nat k].
Proof.
  unfold range. rewrite !Nat2Z.id, seq_S, map_app. reflexivity.
Qed.

Lemma range_elem n i : In i (range n) <-> 0 <= i < n.
Proof.
  unfold range. rewrite in_map_iff. split.
  - intros (k & <- & Hk). apply in_seq in Hk. lia.
  - intros Hi. exists (Z.to_nat i). split; [lia|]. apply in_seq. lia.
Qed.

(** [spread] is a block of [rem] larger sizes followed by the smaller ones. *)
Lemma spread_blocks_nat base (r k : nat) :
  (r <= k)%nat ->
  spread base (Z.of_nat r) (Z.of_nat k)
  = repeat (base + 1) r ++ repeat base (k - r).
Proof.
  unfold spread. induction k as [|k IH]; intros Hr.
  - assert (r = 0%nat) by lia. subst. reflexivity.
  - rewrite range_S, map_app. cbn [map].
    destruct (Nat.eq_dec r (S k)) as [->|Hne].
    + replace (S k - S k)%nat with 0%nat by lia.
      assert (Hall : forall l, (forall i, In i l -> i < Z.of_nat (S k)) ->
            map (fun i : Z => if i <? Z.of_nat (S k) then base + 1 else base) l
            = repeat (base + 1) (length l)).
      { induction l as [|a l IHl]; intros Hl; [reflexivity|]. cbn.
        rewrite IHl by (intros; apply Hl; now right).
        destruct (Z.ltb_spec a (Z.of_nat (S k))) as [_|Hge]; [reflexivity|].
        specialize (Hl a (or_introl eq_refl)). lia. }
      rewrite Hall by (intros i Hi; apply range_elem in Hi; lia).
      destruct (Z.ltb_spec (Z.of_nat k) (Z.of_nat (S k))); [|lia].
      replace (length (range (Z.of_nat k))) with k
        by (unfold range; rewrite length_map, length_seq; lia).
      cbn [repeat]. rewrite app_nil_r. symmetry. apply repeat_cons.
    + rewrite IH by lia.
      destruct (Z.ltb_spec (Z.of_nat k) (Z.of_nat r)); [lia|].
      rewrite <- app_assoc. f_equal.
      replace (S k - r)%nat with (S (k - r)) by lia.
      symmetry. apply repeat_cons.
Qed.

Lemma spread_blocks base rem n :
  0 <= rem <= n ->
  spread base rem n
  = repeat (base + 1) (Z.to_nat rem) ++ repeat base (Z.to_nat (n - rem)).
Proof.
  intros H.
  rewrite <- (Z2Nat.id rem), <- (Z2Nat.id n) at 1 by lia.
  rewrite spread_blocks_nat by lia. do 2 f_equal. lia.
Qed.

Lemma sumZ_app l1 l2 : sumZ (l1 ++ l2) = sumZ l1 + sumZ l2.
Proof. unfold sumZ. induction l1 as [|a l1 IH]; cbn [app fold_right]; lia. Qed.

Lemma sumZ_repeat x (k : nat) : sumZ (repeat x k) = Z.of_nat k * x.
Proof. unfold sumZ. induction k as [|k IH]; cbn [repeat fold_right]; lia. Qed.

Lemma resplit_small size : size <= MAX_CHUNK_SIZE -> resplit size = [size].
Proof.
  intros H. unfold resplit.
  destruct (Z.gtb_spec size MAX_CHUNK_SIZE); [lia|reflexivity].
Qed.

Lemma concat_resplit_small l :
  Forall (fun s => s <= MAX_CHUNK_SIZE) l -> concat (map resplit l) = l.
Proof.
  induction 1 as [|a l Ha _ IH]; [reflexivity|].
  cbn. rewrite resplit_small, IH by assumption. reflexivity.
Qed.

(** Arithmetic of the balanced split of a positive duration. *)
Lemma balanced_arith d :
  0 < d ->
  let n := (d + MAX_CHUNK_SIZE - 1) / MAX_CHUNK_SIZE in
  0 < n /\ 0 <= d mod n < n /\ d / n <= MAX_CHUNK_SIZE /\ 0 < d / n /\
  (0 < d mod n -> d / n + 1 <= MAX_CHUNK_SIZE) /\
  (d <= MAX_CHUNK_SIZE -> n = 1).
Proof.
  intros Hd n. unfold MAX_CHUNK_SIZE in *.
  assert (Hn : d <= 5 * n < d + 5).
  { subst n. pose proof (Z.div_mod (d + 5 - 1) 5 ltac:(lia)).
    pose proof (Z.mod_pos_bound (d + 5 - 1) 5 ltac:(lia)). lia. }
  assert (Hpos : 0 < n) by lia.
  pose proof (Z.div_mod d n ltac:(lia)) as Hdm.
  pose proof (Z.mod_pos_bound d n Hpos) as Hmb.
  assert (Hq5 : d / n <= 5) by nia.
  assert (Hq0 : 0 < d / n) by nia.
  repeat split; try lia.
  intros Hr. nia.
Qed.

Lemma Forall_repeat_nonempty {A} (P : A -> Prop) x (k : nat) :
  (k <> 0%nat -> P x) -> Forall P (repeat x k).
Proof.
  intros H. destruct k as [|k]; [constructor|].
  assert (Hx : P x) by (apply H; discriminate). clear H.
  generalize (S k). intros m. induction m; cbn; constructor; assumption.
Qed.

Lemma final_sizes_balanced d :
  0 < d ->
  let n := (d + MAX_CHUNK_SIZE - 1) / MAX_CHUNK_SIZE in
  final_sizes d
  = Ok (repeat (d / n + 1) (Z.to_nat (d mod n))
        ++ repeat (d / n) (Z.to_nat (n - d mod n))).
Proof.
  intros Hd n.
  destruct (balanced_arith d Hd) as (Hn & Hr & Hq & _ & Hq1 & _).
  fold n in Hn, Hr, Hq, Hq1.
  unfold final_sizes. fold n.
  destruct (Z.eqb_spec n 0) as [H0|_]; [lia|].
  rewrite spread_blocks by lia.
  rewrite concat_resplit_small; [reflexivity|].
  apply Forall_app. split; apply Forall_repeat_nonempty; intros Hk.
  - apply Hq1. lia.
  - exact Hq.
Qed.

(** C2. For a job of positive duration [d] the decomposition has exactly
    [n = ceil(d / 5)] sizes (the [n] with [5 (n - 1) < d <= 5 n]); they sum
    to [d]; the first [d mod n] of them are one unit larger than the others;
    none exceeds 5; and a job with [d <= 5] has the single chunk [d].  The
    split routine itself and the guarded form used by the solvers agree. *)
Theorem chunk_decomposition_balanced (job : Job) :
  0 < duration job ->
  let d := duration job in
  exists (n : Z) (sizes : list Z),
    MAX_CHUNK_SIZE * (n - 1) < d <= MAX_CHUNK_SIZE * n /\
    chunk_sizes job = Ok sizes /\
    final_sizes d = Ok sizes /\
    Z.of_nat (length sizes) = n /\
    sumZ sizes = d /\
    sizes = repeat (d / n + 1) (Z.to_nat (d mod n))
            ++ repeat (d / n) (Z.to_nat (n - d mod n)) /\
    Forall (fun s => 0 < s <= MAX_CHUNK_SIZE) sizes /\
    (d <= MAX_CHUNK_SIZE -> sizes = [d]).
Proof.
  intros Hd d.
  set (n := (d + MAX_CHUNK_SIZE - 1) / MAX_CHUNK_SIZE).
  destruct (balanced_arith d Hd) as (Hn & Hr & Hq & Hq0 & Hq1 & H1).
  fold n in Hn, Hr, Hq, Hq0, Hq1, H1.
  pose proof (final_sizes_balanced d Hd) as Hfs. cbv zeta in Hfs. fold n in Hfs.
  pose proof (Z.div_mod d n ltac:(lia)) as Hdm.
  set (sizes := repeat (d / n + 1) (Z.to_nat (d mod n))
                ++ repeat (d / n) (Z.to_nat (n - d mod n))) in *.
  assert (Hsmall : d <= MAX_CHUNK_SIZE -> sizes = [d]).
  { intros Hle. specialize (H1 Hle). subst sizes. rewrite H1.
    rewrite Z.mod_1_r, Z.div_1_r. reflexivity. }
  exists n, sizes. repeat split.
  - unfold n, MAX_CHUNK_SIZE.
    pose proof (Z.div_mod (d + 5 - 1) 5 ltac:(lia)).
    pose proof (Z.mod_pos_bound (d + 5 - 1) 5 ltac:(lia)). lia.
  - unfold n, MAX_CHUNK_SIZE.
    pose proof (Z.div_mod (d + 5 - 1) 5 ltac:(lia)).
    pose proof (Z.mod_pos_bound (d + 5 - 1) 5 ltac:(lia)). lia.
  - unfold chunk_sizes. fold d.
    destruct (Z.gtb_spec d MAX_CHUNK_SIZE) as [_|Hle]; [exact Hfs|].
    rewrite Hsmall by exact Hle. reflexivity.
  - exact Hfs.
  - subst sizes. rewrite length_app, !repeat_length. lia.
  - subst sizes. rewrite sumZ_app, !sumZ_repeat. nia.
  - subst sizes. apply Forall_app. split; apply Forall_repeat_nonempty; intros Hk.
    + split; [lia|]. apply Hq1. lia.
    + lia.
  - exact Hsmall.
Qed.

Lemma chunk_decomposition_balanced_witness :
  0 < duration (mkJob 1 "J" 12 [] 1) /\
  chunk_sizes (mkJob 1 "J" 12 [] 1) = Ok [4; 4; 4].
Proof.
  split; [reflexivity|].
  destruct (chunk_decomposition_balanced (mkJob 1 "J" 12 [] 1) eq_refl)
    as (n & sizes & _ & Hc & _).
  rewrite Hc. f_equal.
  assert (H : chunk_sizes (mkJob 1 "J" 12 [] 1) = Ok [4; 4; 4]) by reflexivity.
  rewrite Hc in H. injection H as ->. reflexivity.
Defined.

(** ** The strict capacity check *)

Lemma first_over_capacity_spec jobs :
  (exists job, In job jobs /\ duration job > FIXED_MACHINE_CAPACITY) ->
  exists pre job post,
    jobs = pre ++ job :: post /\
    Forall (fun j => duration j <= FIXED_MACHINE_CAPACITY) pre /\
    duration job > FIXED_MACHINE_CAPACITY /\
    first_over_capacity jobs = Some job.
Proof.
  unfold first_over_capacity.
  induction jobs as [|j jobs IH]; intros (job & Hin & Hd); [destruct Hin|].
  cbn [find]. destruct (Z.gtb_spec (duration j) FIXED_MACHINE_CAPACITY) as [Hj|Hj].
  - exists [], j, jobs. repeat split; [constructor | lia].
  - destruct IH as (pre & j' & post & -> & Hpre & Hj' & Hf).
    + destruct Hin as [->|Hin]; [lia|]. exists job. split; assumption.
    + exists (j :: pre), j', post. repeat split; try assumption.
      constructor; assumption.
Qed.

(** C4. When some job's duration exceeds 40, both solvers return the
    capacity failure for the first such job: [success = false], an empty
    schedule, makespan 0 and the error message
    [Job '<name>' (<duration> units) exceeds the 40-unit machine capacity
    limit], which carries that job's name and duration.  The result is
    fixed by the check alone: the greedy solver returns it whatever follows
    in the list, and the cultural solver returns it without drawing a
    single random number, so neither sorting nor decomposition nor search
    has run. *)
Theorem capacity_exceeded_short_circuits
    {F : Type} {fo : FloatOps F} {R : Type} {rg : RandomGen R} (jobs : list Job) :
  (exists job, In job jobs /\ duration job > FIXED_MACHINE_CAPACITY) ->
  exists pre job post,
    jobs = pre ++ job :: post /\
    Forall (fun j => duration j <= FIXED_MACHINE_CAPACITY) pre /\
    duration job > FIXED_MACHINE_CAPACITY /\
    (exists r, BacktrackingSolver.solve jobs = Ok r /\
       success r = false /\ schedule r = [] /\ makespan r = 0 /\
       error_message r
       = Some ("Job '" ++ name job ++ "' (" ++ str_of_Z (duration job)
               ++ " units) exceeds the 40-unit machine capacity limit")%string) /\
    (forall g : R, exists r,
       CulturalAlgorithm.solve (F := F) jobs g = Ok (r, g) /\
       success r = false /\ schedule r = [] /\ makespan r = Fin (of_Z 0) /\
       error_message r
       = Some ("Job '" ++ name job ++ "' (" ++ str_of_Z (duration job)
               ++ " units) exceeds the 40-unit machine capacity limit")%string).
Proof.
  intros Hex.
  destruct (first_over_capacity_spec jobs Hex) as (pre & job & post & E & Hpre & Hd & Hf).
  exists pre, job, post. repeat split; try assumption.
  - eexists. unfold BacktrackingSolver.solve. rewrite Hf.
    repeat split; reflexivity.
  - intros g. eexists. unfold CulturalAlgorithm.solve. rewrite Hf.
    repeat split; reflexivity.
Qed.

Lemma capacity_exceeded_short_circuits_witness :
  exists r,
    BacktrackingSolver.solve [mkJob 1 "A" 41 [] 1] = Ok r /\
    success r = false /\ schedule r = [] /\ makespan r = 0 /\
    error_message r
    = Some "Job 'A' (41 units) exceeds the 40-unit machine capacity limit"%string /\
    exists r',
      CulturalAlgorithm.solve (F := Q) [mkJob 1 "A" 41 [] 1] 7%N = Ok (r', 7%N) /\
      success r' = false /\
      error_message r'
      = Some "Job 'A' (41 units) exceeds the 40-unit machine capacity limit"%string.
Proof.
  destruct (capacity_exceeded_short_circuits (fo := Q_float) (rg := lcg)
              [mkJob 1 "A" 41 [] 1])
    as (pre & job & post & E & _ & Hd & (r & Hr) & Hc).
  - exists (mkJob 1 "A" 41 [] 1). split; [left; reflexivity|reflexivity].
  - assert (Hjob : job = mkJob 1 "A" 41 [] 1).
    { destruct pre as [|a pre]; cbn in E; [congruence|].
      destruct pre; discriminate E. }
    subst job. destruct (Hc 7%N) as (r' & Hr' & Hs' & _ & _ & Hm').
    exists r. destruct Hr as (H1 & H2 & H3 & H4 & H5).
    repeat split; try assumption.
    exists r'. repeat split; assumption.
Defined.

(** ** Scenario: three independent jobs of duration 10 *)

Lemma dfs_leaf job_dict fuel job st :
  job_dict !! id job = Some job ->
  dependencies job = [] ->
  id job ∉ temp st ->
  id job ∉ visited st ->
  BacktrackingSolver.dfs job_dict (S fuel) (id job) st
  = Ok (true, mkTopo ({[id job]} ∪ visited st)
                     (({[id job]} ∪ temp st) ∖ {[id job]})
                     (result st ++ [job])).
Proof.
  intros Hjd Hdeps Ht Hv. cbn [BacktrackingSolver.dfs].
  destruct (decide (id job ∈ temp st)) as [?|_]; [contradiction|].
  destruct (decide (id job ∈ visited st)) as [?|_]; [contradiction|].
  rewrite Hjd, Hdeps. reflexivity.
Qed.

(** C1 (as the code behaves).  Three independent jobs of duration 10 are
    each split into two chunks of 5, since 10 exceeds the maximum chunk
    size; the greedy scheduler succeeds with makespan 15, two chunks per
    job, no capacity violation, and the chunks laid out as in
    [three_jobs_schedule]: no job has a machine of its own. *)
Theorem three_jobs_of_ten (j1 j2 j3 : Job) :
  duration j1 = 10 -> duration j2 = 10 -> duration j3 = 10 ->
  dependencies j1 = [] -> dependencies j2 = [] -> dependencies j3 = [] ->
  id j1 <> id j2 -> id j1 <> id j3 -> id j2 <> id j3 ->
  exists r,
    BacktrackingSolver.solve [j1; j2; j3] = Ok r /\
    success r = true /\
    makespan r = 15 /\
    splits_info r = [(id j1, 2); (id j2, 2); (id j3, 2)] /\
    capacity_violations r = Some [] /\
    schedule r = three_jobs_schedule j1 j2 j3.
Proof.
  intros D1 D2 D3 P1 P2 P3 N12 N13 N23.
  assert (Hjd1 : make_job_dict [j1; j2; j3] !! id j1 = Some j1).
  { unfold make_job_dict. cbn [fold_left].
    rewrite !lookup_insert_ne by congruence. apply lookup_insert_eq. }
  assert (Hjd2 : make_job_dict [j1; j2; j3] !! id j2 = Some j2).
  { unfold make_job_dict. cbn [fold_left].
    rewrite lookup_insert_ne by congruence. apply lookup_insert_eq. }
  assert (Hjd3 : make_job_dict [j1; j2; j3] !! id j3 = Some j3).
  { unfold make_job_dict. cbn [fold_left]. apply lookup_insert_eq. }
  assert (Hsort : BacktrackingSolver._topological_sort [j1; j2; j3]
                  = Ok (Some [j1; j2; j3])).
  { unfold BacktrackingSolver._topological_sort. cbn [sort_loop length visited].
    destruct (decide (id j1 ∈ (∅ : gset Z))) as [Hin|_]; [set_solver|].
    rewrite dfs_leaf by (try assumption; cbn; set_solver).
    cbn [visited temp result].
    destruct (decide (id j2 ∈ ({[id j1]} ∪ ∅ : gset Z))) as [Hin|_]; [set_solver|].
    rewrite dfs_leaf by (try assumption; cbn; set_solver).
    cbn [visited temp result].
    destruct (decide (id j3 ∈ ({[id j2]} ∪ ({[id j1]} ∪ ∅) : gset Z))) as [Hin|_];
      [set_solver|].
    rewrite dfs_leaf by (try assumption; cbn; set_solver).
    reflexivity. }
  assert (E12 : (id j1 =? id j2) = false) by (apply Z.eqb_neq; assumption).
  assert (E13 : (id j1 =? id j3) = false) by (apply Z.eqb_neq; assumption).
  assert (E23 : (id j2 =? id j3) = false) by (apply Z.eqb_neq; assumption).
  assert (E21 : (id j2 =? id j1) = false) by (apply Z.eqb_neq; congruence).
  assert (E31 : (id j3 =? id j1) = false) by (apply Z.eqb_neq; congruence).
  assert (E32 : (id j3 =? id j2) = false) by (apply Z.eqb_neq; congruence).
  assert (Hsizes : final_sizes 10 = Ok [5; 5]) by reflexivity.
  assert (Hsched : BacktrackingSolver.schedule_all [j1; j2; j3]
                     BacktrackingSolver.init_state
                   = Ok (BacktrackingSolver.mkSched [15; 10; 10]
                           [ [mkPlaced j1 0 5 5; mkPlaced j2 5 10 5;
                              mkPlaced j3 10 15 5];
                             [mkPlaced j1 5 10 5];
                             [mkPlaced j2 0 5 5; mkPlaced j3 5 10 5] ] [])).
  { unfold BacktrackingSolver.schedule_all, BacktrackingSolver.schedule_job,
      BacktrackingSolver.earliest_start.
    rewrite D1, D2, D3, P1, P2, P3, Hsizes. reflexivity. }
  set (scheds := [ [mkPlaced j1 0 5 5; mkPlaced j2 5 10 5; mkPlaced j3 10 15 5];
                   [mkPlaced j1 5 10 5];
                   [mkPlaced j2 0 5 5; mkPlaced j3 5 10 5] ]) in *.
  assert (Hgroup : group_by_job scheds
                   = [ (id j1, [(0%nat, mkPlaced j1 0 5 5); (1%nat, mkPlaced j1 5 10 5)]);
                       (id j2, [(0%nat, mkPlaced j2 5 10 5); (2%nat, mkPlaced j2 0 5 5)]);
                       (id j3, [(0%nat, mkPlaced j3 10 15 5); (2%nat, mkPlaced j3 5 10 5)]) ]).
  { unfold group_by_job, scheds.
    repeat (cbn [length seq combine fold_left dict_append p_job app];
            rewrite ?Z.eqb_refl, ?E12, ?E13, ?E23, ?E21, ?E31, ?E32).
    reflexivity. }
  assert (Hsplits : _calc_splits scheds = [(id j1, 2); (id j2, 2); (id j3, 2)]).
  { unfold _calc_splits, scheds.
    repeat (cbn [fold_left dict_incr p_job Z.add Pos.add Pos.succ];
            rewrite ?Z.eqb_refl, ?E12, ?E13, ?E23, ?E21, ?E31, ?E32).
    reflexivity. }
  exists (mkResult true 15 (three_jobs_schedule j1 j2 j3) []
            [(id j1, 2); (id j2, 2); (id j3, 2)] (Some 30) (Some []) None).
  split; [|repeat split; reflexivity].
  unfold BacktrackingSolver.solve, first_over_capacity. cbn [find].
  rewrite D1, D2, D3.
  change (10 >? FIXED_MACHINE_CAPACITY) with false. cbv iota.
  rewrite Hsort. cbn [obind]. rewrite Hsched. cbn [obind].
  cbn [BacktrackingSolver.machine_times BacktrackingSolver.machine_schedules
       BacktrackingSolver.violations max_list fold_left map obind].
  rewrite D1, D2, D3, Hsplits.
  unfold BacktrackingSolver._build_final, build_final. rewrite Hgroup.
  reflexivity.
Qed.

Lemma three_jobs_of_ten_witness :
  exists r,
    BacktrackingSolver.solve scenario1 = Ok r /\
    success r = true /\
    makespan r = 15 /\
    splits_info r = [(1, 2); (2, 2); (3, 2)] /\
    capacity_violations r = Some [] /\
    schedule r = three_jobs_schedule (mkJob 1 "A" 10 [] 1) (mkJob 2 "B" 10 [] 1)
                                     (mkJob 3 "C" 10 [] 1).
Proof.
  apply (three_jobs_of_ten (mkJob 1 "A" 10 [] 1) (mkJob 2 "B" 10 [] 1)
                           (mkJob 3 "C" 10 [] 1));
    try reflexivity; cbn; lia.
Defined.

(** On the three jobs of duration 10 the greedy scheduler does not reach
    makespan 10, does not keep one chunk per job and does not give each
    job a machine of its own. *)
Lemma three_jobs_not_one_chunk_each :
  exists r,
    BacktrackingSolver.solve scenario1 = Ok r /\
    makespan r <> 10 /\
    ~ one_chunk_per_job (splits_info r) /\
    ~ jobs_on_distinct_machines (schedule r).
Proof.
  eexists. split; [vm_compute; reflexivity|]. cbn. repeat split.
  - discriminate.
  - intros Hall. inversion Hall as [|? ? Hhd _]. discriminate Hhd.
  - intros Hall. inversion Hall as [|? ? Hhd _]. clear Hall.
    specialize (Hhd _ _ (or_introl eq_refl) (or_intror (or_introl eq_refl))).
    discriminate Hhd.
Qed.

(** ** A dependency that names no job *)

(** C6 (failing input).  With a dependency identifier that matches no job
    the greedy solver does not return a result: the lookup
    [self.job_dict[job_id]] of the traversal raises [KeyError]. *)
Theorem greedy_raises_on_dangling_dependency :
  BacktrackingSolver.solve [dangling_job] = Raise (KeyError 99).
Proof. vm_compute. reflexivity. Qed.

Section DanglingCultural.
Context {F : Type} `{FloatOps F} {R : Type} `{RandomGen R}.

Lemma dangling_init_population n (g : R) :
  exists pop g',
    CulturalAlgorithm.init_population n [dangling_job] g = Ok (pop, g') /\
    Forall dangling_shape pop.
Proof.
  revert g. induction n as [|n IH]; intros g.
  - exists [], g. split; [reflexivity|constructor].
  - cbn [CulturalAlgorithm.init_population].
    unfold CulturalAlgorithm.bind at 1.
    unfold CulturalAlgorithm._create_smart_chromosome. cbn.
    match goal with |- context [fst ?x] => destruct x as [m g1] end.
    unfold CulturalAlgorithm.bind, CulturalAlgorithm.ret. cbn [fst snd].
    destruct (IH g1) as (pop & g' & Hpop & Hshape). rewrite Hpop. cbn.
    eexists _, _. split; [reflexivity|].
    constructor; [exists m; reflexivity|assumption].
Qed.

Lemma dangling_score pop :
  Forall dangling_shape pop ->
  CulturalAlgorithm.score (F := F) (make_job_dict [dangling_job]) [dangling_job] pop
  = Ok [].
Proof.
  induction 1 as [|chrom pop [m ->] _ IH]; [reflexivity|].
  cbn [CulturalAlgorithm.score]. rewrite IH. reflexivity.
Qed.

Lemma dangling_evolve n bs pop (g : R) :
  Forall dangling_shape pop ->
  CulturalAlgorithm.evolve (F := F) n (make_job_dict [dangling_job]) [dangling_job]
    (bs, pop) g = Ok ((bs, pop), g).
Proof.
  intros Hpop. induction n as [|n IH]; [reflexivity|].
  cbn [CulturalAlgorithm.evolve]. unfold CulturalAlgorithm.bind at 1.
  unfold CulturalAlgorithm.generation.
  unfold CulturalAlgorithm.bind at 1. unfold CulturalAlgorithm.lift.
  rewrite dangling_score by assumption. cbn. exact IH.
Qed.

(** C3 (failing input).  One job whose dependency names no job: the greedy
    solver raises [KeyError], and the cultural solver, whatever the random
    source, scores every chromosome as infeasible and ends with the failure
    [No valid solution found].  Neither treats the dependency as
    satisfied. *)
Theorem dangling_dependency_fails_both_solvers (g : R) :
  BacktrackingSolver.solve [dangling_job] = Raise (KeyError 99) /\
  exists g',
    CulturalAlgorithm.solve (F := F) [dangling_job] g
    = Ok (_create_error_result (Fin (of_Z 0)) "No valid solution found"%string, g').
Proof.
  split; [vm_compute; reflexivity|].
  unfold CulturalAlgorithm.solve.
  change (first_over_capacity [dangling_job]) with (@None Job).
  assert (Hsort : CulturalAlgorithm._topological_sort [dangling_job]
                  = Ok (Some [dangling_job])) by (vm_compute; reflexivity).
  unfold CulturalAlgorithm.bind at 1. unfold CulturalAlgorithm.lift.
  rewrite Hsort. cbn [obind fst snd].
  unfold CulturalAlgorithm.bind at 1.
  destruct (dangling_init_population CulturalAlgorithm.population_size g)
    as (pop & g' & Hpop & Hshape).
  rewrite Hpop. cbn [obind fst snd].
  unfold CulturalAlgorithm.bind at 1.
  rewrite dangling_evolve by assumption. cbn.
  exists g'. reflexivity.
Qed.

End DanglingCultural.

(** ** The belief space *)

Section SortedBy.
Context {A K : Type} (lt : K -> K -> bool) (key : A -> K).
Hypothesis lt_swo : strict_weak_order lt.

Lemma insert_by_perm x l : Permutation (insert_by lt key x l) (x :: l).
Proof.
  induction l as [|y l IH]; cbn [insert_by]; [reflexivity|].
  destruct (lt (key y) (key x)); [|reflexivity].
  rewrite IH. apply perm_swap.
Qed.

Lemma sorted_by_perm l : Permutation (sorted_by lt key l) l.
Proof.
  induction l as [|x l IH]; cbn; [reflexivity|].
  fold (sorted_by lt key l). rewrite insert_by_perm. now constructor.
Qed.

Lemma sorted_by_length l : length (sorted_by lt key l) = length l.
Proof. apply Permutation_length, sorted_by_perm. Qed.

Lemma insert_by_sorted x l :
  StronglySorted (key_le_by lt key) l -> StronglySorted (key_le_by lt key) (insert_by lt key x l).
Proof.
  destruct lt_swo as [Hasym Htrans].
  induction 1 as [|y l Hs IH Hy]; cbn [insert_by].
  - constructor; constructor.
  - destruct (lt (key y) (key x)) eqn:E.
    + constructor; [exact IH|].
      eapply Permutation_Forall; [symmetry; apply insert_by_perm|].
      constructor; [|exact Hy]. unfold key_le_by. apply Hasym, E.
    + constructor; [constructor; assumption|].
      constructor; [exact E|].
      eapply Forall_impl; [exact Hy|]. intros z Hz. unfold key_le_by in *.
      eapply Htrans; eassumption.
Qed.

Lemma sorted_by_sorted l : StronglySorted (key_le_by lt key) (sorted_by lt key l).
Proof.
  induction l as [|x l IH]; cbn; [constructor|]. now apply insert_by_sorted.
Qed.

(** The head of the sorted list has the least key of the whole list. *)
Lemma sorted_by_head_least x r l :
  sorted_by lt key l = x :: r -> forall y, In y l -> (key_le_by lt key) x y.
Proof.
  intros E y Hy.
  pose proof (sorted_by_sorted l) as Hs. rewrite E in Hs.
  apply list_elem_of_In in Hy.
  rewrite <- (sorted_by_perm l), E in Hy.
  apply elem_of_cons in Hy as [->|Hy].
  - unfold key_le_by. destruct lt_swo as [Hasym _].
    destruct (lt (key x) (key x)) eqn:Exx; [|reflexivity].
    rewrite (Hasym _ _ Exx) in Exx. discriminate.
  - inversion Hs as [|? ? _ Hall]; subst.
    rewrite Forall_forall in Hall. apply Hall, Hy.
Qed.

End SortedBy.

Lemma Qltb_swo : strict_weak_order Qltb.
Proof.
  unfold Qltb. split.
  - intros x y Hxy. apply negb_true_iff in Hxy.
    apply negb_false_iff, Qle_bool_iff.
    destruct (Qlt_le_dec x y) as [Hlt|Hle]; [apply Qlt_le_weak, Hlt|].
    apply Qle_bool_iff in Hle. congruence.
  - intros x y z Hxy Hyz.
    apply negb_false_iff, Qle_bool_iff in Hxy.
    apply negb_false_iff, Qle_bool_iff in Hyz.
    apply negb_false_iff, Qle_bool_iff. eapply Qle_trans; eassumption.
Qed.

Lemma dict_get_incr k k' d :
  dict_get k (dict_incr k' d)
  = if k =? k' then Some (default 0 (dict_get k d) + 1) else dict_get k d.
Proof.
  induction d as [|[k0 n] d IH]; cbn [dict_incr dict_get].
  - destruct (Z.eqb_spec k k'); reflexivity.
  - destruct (Z.eqb_spec k' k0) as [->|Hne]; cbn [dict_get].
    + destruct (Z.eqb_spec k k0); reflexivity.
    + destruct (Z.eqb_spec k k0) as [->|Hne'].
      * destruct (Z.eqb_spec k0 k'); [congruence|reflexivity].
      * exact IH.
Qed.

Lemma reputation_bump rep j m j' m' :
  BeliefSpace.reputation (BeliefSpace.bump j m rep) j' m'
  = BeliefSpace.reputation rep j' m'
    + (if (j =? j') && (m' =? m) then 1 else 0).
Proof.
  unfold BeliefSpace.reputation, BeliefSpace.bump.
  destruct (Z.eqb_spec j j') as [->|Hne]; cbn [andb].
  - rewrite lookup_insert_eq. cbn [from_option Datatypes.id].
    rewrite dict_get_incr.
    destruct (Z.eqb_spec m' m); cbn [from_option Datatypes.id]; lia.
  - rewrite lookup_insert_ne by assumption. lia.
Qed.

Lemma reputation_chunks rep j chunks j' m' :
  BeliefSpace.reputation
    (fold_left (fun rep c => BeliefSpace.bump j (c_machine c) rep) chunks rep) j' m'
  = BeliefSpace.reputation rep j' m' + entry_count j' m' (j, chunks).
Proof.
  unfold entry_count. cbn [fst snd].
  revert rep. induction chunks as [|c chunks IH]; intros rep;
    cbn [fold_left List.filter].
  - destruct (j =? j'); cbn; lia.
  - rewrite IH, reputation_bump.
    destruct (Z.eqb_spec j j') as [->|Hne]; cbn [andb]; [|lia].
    rewrite (Z.eqb_sym m' (c_machine c)).
    destruct (c_machine c =? m'); cbn [length]; lia.
Qed.

Lemma reputation_learn_entry rep entry j' m' :
  BeliefSpace.reputation (BeliefSpace.learn_entry rep entry) j' m'
  = BeliefSpace.reputation rep j' m' + entry_count j' m' entry.
Proof.
  destruct entry as [j chunks]. unfold BeliefSpace.learn_entry.
  rewrite reputation_chunks. f_equal.
  destruct (rep !! j) eqn:E; [reflexivity|].
  unfold BeliefSpace.reputation.
  destruct (Z.eq_dec j j') as [->|Hne].
  - rewrite lookup_insert_eq, E. reflexivity.
  - rewrite lookup_insert_ne by assumption. reflexivity.
Qed.

Lemma reputation_learn {F} rep (accepted : list (BeliefSpace.individual F)) j' m' :
  BeliefSpace.reputation (BeliefSpace.learn rep accepted) j' m'
  = BeliefSpace.reputation rep j' m' + chunk_count j' m' accepted.
Proof.
  unfold BeliefSpace.learn, chunk_count.
  revert rep. induction accepted as [|x accepted IH]; intros rep;
    cbn [fold_left map sumZ fold_right]; [lia|].
  rewrite IH. fold (sumZ (map (fun x => sumZ (map (entry_count j' m')
                                (BeliefSpace.ind_chromosome x))) accepted)).
  assert (Hx : forall chrom rep0,
             BeliefSpace.reputation (fold_left BeliefSpace.learn_entry chrom rep0) j' m'
             = BeliefSpace.reputation rep0 j' m' + sumZ (map (entry_count j' m') chrom)).
  { induction chrom as [|e chrom IHc]; intros rep0; cbn [fold_left map]; [cbn; lia|].
    rewrite IHc, reputation_learn_entry. cbn [sumZ fold_right]. unfold sumZ. lia. }
  rewrite Hx. unfold sumZ. lia.
Qed.

Section BeliefFacts.
Context {F : Type} `{FloatOps F}.
Hypothesis fltb_swo : strict_weak_order fltb.

Lemma fit_ltb_swo : strict_weak_order (fit_ltb (F := F)).
Proof.
  destruct fltb_swo as [Hasym Htrans]. split.
  - intros [x|] [y|]; cbn; auto.
  - intros [x|] [y|] [z|]; cbn; eauto; discriminate.
Qed.

Lemma fit_le_refl (a : fitness F) : fit_le a a.
Proof.
  unfold fit_le. destruct fit_ltb_swo as [Hasym _].
  destruct (fit_ltb a a) eqn:E; [|reflexivity].
  rewrite (Hasym _ _ E) in E. discriminate.
Qed.

Lemma fit_le_trans (a b c : fitness F) : fit_le a b -> fit_le b c -> fit_le a c.
Proof.
  unfold fit_le. destruct fit_ltb_swo as [_ Htrans]. intros Hab Hbc.
  eapply Htrans; eassumption.
Qed.

(** What one [update] does, spelled out on the sorted population. *)
Lemma update_unfold (bs : BeliefSpace.t F) pop :
  pop <> [] ->
  exists best rest,
    sorted_by fit_ltb BeliefSpace.ind_fitness pop = best :: rest /\
    BeliefSpace.accepted_individuals pop
    = best :: take (Z.to_nat (BeliefSpace.acceptance_count (length pop)) - 1) rest /\
    BeliefSpace.update bs pop
    = Ok (let bs1 :=
            if fit_ltb (BeliefSpace.ind_fitness best) (BeliefSpace.global_best_fitness bs)
            then BeliefSpace.mkBelief (BeliefSpace.num_machines bs)
                   (Some (BeliefSpace.ind_chromosome best))
                   (BeliefSpace.ind_fitness best)
                   (Some (BeliefSpace.ind_schedule best))
                   (BeliefSpace.machine_reputation bs)
                   (BeliefSpace.ind_violations best)
            else bs in
          BeliefSpace.mkBelief (BeliefSpace.num_machines bs1)
            (BeliefSpace.global_best_chromosome bs1)
            (BeliefSpace.global_best_fitness bs1)
            (BeliefSpace.global_best_schedule bs1)
            (BeliefSpace.learn (BeliefSpace.machine_reputation bs1)
               (BeliefSpace.accepted_individuals pop))
            (BeliefSpace.capacity_violations_history bs1)).
Proof.
  intros Hne.
  destruct (sorted_by fit_ltb BeliefSpace.ind_fitness pop) as [|best rest] eqn:Es.
  { apply (f_equal (@length _)) in Es. rewrite sorted_by_length in Es.
    destruct pop; [congruence|discriminate]. }
  assert (Hacc : BeliefSpace.accepted_individuals pop
    = best :: take (Z.to_nat (BeliefSpace.acceptance_count (length pop)) - 1) rest).
  { unfold BeliefSpace.accepted_individuals. rewrite Es.
    rewrite <- Es at 1. rewrite sorted_by_length.
    assert (Hk : (1 <= Z.to_nat (BeliefSpace.acceptance_count (length pop)))%nat)
      by (unfold BeliefSpace.acceptance_count; lia).
    destruct (Z.to_nat (BeliefSpace.acceptance_count (length pop))) as [|k];
      [lia|].
    cbn [take]. replace (S k - 1)%nat with k by lia. reflexivity. }
  exists best, rest. split; [reflexivity|]. split; [exact Hacc|].
  unfold BeliefSpace.update. rewrite Hacc. reflexivity.
Qed.

Lemma update_step (bs bs' : BeliefSpace.t F) pop :
  BeliefSpace.update bs pop = Ok bs' ->
  let old := BeliefSpace.global_best_fitness bs in
  let new := BeliefSpace.global_best_fitness bs' in
  fit_le new old /\
  (forall x, In x pop -> fit_le new (BeliefSpace.ind_fitness x)) /\
  (new = old \/ exists x, In x pop /\ new = BeliefSpace.ind_fitness x) /\
  (fit_ltb new old = false -> best_of_belief bs' = best_of_belief bs) /\
  (fit_ltb new old = true ->
   exists x, In x pop /\
     (forall y, In y pop -> fit_le (BeliefSpace.ind_fitness x) (BeliefSpace.ind_fitness y)) /\
     best_of_belief bs'
     = (Some (BeliefSpace.ind_chromosome x), BeliefSpace.ind_fitness x,
        Some (BeliefSpace.ind_schedule x), BeliefSpace.ind_violations x)).
Proof.
  intros Hup old new.
  assert (Hne : pop <> []) by (intros ->; discriminate Hup).
  destruct (update_unfold bs pop Hne) as (best & rest & Es & _ & Hu).
  rewrite Hu in Hup. injection Hup as Hbs'. clear Hu.
  assert (Hleast : forall y, In y pop ->
            fit_le (BeliefSpace.ind_fitness best) (BeliefSpace.ind_fitness y)).
  { intros y Hy. unfold fit_le.
    exact (sorted_by_head_least fit_ltb BeliefSpace.ind_fitness fit_ltb_swo
             best rest pop Es y Hy). }
  assert (Hin : In best pop).
  { apply list_elem_of_In.
    rewrite <- (sorted_by_perm fit_ltb BeliefSpace.ind_fitness pop), Es.
    apply elem_of_cons. left. reflexivity. }
  destruct fit_ltb_swo as [Hasym Htrans].
  subst old new bs'. cbn [BeliefSpace.global_best_fitness].
  destruct (fit_ltb (BeliefSpace.ind_fitness best) (BeliefSpace.global_best_fitness bs))
    eqn:Elt; cbn [BeliefSpace.global_best_fitness]; rewrite ?Elt.
  - split; [unfold fit_le; apply Hasym; exact Elt|].
    split; [exact Hleast|].
    split; [right; exists best; split; [exact Hin|reflexivity]|].
    split; [discriminate|].
    intros _. exists best. split; [exact Hin|]. split; [exact Hleast|reflexivity].
  - split; [apply fit_le_refl|].
    split.
    { intros x Hx. unfold fit_le. eapply Htrans; [apply Hleast; exact Hx|exact Elt]. }
    split; [left; reflexivity|].
    split; [intros _; destruct bs; reflexivity|].
    intros Hf. pose proof (fit_le_refl (BeliefSpace.global_best_fitness bs)) as Hr.
    unfold fit_le in Hr. congruence.
Qed.

Lemma update_all_monotone pops (bs bs' : BeliefSpace.t F) :
  update_all bs pops = Ok bs' ->
  fit_le (BeliefSpace.global_best_fitness bs') (BeliefSpace.global_best_fitness bs).
Proof.
  revert bs. induction pops as [|pop pops IH]; intros bs Hall; cbn in Hall.
  - injection Hall as <-. apply fit_le_refl.
  - destruct (BeliefSpace.update bs pop) as [bs1| |] eqn:E1; try discriminate Hall.
    cbn in Hall. eapply fit_le_trans; [apply IH; exact Hall|].
    apply (update_step bs bs1 pop E1).
Qed.

End BeliefFacts.

Lemma StronglySorted_app_le {A} (R : A -> A -> Prop) l1 l2 :
  StronglySorted R (l1 ++ l2) -> forall a b, In a l1 -> In b l2 -> R a b.
Proof.
  induction l1 as [|x l1 IH]; intros Hs a b Ha Hb; [destruct Ha|].
  cbn in Hs. inversion Hs as [|? ? Hs' Hall]; subst.
  destruct Ha as [->|Ha].
  - rewrite Forall_forall in Hall. apply Hall, list_elem_of_In, in_or_app. now right.
  - apply IH; assumption.
Qed.

(** C7. One [update] leaves the stored best fitness at the minimum of its
    previous value and the lowest fitness of the population: it does not
    exceed either, and it is one of them.  The stored chromosome, schedule
    and violation list change only when the new fitness is strictly
    smaller, and are then those of a least-fitness individual.  Hence over
    any further sequence of updates the stored best fitness never
    increases. *)
Theorem global_best_never_increases {F : Type} {fo : FloatOps F}
    (bs bs1 bs2 : BeliefSpace.t F) (pop : list (BeliefSpace.individual F))
    (later : list (list (BeliefSpace.individual F))) :
  strict_weak_order fltb ->
  BeliefSpace.update bs pop = Ok bs1 ->
  update_all bs1 later = Ok bs2 ->
  let old := BeliefSpace.global_best_fitness bs in
  let new := BeliefSpace.global_best_fitness bs1 in
  (fit_le new old /\
   (forall x, In x pop -> fit_le new (BeliefSpace.ind_fitness x)) /\
   (new = old \/ exists x, In x pop /\ new = BeliefSpace.ind_fitness x)) /\
  (fit_ltb new old = false -> best_of_belief bs1 = best_of_belief bs) /\
  (fit_ltb new old = true ->
   exists x, In x pop /\
     (forall y, In y pop -> fit_le (BeliefSpace.ind_fitness x) (BeliefSpace.ind_fitness y)) /\
     best_of_belief bs1
     = (Some (BeliefSpace.ind_chromosome x), BeliefSpace.ind_fitness x,
        Some (BeliefSpace.ind_schedule x), BeliefSpace.ind_violations x)) /\
  fit_le (BeliefSpace.global_best_fitness bs2) new /\
  fit_le (BeliefSpace.global_best_fitness bs2) old.
Proof.
  intros Hswo Hup Hall old new.
  destruct (update_step Hswo bs bs1 pop Hup) as (H1 & H2 & H3 & H4 & H5).
  pose proof (update_all_monotone Hswo later bs1 bs2 Hall) as Hmono.
  split; [auto|]. split; [exact H4|]. split; [exact H5|].
  split; [exact Hmono|].
  eapply (fit_le_trans Hswo); [exact Hmono|exact H1].
Qed.

Lemma global_best_never_increases_witness :
  exists bs1 bs2,
    BeliefSpace.update (BeliefSpace.init 3) six_individuals = Ok bs1 /\
    update_all bs1 [six_individuals] = Ok bs2 /\
    fit_le (BeliefSpace.global_best_fitness bs2)
           (BeliefSpace.global_best_fitness (BeliefSpace.init (F := Q) 3)).
Proof.
  eexists _, _. split; [vm_compute; reflexivity|].
  split; [vm_compute; reflexivity|].
  eapply (global_best_never_increases (fo := Q_float) (BeliefSpace.init 3) _ _
            six_individuals [six_individuals] Qltb_swo).
  - vm_compute. reflexivity.
  - vm_compute. reflexivity.
Defined.

(** C8 (as the code behaves).  One [update] of a non-empty population of
    size [n] accepts exactly [max(1, n // 5)] individuals, the quotient
    rounded down; they are the first of the population sorted by ascending
    fitness, so none of the others has a smaller fitness; and every
    reputation counter grows by the number of chunks that the accepted
    individuals, and only they, place for that job on that machine. *)
Theorem accepted_are_best_fifth {F : Type} {fo : FloatOps F}
    (bs : BeliefSpace.t F) (pop : list (BeliefSpace.individual F)) :
  strict_weak_order fltb ->
  pop <> [] ->
  let accepted := BeliefSpace.accepted_individuals pop in
  Z.of_nat (length accepted) = Z.max 1 (Z.of_nat (length pop) / 5) /\
  (exists others,
     Permutation (accepted ++ others) pop /\
     forall a o, In a accepted -> In o others ->
                 fit_le (BeliefSpace.ind_fitness a) (BeliefSpace.ind_fitness o)) /\
  exists bs',
    BeliefSpace.update bs pop = Ok bs' /\
    forall job_id m_id,
      BeliefSpace.reputation (BeliefSpace.machine_reputation bs') job_id m_id
      = BeliefSpace.reputation (BeliefSpace.machine_reputation bs) job_id m_id
        + chunk_count job_id m_id accepted.
Proof.
  intros Hswo Hne accepted.
  pose proof (fit_ltb_swo Hswo) as Hfswo.
  set (sorted := sorted_by fit_ltb BeliefSpace.ind_fitness pop).
  set (k := Z.to_nat (BeliefSpace.acceptance_count (length sorted))).
  assert (Hacc : accepted = take k sorted) by reflexivity.
  assert (Hlen : length sorted = length pop) by apply sorted_by_length.
  assert (Hpos : (0 < length pop)%nat) by (destruct pop; [congruence|cbn; lia]).
  split; [|split].
  - rewrite Hacc, length_take. subst k. rewrite Hlen.
    unfold BeliefSpace.acceptance_count.
    assert (Z.of_nat (length pop) / 5 <= Z.of_nat (length pop))
      by (apply Z.div_le_upper_bound; lia).
    lia.
  - exists (drop k sorted). split.
    + rewrite Hacc, take_drop. apply sorted_by_perm.
    + intros a o Ha Ho. unfold fit_le.
      pose proof (sorted_by_sorted fit_ltb BeliefSpace.ind_fitness Hfswo pop) as Hs.
      fold sorted in Hs. rewrite <- (take_drop k sorted) in Hs.
      apply (StronglySorted_app_le _ _ _ Hs a o); [rewrite <- Hacc; exact Ha|exact Ho].
  - destruct (update_unfold bs pop Hne) as (best & rest & _ & _ & Hu).
    eexists. split; [exact Hu|]. intros job_id m_id.
    cbv zeta. cbn [BeliefSpace.machine_reputation].
    rewrite reputation_learn.
    destruct (fit_ltb (BeliefSpace.ind_fitness best) (BeliefSpace.global_best_fitness bs));
      reflexivity.
Qed.

Lemma accepted_are_best_fifth_witness :
  Z.of_nat (length (BeliefSpace.accepted_individuals six_individuals))
  = Z.max 1 (Z.of_nat (length six_individuals) / 5).
Proof.
  apply (accepted_are_best_fifth (fo := Q_float) (BeliefSpace.init 3) six_individuals
           Qltb_swo).
  discriminate.
Defined.

(** Of six individuals one is accepted, where the rounded-up fifth is two,
    and the reputation of job 1 on machine 0 counts that one chunk. *)
Lemma six_individuals_accept_one :
  Z.of_nat (length (BeliefSpace.accepted_individuals six_individuals)) = 1 /\
  Z.max 1 (ceil_fifth (Z.of_nat (length six_individuals))) = 2 /\
  exists bs',
    BeliefSpace.update (BeliefSpace.init 3) six_individuals = Ok bs' /\
    BeliefSpace.reputation (BeliefSpace.machine_reputation bs') 1 0 = 1.
Proof.
  split; [vm_compute; reflexivity|]. split; [vm_compute; reflexivity|].
  eexists. split; vm_compute; reflexivity.
Qed.

(** ** The topological order of the greedy solver *)

Lemma make_job_dict_ids jobs k job :
  make_job_dict jobs !! k = Some job -> id job = k /\ In job jobs.
Proof.
  unfold make_job_dict.
  assert (H : forall l (m : gmap Z Job),
            (forall k j, m !! k = Some j -> id j = k /\ In j jobs) ->
            (forall j, In j l -> In j jobs) ->
            forall k j, fold_left (fun m job => <[id job := job]> m) l m !! k = Some j ->
                        id j = k /\ In j jobs).
  { induction l as [|a l IH]; intros m Hm Hl k0 j0; cbn [fold_left]; [apply Hm|].
    apply IH.
    - intros k1 j1. destruct (Z.eq_dec (id a) k1) as [<-|Hne].
      + rewrite lookup_insert_eq. intros [= <-]. split; [reflexivity|].
        apply Hl. now left.
      + rewrite lookup_insert_ne by assumption. apply Hm.
    - intros j1 Hj1. apply Hl. now right. }
  apply (H jobs ∅); [|auto].
  intros k0 j0. rewrite lookup_empty. discriminate.
Qed.

Lemma dep_ordered_nil : dep_ordered [].
Proof. intros [|? ?] ? ? E; discriminate E. Qed.

Lemma dep_ordered_snoc order job :
  dep_ordered order ->
  (forall d, In d (dependencies job) -> In d (map id order)) ->
  dep_ordered (order ++ [job]).
Proof.
  intros Hord Hjob pre j post E d Hd.
  destruct post as [|j' post].
  - apply app_inj_tail in E as [-> ->]. apply Hjob, Hd.
  - assert (E' : order = pre ++ j :: removelast (j' :: post)).
    { apply (f_equal (@removelast _)) in E.
      rewrite removelast_last in E. rewrite E.
      rewrite removelast_app by discriminate.
      change (j :: j' :: post) with ([j] ++ j' :: post).
      rewrite removelast_app by discriminate. reflexivity. }
    eapply Hord; eassumption.
Qed.

Lemma each_dep_post job_dict f deps :
  (forall d st st', topo_inv job_dict st -> f d st = Ok (true, st') ->
                    dfs_post job_dict d st st') ->
  forall st st', topo_inv job_dict st -> each_dep f deps st = Ok (true, st') ->
    topo_inv job_dict st' /\ (forall d, In d deps -> d ∈ visited st') /\
    visited st ⊆ visited st' /\ temp st' = temp st /\
    (forall x, x ∈ visited st' -> x ∈ visited st \/ x ∉ temp st).
Proof.
  intros Hf. induction deps as [|d deps IH]; intros st st' Hinv Hrun;
    cbn [each_dep] in Hrun.
  - injection Hrun as <-. split; [exact Hinv|]. split; [intros d []|].
    split; [reflexivity|]. split; [reflexivity|]. intros x Hx. left. exact Hx.
  - destruct (f d st) as [[[|] st1]| |] eqn:Ed; try discriminate Hrun.
    destruct (Hf d st st1 Hinv Ed) as (Hinv1 & Hd & Hsub & Htemp & Hnew).
    destruct (IH st1 st' Hinv1 Hrun) as (Hinv' & Hall & Hsub' & Htemp' & Hnew').
    split; [exact Hinv'|]. split.
    + intros x [<-|Hx]; [apply Hsub', Hd|apply Hall, Hx].
    + split; [set_solver|]. split; [congruence|].
      intros x Hx. destruct (Hnew' x Hx) as [Hx1|Hx1].
      * apply Hnew, Hx1.
      * right. rewrite <- Htemp. exact Hx1.
Qed.

Lemma bt_dfs_post job_dict :
  (forall k job, job_dict !! k = Some job -> id job = k) ->
  forall fuel k st st',
    topo_inv job_dict st ->
    BacktrackingSolver.dfs job_dict fuel k st = Ok (true, st') ->
    dfs_post job_dict k st st'.
Proof.
  intros Hids. induction fuel as [|fuel IH]; intros k st st' Hinv Hrun;
    [discriminate Hrun|].
  cbn [BacktrackingSolver.dfs] in Hrun.
  destruct (decide (k ∈ temp st)) as [Ht|Ht]; [discriminate Hrun|].
  destruct (decide (k ∈ visited st)) as [Hv|Hv].
  { injection Hrun as <-. split; [exact Hinv|]. split; [exact Hv|].
    split; [reflexivity|]. split; [reflexivity|]. intros x Hx. left. exact Hx. }
  destruct (job_dict !! k) as [job|] eqn:Ejob.
  2: { discriminate Hrun. }
  set (st1 := mkTopo (visited st) ({[k]} ∪ temp st) (result st)) in *.
  assert (Hinv1 : topo_inv job_dict st1) by (destruct Hinv; constructor; assumption).
  destruct (each_dep (BacktrackingSolver.dfs job_dict fuel) (dependencies job) st1)
    as [[[|] st2]| |] eqn:Edeps; try discriminate Hrun.
  injection Hrun as <-.
  destruct (each_dep_post job_dict _ (dependencies job) (fun d s s' => IH d s s') st1 st2
              Hinv1 Edeps) as (Hinv2 & Hall & Hsub & Htemp & Hnew).
  cbn [visited temp result] in Hsub, Htemp, Hnew.
  assert (Hk2 : k ∉ visited st2).
  { intros Hk. destruct (Hnew k Hk) as [?|Hx]; [contradiction|].
    apply Hx. set_solver. }
  pose proof (Hids k job Ejob) as Hid.
  unfold dfs_post. cbn [visited temp result].
  split; [|split; [set_solver|split; [set_solver|split]]].
  - constructor; cbn [visited result].
    + intros x. rewrite map_app, in_app_iff. cbn [map In].
      rewrite elem_of_union, elem_of_singleton, (inv_visited _ _ Hinv2 x), Hid.
      split; intros [H|H]; auto. destruct H as [H|[]]. auto.
    + rewrite map_app. cbn [map]. apply NoDup_app. split; [apply Hinv2|].
      split; [|apply NoDup_singleton].
      intros x Hx Hx'. apply list_elem_of_singleton in Hx'. subst x.
      apply list_elem_of_In in Hx. rewrite Hid in Hx.
      apply Hk2, (inv_visited _ _ Hinv2), Hx.
    + apply dep_ordered_snoc; [apply Hinv2|].
      intros d Hd. apply (inv_visited _ _ Hinv2), Hall, Hd.
    + intros j Hj. apply in_app_or in Hj as [Hj|[<-|[]]].
      * apply (inv_known _ _ Hinv2), Hj.
      * rewrite Hid. exact Ejob.
  - rewrite Htemp. set_solver.
  - intros x Hx. apply elem_of_union in Hx as [Hx|Hx].
    + apply elem_of_singleton in Hx as ->. right. exact Ht.
    + destruct (Hnew x Hx) as [H|H]; [left; exact H|right; set_solver].
Qed.

Lemma sort_loop_inv job_dict f jobs :
  (forall k st st', topo_inv job_dict st -> f k st = Ok (true, st') ->
                    dfs_post job_dict k st st') ->
  forall st order,
    topo_inv job_dict st ->
    sort_loop f jobs st = Ok (Some order) ->
    exists st', order = result st' /\ topo_inv job_dict st' /\
                visited st ⊆ visited st' /\
                forall job, In job jobs -> id job ∈ visited st'.
Proof.
  intros Hf. induction jobs as [|job jobs IH]; intros st order Hinv Hrun;
    cbn [sort_loop] in Hrun.
  - injection Hrun as <-. exists st. split; [reflexivity|]. split; [exact Hinv|].
    split; [reflexivity|]. intros job [].
  - destruct (decide (id job ∈ visited st)) as [Hv|Hv].
    + destruct (IH st order Hinv Hrun) as (st' & -> & Hinv' & Hsub & Hall).
      exists st'. split; [reflexivity|]. split; [exact Hinv'|]. split; [exact Hsub|].
      intros j [<-|Hj]; [apply Hsub, Hv|apply Hall, Hj].
    + destruct (f (id job) st) as [[[|] st1]| |] eqn:Ed; try discriminate Hrun.
      destruct (Hf _ _ _ Hinv Ed) as (Hinv1 & Hd & Hsub1 & _ & _).
      destruct (IH st1 order Hinv1 Hrun) as (st' & -> & Hinv' & Hsub & Hall).
      exists st'. split; [reflexivity|]. split; [exact Hinv'|].
      split; [set_solver|].
      intros j [<-|Hj]; [apply Hsub, Hd|apply Hall, Hj].
Qed.

Lemma topo_inv_init job_dict : topo_inv job_dict (mkTopo ∅ ∅ []).
Proof.
  constructor; cbn.
  - intros k. split; [set_solver|intros []].
  - apply NoDup_nil_2.
  - apply dep_ordered_nil.
  - intros job [].
Qed.

(** A successful sort of the greedy solver lists every job identifier of
    the input exactly once, each job after all the jobs it depends on. *)
Lemma bt_topological_sort_ordered jobs order :
  BacktrackingSolver._topological_sort jobs = Ok (Some order) ->
  NoDup (map id order) /\ dep_ordered order /\
  (forall job, In job jobs -> In (id job) (map id order)) /\
  (forall job, In job order -> In job jobs).
Proof.
  unfold BacktrackingSolver._topological_sort. intros Hrun.
  assert (Hids : forall k job, make_job_dict jobs !! k = Some job -> id job = k)
    by (intros k job Hk; apply (make_job_dict_ids jobs k job Hk)).
  destruct (sort_loop_inv _ _ jobs (bt_dfs_post _ Hids _) _ _
              (topo_inv_init _) Hrun)
    as (st' & -> & Hinv & _ & Hall).
  split; [apply Hinv|]. split; [apply Hinv|]. split.
  - intros job Hjob. apply (inv_visited _ _ Hinv), Hall, Hjob.
  - intros job Hjob. apply (make_job_dict_ids jobs (id job)).
    apply (inv_known _ _ Hinv), Hjob.
Qed.

(** ** Placements *)

Lemma concat_insert_snoc {A} (ls : list (list A)) (m : nat) (x : A) :
  (m < length ls)%nat ->
  Permutation (concat (<[m := nth m ls [] ++ [x]]> ls)) (concat ls ++ [x]).
Proof.
  intros Hm.
  destruct (lookup_lt_is_Some_2 ls m Hm) as [l Hl].
  rewrite (nth_lookup_Some ls m [] l Hl).
  rewrite insert_take_drop by exact Hm.
  rewrite <- (take_drop_middle ls m l Hl) at 3.
  rewrite !concat_app. cbn [concat]. rewrite <- !app_assoc.
  apply Permutation_app_head.
  apply Permutation_app_head. apply Permutation_app_comm.
Qed.

Lemma chained_app t pl p :
  chained t pl ->
  fold_left (fun _ q => p_end q) pl t <= p_start p ->
  p_end p = p_start p + p_size p ->
  chained t (pl ++ [p]).
Proof.
  revert t. induction pl as [|q pl IH]; intros t Hc Hs He; cbn in *.
  - auto.
  - destruct Hc as (H1 & H2 & H3). repeat split; auto.
Qed.

Lemma chained_cons_start t p pl :
  chained t (p :: pl) -> t <= p_start p.
Proof. intros (H & _). exact H. Qed.

(** With non-negative sizes, or a single chunk, no chunk of a chain starts
    before the chain's start time or ends after its last end. *)
Lemma chained_bounds t pl :
  chained t pl ->
  (length pl <= 1)%nat \/ Forall (fun p => 0 <= p_size p) pl ->
  Forall (fun p => t <= p_start p) pl /\
  ((exists p, pl = [p]) \/
   Forall (fun p => p_end p <= fold_left (fun _ q => p_end q) pl t) pl /\
   t <= fold_left (fun _ q => p_end q) pl t).
Proof.
  intros Hc [Hlen|Hpos].
  - destruct pl as [|p [|q pl]]; cbn in Hlen; try lia.
    + split; [constructor|]. right. split; [constructor|cbn; lia].
    + destruct Hc as (H1 & _). split; [repeat constructor; exact H1|].
      left. eexists. reflexivity.
  - assert (H : Forall (fun p => t <= p_start p) pl /\
                Forall (fun p => p_end p <= fold_left (fun _ q => p_end q) pl t) pl /\
                t <= fold_left (fun _ q => p_end q) pl t).
    { revert t Hc. induction Hpos as [|p pl Hp Hpos IH]; intros t Hc.
      - split; [constructor|]. split; [constructor|cbn; lia].
      - destruct Hc as (H1 & H2 & H3).
        destruct (IH _ H3) as (Ha & Hb & Hd). cbn [fold_left].
        split; [|split].
        + constructor; [exact H1|].
          eapply Forall_impl; [exact Ha|]. cbn. intros q Hq. lia.
        + constructor; [exact Hd|exact Hb].
        + lia. }
    destruct H as (Ha & Hb & Hd). split; [exact Ha|]. right. split; assumption.
Qed.

(** ** The greedy scheduling pass *)

Lemma min_machine_lt times :
  (BacktrackingSolver.min_machine times < Z.to_nat NUM_MACHINES)%nat.
Proof.
  unfold BacktrackingSolver.min_machine.
  change (Z.to_nat NUM_MACHINES) with 3%nat. cbn [Nat.sub seq fold_left].
  repeat match goal with |- context [if ?c then _ else _] => destruct c end; lia.
Qed.

Lemma place_spec job size cur st :
  length (BacktrackingSolver.machine_schedules st) = Z.to_nat NUM_MACHINES ->
  exists s,
    cur <= s /\
    fst (BacktrackingSolver.place job size cur st) = s + size /\
    length (BacktrackingSolver.machine_schedules
              (snd (BacktrackingSolver.place job size cur st)))
    = Z.to_nat NUM_MACHINES /\
    Permutation (flat (snd (BacktrackingSolver.place job size cur st)))
                (flat st ++ [mkPlaced job s (s + size) size]).
Proof.
  intros Hlen. unfold BacktrackingSolver.place, put, flat. cbn [fst snd
    BacktrackingSolver.machine_schedules].
  eexists. split; [apply Z.le_max_l|]. split; [reflexivity|].
  split; [rewrite length_insert; exact Hlen|].
  apply concat_insert_snoc. rewrite Hlen. apply min_machine_lt.
Qed.

Lemma place_chunks_trace job sizes :
  forall cur st,
    length (BacktrackingSolver.machine_schedules st) = Z.to_nat NUM_MACHINES ->
    exists pl,
      chained cur pl /\ map p_size pl = sizes /\
      Forall (fun p => p_job p = job) pl /\
      length (BacktrackingSolver.machine_schedules
                (BacktrackingSolver.place_chunks job sizes cur st))
      = Z.to_nat NUM_MACHINES /\
      Permutation (flat (BacktrackingSolver.place_chunks job sizes cur st))
                  (flat st ++ pl).
Proof.
  induction sizes as [|size sizes IH]; intros cur st Hlen;
    cbn [BacktrackingSolver.place_chunks].
  - exists []. cbn. rewrite app_nil_r. repeat split; auto.
  - destruct (place_spec job size cur st Hlen) as (s & Hs & He & Hlen' & Hperm).
    destruct (BacktrackingSolver.place job size cur st) as [e st1] eqn:Ep.
    cbn [fst snd] in *. subst e.
    destruct (IH (s + size) st1 Hlen') as (pl & Hc & Hsz & Hjob & Hlen'' & Hperm').
    exists (mkPlaced job s (s + size) size :: pl).
    split; [cbn; repeat split; auto|].
    split; [cbn; congruence|].
    split; [constructor; [reflexivity|exact Hjob]|].
    split; [exact Hlen''|].
    rewrite Hperm', Hperm, <- app_assoc. reflexivity.
Qed.

Lemma fold_left_concat {A B} (f : B -> A -> B) (ls : list (list A)) (b : B) :
  fold_left (fun b l => fold_left f l b) ls b = fold_left f (concat ls) b.
Proof.
  revert b. induction ls as [|l ls IH]; intros b; cbn [fold_left concat];
    [reflexivity|].
  rewrite fold_left_app. apply IH.
Qed.

Lemma latest_end_bound (d : Z) (l : list Placed) (es : Z) :
  let r := fold_left (fun es p => if id (p_job p) =? d then Z.max es (p_end p) else es)
                     l es in
  es <= r /\ forall q, In q l -> id (p_job q) = d -> p_end q <= r.
Proof.
  revert es. induction l as [|p l IH]; intros es; cbn [fold_left].
  - split; [lia|intros q []].
  - cbv zeta in IH.
    destruct (IH (if id (p_job p) =? d then Z.max es (p_end p) else es)) as [H1 H2].
    split.
    + destruct (id (p_job p) =? d); lia.
    + intros q [<-|Hq] Hd; [|apply H2; assumption].
      rewrite (proj2 (Z.eqb_eq _ _) Hd) in H1 |- *. lia.
Qed.

Lemma latest_end_deps_bound (deps : list Z) (scheds : list (list Placed)) (es0 : Z) :
  let r := fold_left (fun es dep_id =>
             fold_left (fun es m_sched =>
               fold_left (fun es p =>
                 if id (p_job p) =? dep_id then Z.max es (p_end p) else es)
                 m_sched es)
               scheds es) deps es0 in
  es0 <= r /\
  forall q, In q (concat scheds) -> In (id (p_job q)) deps -> p_end q <= r.
Proof.
  revert es0. induction deps as [|d deps IH]; intros es0; cbn [fold_left].
  - split; [lia|intros q _ []].
  - rewrite (fold_left_concat
      (fun es p => if id (p_job p) =? d then Z.max es (p_end p) else es)).
    pose proof (latest_end_bound d (concat scheds) es0) as [H1 H2]. cbv zeta in H1, H2.
    destruct (IH (fold_left (fun es p => if id (p_job p) =? d then Z.max es (p_end p) else es)
                            (concat scheds) es0)) as [H3 H4].
    split; [lia|].
    intros q Hq [Hd|Hd]; [|apply H4; assumption].
    specialize (H2 q Hq (eq_sym Hd)). lia.
Qed.

Lemma earliest_start_bound job scheds :
  0 <= BacktrackingSolver.earliest_start job scheds /\
  forall q, In q (concat scheds) ->
            In (id (p_job q)) (dependencies job) ->
            p_end q <= BacktrackingSolver.earliest_start job scheds.
Proof. apply latest_end_deps_bound. Qed.

Lemma chunk_sizes_shape job sizes :
  chunk_sizes job = Ok sizes ->
  (length sizes <= 1)%nat \/ Forall (fun s => 0 <= s) sizes.
Proof.
  unfold chunk_sizes.
  destruct (Z.gtb_spec (duration job) MAX_CHUNK_SIZE) as [Hd|Hd].
  - intros Hfs. right.
    assert (Hpos : 0 < duration job) by (unfold MAX_CHUNK_SIZE in Hd; lia).
    rewrite (final_sizes_balanced _ Hpos) in Hfs. injection Hfs as <-.
    destruct (balanced_arith _ Hpos) as (_ & _ & _ & Hq & _).
    apply Forall_app. split; apply Forall_repeat_nonempty; intros _; lia.
  - intros [= <-]. left. cbn. lia.
Qed.

Lemma schedule_job_trace st job st' :
  length (BacktrackingSolver.machine_schedules st) = Z.to_nat NUM_MACHINES ->
  BacktrackingSolver.schedule_job st job = Ok st' ->
  exists sizes pl,
    chunk_sizes job = Ok sizes /\
    chained (BacktrackingSolver.earliest_start job
               (BacktrackingSolver.machine_schedules st)) pl /\
    map p_size pl = sizes /\
    Forall (fun p => p_job p = job) pl /\
    length (BacktrackingSolver.machine_schedules st') = Z.to_nat NUM_MACHINES /\
    Permutation (flat st') (flat st ++ pl).
Proof.
  intros Hlen. unfold BacktrackingSolver.schedule_job, chunk_sizes.
  destruct (duration job >? MAX_CHUNK_SIZE).
  - destruct (final_sizes (duration job)) as [sizes| |]; cbn [obind];
      try discriminate.
    intros [= <-].
    destruct (place_chunks_trace job sizes
                (BacktrackingSolver.earliest_start job
                   (BacktrackingSolver.machine_schedules st)) st Hlen)
      as (pl & H1 & H2 & H3 & H4 & H5).
    exists sizes, pl. split; [reflexivity|]. repeat split; assumption.
  - assert (Hsingle : BacktrackingSolver.place_chunks job [duration job]
                        (BacktrackingSolver.earliest_start job
                           (BacktrackingSolver.machine_schedules st)) st
                      = snd (BacktrackingSolver.place job (duration job)
                               (BacktrackingSolver.earliest_start job
                                  (BacktrackingSolver.machine_schedules st)) st)).
    { cbn [BacktrackingSolver.place_chunks].
      destruct (BacktrackingSolver.place job (duration job) _ st). reflexivity. }
    rewrite <- Hsingle. intros [= <-].
    destruct (place_chunks_trace job [duration job]
                (BacktrackingSolver.earliest_start job
                   (BacktrackingSolver.machine_schedules st)) st Hlen)
      as (pl & H1 & H2 & H3 & H4 & H5).
    exists [duration job], pl. split; [reflexivity|]. repeat split; assumption.
Qed.

Lemma filter_Permutation_bool {A} (f : A -> bool) l l' :
  Permutation l l' -> Permutation (List.filter f l) (List.filter f l').
Proof.
  induction 1 as [|x l l' _ IH|x y l|l l' l'' _ IH1 _ IH2]; cbn [List.filter].
  - constructor.
  - destruct (f x); [constructor|]; exact IH.
  - destruct (f x), (f y); try reflexivity. apply perm_swap.
  - etransitivity; eassumption.
Qed.

Lemma chunks_of_other job_id pl :
  Forall (fun p => id (p_job p) <> job_id) pl -> chunks_of job_id pl = [].
Proof.
  unfold chunks_of. induction 1 as [|p pl Hp _ IH]; cbn [List.filter]; [reflexivity|].
  rewrite (proj2 (Z.eqb_neq _ _) Hp). exact IH.
Qed.

Lemma chunks_of_same job_id pl :
  Forall (fun p => id (p_job p) = job_id) pl -> chunks_of job_id pl = pl.
Proof.
  unfold chunks_of. induction 1 as [|p pl Hp _ IH]; cbn [List.filter]; [reflexivity|].
  rewrite (proj2 (Z.eqb_eq _ _) Hp), IH. reflexivity.
Qed.

Lemma greedy_inv_init : greedy_inv [] BacktrackingSolver.init_state.
Proof.
  constructor; cbn.
  - reflexivity.
  - intros p [].
  - intros p q [].
  - intros job [].
Qed.

Lemma greedy_inv_step done job todo st st' :
  NoDup (map id (done ++ job :: todo)) ->
  dep_ordered (done ++ job :: todo) ->
  greedy_inv done st ->
  BacktrackingSolver.schedule_job st job = Ok st' ->
  greedy_inv (done ++ [job]) st'.
Proof.
  intros Hnd Hord Hinv Hrun.
  destruct (schedule_job_trace st job st' (gi_len _ _ Hinv) Hrun)
    as (sizes & pl & Hsizes & Hchain & Hmap & Hjob & Hlen' & Hperm).
  assert (Hfresh : ~ In (id job) (map id done)).
  { rewrite map_app in Hnd. apply NoDup_app in Hnd as (_ & Hdisj & _).
    intros Hin. apply (Hdisj (id job)); [apply list_elem_of_In, Hin|].
    cbn [map]. apply elem_of_cons. left. reflexivity. }
  assert (Hdeps_job : forall d, In d (dependencies job) -> In d (map id done))
    by (intros d Hd; exact (Hord done job todo eq_refl d Hd)).
  assert (Hdeps_done : forall j', In j' done ->
            forall d, In d (dependencies j') -> In d (map id done)).
  { intros j' Hj' d Hd. apply in_split in Hj' as (pre & post & ->).
    rewrite map_app. apply in_or_app. left.
    apply (Hord pre j' (post ++ job :: todo)); [|exact Hd].
    rewrite <- app_assoc. reflexivity. }
  assert (Hin' : forall p, In p (flat st') <-> In p (flat st) \/ In p pl).
  { intros p. rewrite <- in_app_iff. split; apply Permutation_in;
      [exact Hperm|symmetry; exact Hperm]. }
  assert (Hold_id : forall p, In p (flat st) -> id (p_job p) <> id job).
  { intros p Hp E. apply Hfresh. rewrite <- E.
    apply in_map, (gi_jobs _ _ Hinv), Hp. }
  assert (Hnew_job : forall p, In p pl -> p_job p = job)
    by (rewrite Forall_forall in Hjob; intros p Hp;
        apply Hjob, list_elem_of_In, Hp).
  assert (Hstarts : forall p, In p pl ->
            BacktrackingSolver.earliest_start job
              (BacktrackingSolver.machine_schedules st) <= p_start p).
  { destruct (chained_bounds _ pl Hchain) as [Hs _].
    - destruct (chunk_sizes_shape job sizes Hsizes) as [Hl|Hpos].
      + left. rewrite <- Hmap, length_map in Hl. exact Hl.
      + right. rewrite <- Hmap in Hpos. rewrite List.Forall_map in Hpos. exact Hpos.
    - rewrite Forall_forall in Hs. intros p Hp. apply Hs, list_elem_of_In, Hp. }
  constructor.
  - exact Hlen'.
  - intros p Hp. apply Hin' in Hp as [Hp|Hp]; apply in_or_app.
    + left. apply (gi_jobs _ _ Hinv), Hp.
    + right. left. symmetry. apply Hnew_job, Hp.
  - intros p q Hp Hq Hdep.
    apply Hin' in Hp as [Hp|Hp]; apply Hin' in Hq as [Hq|Hq].
    + apply (gi_deps _ _ Hinv); assumption.
    + exfalso. apply Hfresh. rewrite <- (Hnew_job q Hq).
      apply (Hdeps_done (p_job p)); [apply (gi_jobs _ _ Hinv), Hp|exact Hdep].
    + rewrite (Hnew_job p Hp) in Hdep.
      etransitivity; [|apply Hstarts, Hp].
      apply (proj2 (earliest_start_bound job (BacktrackingSolver.machine_schedules st)));
        assumption.
    + exfalso. apply Hfresh. rewrite (Hnew_job p Hp), (Hnew_job q Hq) in Hdep.
      apply Hdeps_job, Hdep.
  - intros j Hj. apply in_app_or in Hj as [Hj|[<-|[]]].
    + destruct (gi_trace _ _ Hinv j Hj) as (sz & pl0 & t & H1 & H2 & H3 & H4 & H5).
      exists sz, pl0, t. repeat split; try assumption.
      rewrite <- H5. unfold chunks_of.
      rewrite (filter_Permutation_bool _ _ _ Hperm), List.filter_app.
      fold (chunks_of (id j) pl). rewrite (chunks_of_other (id j) pl), app_nil_r;
        [reflexivity|].
      apply Forall_forall. intros p Hp E. apply list_elem_of_In in Hp.
      apply Hfresh. rewrite (Hnew_job p Hp) in E. rewrite E.
      apply in_map, Hj.
    + exists sizes, pl,
        (BacktrackingSolver.earliest_start job (BacktrackingSolver.machine_schedules st)).
      split; [exact Hsizes|]. split; [apply earliest_start_bound|].
      split; [exact Hchain|]. split; [exact Hmap|].
      unfold chunks_of.
      rewrite (filter_Permutation_bool _ _ _ Hperm), List.filter_app.
      fold (chunks_of (id job) (flat st)). fold (chunks_of (id job) pl).
      rewrite (chunks_of_other (id job) (flat st)), (chunks_of_same (id job) pl);
        [reflexivity| |].
      * apply Forall_forall. intros p Hp. apply list_elem_of_In in Hp.
        rewrite (Hnew_job p Hp). reflexivity.
      * apply Forall_forall. intros p Hp. apply list_elem_of_In in Hp.
        apply Hold_id, Hp.
Qed.

Lemma schedule_all_inv todo :
  forall done st st',
    NoDup (map id (done ++ todo)) ->
    dep_ordered (done ++ todo) ->
    greedy_inv done st ->
    BacktrackingSolver.schedule_all todo st = Ok st' ->
    greedy_inv (done ++ todo) st'.
Proof.
  induction todo as [|job todo IH]; intros done st st' Hnd Hord Hinv Hrun;
    cbn [BacktrackingSolver.schedule_all] in Hrun.
  - injection Hrun as <-. rewrite app_nil_r. exact Hinv.
  - destruct (BacktrackingSolver.schedule_job st job) as [st1| |] eqn:E1;
      try discriminate Hrun.
    cbn [obind] in Hrun.
    replace (done ++ job :: todo) with ((done ++ [job]) ++ todo) in *
      by (rewrite <- app_assoc; reflexivity).
    apply (IH (done ++ [job]) st1 st' Hnd Hord); [|exact Hrun].
    apply (greedy_inv_step done job todo st st1); try assumption;
      rewrite <- app_assoc in *; assumption.
Qed.

(** ** The response schedule is the machine timelines, rearranged *)

Lemma dict_append_perm {A} k (v : A) d :
  Permutation (concat (map snd (dict_append k v d))) (concat (map snd d) ++ [v]).
Proof.
  induction d as [|[k' vs] d IH]; cbn [dict_append map concat snd].
  - reflexivity.
  - destruct (k =? k'); cbn [map concat snd].
    + rewrite <- !app_assoc. apply Permutation_app_head, Permutation_app_comm.
    + rewrite IH, app_assoc. reflexivity.
Qed.

Lemma group_by_job_perm scheds :
  Permutation (concat (map snd (group_by_job scheds))) (tagged scheds).
Proof.
  unfold group_by_job, tagged.
  generalize (combine (seq 0 (length scheds)) scheds) as mss.
  assert (Hgen : forall mss (acc : list (Z * list (nat * Placed))),
    Permutation
      (concat (map snd
         (fold_left (fun job_chunks '(machine_id, m_sched) =>
            fold_left (fun job_chunks p =>
              dict_append (id (p_job p)) (machine_id, p) job_chunks)
              m_sched job_chunks) mss acc)))
      (concat (map snd acc)
       ++ concat (map (fun ms => map (pair (fst ms)) (snd ms)) mss))).
  { induction mss as [|[m sched] mss IH]; intros acc; cbn [fold_left map concat].
    - rewrite app_nil_r. reflexivity.
    - rewrite IH. cbn [fst snd]. rewrite app_assoc.
      apply Permutation_app_tail.
      clear. revert acc. induction sched as [|p sched IH]; intros acc;
        cbn [fold_left map].
      + rewrite app_nil_r. reflexivity.
      + rewrite IH, dict_append_perm, <- app_assoc. reflexivity. }
  intros mss. rewrite Hgen. reflexivity.
Qed.

Lemma tagged_in scheds m p :
  In (m, p) (tagged scheds) -> (m < length scheds)%nat.
Proof.
  unfold tagged. intros Hin. apply in_concat in Hin as (l & Hl & Hp).
  apply in_map_iff in Hl as ([m' sched] & <- & Hms). cbn [fst snd] in Hp.
  apply in_map_iff in Hp as (p' & [= <- <-] & _).
  apply in_combine_l, in_seq in Hms. lia.
Qed.

Lemma combine_seq_snd {A} (l : list A) start :
  map snd (combine (seq start (length l)) l) = l.
Proof.
  revert start. induction l as [|x l IH]; intros start; cbn; [reflexivity|].
  rewrite IH. reflexivity.
Qed.

Lemma tagged_snd scheds : map snd (tagged scheds) = concat scheds.
Proof.
  unfold tagged.
  assert (Hgen : forall mss : list (nat * list Placed),
            map snd (concat (map (fun ms => map (pair (fst ms)) (snd ms)) mss))
            = concat (map snd mss)).
  { induction mss as [|[m sched] mss IH]; cbn [map concat fst snd]; [reflexivity|].
    rewrite map_app, IH, map_map. cbn [snd]. rewrite map_id. reflexivity. }
  rewrite Hgen, combine_seq_snd. reflexivity.
Qed.

Lemma number_chunks_pairs chunks :
  map tc_pair (number_chunks chunks) = chunks.
Proof.
  unfold number_chunks. rewrite map_map.
  rewrite <- (combine_seq_snd chunks 0) at 3.
  apply map_ext. intros [idx [m p]]. unfold tc_pair, tc_placed. cbn.
  rewrite Nat2Z.id. destruct p. reflexivity.
Qed.

Lemma file_chunks_perm tcs :
  forall final : list (list TaskChunk),
    Forall (fun tc => (Z.to_nat (tc_machine tc) < length final)%nat) tcs ->
    let filed := fold_left (fun final tc =>
                   let m := Z.to_nat (tc_machine tc) in
                   <[m := nth m final [] ++ [tc]]> final) tcs final in
    length filed = length final /\
    Permutation (concat filed) (concat final ++ tcs).
Proof.
  induction tcs as [|tc tcs IH]; intros final Hall; cbn [fold_left].
  - split; [reflexivity|]. rewrite app_nil_r. reflexivity.
  - inversion Hall as [|? ? Hm Hall']; subst.
    cbv zeta in IH.
    destruct (IH (<[Z.to_nat (tc_machine tc) :=
                    nth (Z.to_nat (tc_machine tc)) final [] ++ [tc]]> final)) as [H1 H2].
    { rewrite length_insert. exact Hall'. }
    rewrite length_insert in H1. split; [exact H1|].
    rewrite H2, (concat_insert_snoc final _ tc Hm), <- app_assoc. reflexivity.
Qed.

Lemma concat_map_sorted {A} (key : A -> Z) (ls : list (list A)) :
  Permutation (concat (map (sort_by key) ls)) (concat ls).
Proof.
  induction ls as [|l ls IH]; cbn [map concat]; [reflexivity|].
  rewrite IH. apply Permutation_app_tail. apply sorted_by_perm.
Qed.

Lemma build_final_perm key scheds :
  (length scheds <= Z.to_nat NUM_MACHINES)%nat ->
  Permutation (map tc_pair (concat (build_final key scheds))) (tagged scheds).
Proof.
  intros Hlen. unfold build_final.
  rewrite concat_map_sorted, <- group_by_job_perm.
  assert (Hids : forall m p, In (m, p) (concat (map snd (group_by_job scheds))) ->
                             (m < Z.to_nat NUM_MACHINES)%nat).
  { intros m p Hin. eapply Nat.lt_le_trans; [|exact Hlen].
    apply (tagged_in scheds m p).
    eapply Permutation_in; [apply group_by_job_perm|exact Hin]. }
  revert Hids. generalize (group_by_job scheds) as groups.
  assert (Hgen : forall (groups : list (Z * list (nat * Placed)))
                         (final : list (list TaskChunk)),
    length final = Z.to_nat NUM_MACHINES ->
    (forall m p, In (m, p) (concat (map snd groups)) -> (m < Z.to_nat NUM_MACHINES)%nat) ->
    Permutation
      (map tc_pair (concat
         (fold_left (fun final '(_, chunks) =>
            fold_left (fun final tc =>
              let m := Z.to_nat (tc_machine tc) in
              <[m := nth m final [] ++ [tc]]> final)
              (number_chunks (sort_by key chunks)) final) groups final)))
      (map tc_pair (concat final) ++ concat (map snd groups))).
  { induction groups as [|[k chunks] groups IH]; intros final Hfin Hids;
      cbn [fold_left map concat snd].
    - rewrite app_nil_r. reflexivity.
    - destruct (file_chunks_perm (number_chunks (sort_by key chunks)) final)
        as [H1 H2].
      { apply Forall_forall. intros tc Htc. apply list_elem_of_In in Htc.
        rewrite Hfin. destruct (tc_pair tc) as [m p] eqn:Etc.
        assert (Hm : m = Z.to_nat (tc_machine tc)) by (unfold tc_pair in Etc; congruence).
        rewrite <- Hm. apply (Hids m p).
        cbn [map concat snd]. apply in_or_app. left.
        eapply Permutation_in; [apply (sorted_by_perm Z.ltb key)|].
        fold (sort_by key chunks).
        rewrite <- (number_chunks_pairs (sort_by key chunks)), <- Etc.
        apply in_map, Htc. }
      cbv zeta in H1, H2.
      rewrite IH.
      + rewrite H2, map_app, number_chunks_pairs, <- app_assoc.
        apply Permutation_app_head, Permutation_app_tail.
        apply sorted_by_perm.
      + rewrite H1. exact Hfin.
      + intros m p Hin. apply (Hids m p). cbn [map concat snd].
        apply in_or_app. right. exact Hin. }
  intros groups Hids. rewrite Hgen; [|apply repeat_length|exact Hids].
  assert (Hnil : concat (repeat (@nil TaskChunk) (Z.to_nat NUM_MACHINES)) = [])
    by reflexivity.
  rewrite Hnil. reflexivity.
Qed.

(** The chunks of the response are the entries of the machine timelines. *)
Lemma build_final_placed key scheds :
  (length scheds <= Z.to_nat NUM_MACHINES)%nat ->
  Permutation (map tc_placed (concat (build_final key scheds))) (concat scheds).
Proof.
  intros Hlen. rewrite <- tagged_snd, <- (build_final_perm key scheds Hlen).
  rewrite map_map. reflexivity.
Qed.

(** ** Schedules of the greedy solver *)

Lemma respects_dependencies_perm l l' :
  Permutation l l' -> respects_dependencies l -> respects_dependencies l'.
Proof.
  intros Hperm Hl p q Hp Hq. apply Hl; eapply Permutation_in; try eassumption;
    symmetry; exact Hperm.
Qed.

(** A successful greedy [solve] is a scheduling pass over a dependency
    order of the jobs, and its response holds the timelines of that pass. *)
Lemma greedy_solve_success jobs r :
  BacktrackingSolver.solve jobs = Ok r ->
  success r = true ->
  exists order st,
    BacktrackingSolver._topological_sort jobs = Ok (Some order) /\
    BacktrackingSolver.schedule_all order BacktrackingSolver.init_state = Ok st /\
    greedy_inv order st /\
    schedule r = BacktrackingSolver._build_final (BacktrackingSolver.machine_schedules st) /\
    capacity_violations r = Some (BacktrackingSolver.violations st) /\
    max_list (BacktrackingSolver.machine_times st) = Ok (makespan r) /\
    Permutation (map tc_placed (concat (schedule r))) (flat st).
Proof.
  unfold BacktrackingSolver.solve. intros Hrun Hsucc.
  destruct (first_over_capacity jobs); [injection Hrun as <-; discriminate Hsucc|].
  destruct (BacktrackingSolver._topological_sort jobs) as [[order|]| |] eqn:Esort;
    cbn [obind] in Hrun; try discriminate Hrun.
  2: { injection Hrun as <-. discriminate Hsucc. }
  destruct order as [|job order]; [injection Hrun as <-; discriminate Hsucc|].
  destruct (BacktrackingSolver.schedule_all (job :: order) BacktrackingSolver.init_state)
    as [st| |] eqn:Esched; cbn [obind] in Hrun; try discriminate Hrun.
  destruct (max_list (BacktrackingSolver.machine_times st)) as [mk| |] eqn:Emax;
    cbn [obind] in Hrun; try discriminate Hrun.
  injection Hrun as <-. cbn [schedule capacity_violations makespan].
  destruct (bt_topological_sort_ordered jobs _ Esort) as (Hnd & Hord & _ & _).
  pose proof (schedule_all_inv (job :: order) [] _ st Hnd Hord greedy_inv_init Esched)
    as Hinv. cbn [app] in Hinv.
  exists (job :: order), st.
  split; [reflexivity|]. split; [exact Esched|]. split; [exact Hinv|].
  split; [reflexivity|]. split; [reflexivity|]. split; [exact Emax|].
  apply build_final_placed. rewrite (gi_len _ _ Hinv). reflexivity.
Qed.

(** ** The schedule evaluator *)

Lemma py_index_lt len i m : py_index len i = Some m -> (m < len)%nat.
Proof.
  unfold py_index.
  destruct ((0 <=? i) && (i <? Z.of_nat len)) eqn:E1.
  - intros [= <-]. apply andb_true_iff in E1 as [H1 H2].
    apply Z.leb_le in H1. apply Z.ltb_lt in H2. lia.
  - destruct ((- Z.of_nat len <=? i) && (i <? 0)) eqn:E2; [|discriminate].
    intros [= <-]. apply andb_true_iff in E2 as [H1 H2].
    apply Z.leb_le in H1. apply Z.ltb_lt in H2. lia.
Qed.

Lemma busy_until_snoc sched p : busy_until (sched ++ [p]) = p_end p.
Proof. unfold busy_until. rewrite last_snoc. reflexivity. Qed.

Lemma nth_insert_eq {A} (l : list A) m x d :
  (m < length l)%nat -> nth m (<[m := x]> l) d = x.
Proof.
  intros Hm. apply nth_lookup_Some. apply list_lookup_insert_eq. exact Hm.
Qed.

Lemma nth_insert_ne {A} (l : list A) m k x d :
  m <> k -> nth k (<[m := x]> l) d = nth k l d.
Proof.
  intros Hne. rewrite !nth_lookup. rewrite list_lookup_insert_ne by exact Hne.
  reflexivity.
Qed.

Lemma eval_place_spec job c cur st t st' :
  timelines_ok st ->
  Evaluator.place job c cur st = Ok (t, st') ->
  exists s,
    cur <= s /\ t = s + c_size c /\
    timelines_ok st' /\
    Evaluator.completed st' = Evaluator.completed st /\
    Permutation (eflat st') (eflat st ++ [mkPlaced job s (s + c_size c) (c_size c)]).
Proof.
  intros Hok. unfold Evaluator.place.
  destruct (py_index (length (Evaluator.m_times st)) (c_machine c)) as [m|] eqn:Em;
    [|discriminate].
  apply py_index_lt in Em. unfold put. intros [= <- <-].
  exists (Z.max cur (nth m (Evaluator.m_times st) 0)).
  split; [apply Z.le_max_l|]. split; [reflexivity|].
  pose proof (tl_times _ Hok) as Ht. pose proof (tl_scheds _ Hok) as Hs.
  split; [|split; [reflexivity|]].
  - constructor; cbn [Evaluator.m_times Evaluator.m_scheds].
    + rewrite length_insert. exact Ht.
    + rewrite length_insert. exact Hs.
    + intros k. destruct (Nat.eq_dec m k) as [<-|Hne].
      * rewrite !nth_insert_eq by lia. rewrite busy_until_snoc. reflexivity.
      * rewrite !nth_insert_ne by exact Hne. apply (tl_busy _ Hok).
  - unfold eflat. cbn [Evaluator.m_scheds]. apply concat_insert_snoc. lia.
Qed.

Lemma eval_place_chunks_trace job chunks :
  forall cur st t st',
    timelines_ok st ->
    Evaluator.place_chunks job chunks cur st = Ok (t, st') ->
    exists pl,
      chained cur pl /\ map p_size pl = map c_size chunks /\
      Forall (fun p => p_job p = job) pl /\
      t = fold_left (fun _ q => p_end q) pl cur /\
      timelines_ok st' /\
      Evaluator.completed st' = Evaluator.completed st /\
      Permutation (eflat st') (eflat st ++ pl).
Proof.
  induction chunks as [|c chunks IH]; intros cur st t st' Hok Hrun;
    cbn [Evaluator.place_chunks] in Hrun.
  - injection Hrun as <- <-. exists []. cbn. rewrite app_nil_r.
    split; [exact I|]. split; [reflexivity|]. split; [constructor|].
    split; [reflexivity|]. split; [exact Hok|]. split; reflexivity.
  - destruct (Evaluator.place job c cur st) as [[t1 st1]| |] eqn:E1;
      cbn [obind fst snd] in Hrun; try discriminate Hrun.
    destruct (eval_place_spec job c cur st t1 st1 Hok E1)
      as (s & Hs & -> & Hok1 & Hc1 & Hperm1).
    destruct (IH _ _ _ _ Hok1 Hrun) as (pl & Hch & Hsz & Hjob & Ht & Hok' & Hc' & Hperm').
    exists (mkPlaced job s (s + c_size c) (c_size c) :: pl).
    split; [cbn; repeat split; auto|].
    split; [cbn; congruence|].
    split; [constructor; [reflexivity|exact Hjob]|].
    split; [exact Ht|]. split; [exact Hok'|]. split; [congruence|].
    rewrite Hperm', Hperm1, <- app_assoc. reflexivity.
Qed.

Lemma dep_start_spec completed deps s0 s :
  Evaluator.dep_start completed deps s0 = Some s ->
  s0 <= s /\
  forall d, In d deps -> exists t, completed !! d = Some t /\ t <= s.
Proof.
  revert s0. induction deps as [|d deps IH]; intros s0; cbn [Evaluator.dep_start].
  - intros [= <-]. split; [lia|intros d []].
  - destruct (completed !! d) as [t|] eqn:Et; [|discriminate].
    intros Hrun. destruct (IH _ Hrun) as [H1 H2].
    split; [lia|].
    intros d' [<-|Hd']; [exists t; split; [exact Et|lia]|apply H2, Hd'].
Qed.

Lemma eval_inv_init chrom : eval_inv chrom [] Evaluator.init_state.
Proof.
  constructor; cbn.
  - constructor; try reflexivity. intros [|[|[|[|m]]]]; reflexivity.
  - intros p [].
  - intros job [].
  - intros k t. rewrite lookup_empty. discriminate.
  - intros job [].
  - intros _ k t. rewrite lookup_empty. discriminate.
  - intros _ p q [].
Qed.

Lemma sizes_ok_sorted chrom k chunks :
  sizes_ok chrom -> dict_get k chrom = Some chunks ->
  forall pl, map p_size pl = map c_size (sort_by c_order chunks) ->
    (length pl <= 1)%nat \/ Forall (fun p => 0 <= p_size p) pl.
Proof.
  intros Hsz Hget pl Hmap.
  destruct (Hsz k chunks Hget) as [Hlen|Hpos].
  - left. rewrite <- (length_map p_size), Hmap, length_map.
    unfold sort_by. rewrite sorted_by_length. exact Hlen.
  - right. apply List.Forall_map. rewrite Hmap. apply List.Forall_map.
    eapply Permutation_Forall; [symmetry; apply (sorted_by_perm Z.ltb c_order)|].
    exact Hpos.
Qed.

Lemma eval_inv_step chrom done job todo st start chunks t st1 :
  NoDup (map id (done ++ job :: todo)) ->
  eval_inv chrom done st ->
  Evaluator.dep_start (Evaluator.completed st) (dependencies job) 0 = Some start ->
  dict_get (id job) chrom = Some chunks ->
  Evaluator.place_chunks job (sort_by c_order chunks) start st = Ok (t, st1) ->
  eval_inv chrom (done ++ [job])
    (Evaluator.mkEval (Evaluator.m_times st1) (Evaluator.m_scheds st1)
       (<[id job := t]> (Evaluator.completed st1))
       (Evaluator.violations st1) (Evaluator.machine_loads st1)).
Proof.
  intros Hnd Hinv Hstart Hget Hrun.
  destruct (eval_place_chunks_trace job _ start st t st1 (ei_ok _ _ _ Hinv) Hrun)
    as (pl & Hchain & Hmap & Hjob & Ht & Hok1 & Hcomp1 & Hperm).
  destruct (dep_start_spec _ _ _ _ Hstart) as [Hs0 Hdeps].
  assert (Hfresh : ~ In (id job) (map id done)).
  { rewrite map_app in Hnd. apply NoDup_app in Hnd as (_ & Hdisj & _).
    intros Hin. apply (Hdisj (id job)); [apply list_elem_of_In, Hin|].
    cbn [map]. apply elem_of_cons. left. reflexivity. }
  assert (Hin' : forall p, In p (eflat st1) <-> In p (eflat st) \/ In p pl).
  { intros p. rewrite <- in_app_iff. split; apply Permutation_in;
      [exact Hperm|symmetry; exact Hperm]. }
  assert (Hold_id : forall p, In p (eflat st) -> id (p_job p) <> id job).
  { intros p Hp E. apply Hfresh. rewrite <- E.
    apply in_map, (ei_jobs _ _ _ Hinv), Hp. }
  assert (Hnew_job : forall p, In p pl -> p_job p = job)
    by (rewrite Forall_forall in Hjob; intros p Hp;
        apply Hjob, list_elem_of_In, Hp).
  assert (Hdeps_job : forall d, In d (dependencies job) -> In d (map id done)).
  { intros d Hd. destruct (Hdeps d Hd) as (td & Htd & _).
    apply (ei_completed_ids _ _ _ Hinv d td Htd). }
  assert (Hbounds : sizes_ok chrom ->
            (forall p, In p pl -> start <= p_start p) /\
            (forall p, In p pl -> p_end p <= t)).
  { intros Hsz.
    destruct (chained_bounds _ pl Hchain (sizes_ok_sorted chrom _ _ Hsz Hget pl Hmap))
      as [Hs Hends].
    split.
    - rewrite Forall_forall in Hs. intros p Hp. apply Hs, list_elem_of_In, Hp.
    - destruct Hends as [[p0 ->]|[He _]].
      + intros p [<-|[]]. subst t. cbn. lia.
      + rewrite Forall_forall in He. intros p Hp. subst t.
        apply He, list_elem_of_In, Hp. }
  unfold eflat in *. constructor;
    cbn [Evaluator.m_times Evaluator.m_scheds Evaluator.completed].
  - destruct Hok1. constructor; assumption.
  - intros p Hp. apply Hin' in Hp as [Hp|Hp]; apply in_or_app.
    + left. apply (ei_jobs _ _ _ Hinv), Hp.
    + right. left. symmetry. apply Hnew_job, Hp.
  - intros j Hj. apply in_app_or in Hj as [Hj|[<-|[]]].
    + destruct (ei_trace _ _ _ Hinv j Hj) as (ch & pl0 & t0 & H1 & H2 & H3 & H4 & H5).
      exists ch, pl0, t0. repeat split; try assumption.
      rewrite <- H5. unfold chunks_of.
      rewrite (filter_Permutation_bool _ _ _ Hperm), List.filter_app.
      fold (chunks_of (id j) pl). rewrite (chunks_of_other (id j) pl), app_nil_r;
        [reflexivity|].
      apply Forall_forall. intros p Hp E. apply list_elem_of_In in Hp.
      apply Hfresh. rewrite (Hnew_job p Hp) in E. rewrite E.
      apply in_map, Hj.
    + exists chunks, pl, start.
      split; [exact Hget|]. split; [exact Hs0|].
      split; [exact Hchain|]. split; [exact Hmap|].
      unfold chunks_of.
      rewrite (filter_Permutation_bool _ _ _ Hperm), List.filter_app.
      fold (chunks_of (id job) (concat (Evaluator.m_scheds st))).
      fold (chunks_of (id job) pl).
      rewrite (chunks_of_other (id job) (concat (Evaluator.m_scheds st))),
        (chunks_of_same (id job) pl); [reflexivity| |].
      * apply Forall_forall. intros p Hp. apply list_elem_of_In in Hp.
        rewrite (Hnew_job p Hp). reflexivity.
      * apply Forall_forall. intros p Hp. apply list_elem_of_In in Hp.
        apply Hold_id, Hp.
  - intros k tk. rewrite map_app, in_app_iff. cbn [map In].
    destruct (Z.eq_dec (id job) k) as [<-|Hne]; [auto|].
    rewrite lookup_insert_ne by exact Hne. rewrite Hcomp1.
    intros Hk. left. apply (ei_completed_ids _ _ _ Hinv k tk Hk).
  - intros j Hj d Hd. rewrite map_app. apply in_or_app. left.
    apply in_app_or in Hj as [Hj|[<-|[]]].
    + apply (ei_deps_done _ _ _ Hinv j Hj d Hd).
    + apply Hdeps_job, Hd.
  - intros Hsz k tk Hk q Hq Hqk. destruct (Hbounds Hsz) as [_ Hends].
    destruct (Z.eq_dec (id job) k) as [<-|Hne].
    + rewrite lookup_insert_eq in Hk. injection Hk as <-.
      apply Hin' in Hq as [Hq|Hq]; [exfalso; apply (Hold_id q Hq Hqk)|].
      apply Hends, Hq.
    + rewrite lookup_insert_ne in Hk by exact Hne. rewrite Hcomp1 in Hk.
      apply Hin' in Hq as [Hq|Hq].
      * apply (ei_completed _ _ _ Hinv Hsz k tk Hk q Hq Hqk).
      * exfalso. apply Hne. rewrite <- Hqk, (Hnew_job q Hq). reflexivity.
  - intros Hsz p q Hp Hq Hdep. destruct (Hbounds Hsz) as [Hstarts _].
    apply Hin' in Hp as [Hp|Hp]; apply Hin' in Hq as [Hq|Hq].
    + apply (ei_deps _ _ _ Hinv Hsz); assumption.
    + exfalso. apply Hfresh. rewrite <- (Hnew_job q Hq).
      apply (ei_deps_done _ _ _ Hinv (p_job p));
        [apply (ei_jobs _ _ _ Hinv), Hp|exact Hdep].
    + rewrite (Hnew_job p Hp) in Hdep.
      destruct (Hdeps _ Hdep) as (td & Htd & Hle).
      etransitivity; [|apply Hstarts, Hp].
      etransitivity; [|exact Hle].
      apply (ei_completed _ _ _ Hinv Hsz _ td Htd q Hq eq_refl).
    + exfalso. apply Hfresh. rewrite (Hnew_job p Hp), (Hnew_job q Hq) in Hdep.
      apply Hdeps_job, Hdep.
Qed.

Lemma eval_jobs_inv chrom todo :
  forall done st st',
    NoDup (map id (done ++ todo)) ->
    eval_inv chrom done st ->
    Evaluator.eval_jobs chrom todo st = Ok (Some st') ->
    eval_inv chrom (done ++ todo) st'.
Proof.
  induction todo as [|job todo IH]; intros done st st' Hnd Hinv Hrun;
    cbn [Evaluator.eval_jobs] in Hrun.
  - injection Hrun as <-. rewrite app_nil_r. exact Hinv.
  - destruct (Evaluator.dep_start (Evaluator.completed st) (dependencies job) 0)
      as [start|] eqn:Estart; [|discriminate Hrun].
    destruct (dict_get (id job) chrom) as [chunks|] eqn:Eget;
      [|discriminate Hrun].
    cbn [from_option Datatypes.id] in Hrun.
    destruct chunks as [|c chunks]; [discriminate Hrun|].
    destruct (Evaluator.place_chunks job (sort_by c_order (c :: chunks)) start st)
      as [[t st1]| |] eqn:Eplace; cbn [obind fst snd] in Hrun;
      try discriminate Hrun.
    replace (done ++ job :: todo) with ((done ++ [job]) ++ todo) in *
      by (rewrite <- app_assoc; reflexivity).
    eapply (IH (done ++ [job])); [exact Hnd| |exact Hrun].
    apply (eval_inv_step chrom done job todo st start (c :: chunks) t st1);
      try assumption.
    rewrite <- app_assoc in Hnd. exact Hnd.
Qed.

Lemma chained_ordered t pl :
  chained t pl ->
  (length pl <= 1)%nat \/ Forall (fun p => 0 <= p_size p) pl ->
  ForallOrdPairs (fun p q => p_end p <= p_start q) pl.
Proof.
  intros Hc [Hlen|Hpos].
  - destruct pl as [|p [|q pl]]; cbn in Hlen; try lia; repeat constructor.
  - revert t Hc. induction Hpos as [|p pl Hp Hpos IH]; intros t Hc; [constructor|].
    destruct Hc as (_ & _ & Hc). constructor; [|eapply IH; exact Hc].
    destruct (chained_bounds _ pl Hc (or_intror Hpos)) as [Hs _].
    rewrite Forall_forall in Hs. apply Forall_forall.
    intros q Hq. apply Hs, Hq.
Qed.

Section EvaluatorFacts.
Context {F : Type} {fo : FloatOps F}.

(** A feasible evaluation is a run of the job loop from the empty state. *)
Lemma evaluate_feasible job_dict chrom order (f : F) scheds viol :
  Evaluator._evaluate_chromosome job_dict chrom order = Ok (Fin f, scheds, viol) ->
  exists st,
    Evaluator.validate job_dict chrom = Ok true /\
    Evaluator.eval_jobs chrom order Evaluator.init_state = Ok (Some st) /\
    Evaluator.adjusted_makespan st = Ok f /\
    scheds = Evaluator.m_scheds st /\ viol = Evaluator.violations st.
Proof.
  unfold Evaluator._evaluate_chromosome. intros Hrun.
  destruct (Evaluator.validate job_dict chrom) as [[|]| |]; cbn [obind negb] in Hrun;
    try discriminate Hrun.
  destruct (Evaluator.eval_jobs chrom order Evaluator.init_state) as [[st|]| |];
    cbn [obind] in Hrun; try discriminate Hrun.
  destruct (Evaluator.adjusted_makespan st) as [fit| |] eqn:Efit; cbn [obind] in Hrun;
    try discriminate Hrun.
  injection Hrun as <- <- <-. exists st.
  split; [reflexivity|]. split; [reflexivity|]. split; [exact Efit|].
  split; reflexivity.
Qed.

Lemma evaluate_feasible_inv job_dict chrom order (f : F) scheds viol :
  NoDup (map id order) ->
  Evaluator._evaluate_chromosome job_dict chrom order = Ok (Fin f, scheds, viol) ->
  exists st,
    eval_inv chrom order st /\ Evaluator.adjusted_makespan st = Ok f /\
    scheds = Evaluator.m_scheds st /\ viol = Evaluator.violations st.
Proof.
  intros Hnd Hrun.
  destruct (evaluate_feasible _ _ _ _ _ _ Hrun) as (st & _ & Hjobs & Hfit & -> & ->).
  exists st. split; [|auto].
  apply (eval_jobs_inv chrom order [] _ st Hnd (eval_inv_init chrom) Hjobs).
Qed.

End EvaluatorFacts.

(** ** The fitness of a feasible evaluation *)

Lemma eval_jobs_timelines chrom todo :
  forall st st',
    timelines_ok st ->
    Evaluator.eval_jobs chrom todo st = Ok (Some st') ->
    timelines_ok st'.
Proof.
  induction todo as [|job todo IH]; intros st st' Hok Hrun;
    cbn [Evaluator.eval_jobs] in Hrun.
  - injection Hrun as <-. exact Hok.
  - destruct (Evaluator.dep_start (Evaluator.completed st) (dependencies job) 0)
      as [start|]; [|discriminate Hrun].
    destruct (default [] (dict_get (id job) chrom)) as [|c chunks];
      [discriminate Hrun|].
    destruct (Evaluator.place_chunks job (sort_by c_order (c :: chunks)) start st)
      as [[t st1]| |] eqn:Eplace; cbn [obind fst snd] in Hrun;
      try discriminate Hrun.
    destruct (eval_place_chunks_trace job _ start st t st1 Hok Eplace)
      as (pl & _ & _ & _ & _ & Hok1 & _).
    eapply IH; [|exact Hrun]. destruct Hok1. constructor; assumption.
Qed.

Lemma timelines_times st :
  timelines_ok st ->
  Evaluator.m_times st = map busy_until (Evaluator.m_scheds st).
Proof.
  intros [Ht Hs Hb].
  apply (nth_ext _ _ 0 (busy_until [])).
  - rewrite length_map. congruence.
  - intros m _. rewrite (map_nth busy_until). apply Hb.
Qed.

Lemma combine_seq_nth {A} (l : list A) (d : A) :
  forall start m x,
    In (m, x) (combine (seq start (length l)) l) ->
    (start <= m)%nat /\ nth (m - start) l d = x.
Proof.
  induction l as [|y l IH]; intros start m x Hin; [destruct Hin|].
  cbn [length seq combine] in Hin. destruct Hin as [[= <- <-]|Hin].
  - split; [lia|]. rewrite Nat.sub_diag. reflexivity.
  - destruct (IH _ _ _ Hin) as [Hle Hnth]. split; [lia|].
    replace (m - start)%nat with (S (m - S start)) by lia. exact Hnth.
Qed.

Section FitnessFacts.
Context {F : Type} {fo : FloatOps F}.

Lemma adjusted_makespan_formula st (f : F) :
  timelines_ok st ->
  Evaluator.adjusted_makespan st = Ok f ->
  f = fitness_of_schedule (Evaluator.m_scheds st) (Evaluator.violations st).
Proof.
  intros Hok. pose proof (timelines_times st Hok) as Htimes.
  unfold Evaluator.adjusted_makespan, fitness_of_schedule.
  assert (Hutil :
    map (fun '(m, m_sched) =>
           truediv (Evaluator.sched_work m_sched)
                   (Z.max 1 (nth m (Evaluator.m_times st) 0)))
        (combine (seq 0 (length (Evaluator.m_scheds st))) (Evaluator.m_scheds st))
    = map utilization (Evaluator.m_scheds st)).
  { rewrite <- (combine_seq_snd (Evaluator.m_scheds st) 0) at 3.
    rewrite map_map. apply map_ext_in. intros [m sched] Hin. cbn [snd].
    unfold utilization.
    destruct (combine_seq_nth _ [] _ _ _ Hin) as [_ Hnth].
    rewrite Nat.sub_0_r in Hnth. rewrite (tl_busy _ Hok m), Hnth. reflexivity. }
  rewrite Hutil. rewrite <- Htimes.
  destruct (Evaluator.m_times st) as [|x r] eqn:Et.
  { pose proof (tl_times _ Hok) as Hlen. rewrite Et in Hlen. discriminate Hlen. }
  cbn [max_list obind maximum].
  destruct (map utilization (Evaluator.m_scheds st)) as [|u us] eqn:Eu.
  { apply (f_equal (@length _)) in Eu. rewrite length_map, (tl_scheds _ Hok) in Eu.
    discriminate Eu. }
  cbn [hd tl]. intros [= <-].
  rewrite (Z.mul_comm 10). rewrite Z.sub_0_r, Z.mul_1_l. reflexivity.
Qed.

Lemma maximum_ge l x : In x l -> x <= maximum l.
Proof.
  destruct l as [|y l]; [intros []|]. cbn [maximum].
  assert (Hgen : forall l a, a <= fold_left Z.max l a /\
                             forall z, In z l -> z <= fold_left Z.max l a).
  { clear. induction l as [|b l IH]; intros a; cbn [fold_left].
    - split; [lia|intros z []].
    - destruct (IH (Z.max a b)) as [H1 H2]. split; [lia|].
      intros z [<-|Hz]; [lia|apply H2, Hz]. }
  destruct (Hgen l y) as [H1 H2]. intros [<-|Hx]; [exact H1|apply H2, Hx].
Qed.

Lemma plain_fitness_defined scheds viol :
  scheds <> [] ->
  (forall sched, In sched scheds -> 1 <= busy_until sched) ->
  plain_fitness scheds viol = Some (fitness_of_schedule scheds viol).
Proof.
  intros Hne Hbusy.
  unfold plain_fitness, fitness_of_schedule, plain_quotient.
  set (makespan := maximum (map busy_until scheds)).
  assert (Hmk : 1 <= makespan).
  { destruct scheds as [|sched scheds]; [congruence|].
    etransitivity; [apply (Hbusy sched); now left|].
    apply maximum_ge. cbn [map]. now left. }
  assert (Hutil : mapM (fun sched => if busy_until sched =? 0 then None
                                     else Some (truediv (Evaluator.sched_work sched)
                                                        (busy_until sched))) scheds
                  = Some (map utilization scheds)).
  { clear -Hbusy. induction scheds as [|sched scheds IH]; [reflexivity|].
    cbn [mapM map]. pose proof (Hbusy sched (or_introl eq_refl)) as Hb.
    destruct (Z.eqb_spec (busy_until sched) 0) as [|_]; [lia|].
    rewrite IH by (intros s Hs; apply Hbusy; now right).
    unfold utilization. rewrite Z.max_r by lia. reflexivity. }
  rewrite Hutil.
  destruct (Z.eqb_spec (makespan * NUM_MACHINES) 0) as [H0|_];
    [unfold NUM_MACHINES in H0; lia|].
  destruct (Z.gtb_spec (makespan * NUM_MACHINES) 0) as [_|Hle];
    [|unfold NUM_MACHINES in Hle; lia].
  reflexivity.
Qed.

End FitnessFacts.

(** C9 (as the code behaves).  The fitness of a feasible evaluation is
    [makespan + (1 - efficiency) * makespan * 0.4
     + (maxUtilization - minUtilization) * makespan * 0.2 + 10 * violations],
    computed from the returned schedule and violation list alone: the
    makespan is the largest final busy time, the efficiency is the total
    work over three times the makespan, and the utilization of a machine is
    its work over its busy time with the divisor never below 1, so that an
    idle machine has utilization [0 / 1].  When no busy time is below 1 this
    is the formula with the plain quotients. *)
Theorem fitness_of_feasible_evaluation {F : Type} {fo : FloatOps F}
    (job_dict : gmap Z Job) (chrom : chromosome) (order : list Job)
    (f : F) (scheds : list (list Placed)) (viol : list Violation) :
  Evaluator._evaluate_chromosome job_dict chrom order = Ok (Fin f, scheds, viol) ->
  length scheds = Z.to_nat NUM_MACHINES /\
  f = fitness_of_schedule scheds viol /\
  ((forall sched, In sched scheds -> 1 <= busy_until sched) ->
   plain_fitness scheds viol = Some f).
Proof.
  intros Hrun.
  destruct (evaluate_feasible _ _ _ _ _ _ Hrun) as (st & _ & Hjobs & Hfit & -> & ->).
  assert (Hok : timelines_ok st).
  { apply (eval_jobs_timelines chrom order Evaluator.init_state st); [|exact Hjobs].
    apply (ei_ok _ _ _ (eval_inv_init chrom)). }
  pose proof (adjusted_makespan_formula st f Hok Hfit) as Hf.
  split; [apply (tl_scheds _ Hok)|]. split; [exact Hf|].
  intros Hbusy. rewrite Hf. apply plain_fitness_defined; [|exact Hbusy].
  intros E. pose proof (tl_scheds _ Hok) as Hlen. rewrite E in Hlen.
  discriminate Hlen.
Qed.

Lemma fitness_of_feasible_evaluation_witness :
  exists scheds,
    Evaluator._evaluate_chromosome (F := Q) (make_job_dict [lone_job])
      lone_chromosome [lone_job] = Ok (Fin (22 # 3)%Q, scheds, []) /\
    (22 # 3)%Q = fitness_of_schedule scheds [].
Proof.
  eexists. split; [vm_compute; reflexivity|].
  eapply (fitness_of_feasible_evaluation (fo := Q_float)
            (make_job_dict [lone_job]) lone_chromosome [lone_job]).
  vm_compute. reflexivity.
Defined.

(** With one job on machine 0 the evaluation is feasible, with fitness
    22/3, while machines 1 and 2 have busy time 0 and the quotient
    [work / busy time] does not exist for them. *)
Lemma idle_machine_has_no_plain_quotient :
  exists scheds,
    Evaluator._evaluate_chromosome (F := Q) (make_job_dict [lone_job])
      lone_chromosome [lone_job] = Ok (Fin (22 # 3)%Q, scheds, []) /\
    map busy_until scheds = [5; 0; 0] /\
    plain_fitness (F := Q) scheds [] = None.
Proof.
  eexists. split; [vm_compute; reflexivity|].
  split; vm_compute; reflexivity.
Qed.

(** ** The order and the retained schedule of the cultural solver *)

Lemma visit_post_refl st : visit_inv st -> visit_post st st.
Proof.
  intros Hinv. split; [exact Hinv|]. split; [reflexivity|]. split; [reflexivity|].
  intros x Hx. left. exact Hx.
Qed.

Lemma visit_post_trans st1 st2 st3 :
  visit_post st1 st2 -> visit_post st2 st3 -> visit_post st1 st3.
Proof.
  intros (_ & Hv12 & Ht12 & Hn12) (Hinv & Hv23 & Ht23 & Hn23).
  split; [exact Hinv|]. split; [set_solver|]. split; [set_solver|].
  intros x Hx. destruct (Hn23 x Hx) as [H|H]; [apply Hn12, H|right; set_solver].
Qed.

Lemma each_dep_visit f deps :
  (forall d st st', visit_inv st -> f d st = Ok (true, st') -> visit_post st st') ->
  forall st st', visit_inv st -> each_dep f deps st = Ok (true, st') ->
                 visit_post st st'.
Proof.
  intros Hf. induction deps as [|d deps IH]; intros st st' Hinv Hrun;
    cbn [each_dep] in Hrun.
  - injection Hrun as <-. apply visit_post_refl, Hinv.
  - destruct (f d st) as [[[|] st1]| |] eqn:Ed; try discriminate Hrun.
    pose proof (Hf d st st1 Hinv Ed) as H1.
    eapply visit_post_trans; [exact H1|].
    apply IH; [apply H1|exact Hrun].
Qed.

Lemma ca_dfs_visit job_dict :
  (forall k job, job_dict !! k = Some job -> id job = k) ->
  forall fuel k st st',
    visit_inv st ->
    CulturalAlgorithm.dfs job_dict fuel k st = Ok (true, st') ->
    visit_post st st'.
Proof.
  intros Hids. induction fuel as [|fuel IH]; intros k st st' Hinv Hrun;
    [discriminate Hrun|].
  cbn [CulturalAlgorithm.dfs] in Hrun.
  destruct (decide (k ∈ temp st)) as [Ht|Ht]; [discriminate Hrun|].
  destruct (decide (k ∈ visited st)) as [Hv|Hv].
  { injection Hrun as <-. apply visit_post_refl, Hinv. }
  set (st1 := mkTopo (visited st) ({[k]} ∪ temp st) (result st)) in *.
  assert (Hinv1 : visit_inv st1) by (destruct Hinv; constructor; assumption).
  assert (H01 : visit_post st st1).
  { split; [exact Hinv1|]. split; [reflexivity|]. split; [cbn; set_solver|].
    intros x Hx. left. exact Hx. }
  destruct (job_dict !! k) as [job|] eqn:Ejob.
  2: { injection Hrun as <-. exact H01. }
  destruct (each_dep (CulturalAlgorithm.dfs job_dict fuel) (dependencies job) st1)
    as [[[|] st2]| |] eqn:Edeps; try discriminate Hrun.
  injection Hrun as <-.
  destruct (each_dep_visit _ (dependencies job) (fun d s s' => IH d s s') st1 st2
              Hinv1 Edeps) as (Hinv2 & Hsub & Htemp & Hnew).
  cbn [visited temp result] in Hsub, Htemp, Hnew.
  assert (Hk2 : k ∉ visited st2).
  { intros Hk. destruct (Hnew k Hk) as [?|Hx]; [contradiction|].
    apply Hx. set_solver. }
  pose proof (Hids k job Ejob) as Hid.
  split; [|split; [cbn; set_solver|split; [cbn; set_solver|]]].
  - constructor; cbn [visited result].
    + intros x. rewrite map_app, in_app_iff. cbn [map In].
      rewrite elem_of_union, elem_of_singleton, (vi_visited _ Hinv2 x), Hid.
      split; intros [H|H]; auto. destruct H as [H|[]]. auto.
    + rewrite map_app. cbn [map]. apply NoDup_app. split; [apply Hinv2|].
      split; [|apply NoDup_singleton].
      intros x Hx Hx'. apply list_elem_of_singleton in Hx'. subst x.
      apply list_elem_of_In in Hx. rewrite Hid in Hx.
      apply Hk2, (vi_visited _ Hinv2), Hx.
  - cbn [visited]. intros x Hx. apply elem_of_union in Hx as [Hx|Hx].
    + apply elem_of_singleton in Hx as ->. right. exact Ht.
    + destruct (Hnew x Hx) as [H|H]; [left; exact H|right; set_solver].
Qed.

Lemma sort_loop_visit f jobs :
  (forall k st st', visit_inv st -> f k st = Ok (true, st') -> visit_post st st') ->
  forall st order,
    visit_inv st ->
    sort_loop f jobs st = Ok (Some order) ->
    NoDup (map id order).
Proof.
  intros Hf. induction jobs as [|job jobs IH]; intros st order Hinv Hrun;
    cbn [sort_loop] in Hrun.
  - injection Hrun as <-. apply Hinv.
  - destruct (decide (id job ∈ visited st)) as [Hv|Hv]; [eapply IH; eassumption|].
    destruct (f (id job) st) as [[[|] st1]| |] eqn:Ed; try discriminate Hrun.
    eapply IH; [|exact Hrun]. apply (Hf _ _ _ Hinv Ed).
Qed.

Lemma ca_topological_sort_nodup jobs order :
  CulturalAlgorithm._topological_sort jobs = Ok (Some order) ->
  NoDup (map id order).
Proof.
  unfold CulturalAlgorithm._topological_sort. intros Hrun.
  assert (Hids : forall k job, make_job_dict jobs !! k = Some job -> id job = k)
    by (intros k job Hk; apply (make_job_dict_ids jobs k job Hk)).
  eapply (sort_loop_visit _ jobs (ca_dfs_visit _ Hids _)); [|exact Hrun].
  constructor; cbn.
  - intros k. split; [set_solver|intros []].
  - apply NoDup_nil_2.
Qed.

(** ** The recursion budget of the traversals is sufficient *)

Lemma size_dom_make_job_dict jobs :
  (size (dom (make_job_dict jobs)) <= length jobs)%nat.
Proof.
  unfold make_job_dict.
  assert (Hgen : forall l (m : gmap Z Job),
            (size (dom (fold_left (fun m job => <[id job := job]> m) l m))
             <= size (dom m) + length l)%nat).
  { induction l as [|job l IH]; intros m; cbn [fold_left length]; [lia|].
    etransitivity; [apply IH|].
    rewrite dom_insert_L, size_union_alt, size_singleton.
    assert (Hsub : dom m ∖ {[id job]} ⊆ dom m) by set_solver.
    pose proof (subseteq_size _ _ Hsub) as Hle. lia. }
  specialize (Hgen jobs ∅). rewrite dom_empty_L, size_empty in Hgen. exact Hgen.
Qed.

Lemma remaining_shrinks (universe temp0 : gset Z) k :
  k ∈ universe -> k ∉ temp0 ->
  (size (universe ∖ ({[k]} ∪ temp0)) < size (universe ∖ temp0))%nat.
Proof.
  intros Hk Ht. apply subset_size. set_solver.
Qed.

Lemma remaining_mono (universe t1 t2 : gset Z) :
  t1 ⊆ t2 -> (size (universe ∖ t2) <= size (universe ∖ t1))%nat.
Proof. intros Hsub. apply subseteq_size. set_solver. Qed.

Lemma each_dep_total (I : topo_state -> Prop) f deps :
  (forall d s s', I s -> f d s = Ok (true, s') -> I s' /\ temp s ⊆ temp s') ->
  forall st, I st ->
    (forall d s, I s -> temp st ⊆ temp s -> f d s <> OutOfFuel) ->
    each_dep f deps st <> OutOfFuel.
Proof.
  intros Hpost. induction deps as [|d deps IH]; intros st HI Hf; cbn [each_dep];
    [discriminate|].
  pose proof (Hf d st HI ltac:(reflexivity)) as Hd.
  destruct (f d st) as [[[|] st1]| |] eqn:Ed; try discriminate; [|congruence].
  destruct (Hpost d st st1 HI Ed) as [HI1 Hsub].
  apply IH; [exact HI1|]. intros d' s Hs Hsub'. apply Hf; [exact Hs|set_solver].
Qed.

Lemma sort_loop_total (I : topo_state -> Prop) f jobs :
  (forall k s s', I s -> f k s = Ok (true, s') -> I s') ->
  (forall k s, I s -> f k s <> OutOfFuel) ->
  forall st, I st -> sort_loop f jobs st <> OutOfFuel.
Proof.
  intros Hpost Hf. induction jobs as [|job jobs IH]; intros st HI; cbn [sort_loop];
    [discriminate|].
  destruct (decide (id job ∈ visited st)); [apply IH, HI|].
  pose proof (Hf (id job) st HI) as Hd.
  destruct (f (id job) st) as [[[|] st1]| |] eqn:Ed; try discriminate; [|congruence].
  apply IH. eapply Hpost; eassumption.
Qed.

Lemma bt_dfs_total job_dict :
  (forall k job, job_dict !! k = Some job -> id job = k) ->
  forall fuel k st,
    topo_inv job_dict st ->
    (size (dom job_dict ∖ temp st) < fuel)%nat ->
    BacktrackingSolver.dfs job_dict fuel k st <> OutOfFuel.
Proof.
  intros Hids. induction fuel as [|fuel IH]; intros k st Hinv Hfuel; [lia|].
  cbn [BacktrackingSolver.dfs].
  destruct (decide (k ∈ temp st)) as [Ht|Ht]; [discriminate|].
  destruct (decide (k ∈ visited st)) as [Hv|Hv]; [discriminate|].
  destruct (job_dict !! k) as [job|] eqn:Ejob; [|discriminate].
  set (st1 := mkTopo (visited st) ({[k]} ∪ temp st) (result st)) in *.
  assert (Hinv1 : topo_inv job_dict st1) by (destruct Hinv; constructor; assumption).
  assert (Hdeps : each_dep (BacktrackingSolver.dfs job_dict fuel) (dependencies job) st1
                  <> OutOfFuel).
  { apply (each_dep_total (topo_inv job_dict)); [|exact Hinv1|].
    - intros d s s' Hs Hrun.
      destruct (bt_dfs_post job_dict Hids fuel d s s' Hs Hrun) as (H1 & _ & _ & H2 & _).
      split; [exact H1|]. rewrite H2. reflexivity.
    - intros d s Hs Hsub. apply IH; [exact Hs|].
      pose proof (remaining_mono (dom job_dict) _ _ Hsub) as Hle.
      pose proof (remaining_shrinks (dom job_dict) (temp st) k) as Hlt.
      unfold st1 in Hle. cbn [temp] in Hle.
      specialize (Hlt ltac:(apply elem_of_dom; eauto) Ht). lia. }
  destruct (each_dep (BacktrackingSolver.dfs job_dict fuel) (dependencies job) st1)
    as [[[|] st2]| |]; try discriminate. congruence.
Qed.

Lemma ca_dfs_total job_dict :
  (forall k job, job_dict !! k = Some job -> id job = k) ->
  forall fuel k st,
    visit_inv st ->
    (size (dom job_dict ∖ temp st) < fuel)%nat ->
    CulturalAlgorithm.dfs job_dict fuel k st <> OutOfFuel.
Proof.
  intros Hids. induction fuel as [|fuel IH]; intros k st Hinv Hfuel; [lia|].
  cbn [CulturalAlgorithm.dfs].
  destruct (decide (k ∈ temp st)) as [Ht|Ht]; [discriminate|].
  destruct (decide (k ∈ visited st)) as [Hv|Hv]; [discriminate|].
  destruct (job_dict !! k) as [job|] eqn:Ejob; [|discriminate].
  set (st1 := mkTopo (visited st) ({[k]} ∪ temp st) (result st)) in *.
  assert (Hinv1 : visit_inv st1) by (destruct Hinv; constructor; assumption).
  assert (Hdeps : each_dep (CulturalAlgorithm.dfs job_dict fuel) (dependencies job) st1
                  <> OutOfFuel).
  { apply (each_dep_total visit_inv); [|exact Hinv1|].
    - intros d s s' Hs Hrun.
      destruct (ca_dfs_visit job_dict Hids fuel d s s' Hs Hrun) as (H1 & _ & H2 & _).
      split; assumption.
    - intros d s Hs Hsub. apply IH; [exact Hs|].
      pose proof (remaining_mono (dom job_dict) _ _ Hsub) as Hle.
      pose proof (remaining_shrinks (dom job_dict) (temp st) k) as Hlt.
      unfold st1 in Hle. cbn [temp] in Hle.
      specialize (Hlt ltac:(apply elem_of_dom; eauto) Ht). lia. }
  destruct (each_dep (CulturalAlgorithm.dfs job_dict fuel) (dependencies job) st1)
    as [[[|] st2]| |]; try discriminate. congruence.
Qed.

(** Neither topological sort runs out of its recursion budget: each
    returns an order, reports a cycle, or raises. *)
Lemma topological_sort_total jobs :
  BacktrackingSolver._topological_sort jobs <> OutOfFuel /\
  CulturalAlgorithm._topological_sort jobs <> OutOfFuel.
Proof.
  assert (Hids : forall k job, make_job_dict jobs !! k = Some job -> id job = k)
    by (intros k job Hk; apply (make_job_dict_ids jobs k job Hk)).
  pose proof (size_dom_make_job_dict jobs) as Hsize.
  split.
  - unfold BacktrackingSolver._topological_sort.
    apply (sort_loop_total
             (fun s => topo_inv (make_job_dict jobs) s /\ temp s = ∅)).
    + intros k s s' [Hs Ht] Hrun.
      destruct (bt_dfs_post _ Hids _ k s s' Hs Hrun) as (H1 & _ & _ & H2 & _).
      split; [exact H1|congruence].
    + intros k s [Hs Ht]. apply (bt_dfs_total _ Hids); [exact Hs|].
      rewrite Ht.
      assert (Hsub : dom (make_job_dict jobs) ∖ ∅ ⊆ dom (make_job_dict jobs))
        by set_solver.
      pose proof (subseteq_size _ _ Hsub) as Hle. lia.
    + split; [apply topo_inv_init|reflexivity].
  - unfold CulturalAlgorithm._topological_sort.
    apply (sort_loop_total visit_inv).
    + intros k s s' Hs Hrun. apply (ca_dfs_visit _ Hids _ k s s' Hs Hrun).
    + intros k s Hs. apply (ca_dfs_total _ Hids); [exact Hs|].
      assert (Hsub : dom (make_job_dict jobs) ∖ temp s ⊆ dom (make_job_dict jobs))
        by set_solver.
      pose proof (subseteq_size _ _ Hsub) as Hle. lia.
    + constructor; cbn.
      * intros k. split; [set_solver|intros []].
      * apply NoDup_nil_2.
Qed.

(** The greedy [solve] always returns a response or raises. *)
Lemma greedy_solve_total jobs : BacktrackingSolver.solve jobs <> OutOfFuel.
Proof.
  unfold BacktrackingSolver.solve.
  destruct (first_over_capacity jobs); [discriminate|].
  pose proof (proj1 (topological_sort_total jobs)) as Hsort.
  destruct (BacktrackingSolver._topological_sort jobs) as [[[|job order]|]| |];
    cbn [obind]; try discriminate; [|congruence].
  assert (Hall : forall order st,
            BacktrackingSolver.schedule_all order st <> OutOfFuel).
  { induction order0 as [|j order0 IH]; intros st;
      cbn [BacktrackingSolver.schedule_all]; [discriminate|].
    assert (Hjob : BacktrackingSolver.schedule_job st j <> OutOfFuel).
    { unfold BacktrackingSolver.schedule_job, final_sizes.
      destruct (duration j >? MAX_CHUNK_SIZE); [|discriminate].
      destruct (_ =? 0); cbn [obind]; discriminate. }
    destruct (BacktrackingSolver.schedule_job st j); cbn [obind];
      [apply IH|discriminate|congruence]. }
  specialize (Hall (job :: order) BacktrackingSolver.init_state).
  destruct (BacktrackingSolver.schedule_all (job :: order) BacktrackingSolver.init_state)
    as [st| |]; cbn [obind]; try discriminate; [|congruence].
  destruct (max_list (BacktrackingSolver.machine_times st)) eqn:Emax; cbn [obind];
    try discriminate.
  destruct (BacktrackingSolver.machine_times st); discriminate Emax.
Qed.

(** ** Chromosomes of the search keep well-formed chunk sizes *)

Section SearchFacts.
Context {F : Type} {fo : FloatOps F} {R : Type} {rg : RandomGen R}.

Lemma bind_ok {A B} (c : CulturalAlgorithm.GA (R := R) A)
    (k : A -> CulturalAlgorithm.GA (R := R) B) g b g' :
  CulturalAlgorithm.bind c k g = Ok (b, g') ->
  exists a g1, c g = Ok (a, g1) /\ k a g1 = Ok (b, g').
Proof.
  unfold CulturalAlgorithm.bind. destruct (c g) as [[a g1]| |]; cbn [obind fst snd];
    try discriminate.
  intros Hk. exists a, g1. split; [reflexivity|exact Hk].
Qed.

Lemma lift_ok {A} (x : outcome A) (g : R) a g' :
  CulturalAlgorithm.lift x g = Ok (a, g') -> x = Ok a /\ g' = g.
Proof.
  unfold CulturalAlgorithm.lift. destruct x; cbn [obind]; try discriminate.
  intros [= <- <-]. split; reflexivity.
Qed.

Lemma ret_ok {A} (x : A) (g : R) a g' :
  CulturalAlgorithm.ret x g = Ok (a, g') -> a = x /\ g' = g.
Proof. unfold CulturalAlgorithm.ret. intros [= <- <-]. split; reflexivity. Qed.

Lemma dict_get_set {A} k k' (v : A) d :
  dict_get k (CulturalAlgorithm.dict_set k' v d)
  = if k =? k' then Some v else dict_get k d.
Proof.
  induction d as [|[k0 v0] d IH]; cbn [CulturalAlgorithm.dict_set dict_get].
  - reflexivity.
  - destruct (Z.eqb_spec k' k0) as [->|Hne]; cbn [dict_get].
    + destruct (k =? k0); reflexivity.
    + destruct (Z.eqb_spec k k0) as [->|Hne'].
      * destruct (Z.eqb_spec k0 k'); [congruence|reflexivity].
      * exact IH.
Qed.

Lemma sizes_ok_set chrom k chunks :
  sizes_ok chrom -> chunks_ok chunks ->
  sizes_ok (CulturalAlgorithm.dict_set k chunks chrom).
Proof.
  intros Hc Hv k' chunks'. rewrite dict_get_set.
  destruct (k' =? k); [intros [= <-]; exact Hv|apply Hc].
Qed.

Lemma sizes_ok_nil : sizes_ok [].
Proof. intros k chunks. discriminate. Qed.

Lemma spread_machines_sizes machines sizes :
  forall i chunks,
    CulturalAlgorithm.spread_machines machines i sizes = Ok chunks ->
    map c_size chunks = sizes.
Proof.
  induction sizes as [|s sizes IH]; intros i chunks;
    cbn [CulturalAlgorithm.spread_machines].
  - intros [= <-]. reflexivity.
  - destruct (py_index _ _); [|discriminate].
    destruct (CulturalAlgorithm.spread_machines machines (i + 1) sizes) as [cs| |] eqn:E;
      cbn [obind]; try discriminate.
    intros [= <-]. cbn [map c_size]. rewrite (IH _ _ E). reflexivity.
Qed.

Lemma intelligent_split_ok job (g g' : R) chunks :
  duration job > MAX_CHUNK_SIZE ->
  CulturalAlgorithm._create_intelligent_split job g = Ok (chunks, g') ->
  chunks_ok chunks.
Proof.
  intros Hd Hrun. unfold CulturalAlgorithm._create_intelligent_split in Hrun.
  apply bind_ok in Hrun as (sizes & g1 & Hsizes & Hrun).
  apply lift_ok in Hsizes as [Hsizes _].
  apply bind_ok in Hrun as (machines & g2 & _ & Hrun).
  apply bind_ok in Hrun as (cs & g3 & Hcs & Hrun).
  apply lift_ok in Hcs as [Hcs _].
  destruct (sumZ (map c_size cs) =? duration job).
  2: { apply lift_ok in Hrun as [Hrun _]. discriminate Hrun. }
  apply ret_ok in Hrun as [-> _].
  right. apply List.Forall_map. rewrite (spread_machines_sizes _ _ _ _ Hcs).
  assert (Hshape : chunk_sizes job = Ok sizes).
  { unfold chunk_sizes. destruct (Z.gtb_spec (duration job) MAX_CHUNK_SIZE); [|lia].
    exact Hsizes. }
  destruct (chunk_sizes_shape job sizes Hshape) as [Hlen|Hpos]; [|exact Hpos].
  assert (Hpos : 0 < duration job) by (unfold MAX_CHUNK_SIZE in Hd; lia).
  rewrite (final_sizes_balanced _ Hpos) in Hsizes. injection Hsizes as <-.
  destruct (balanced_arith _ Hpos) as (_ & _ & _ & Hq & _).
  apply Forall_app. split; apply Forall_repeat_nonempty; intros _; lia.
Qed.

Lemma smart_chromosome_ok order :
  forall chrom (g g' : R) chrom',
    CulturalAlgorithm._create_smart_chromosome_from chrom order g = Ok (chrom', g') ->
    sizes_ok chrom -> sizes_ok chrom'.
Proof.
  induction order as [|job order IH]; intros chrom g g' chrom' Hrun Hok;
    cbn [CulturalAlgorithm._create_smart_chromosome_from] in Hrun.
  - apply ret_ok in Hrun as [-> _]. exact Hok.
  - apply bind_ok in Hrun as (chunks & g1 & Hchunks & Hrun).
    eapply IH; [exact Hrun|]. apply sizes_ok_set; [exact Hok|].
    destruct (Z.leb_spec (duration job) MAX_CHUNK_SIZE) as [Hle|Hgt].
    + apply bind_ok in Hchunks as (m & g2 & _ & Hret).
      apply ret_ok in Hret as [-> _]. left. cbn. lia.
    + eapply intelligent_split_ok; [|exact Hchunks]. lia.
Qed.

Lemma init_population_ok n order :
  forall (g g' : R) pop,
    CulturalAlgorithm.init_population n order g = Ok (pop, g') ->
    Forall sizes_ok pop.
Proof.
  induction n as [|n IH]; intros g g' pop Hrun;
    cbn [CulturalAlgorithm.init_population] in Hrun.
  - apply ret_ok in Hrun as [-> _]. constructor.
  - apply bind_ok in Hrun as (chrom & g1 & Hchrom & Hrun).
    apply bind_ok in Hrun as (rest & g2 & Hrest & Hrun).
    apply ret_ok in Hrun as [-> _]. constructor; [|eapply IH; exact Hrest].
    eapply smart_chromosome_ok; [exact Hchrom|apply sizes_ok_nil].
Qed.

Lemma set_machine_ok chunks i m cs :
  CulturalAlgorithm.set_machine chunks i m = Ok cs ->
  chunks_ok chunks -> chunks_ok cs.
Proof.
  unfold CulturalAlgorithm.set_machine.
  destruct (py_index (length chunks) i) as [k|]; [|discriminate].
  destruct (nth_error chunks k) as [c|] eqn:Ec; [|discriminate].
  intros [= <-] [Hlen|Hpos].
  - left. rewrite length_insert. exact Hlen.
  - right. apply Forall_insert; [exact Hpos|]. cbn [c_size].
    rewrite Forall_forall in Hpos. apply Hpos, list_elem_of_In.
    eapply nth_error_In. exact Ec.
Qed.

Lemma mutate_ok bs chrom order (g g' : R) chrom' :
  CulturalAlgorithm._mutate (F := F) bs chrom order g = Ok (chrom', g') ->
  sizes_ok chrom -> sizes_ok chrom'.
Proof.
  unfold CulturalAlgorithm._mutate. intros Hrun Hok.
  destruct order as [|j order]; [apply ret_ok in Hrun as [-> _]; exact Hok|].
  apply bind_ok in Hrun as (job & g1 & _ & Hrun).
  destruct (dict_get (id job) chrom) as [chunks|] eqn:Eget;
    [|apply ret_ok in Hrun as [-> _]; exact Hok].
  apply bind_ok in Hrun as (mt & g2 & _ & Hrun).
  destruct (Z.gtb_spec (duration job) MAX_CHUNK_SIZE) as [Hgt|Hle].
  - destruct mt.
    + apply bind_ok in Hrun as (cs & g3 & Hcs & Hrun).
      apply ret_ok in Hrun as [-> _]. apply sizes_ok_set; [exact Hok|].
      eapply intelligent_split_ok; [|exact Hcs]. lia.
    + destruct chunks as [|c chunks]; [apply ret_ok in Hrun as [-> _]; exact Hok|].
      apply bind_ok in Hrun as (idx & g3 & _ & Hrun).
      apply bind_ok in Hrun as (m & g4 & _ & Hrun).
      apply bind_ok in Hrun as (cs & g5 & Hcs & Hrun).
      apply lift_ok in Hcs as [Hcs _].
      apply ret_ok in Hrun as [-> _]. apply sizes_ok_set; [exact Hok|].
      eapply set_machine_ok; [exact Hcs|]. apply (Hok _ _ Eget).
  - apply bind_ok in Hrun as (infl & g3 & _ & Hrun).
    apply bind_ok in Hrun as (m & g4 & _ & Hrun).
    apply bind_ok in Hrun as (cs & g5 & Hcs & Hrun).
    apply lift_ok in Hcs as [Hcs _].
    apply ret_ok in Hrun as [-> _]. apply sizes_ok_set; [exact Hok|].
    eapply set_machine_ok; [exact Hcs|]. apply (Hok _ _ Eget).
Qed.

Lemma crossover_ok p1 p2 order :
  sizes_ok p1 -> sizes_ok p2 ->
  forall child (g g' : R) child',
    CulturalAlgorithm._crossover_from child p1 p2 order g = Ok (child', g') ->
    sizes_ok child -> sizes_ok child'.
Proof.
  intros H1 H2. induction order as [|job order IH]; intros child g g' child' Hrun Hok;
    cbn [CulturalAlgorithm._crossover_from] in Hrun.
  - apply ret_ok in Hrun as [-> _]. exact Hok.
  - apply bind_ok in Hrun as (b & g1 & _ & Hrun).
    eapply IH; [exact Hrun|].
    destruct b.
    + destruct (dict_get (id job) p1) as [chunks|] eqn:E; [|exact Hok].
      apply sizes_ok_set; [exact Hok|apply (H1 _ _ E)].
    + destruct (dict_get (id job) p2) as [chunks|] eqn:E; [|exact Hok].
      apply sizes_ok_set; [exact Hok|apply (H2 _ _ E)].
Qed.

Lemma choice_in {A} (l : list A) (g g' : R) x :
  choice l g = Ok (x, g') -> In x l.
Proof.
  unfold choice. destruct (choice_index (length l) g) as [i g1].
  destruct (nth_error l i) as [y|] eqn:E; [|discriminate].
  intros [= <- _]. eapply nth_error_In. exact E.
Qed.

Lemma mapM_nth_error_in {A} (l : list A) idx xs :
  mapM (fun i => nth_error l i) idx = Some xs -> forall x, In x xs -> In x l.
Proof.
  revert xs. induction idx as [|i idx IH]; intros xs; cbn [mapM].
  - intros [= <-] x [].
  - destruct (nth_error l i) as [y|] eqn:E; cbn; [|discriminate].
    destruct (mapM (fun i => nth_error l i) idx) as [ys|]; cbn; [|discriminate].
    intros [= <-] x [<-|Hx]; [eapply nth_error_In; exact E|apply (IH ys eq_refl x Hx)].
Qed.

Lemma sample_in {A} (l : list A) k (g g' : R) xs :
  sample l k g = Ok (xs, g') -> forall x, In x xs -> In x l.
Proof.
  unfold sample. destruct (sample_indices (length l) k g) as [idx g1].
  destruct (mapM (fun i => nth_error l i) idx) as [ys|] eqn:E; [|discriminate].
  intros [= <- _]. apply (mapM_nth_error_in l idx ys E).
Qed.

Lemma best_of_in (tournament : list (BeliefSpace.individual F)) x :
  CulturalAlgorithm.best_of tournament = Ok x -> In x tournament.
Proof.
  unfold CulturalAlgorithm.best_of. destruct tournament as [|y rest]; [discriminate|].
  intros [= <-].
  assert (Hgen : forall l (b : BeliefSpace.individual F),
            fold_left (fun best y =>
              if fit_ltb (BeliefSpace.ind_fitness y) (BeliefSpace.ind_fitness best)
              then y else best) l b = b \/
            In (fold_left (fun best y =>
              if fit_ltb (BeliefSpace.ind_fitness y) (BeliefSpace.ind_fitness best)
              then y else best) l b) l).
  { induction l as [|z l IH]; intros b; cbn [fold_left]; [left; reflexivity|].
    destruct (IH (if fit_ltb (BeliefSpace.ind_fitness z) (BeliefSpace.ind_fitness b)
                  then z else b)) as [E|Hin].
    - rewrite E. destruct (fit_ltb _ _); [right; left; reflexivity|left; reflexivity].
    - right. right. exact Hin. }
  destruct (Hgen rest y) as [E|Hin]; [left; symmetry; exact E|right; exact Hin].
Qed.

Lemma select_from n (fitness_scores : list (BeliefSpace.individual F)) :
  forall (g g' : R) parents,
    CulturalAlgorithm.select_n n fitness_scores g = Ok (parents, g') ->
    forall p, In p parents ->
      exists x, In x fitness_scores /\ p = BeliefSpace.ind_chromosome x.
Proof.
  induction n as [|n IH]; intros g g' parents Hrun;
    cbn [CulturalAlgorithm.select_n] in Hrun.
  - apply ret_ok in Hrun as [-> _]. intros p [].
  - apply bind_ok in Hrun as (tournament & g1 & Ht & Hrun).
    apply bind_ok in Hrun as (best & g2 & Hbest & Hrun).
    apply lift_ok in Hbest as [Hbest _].
    apply bind_ok in Hrun as (rest & g3 & Hrest & Hrun).
    apply ret_ok in Hrun as [-> _].
    intros p [<-|Hp]; [|eapply IH; eassumption].
    exists best. split; [|reflexivity].
    eapply sample_in; [exact Ht|]. apply best_of_in, Hbest.
Qed.

Lemma score_from job_dict order pop :
  forall inds,
    CulturalAlgorithm.score (F := F) job_dict order pop = Ok inds ->
    forall x, In x inds ->
      In (BeliefSpace.ind_chromosome x) pop /\
      exists f, Evaluator._evaluate_chromosome job_dict (BeliefSpace.ind_chromosome x) order
                = Ok (Fin f, BeliefSpace.ind_schedule x, BeliefSpace.ind_violations x).
Proof.
  induction pop as [|chrom pop IH]; intros inds Hrun; cbn [CulturalAlgorithm.score] in Hrun.
  - injection Hrun as <-. intros x [].
  - destruct (Evaluator._evaluate_chromosome job_dict chrom order)
      as [[[fit sched] viol]| |] eqn:Eeval; cbn [obind] in Hrun;
      try discriminate Hrun.
    destruct (CulturalAlgorithm.score job_dict order pop) as [scored| |];
      cbn [obind] in Hrun; try discriminate Hrun.
    injection Hrun as <-. intros x Hx.
    assert (Hrest : In x scored ->
              In (BeliefSpace.ind_chromosome x) (chrom :: pop) /\
              exists f, Evaluator._evaluate_chromosome job_dict
                          (BeliefSpace.ind_chromosome x) order
                        = Ok (Fin f, BeliefSpace.ind_schedule x,
                              BeliefSpace.ind_violations x)).
    { intros Hin. destruct (IH scored eq_refl x Hin) as [H1 H2].
      split; [right; exact H1|exact H2]. }
    destruct fit as [f|]; cbn [fit_ltb] in Hx; [|apply Hrest, Hx].
    destruct Hx as [<-|Hx]; [|apply Hrest, Hx].
    split; [left; reflexivity|]. exists f. exact Eeval.
Qed.

Lemma breed_ok n bs parents order :
  Forall sizes_ok parents ->
  forall (g g' : R) children,
    CulturalAlgorithm.breed (F := F) n bs parents order g = Ok (children, g') ->
    Forall sizes_ok children.
Proof.
  intros Hparents. rewrite Forall_forall in Hparents.
  induction n as [|n IH]; intros g g' children Hrun;
    cbn [CulturalAlgorithm.breed] in Hrun.
  - apply ret_ok in Hrun as [-> _]. constructor.
  - apply bind_ok in Hrun as (p1 & g1 & Hp1 & Hrun).
    apply bind_ok in Hrun as (p2 & g2 & Hp2 & Hrun).
    apply bind_ok in Hrun as (cross & g3 & _ & Hrun).
    apply bind_ok in Hrun as (child & g4 & Hchild & Hrun).
    apply bind_ok in Hrun as (mut & g5 & _ & Hrun).
    apply bind_ok in Hrun as (child' & g6 & Hchild' & Hrun).
    apply bind_ok in Hrun as (rest & g7 & Hrest & Hrun).
    apply ret_ok in Hrun as [-> _].
    pose proof (Hparents p1 (proj2 (list_elem_of_In _ _) (choice_in _ _ _ _ Hp1))) as Hok1.
    pose proof (Hparents p2 (proj2 (list_elem_of_In _ _) (choice_in _ _ _ _ Hp2))) as Hok2.
    assert (Hc : sizes_ok child).
    { destruct cross.
      - eapply (crossover_ok p1 p2 order Hok1 Hok2); [exact Hchild|apply sizes_ok_nil].
      - apply ret_ok in Hchild as [-> _]. exact Hok1. }
    constructor; [|eapply IH; exact Hrest].
    destruct mut.
    + eapply mutate_ok; [exact Hchild'|exact Hc].
    + apply ret_ok in Hchild' as [-> _]. exact Hc.
Qed.

Lemma generation_ok job_dict order bs pop (g g' : R) bs' pop' :
  CulturalAlgorithm.generation job_dict order (bs, pop) g = Ok ((bs', pop'), g') ->
  Forall sizes_ok pop -> belief_well_evaluated job_dict order bs ->
  Forall sizes_ok pop' /\ belief_well_evaluated job_dict order bs'.
Proof.
  unfold CulturalAlgorithm.generation. intros Hrun Hpop Hbs.
  apply bind_ok in Hrun as (inds & g1 & Hscore & Hrun).
  apply lift_ok in Hscore as [Hscore _].
  pose proof (score_from job_dict order pop inds Hscore) as Hfrom.
  destruct inds as [|x0 inds0] eqn:Einds.
  { apply ret_ok in Hrun as [[= -> ->] _]. split; assumption. }
  rewrite <- Einds in *. clear Einds x0 inds0.
  apply bind_ok in Hrun as (bs1 & g2 & Hup & Hrun).
  apply lift_ok in Hup as [Hup _].
  apply bind_ok in Hrun as (parents & g3 & Hsel & Hrun).
  apply bind_ok in Hrun as (children & g4 & Hbreed & Hrun).
  apply ret_ok in Hrun as [[= -> ->] _].
  assert (Hinds : forall x, In x inds -> sizes_ok (BeliefSpace.ind_chromosome x)).
  { intros x Hx. rewrite Forall_forall in Hpop.
    apply Hpop, list_elem_of_In, (Hfrom x Hx). }
  split.
  - apply Forall_app. split.
    + apply Forall_forall. intros c Hc. apply list_elem_of_In in Hc.
      apply in_map_iff in Hc as (x & <- & Hx). apply Hinds.
      apply list_elem_of_In. apply list_elem_of_In in Hx.
      apply elem_of_take in Hx as (i & Hi & _).
      apply list_elem_of_lookup_2 in Hi.
      rewrite (sorted_by_perm fit_ltb BeliefSpace.ind_fitness inds) in Hi. exact Hi.
    + eapply breed_ok; [|exact Hbreed].
      apply Forall_forall. intros p Hp. apply list_elem_of_In in Hp.
      destruct (select_from _ _ _ _ _ Hsel p Hp) as (x & Hx & ->). apply Hinds, Hx.
  - assert (Hne : inds <> []) by (intros ->; discriminate Hup).
    destruct (update_unfold bs inds Hne) as (best & rest & Es & _ & Hu).
    rewrite Hu in Hup. injection Hup as <-. clear Hu.
    assert (Hin : In best inds).
    { apply list_elem_of_In.
      rewrite <- (sorted_by_perm fit_ltb BeliefSpace.ind_fitness inds), Es.
      apply elem_of_cons. left. reflexivity. }
    intros s. cbv zeta. cbn [BeliefSpace.global_best_schedule].
    destruct (fit_ltb (BeliefSpace.ind_fitness best) (BeliefSpace.global_best_fitness bs));
      cbn [BeliefSpace.global_best_schedule]; [|apply Hbs].
    intros [= <-]. destruct (Hfrom best Hin) as [_ [f Hf]].
    exists (BeliefSpace.ind_chromosome best), f, (BeliefSpace.ind_violations best).
    split; [apply Hinds, Hin|exact Hf].
Qed.

Lemma evolve_ok job_dict order n :
  forall bs pop (g g' : R) bs' pop',
    CulturalAlgorithm.evolve n job_dict order (bs, pop) g = Ok ((bs', pop'), g') ->
    Forall sizes_ok pop -> belief_well_evaluated job_dict order bs ->
    belief_well_evaluated job_dict order bs'.
Proof.
  induction n as [|n IH]; intros bs pop g g' bs' pop' Hrun Hpop Hbs;
    cbn [CulturalAlgorithm.evolve] in Hrun.
  - apply ret_ok in Hrun as [[= -> ->] _]. exact Hbs.
  - apply bind_ok in Hrun as ([bs1 pop1] & g1 & Hgen & Hrun).
    destruct (generation_ok _ _ _ _ _ _ _ _ Hgen Hpop Hbs) as [Hpop1 Hbs1].
    eapply IH; eassumption.
Qed.

(** A successful cultural [solve] returns the timelines of a feasible
    evaluation, over its topological order, of a chromosome with
    well-formed chunk sizes. *)
Lemma cultural_solve_well_evaluated jobs (g g' : R) (r : ScheduleResult (fitness F)) :
  CulturalAlgorithm.solve jobs g = Ok (r, g') ->
  success r = true ->
  exists order s,
    CulturalAlgorithm._topological_sort jobs = Ok (Some order) /\
    well_evaluated F (make_job_dict jobs) order s /\
    schedule r = CulturalAlgorithm._build_final_schedule s.
Proof.
  unfold CulturalAlgorithm.solve. intros Hrun Hsucc.
  destruct (first_over_capacity jobs);
    [apply ret_ok in Hrun as [-> _]; discriminate Hsucc|].
  apply bind_ok in Hrun as (topo & g1 & Hsort & Hrun).
  apply lift_ok in Hsort as [Hsort _].
  destruct topo as [[|job order]|];
    try (apply ret_ok in Hrun as [-> _]; discriminate Hsucc).
  apply bind_ok in Hrun as (pop & g2 & Hpop & Hrun).
  apply bind_ok in Hrun as ([bs pop'] & g3 & Hev & Hrun).
  cbn [fst] in Hrun.
  assert (Hbs : belief_well_evaluated (make_job_dict jobs) (job :: order) bs).
  { eapply evolve_ok; [exact Hev|eapply init_population_ok; exact Hpop|].
    intros s Hs. discriminate Hs. }
  destruct (BeliefSpace.global_best_schedule bs) as [[|m ms]|] eqn:Ebest;
    try (apply ret_ok in Hrun as [-> _]; discriminate Hsucc).
  destruct (fit_ltb (BeliefSpace.global_best_fitness bs) Inf);
    [|apply ret_ok in Hrun as [-> _]; discriminate Hsucc].
  apply ret_ok in Hrun as [-> _]. exists (job :: order), (m :: ms).
  split; [exact Hsort|]. split; [apply Hbs; exact Ebest|reflexivity].
Qed.

End SearchFacts.

(** ** Dependencies and chunk sequencing in the produced schedules *)

Lemma chunks_of_in job_id placed p :
  In p (chunks_of job_id placed) <-> In p placed /\ id (p_job p) = job_id.
Proof.
  unfold chunks_of. rewrite List.filter_In, Z.eqb_eq. reflexivity.
Qed.

Lemma single_chunk_ends_late t pl s :
  0 <= t -> chained t pl -> map p_size pl = [s] ->
  exists p, pl = [p] /\ s <= p_end p.
Proof.
  intros Ht Hc Hmap. destruct pl as [|p [|q pl]]; try discriminate Hmap.
  injection Hmap as Hs. destruct Hc as (H1 & H2 & _).
  exists p. split; [reflexivity|lia].
Qed.

Section ScheduleFacts.
Context {F : Type} {fo : FloatOps F} {R : Type} {rg : RandomGen R}.

Lemma greedy_respects jobs r :
  BacktrackingSolver.solve jobs = Ok r -> success r = true ->
  respects_dependencies (map tc_placed (concat (schedule r))).
Proof.
  intros Hrun Hsucc.
  destruct (greedy_solve_success jobs r Hrun Hsucc)
    as (order & st & _ & _ & Hinv & _ & _ & _ & Hperm).
  eapply respects_dependencies_perm; [symmetry; exact Hperm|].
  apply (gi_deps _ _ Hinv).
Qed.

Lemma evaluator_respects job_dict chrom order (f : F) scheds viol :
  NoDup (map id order) -> sizes_ok chrom ->
  Evaluator._evaluate_chromosome job_dict chrom order = Ok (Fin f, scheds, viol) ->
  respects_dependencies (concat scheds).
Proof.
  intros Hnd Hsz Hrun.
  destruct (evaluate_feasible_inv _ _ _ _ _ _ Hnd Hrun) as (st & Hinv & _ & -> & _).
  apply (ei_deps _ _ _ Hinv Hsz).
Qed.

Lemma cultural_respects jobs (g g' : R) (r : ScheduleResult (fitness F)) :
  CulturalAlgorithm.solve jobs g = Ok (r, g') -> success r = true ->
  respects_dependencies (map tc_placed (concat (schedule r))).
Proof.
  intros Hrun Hsucc.
  destruct (cultural_solve_well_evaluated jobs g g' r Hrun Hsucc)
    as (order & s & Hsort & (chrom & f & viol & Hsz & Heval) & Hsched).
  pose proof (ca_topological_sort_nodup jobs order Hsort) as Hnd.
  eapply respects_dependencies_perm;
    [|exact (evaluator_respects _ _ _ _ _ _ Hnd Hsz Heval)].
  rewrite Hsched. symmetry. apply build_final_placed.
  destruct (evaluate_feasible _ _ _ _ _ _ Heval) as (st & _ & Hjobs & _ & -> & _).
  assert (Hok : timelines_ok st).
  { apply (eval_jobs_timelines chrom order Evaluator.init_state st); [|exact Hjobs].
    apply (ei_ok _ _ _ (eval_inv_init chrom)). }
  rewrite (tl_scheds _ Hok). reflexivity.
Qed.

Lemma greedy_dependent_starts_late (A B : Job) jobs r :
  duration A = 5 -> dependencies B = [id A] -> id A <> id B ->
  Permutation jobs [A; B] ->
  BacktrackingSolver.solve jobs = Ok r -> success r = true ->
  forall tc, In tc (concat (schedule r)) -> tc_job tc = B -> 5 <= tc_start tc.
Proof.
  intros HdA HdepB Hne Hjobs Hrun Hsucc tc Htc HtcB.
  destruct (greedy_solve_success jobs r Hrun Hsucc)
    as (order & st & Hsort & _ & Hinv & _ & _ & _ & Hperm).
  destruct (bt_topological_sort_ordered jobs order Hsort) as (_ & _ & Hall & Hfrom).
  assert (HA : In A order).
  { assert (HinA : In A jobs)
      by (eapply Permutation_in; [symmetry; exact Hjobs|now left]).
    pose proof (Hall A HinA) as Hidin.
    apply in_map_iff in Hidin as (A' & Hid & HA').
    pose proof (Permutation_in _ Hjobs (Hfrom A' HA')) as [<-|[<-|[]]];
      [exact HA'|congruence]. }
  destruct (gi_trace _ _ Hinv A HA) as (sizes & pl & t & Hsz & Ht & Hc & Hmap & Hch).
  assert (Hsizes : sizes = [5]).
  { unfold chunk_sizes in Hsz. rewrite HdA in Hsz. cbn in Hsz. congruence. }
  rewrite Hsizes in Hmap.
  destruct (single_chunk_ends_late t pl 5 Ht Hc Hmap) as (pA & -> & HendA).
  assert (HpA : In pA (flat st) /\ id (p_job pA) = id A).
  { apply chunks_of_in. eapply Permutation_in; [symmetry; exact Hch|now left]. }
  destruct HpA as [HpA HidA].
  assert (Htc' : In (tc_placed tc) (flat st)).
  { eapply Permutation_in; [exact Hperm|]. apply in_map, Htc. }
  pose proof (gi_deps _ _ Hinv (tc_placed tc) pA Htc' HpA) as Hdep.
  cbn [tc_placed p_job p_start] in Hdep. rewrite HtcB, HdepB, HidA in Hdep.
  specialize (Hdep (or_introl eq_refl)). lia.
Qed.

Lemma evaluator_dependent_starts_late (A B : Job) job_dict (mA mB : Z)
    (f : F) scheds viol :
  dependencies B = [id A] -> id A <> id B ->
  Evaluator._evaluate_chromosome job_dict
    [(id A, [mkChunk mA 5 0]); (id B, [mkChunk mB 5 0])] [A; B]
  = Ok (Fin f, scheds, viol) ->
  forall p, In p (concat scheds) -> p_job p = B -> 5 <= p_start p.
Proof.
  intros HdepB Hne Hrun p Hp HpB.
  set (chrom := [(id A, [mkChunk mA 5 0]); (id B, [mkChunk mB 5 0])]) in *.
  assert (Hnd : NoDup (map id [A; B])).
  { cbn [map]. apply NoDup_cons. split; [|apply NoDup_singleton].
    intros Hin. apply list_elem_of_singleton in Hin. contradiction. }
  assert (Hsz : sizes_ok chrom).
  { intros k chunks. unfold chrom. cbn [dict_get].
    destruct (k =? id A); [intros [= <-]; left; cbn; lia|].
    destruct (k =? id B); [intros [= <-]; left; cbn; lia|discriminate]. }
  destruct (evaluate_feasible_inv _ _ _ _ _ _ Hnd Hrun) as (st & Hinv & _ & -> & _).
  destruct (ei_trace _ _ _ Hinv A (or_introl eq_refl))
    as (chunks & pl & t & Hget & Ht & Hc & Hmap & Hch).
  assert (Hchunks : chunks = [mkChunk mA 5 0]).
  { unfold chrom in Hget. cbn [dict_get] in Hget. rewrite Z.eqb_refl in Hget.
    congruence. }
  subst chunks. cbn in Hmap.
  destruct (single_chunk_ends_late t pl 5 Ht Hc Hmap) as (pA & -> & HendA).
  assert (HpA : In pA (eflat st) /\ id (p_job pA) = id A).
  { apply chunks_of_in. eapply Permutation_in; [symmetry; exact Hch|now left]. }
  destruct HpA as [HpA HidA].
  pose proof (ei_deps _ _ _ Hinv Hsz p pA Hp HpA) as Hdep.
  rewrite HpB, HdepB, HidA in Hdep.
  specialize (Hdep (or_introl eq_refl)). lia.
Qed.

End ScheduleFacts.

(** C5.  In the response of a successful greedy [solve], and in the
    schedule of every feasible evaluation of a chromosome whose chunk sizes
    are as the solver generates them (over an order without repeated
    identifiers, as the topological sort returns), no chunk starts before
    the end of any chunk of a job it depends on.  Every evaluation the
    cultural solver retains is of that kind, so the response of a successful
    cultural [solve] has the property too.  In particular, when job B
    depends on job A and A takes 5 units in a single chunk, every chunk of B
    starts at 5 or later: in the greedy schedule of the two jobs given in
    either order, and in the evaluation of any assignment of the two chunks
    to machines. *)
Theorem no_chunk_before_its_dependencies
    {F : Type} {fo : FloatOps F} {R : Type} {rg : RandomGen R} :
  (forall jobs r,
     BacktrackingSolver.solve jobs = Ok r -> success r = true ->
     respects_dependencies (map tc_placed (concat (schedule r)))) /\
  (forall job_dict chrom order (f : F) scheds viol,
     NoDup (map id order) -> sizes_ok chrom ->
     Evaluator._evaluate_chromosome job_dict chrom order = Ok (Fin f, scheds, viol) ->
     respects_dependencies (concat scheds)) /\
  (forall jobs (g g' : R) (r : ScheduleResult (fitness F)),
     CulturalAlgorithm.solve jobs g = Ok (r, g') -> success r = true ->
     respects_dependencies (map tc_placed (concat (schedule r)))) /\
  (forall (A B : Job),
     duration A = 5 -> dependencies B = [id A] -> id A <> id B ->
     (forall jobs r,
        Permutation jobs [A; B] ->
        BacktrackingSolver.solve jobs = Ok r -> success r = true ->
        forall tc, In tc (concat (schedule r)) -> tc_job tc = B -> 5 <= tc_start tc) /\
     (forall job_dict mA mB (f : F) scheds viol,
        Evaluator._evaluate_chromosome job_dict
          [(id A, [mkChunk mA 5 0]); (id B, [mkChunk mB 5 0])] [A; B]
        = Ok (Fin f, scheds, viol) ->
        forall p, In p (concat scheds) -> p_job p = B -> 5 <= p_start p)).
Proof.
  split; [exact greedy_respects|]. split; [exact evaluator_respects|].
  split; [exact cultural_respects|].
  intros A B HdA HdepB Hne. split.
  - intros jobs r. apply greedy_dependent_starts_late; assumption.
  - intros job_dict mA mB f scheds viol.
    apply evaluator_dependent_starts_late; assumption.
Qed.

Lemma no_chunk_before_its_dependencies_witness :
  (exists r,
     BacktrackingSolver.solve [job_B; job_A] = Ok r /\
     respects_dependencies (map tc_placed (concat (schedule r))) /\
     forall tc, In tc (concat (schedule r)) -> tc_job tc = job_B -> 5 <= tc_start tc) /\
  (exists scheds,
     Evaluator._evaluate_chromosome (F := Q) (make_job_dict [job_A; job_B])
       [(1, [mkChunk 2 5 0]); (2, [mkChunk 0 5 0])] [job_A; job_B]
     = Ok (Fin (44 # 3)%Q, scheds, []) /\
     forall p, In p (concat scheds) -> p_job p = job_B -> 5 <= p_start p).
Proof.
  split.
  - eexists. split; [vm_compute; reflexivity|]. split.
    + apply (proj1 (no_chunk_before_its_dependencies (fo := Q_float) (rg := lcg))
               [job_B; job_A]); vm_compute; reflexivity.
    + apply (proj1 (proj2 (proj2 (proj2
               (no_chunk_before_its_dependencies (fo := Q_float) (rg := lcg))))
                      job_A job_B eq_refl eq_refl ltac:(discriminate))
               [job_B; job_A]).
      * apply perm_swap.
      * vm_compute. reflexivity.
      * reflexivity.
  - eexists. split; [vm_compute; reflexivity|].
    apply (proj2 (proj2 (proj2 (proj2
             (no_chunk_before_its_dependencies (fo := Q_float) (rg := lcg))))
                    job_A job_B eq_refl eq_refl ltac:(discriminate))
             (make_job_dict [job_A; job_B]) 2 0 (44 # 3)%Q _ []).
    vm_compute. reflexivity.
Defined.

(** A chromosome with a negative chunk size is evaluated as feasible:
    the sizes 5, 5 and -5 of job A sum to its duration 5 and none exceeds
    5.  The evaluator records the end of the last chunk of A, 5, as the
    completion of A, so the chunk of B, which depends on A, starts at 5
    while the second chunk of A runs until 10.  Likewise, over an order
    that lists A twice, A is placed a second time, from 5 to 10, after B
    has started at 5. *)
Lemma negative_chunk_size_breaks_dependency :
  (exists (f : Q) scheds viol,
     Evaluator._evaluate_chromosome (make_job_dict [job_A; job_B])
       [(1, [mkChunk 0 5 0; mkChunk 1 5 1; mkChunk 2 (-5) 2]); (2, [mkChunk 0 5 0])]
       [job_A; job_B]
     = Ok (Fin f, scheds, viol) /\
     (exists p q,
        In p (concat scheds) /\ In q (concat scheds) /\
        p_job p = job_B /\ p_job q = job_A /\ p_start p = 5 /\ p_end q = 10) /\
     ~ respects_dependencies (concat scheds)) /\
  (exists (f : Q) scheds viol,
     Evaluator._evaluate_chromosome (make_job_dict [job_A; job_B])
       [(1, [mkChunk 0 5 0]); (2, [mkChunk 1 5 0])] [job_A; job_B; job_A]
     = Ok (Fin f, scheds, viol) /\
     ~ respects_dependencies (concat scheds)).
Proof.
  split.
  - eexists _, _, _. split; [vm_compute; reflexivity|]. split.
    + exists (mkPlaced job_B 5 10 5), (mkPlaced job_A 5 10 5).
      cbn. repeat split; auto.
    + intros Hdeps.
      specialize (Hdeps (mkPlaced job_B 5 10 5) (mkPlaced job_A 5 10 5)).
      cbn in Hdeps. assert (10 <= 5); [apply Hdeps; auto|lia].
  - eexists _, _, _. split; [vm_compute; reflexivity|].
    intros Hdeps.
    specialize (Hdeps (mkPlaced job_B 5 10 5) (mkPlaced job_A 5 10 5)).
    cbn in Hdeps. assert (10 <= 5); [apply Hdeps; auto 10|lia].
Qed.

Section SequenceFacts.
Context {F : Type} {fo : FloatOps F} {R : Type} {rg : RandomGen R}.

Lemma greedy_chunks_in_sequence jobs r :
  BacktrackingSolver.solve jobs = Ok r -> success r = true ->
  forall job, In job jobs ->
    exists job' sizes pl t,
      In job' jobs /\ id job' = id job /\
      chunk_sizes job' = Ok sizes /\ map p_size pl = sizes /\
      chained t pl /\
      ForallOrdPairs (fun p q => p_end p <= p_start q) pl /\
      Permutation (chunks_of (id job) (map tc_placed (concat (schedule r)))) pl.
Proof.
  intros Hrun Hsucc job Hjob.
  destruct (greedy_solve_success jobs r Hrun Hsucc)
    as (order & st & Hsort & _ & Hinv & _ & _ & _ & Hperm).
  destruct (bt_topological_sort_ordered jobs order Hsort) as (_ & _ & Hall & Hfrom).
  pose proof (Hall job Hjob) as Hidin.
  apply in_map_iff in Hidin as (job' & Hid & Hjob').
  destruct (gi_trace _ _ Hinv job' Hjob') as (sizes & pl & t & Hsz & _ & Hc & Hmap & Hch).
  exists job', sizes, pl, t.
  split; [apply Hfrom, Hjob'|]. split; [exact Hid|]. split; [exact Hsz|].
  split; [exact Hmap|]. split; [exact Hc|]. split.
  - apply (chained_ordered t pl Hc).
    destruct (chunk_sizes_shape job' sizes Hsz) as [Hl|Hpos].
    + left. rewrite <- Hmap, length_map in Hl. exact Hl.
    + right. rewrite <- Hmap in Hpos. rewrite List.Forall_map in Hpos. exact Hpos.
  - rewrite <- Hid, <- Hch. unfold chunks_of.
    apply filter_Permutation_bool, Hperm.
Qed.

Lemma evaluator_chunks_in_sequence job_dict chrom order (f : F) scheds viol :
  NoDup (map id order) ->
  Evaluator._evaluate_chromosome job_dict chrom order = Ok (Fin f, scheds, viol) ->
  forall job, In job order ->
    exists chunks pl t,
      dict_get (id job) chrom = Some chunks /\
      map p_size pl = map c_size (sort_by c_order chunks) /\
      chained t pl /\
      (sizes_ok chrom -> ForallOrdPairs (fun p q => p_end p <= p_start q) pl) /\
      Permutation (chunks_of (id job) (concat scheds)) pl.
Proof.
  intros Hnd Hrun job Hjob.
  destruct (evaluate_feasible_inv _ _ _ _ _ _ Hnd Hrun) as (st & Hinv & _ & -> & _).
  destruct (ei_trace _ _ _ Hinv job Hjob) as (chunks & pl & t & Hget & _ & Hc & Hmap & Hch).
  exists chunks, pl, t. split; [exact Hget|]. split; [exact Hmap|].
  split; [exact Hc|]. split; [|exact Hch].
  intros Hsz. apply (chained_ordered t pl Hc).
  apply (sizes_ok_sorted chrom _ _ Hsz Hget pl Hmap).
Qed.

Lemma cultural_chunks_in_sequence jobs (g g' : R) (r : ScheduleResult (fitness F)) :
  CulturalAlgorithm.solve jobs g = Ok (r, g') -> success r = true ->
  exists order chrom,
    CulturalAlgorithm._topological_sort jobs = Ok (Some order) /\
    forall job, In job order ->
      exists chunks pl t,
        dict_get (id job) chrom = Some chunks /\
        map p_size pl = map c_size (sort_by c_order chunks) /\
        chained t pl /\
        ForallOrdPairs (fun p q => p_end p <= p_start q) pl /\
        Permutation (chunks_of (id job) (map tc_placed (concat (schedule r)))) pl.
Proof.
  intros Hrun Hsucc.
  destruct (cultural_solve_well_evaluated jobs g g' r Hrun Hsucc)
    as (order & s & Hsort & (chrom & f & viol & Hsz & Heval) & Hsched).
  pose proof (ca_topological_sort_nodup jobs order Hsort) as Hnd.
  exists order, chrom. split; [exact Hsort|]. intros job Hjob.
  destruct (evaluator_chunks_in_sequence _ _ _ _ _ _ Hnd Heval job Hjob)
    as (chunks & pl & t & Hget & Hmap & Hc & Hord & Hch).
  exists chunks, pl, t. split; [exact Hget|]. split; [exact Hmap|].
  split; [exact Hc|]. split; [exact (Hord Hsz)|].
  rewrite <- Hch, Hsched. unfold chunks_of, CulturalAlgorithm._build_final_schedule.
  apply filter_Permutation_bool, build_final_placed.
  destruct (evaluate_feasible _ _ _ _ _ _ Heval) as (st & _ & Hjobs & _ & -> & _).
  assert (Hok : timelines_ok st).
  { apply (eval_jobs_timelines chrom order Evaluator.init_state st); [|exact Hjobs].
    apply (ei_ok _ _ _ (eval_inv_init chrom)). }
  rewrite (tl_scheds _ Hok). reflexivity.
Qed.

End SequenceFacts.

(** C10.  The chunks of a job never run out of sequence.  For every job
    of a successful greedy [solve], the chunks the response holds for it
    are, listed in the order of its decomposition, a chain: each one starts
    when the previous one has ended or later, whatever machines they are on,
    and so no two of them overlap.  The same holds for every job of a
    feasible evaluation, in the order of the chromosome's [order] field
    (over an order without repeated identifiers, as the topological sort
    returns; the chain holds for any chunk sizes, the absence of overlap
    for sizes as the solver generates them), and hence for every job of a
    successful cultural [solve], whose response holds the schedule of such
    an evaluation. *)
Theorem chunks_of_a_job_run_in_sequence
    {F : Type} {fo : FloatOps F} {R : Type} {rg : RandomGen R} :
  (forall jobs r,
     BacktrackingSolver.solve jobs = Ok r -> success r = true ->
     forall job, In job jobs ->
       exists job' sizes pl t,
         In job' jobs /\ id job' = id job /\
         chunk_sizes job' = Ok sizes /\ map p_size pl = sizes /\
         chained t pl /\
         ForallOrdPairs (fun p q => p_end p <= p_start q) pl /\
         Permutation (chunks_of (id job) (map tc_placed (concat (schedule r)))) pl) /\
  (forall job_dict chrom order (f : F) scheds viol,
     NoDup (map id order) ->
     Evaluator._evaluate_chromosome job_dict chrom order = Ok (Fin f, scheds, viol) ->
     forall job, In job order ->
       exists chunks pl t,
         dict_get (id job) chrom = Some chunks /\
         map p_size pl = map c_size (sort_by c_order chunks) /\
         chained t pl /\
         (sizes_ok chrom -> ForallOrdPairs (fun p q => p_end p <= p_start q) pl) /\
         Permutation (chunks_of (id job) (concat scheds)) pl) /\
  (forall jobs (g g' : R) (r : ScheduleResult (fitness F)),
     CulturalAlgorithm.solve jobs g = Ok (r, g') -> success r = true ->
     exists order chrom,
       CulturalAlgorithm._topological_sort jobs = Ok (Some order) /\
       forall job, In job order ->
         exists chunks pl t,
           dict_get (id job) chrom = Some chunks /\
           map p_size pl = map c_size (sort_by c_order chunks) /\
           chained t pl /\
           ForallOrdPairs (fun p q => p_end p <= p_start q) pl /\
           Permutation (chunks_of (id job) (map tc_placed (concat (schedule r)))) pl).
Proof.
  split; [exact greedy_chunks_in_sequence|].
  split; [exact evaluator_chunks_in_sequence|].
  exact cultural_chunks_in_sequence.
Qed.

Lemma chunks_of_a_job_run_in_sequence_witness :
  exists r pl t,
    BacktrackingSolver.solve [mkJob 1 "J" 12 [] 1] = Ok r /\
    map p_size pl = [4; 4; 4] /\ chained t pl /\
    Permutation (chunks_of 1 (map tc_placed (concat (schedule r)))) pl.
Proof.
  destruct (proj1 (chunks_of_a_job_run_in_sequence (fo := Q_float) (rg := lcg))
              [mkJob 1 "J" 12 [] 1]
              (mkResult true 12
                 [[mkTaskChunk (mkJob 1 "J" 12 [] 1) 0 0 4 1 3 4];
                  [mkTaskChunk (mkJob 1 "J" 12 [] 1) 1 4 8 2 3 4];
                  [mkTaskChunk (mkJob 1 "J" 12 [] 1) 2 8 12 3 3 4]]
                 [] [(1, 3)] (Some 12) (Some []) None)
              ltac:(vm_compute; reflexivity) eq_refl
              (mkJob 1 "J" 12 [] 1) (or_introl eq_refl))
    as (job' & sizes & pl & t & Hin & _ & Hsz & Hmap & Hc & _ & Hperm).
  destruct Hin as [<-|[]].
  assert (Hs : sizes = [4; 4; 4]).
  { assert (E : chunk_sizes (mkJob 1 "J" 12 [] 1) = Ok [4; 4; 4]) by reflexivity.
    rewrite E in Hsz. injection Hsz as <-. reflexivity. }
  eexists _, pl, t. split; [vm_compute; reflexivity|].
  split; [rewrite Hmap; exact Hs|]. split; [exact Hc|exact Hperm].
Defined.

(** ** No job list with a dangling dependency is solved *)

Lemma each_dep_preserves (P : topo_state -> Prop) f deps :
  (forall d s s', P s -> f d s = Ok (true, s') -> P s') ->
  forall st st', P st -> each_dep f deps st = Ok (true, st') -> P st'.
Proof.
  intros Hf. induction deps as [|d deps IH]; intros st st' HP Hrun;
    cbn [each_dep] in Hrun.
  - injection Hrun as <-. exact HP.
  - destruct (f d st) as [[[|] st1]| |] eqn:Ed; try discriminate Hrun.
    eapply IH; [|exact Hrun]. eapply Hf; eassumption.
Qed.

Lemma ca_dfs_known job_dict :
  (forall k job, job_dict !! k = Some job -> id job = k) ->
  forall fuel k st st',
    (forall job, In job (result st) -> job_dict !! id job = Some job) ->
    CulturalAlgorithm.dfs job_dict fuel k st = Ok (true, st') ->
    forall job, In job (result st') -> job_dict !! id job = Some job.
Proof.
  intros Hids. induction fuel as [|fuel IH]; intros k st st' Hknown Hrun;
    [discriminate Hrun|].
  cbn [CulturalAlgorithm.dfs] in Hrun.
  destruct (decide (k ∈ temp st)); [discriminate Hrun|].
  destruct (decide (k ∈ visited st)); [injection Hrun as <-; exact Hknown|].
  destruct (job_dict !! k) as [job|] eqn:Ejob;
    [|injection Hrun as <-; exact Hknown].
  destruct (each_dep (CulturalAlgorithm.dfs job_dict fuel) (dependencies job) _)
    as [[[|] st2]| |] eqn:Edeps; try discriminate Hrun.
  injection Hrun as <-. cbn [result]. intros j Hj.
  apply in_app_or in Hj as [Hj|[<-|[]]].
  - revert j Hj.
    eapply (each_dep_preserves
              (fun s => forall j, In j (result s) -> job_dict !! id j = Some j)
              _ _ (fun d s s' Hs Hd => IH d s s' Hs Hd)); [|exact Edeps].
    exact Hknown.
  - rewrite (Hids k job Ejob). exact Ejob.
Qed.

Lemma ca_dfs_visits job_dict fuel k st st' :
  CulturalAlgorithm.dfs job_dict fuel k st = Ok (true, st') ->
  is_Some (job_dict !! k) -> k ∈ visited st'.
Proof.
  destruct fuel as [|fuel]; [discriminate|]. cbn [CulturalAlgorithm.dfs].
  destruct (decide (k ∈ temp st)); [discriminate|].
  destruct (decide (k ∈ visited st)) as [Hv|Hv]; [intros [= <-] _; exact Hv|].
  destruct (job_dict !! k) as [job|]; [|intros _ [? ?]; discriminate].
  destruct (each_dep _ _ _) as [[[|] st2]| |]; try discriminate.
  intros [= <-] _. cbn [visited]. set_solver.
Qed.

Lemma sort_loop_covers (P : topo_state -> Prop) (Q : Z -> Prop) f jobs :
  (forall k s s', P s -> f k s = Ok (true, s') ->
                  P s' /\ visited s ⊆ visited s' /\ (Q k -> k ∈ visited s')) ->
  (forall job, In job jobs -> Q (id job)) ->
  forall st order,
    P st -> sort_loop f jobs st = Ok (Some order) ->
    exists st', order = result st' /\ P st' /\ visited st ⊆ visited st' /\
                forall job, In job jobs -> id job ∈ visited st'.
Proof.
  intros Hf. induction jobs as [|job jobs IH]; intros HQ st order HP Hrun;
    cbn [sort_loop] in Hrun.
  - injection Hrun as <-. exists st. split; [reflexivity|]. split; [exact HP|].
    split; [reflexivity|]. intros job [].
  - assert (HQ' : forall j, In j jobs -> Q (id j)) by (intros j Hj; apply HQ; now right).
    destruct (decide (id job ∈ visited st)) as [Hv|Hv].
    + destruct (IH HQ' st order HP Hrun) as (st' & -> & HP' & Hsub & Hall).
      exists st'. split; [reflexivity|]. split; [exact HP'|]. split; [exact Hsub|].
      intros j [<-|Hj]; [apply Hsub, Hv|apply Hall, Hj].
    + destruct (f (id job) st) as [[[|] st1]| |] eqn:Ed; try discriminate Hrun.
      destruct (Hf _ _ _ HP Ed) as (HP1 & Hsub1 & Hk).
      destruct (IH HQ' st1 order HP1 Hrun) as (st' & -> & HP' & Hsub & Hall).
      exists st'. split; [reflexivity|]. split; [exact HP'|].
      split; [set_solver|].
      intros j [<-|Hj]; [apply Hsub, Hk, HQ; now left|apply Hall, Hj].
Qed.

Lemma make_job_dict_covers jobs job :
  In job jobs -> is_Some (make_job_dict jobs !! id job).
Proof.
  unfold make_job_dict. intros Hin.
  assert (Hgen : forall l (m : gmap Z Job),
            In job l \/ is_Some (m !! id job) ->
            is_Some (fold_left (fun m j => <[id j := j]> m) l m !! id job)).
  { induction l as [|a l IH]; intros m [Hl|Hm]; cbn [fold_left]; try assumption.
    - destruct Hl.
    - apply IH. destruct Hl as [->|Hl]; [right|left; exact Hl].
      rewrite lookup_insert_eq. eauto.
    - apply IH. right. destruct (Z.eq_dec (id a) (id job)) as [E|Hne].
      + rewrite E, lookup_insert_eq. eauto.
      + rewrite lookup_insert_ne by exact Hne. exact Hm. }
  apply Hgen. left. exact Hin.
Qed.

(** A successful sort of the cultural solver lists every job identifier
    of the input, and only jobs of the input. *)
Lemma ca_topological_sort_complete jobs order :
  CulturalAlgorithm._topological_sort jobs = Ok (Some order) ->
  (forall job, In job jobs -> In (id job) (map id order)) /\
  (forall job, In job order -> In job jobs).
Proof.
  unfold CulturalAlgorithm._topological_sort. intros Hrun.
  assert (Hids : forall k job, make_job_dict jobs !! k = Some job -> id job = k)
    by (intros k job Hk; apply (make_job_dict_ids jobs k job Hk)).
  destruct (sort_loop_covers
              (fun s => visit_inv s /\
                        forall j, In j (result s) ->
                                  make_job_dict jobs !! id j = Some j)
              (fun k => is_Some (make_job_dict jobs !! k))
              (CulturalAlgorithm.dfs (make_job_dict jobs) (S (length jobs))) jobs)
    with (st := mkTopo ∅ ∅ []) (order := order)
    as (st' & -> & [Hinv Hknown] & _ & Hall).
  - intros k s s' [Hs Hk] Hd.
    destruct (ca_dfs_visit _ Hids _ k s s' Hs Hd) as (H1 & H2 & _).
    split; [split; [exact H1|]|split; [exact H2|]].
    + apply (ca_dfs_known _ Hids _ k s s' Hk Hd).
    + apply (ca_dfs_visits _ _ k s s' Hd).
  - apply make_job_dict_covers.
  - split; [|intros j []]. constructor; cbn.
    + intros k. split; [set_solver|intros []].
    + apply NoDup_nil_2.
  - exact Hrun.
  - split.
    + intros job Hjob. apply (vi_visited _ Hinv), Hall, Hjob.
    + intros job Hjob. apply (make_job_dict_ids jobs (id job)), Hknown, Hjob.
Qed.

Lemma same_id_same_job (jobs : list Job) a b :
  NoDup (map id jobs) -> In a jobs -> In b jobs -> id a = id b -> a = b.
Proof.
  induction jobs as [|j jobs IH]; intros Hnd Ha Hb Hid; [destruct Ha|].
  cbn [map] in Hnd. apply NoDup_cons in Hnd as [Hj Hnd].
  destruct Ha as [<-|Ha], Hb as [<-|Hb]; [reflexivity| | |apply IH; assumption];
    exfalso; apply Hj, list_elem_of_In.
  - rewrite Hid. apply in_map, Hb.
  - rewrite <- Hid. apply in_map, Ha.
Qed.


(** ** A run of the cultural solver *)

(** With the reference arithmetic and random source, the cultural solver
    schedules job B after job A, on which it depends, with fitness
    44/3: makespan 10 plus the inefficiency and imbalance penalties. *)
Lemma cultural_solve_example :
  exists r g',
    CulturalAlgorithm.solve (F := Q) [job_A; job_B] 7%N = Ok (r, g') /\
    success r = true /\
    makespan r = Fin (44 # 3)%Q /\
    map (map (fun tc => (id (tc_job tc), tc_start tc, tc_end tc))) (schedule r)
    = [[(2, 5, 10)]; [(1, 0, 5)]; []].
Proof.
  eexists _, _. split; [vm_compute; reflexivity|].
  split; [reflexivity|]. split; reflexivity.
Qed.

(** ** The two traversals and the dependency graph *)

Lemma each_dep_ext f g deps :
  (forall d s, In d deps -> f d s = g d s) ->
  forall st, each_dep f deps st = each_dep g deps st.
Proof.
  induction deps as [|d deps IH]; intros Hfg st; cbn [each_dep]; [reflexivity|].
  rewrite (Hfg d st) by now left.
  destruct (g d st) as [[[|] st1]| |]; try reflexivity.
  apply IH. intros d' s Hd'. apply Hfg. now right.
Qed.

Lemma sort_loop_ext f g jobs :
  (forall job s, In job jobs -> f (id job) s = g (id job) s) ->
  forall st, sort_loop f jobs st = sort_loop g jobs st.
Proof.
  induction jobs as [|job jobs IH]; intros Hfg st; cbn [sort_loop]; [reflexivity|].
  assert (Hrest : forall j s, In j jobs -> f (id j) s = g (id j) s)
    by (intros j s Hj; apply Hfg; now right).
  destruct (decide (id job ∈ visited st)); [apply IH, Hrest|].
  rewrite (Hfg job st) by now left.
  destruct (g (id job) st) as [[[|] st1]| |]; try reflexivity.
  apply IH, Hrest.
Qed.

(** Where every identifier the traversal meets names a job, the two
    copies of [dfs] compute the same. *)
Lemma dfs_agree job_dict :
  (forall k job d, job_dict !! k = Some job -> In d (dependencies job) ->
                   is_Some (job_dict !! d)) ->
  forall fuel k st,
    is_Some (job_dict !! k) ->
    BacktrackingSolver.dfs job_dict fuel k st
    = CulturalAlgorithm.dfs job_dict fuel k st.
Proof.
  intros Hclosed. induction fuel as [|fuel IH]; intros k st [job Ejob];
    [reflexivity|].
  cbn [BacktrackingSolver.dfs CulturalAlgorithm.dfs].
  destruct (decide (k ∈ temp st)); [reflexivity|].
  destruct (decide (k ∈ visited st)); [reflexivity|].
  rewrite Ejob.
  rewrite (each_dep_ext (BacktrackingSolver.dfs job_dict fuel)
             (CulturalAlgorithm.dfs job_dict fuel) (dependencies job)).
  - destruct (each_dep _ _ _) as [[[|] st2]| |]; reflexivity.
  - intros d s Hd. apply IH. eapply Hclosed; eassumption.
Qed.

Lemma deps_closed_dict jobs :
  deps_closed jobs ->
  forall k job d, make_job_dict jobs !! k = Some job -> In d (dependencies job) ->
                  is_Some (make_job_dict jobs !! d).
Proof.
  intros Hclosed k job d Ejob Hd.
  destruct (make_job_dict_ids jobs k job Ejob) as [_ Hjob].
  pose proof (Hclosed job d Hjob Hd) as Hin.
  apply in_map_iff in Hin as (dj & <- & Hdj).
  apply make_job_dict_covers, Hdj.
Qed.

Lemma ca_each_dep_no_raise f deps :
  (forall d s e, f d s <> Raise e) ->
  forall st e, each_dep f deps st <> Raise e.
Proof.
  intros Hf. induction deps as [|d deps IH]; intros st e; cbn [each_dep];
    [discriminate|].
  pose proof (Hf d st) as Hd.
  destruct (f d st) as [[[|] st1]| |]; try discriminate; [apply IH|apply Hd].
Qed.

Lemma ca_dfs_no_raise job_dict fuel :
  forall k st e, CulturalAlgorithm.dfs job_dict fuel k st <> Raise e.
Proof.
  induction fuel as [|fuel IH]; intros k st e; [discriminate|].
  cbn [CulturalAlgorithm.dfs].
  destruct (decide (k ∈ temp st)); [discriminate|].
  destruct (decide (k ∈ visited st)); [discriminate|].
  destruct (job_dict !! k) as [job|]; [|discriminate].
  pose proof (ca_each_dep_no_raise _ (dependencies job) IH
                (mkTopo (visited st) ({[k]} ∪ temp st) (result st))) as Hdeps.
  destruct (each_dep _ _ _) as [[[|] st2]| |]; try discriminate. apply Hdeps.
Qed.

Lemma sort_loop_no_raise f jobs :
  (forall k s e, f k s <> Raise e) ->
  forall st e, sort_loop f jobs st <> Raise e.
Proof.
  intros Hf. induction jobs as [|job jobs IH]; intros st e; cbn [sort_loop];
    [discriminate|].
  destruct (decide (id job ∈ visited st)); [apply IH|].
  pose proof (Hf (id job) st) as Hd.
  destruct (f (id job) st) as [[[|] st1]| |]; try discriminate; [apply IH|].
  intros [= <-]. apply (Hd e0). reflexivity.
Qed.

Lemma ca_topological_sort_no_raise jobs e :
  CulturalAlgorithm._topological_sort jobs <> Raise e.
Proof. apply sort_loop_no_raise, ca_dfs_no_raise. Qed.

(** *** A reported cycle is a cycle *)

Lemma each_dep_false (I : topo_state -> Prop) f deps :
  (forall d s s', I s -> f d s = Ok (true, s') -> I s' /\ temp s' = temp s) ->
  forall st st', I st -> each_dep f deps st = Ok (false, st') ->
    exists d s, In d deps /\ I s /\ temp s = temp st /\ f d s = Ok (false, st').
Proof.
  intros Hf. induction deps as [|d deps IH]; intros st st' HI Hrun;
    cbn [each_dep] in Hrun; [discriminate Hrun|].
  destruct (f d st) as [[[|] st1]| |] eqn:Ed; try discriminate Hrun.
  - destruct (Hf d st st1 HI Ed) as [HI1 Ht].
    destruct (IH st1 st' HI1 Hrun) as (d' & s & Hd' & Hs & Hts & Hrun').
    exists d', s. split; [now right|]. split; [exact Hs|].
    split; [congruence|exact Hrun'].
  - injection Hrun as <-. exists d, st. split; [now left|]. auto.
Qed.

Lemma sort_loop_none (I : topo_state -> Prop) f jobs :
  (forall k s s', I s -> f k s = Ok (true, s') -> I s' /\ temp s' = temp s) ->
  forall st, I st -> sort_loop f jobs st = Ok None ->
    exists job s s', In job jobs /\ I s /\ temp s = temp st /\
                     f (id job) s = Ok (false, s').
Proof.
  intros Hf. induction jobs as [|job jobs IH]; intros st HI Hrun;
    cbn [sort_loop] in Hrun; [discriminate Hrun|].
  destruct (decide (id job ∈ visited st)).
  - destruct (IH st HI Hrun) as (j & s & s' & Hj & Hs & Ht & Hd).
    exists j, s, s'. split; [now right|]. auto.
  - destruct (f (id job) st) as [[[|] st1]| |] eqn:Ed; try discriminate Hrun.
    + destruct (Hf _ _ _ HI Ed) as [HI1 Ht1].
      destruct (IH st1 HI1 Hrun) as (j & s & s' & Hj & Hs & Ht & Hd).
      exists j, s, s'. split; [now right|]. split; [exact Hs|].
      split; [congruence|exact Hd].
    + exists job, st, st1. split; [now left|]. auto.
Qed.

Lemma bt_dfs_false jobs job_dict :
  (forall k job, job_dict !! k = Some job -> id job = k /\ In job jobs) ->
  forall fuel k st st',
    topo_inv job_dict st ->
    (forall t, t ∈ temp st -> tc (depends_on jobs) t k) ->
    BacktrackingSolver.dfs job_dict fuel k st = Ok (false, st') ->
    cyclic jobs.
Proof.
  intros Hdict.
  assert (Hids : forall k job, job_dict !! k = Some job -> id job = k)
    by (intros k job Hk; apply (Hdict k job Hk)).
  induction fuel as [|fuel IH]; intros k st st' Hinv Hpath Hrun;
    [discriminate Hrun|].
  cbn [BacktrackingSolver.dfs] in Hrun.
  destruct (decide (k ∈ temp st)) as [Ht|Ht]; [exists k; apply Hpath, Ht|].
  destruct (decide (k ∈ visited st)); [discriminate Hrun|].
  destruct (job_dict !! k) as [job|] eqn:Ejob; [|discriminate Hrun].
  set (st1 := mkTopo (visited st) ({[k]} ∪ temp st) (result st)) in *.
  assert (Hinv1 : topo_inv job_dict st1) by (destruct Hinv; constructor; assumption).
  destruct (each_dep (BacktrackingSolver.dfs job_dict fuel) (dependencies job) st1)
    as [[[|] st2]| |] eqn:Edeps; try discriminate Hrun.
  injection Hrun as <-.
  destruct (each_dep_false (topo_inv job_dict)
              (BacktrackingSolver.dfs job_dict fuel) (dependencies job))
    with (st := st1) (st' := st2) as (d & s & Hd & Hs & Hts & Hfalse);
    [|exact Hinv1|exact Edeps|].
  - intros d s s' Hs Hd.
    destruct (bt_dfs_post job_dict Hids fuel d s s' Hs Hd) as (H1 & _ & _ & H2 & _).
    split; assumption.
  - apply (IH d s st2 Hs); [|exact Hfalse].
    assert (Hedge : depends_on jobs k d).
    { exists job. destruct (Hdict k job Ejob) as [Hid Hjob]. auto. }
    intros t Ht'. rewrite Hts in Ht'. unfold st1 in Ht'. cbn [temp] in Ht'.
    apply elem_of_union in Ht' as [Ht'|Ht'].
    + apply elem_of_singleton in Ht' as ->. apply tc_once, Hedge.
    + eapply tc_r; [apply Hpath, Ht'|exact Hedge].
Qed.

Lemma bt_sort_none_cyclic jobs :
  BacktrackingSolver._topological_sort jobs = Ok None -> cyclic jobs.
Proof.
  unfold BacktrackingSolver._topological_sort. intros Hrun.
  assert (Hids : forall k job, make_job_dict jobs !! k = Some job -> id job = k)
    by (intros k job Hk; apply (make_job_dict_ids jobs k job Hk)).
  destruct (sort_loop_none (fun s => topo_inv (make_job_dict jobs) s /\ temp s = ∅)
              (BacktrackingSolver.dfs (make_job_dict jobs) (S (length jobs))) jobs)
    with (st := mkTopo ∅ ∅ []) as (job & s & s' & _ & [Hs Hempty] & _ & Hfalse).
  - intros k s s' [Hs Ht] Hd.
    destruct (bt_dfs_post _ Hids _ k s s' Hs Hd) as (H1 & _ & _ & H2 & _).
    split; [split; [exact H1|congruence]|exact H2].
  - split; [apply topo_inv_init|reflexivity].
  - exact Hrun.
  - eapply (bt_dfs_false jobs _ (make_job_dict_ids jobs)); [exact Hs| |exact Hfalse].
    intros t Ht. rewrite Hempty in Ht. set_solver.
Qed.

(** *** A dependency order rules out a cycle *)

Lemma position_app_in k pre rest :
  In k pre -> (position k (pre ++ rest) < length pre)%nat.
Proof.
  induction pre as [|x pre IH]; intros Hin; [destruct Hin|].
  cbn [app position length]. destruct (Z.eqb_spec k x) as [_|Hne]; [lia|].
  destruct Hin as [->|Hin]; [contradiction|]. specialize (IH Hin). lia.
Qed.

Lemma position_app_notin k pre rest :
  ~ In k pre -> position k (pre ++ k :: rest) = length pre.
Proof.
  induction pre as [|x pre IH]; intros Hnot; cbn [app position length].
  - rewrite Z.eqb_refl. reflexivity.
  - destruct (Z.eqb_spec k x) as [->|Hne]; [exfalso; apply Hnot; now left|].
    rewrite IH; [reflexivity|]. intros Hin. apply Hnot. now right.
Qed.

Lemma dep_ordered_position order job d :
  NoDup (map id order) -> dep_ordered order ->
  In job order -> In d (dependencies job) ->
  (position d (map id order) < position (id job) (map id order))%nat.
Proof.
  intros Hnd Hord Hjob Hd.
  apply in_split in Hjob as (pre & post & ->).
  pose proof (Hord pre job post eq_refl d Hd) as Hpre.
  rewrite map_app in *. cbn [map] in *.
  apply NoDup_app in Hnd as (_ & Hdisj & _).
  rewrite position_app_notin.
  - rewrite length_map. rewrite <- (length_map id pre).
    apply position_app_in, Hpre.
  - intros Hin. apply (Hdisj (id job)); [apply list_elem_of_In, Hin|].
    apply list_elem_of_In. now left.
Qed.

Lemma ordered_not_cyclic jobs order :
  NoDup (map id jobs) -> NoDup (map id order) -> dep_ordered order ->
  (forall job, In job jobs -> In (id job) (map id order)) ->
  (forall job, In job order -> In job jobs) ->
  ~ cyclic jobs.
Proof.
  intros Hnd Hndo Hord Hall Hfrom [k Hk].
  assert (Hlt : forall a b, tc (depends_on jobs) a b ->
            (position b (map id order) < position a (map id order))%nat).
  { assert (Hedge : forall a b, depends_on jobs a b ->
              (position b (map id order) < position a (map id order))%nat).
    { intros a b (job & Hjob & <- & Hb).
      apply dep_ordered_position; try assumption.
      pose proof (Hall job Hjob) as Hin.
      apply in_map_iff in Hin as (job' & Hid & Hjob').
      rewrite <- (same_id_same_job jobs job' job Hnd (Hfrom job' Hjob') Hjob Hid).
      exact Hjob'. }
    induction 1 as [a b Hab|a b c Hab _ IH].
    - apply Hedge, Hab.
    - specialize (Hedge a b Hab). lia. }
  specialize (Hlt k k Hk). lia.
Qed.

Lemma ordered_permutation jobs order :
  NoDup (map id jobs) -> NoDup (map id order) ->
  (forall job, In job jobs -> In (id job) (map id order)) ->
  (forall job, In job order -> In job jobs) ->
  Permutation order jobs.
Proof.
  intros Hnd Hndo Hall Hfrom.
  apply NoDup_Permutation.
  - apply (NoDup_fmap_1 id). exact Hndo.
  - apply (NoDup_fmap_1 id). exact Hnd.
  - intros job. rewrite !list_elem_of_In. split; [apply Hfrom|].
    intros Hjob. pose proof (Hall job Hjob) as Hin.
    apply in_map_iff in Hin as (job' & Hid & Hjob').
    rewrite <- (same_id_same_job jobs job' job Hnd (Hfrom job' Hjob') Hjob Hid).
    exact Hjob'.
Qed.

Lemma sorts_agree jobs :
  deps_closed jobs ->
  sort_loop (BacktrackingSolver.dfs (make_job_dict jobs) (S (length jobs))) jobs
            (mkTopo ∅ ∅ [])
  = CulturalAlgorithm._topological_sort jobs.
Proof.
  intros Hclosed. apply sort_loop_ext. intros job s Hjob.
  apply (dfs_agree _ (deps_closed_dict jobs Hclosed)).
  apply make_job_dict_covers, Hjob.
Qed.

Lemma closed_sort_cases jobs :
  deps_closed jobs ->
  BacktrackingSolver._topological_sort jobs = CulturalAlgorithm._topological_sort jobs /\
  (BacktrackingSolver._topological_sort jobs = Ok None \/
   exists order, BacktrackingSolver._topological_sort jobs = Ok (Some order)).
Proof.
  intros Hclosed.
  pose proof (sorts_agree jobs Hclosed) as Hagree.
  fold (BacktrackingSolver._topological_sort jobs) in Hagree.
  split; [exact Hagree|].
  pose proof (proj1 (topological_sort_total jobs)) as Htotal.
  pose proof (ca_topological_sort_no_raise jobs) as Hraise.
  rewrite <- Hagree in Hraise.
  destruct (BacktrackingSolver._topological_sort jobs) as [[order|]|e|].
  - right. exists order. reflexivity.
  - left. reflexivity.
  - destruct (Hraise e eq_refl).
  - destruct (Htotal eq_refl).
Qed.

Lemma closed_acyclic_sorted jobs :
  deps_closed jobs -> ~ cyclic jobs ->
  exists order,
    BacktrackingSolver._topological_sort jobs = Ok (Some order) /\
    CulturalAlgorithm._topological_sort jobs = Ok (Some order).
Proof.
  intros Hclosed Hacyc.
  destruct (closed_sort_cases jobs Hclosed) as [Hagree [Hnone|[order Hsort]]].
  - destruct (Hacyc (bt_sort_none_cyclic jobs Hnone)).
  - exists order. split; [exact Hsort|]. rewrite <- Hagree. exact Hsort.
Qed.

Lemma closed_cyclic_unsorted jobs :
  NoDup (map id jobs) -> deps_closed jobs -> cyclic jobs ->
  BacktrackingSolver._topological_sort jobs = Ok None /\
  CulturalAlgorithm._topological_sort jobs = Ok None.
Proof.
  intros Hnd Hclosed Hcyc.
  destruct (closed_sort_cases jobs Hclosed) as [Hagree [Hnone|[order Hsort]]].
  - split; [exact Hnone|]. rewrite <- Hagree. exact Hnone.
  - exfalso.
    destruct (bt_topological_sort_ordered jobs order Hsort)
      as (Hndo & Hord & Hall & Hfrom).
    apply (ordered_not_cyclic jobs order); assumption.
Qed.

(** X1. When the job identifiers are distinct, an order returned by
    [BacktrackingSolver._topological_sort] is a rearrangement of the job
    list in which every job comes after all the jobs it depends on. *)
Theorem greedy_order_is_dependency_order (jobs order : list Job) :
  NoDup (map id jobs) ->
  BacktrackingSolver._topological_sort jobs = Ok (Some order) ->
  Permutation order jobs /\ dep_ordered order.
Proof.
  intros Hnd Hsort.
  destruct (bt_topological_sort_ordered jobs order Hsort)
    as (Hndo & Hord & Hall & Hfrom).
  split; [|exact Hord].
  apply ordered_permutation; assumption.
Qed.

Lemma greedy_order_is_dependency_order_witness :
  BacktrackingSolver._topological_sort [job_B; job_A] = Ok (Some [job_A; job_B]) /\
  Permutation [job_A; job_B] [job_B; job_A] /\ dep_ordered [job_A; job_B].
Proof.
  split; [vm_compute; reflexivity|].
  apply (greedy_order_is_dependency_order [job_B; job_A] [job_A; job_B]).
  - refine (bool_decide_unpack _ _). vm_compute. exact I.
  - vm_compute. reflexivity.
Defined.

(** X2. The two copies of [_topological_sort] return the same outcome
    whenever every dependency names a job of the list: they differ only
    on dangling dependencies. *)
Theorem topological_sorts_agree_on_closed_jobs (jobs : list Job) :
  deps_closed jobs ->
  BacktrackingSolver._topological_sort jobs
  = CulturalAlgorithm._topological_sort jobs.
Proof.
  intros Hclosed. unfold BacktrackingSolver._topological_sort.
  apply sorts_agree, Hclosed.
Qed.

Lemma topological_sorts_agree_on_closed_jobs_witness :
  deps_closed [job_B; job_A] /\
  BacktrackingSolver._topological_sort [job_B; job_A]
  = CulturalAlgorithm._topological_sort [job_B; job_A].
Proof.
  assert (Hclosed : deps_closed [job_B; job_A]).
  { intros job d [<-|[<-|[]]] Hd; cbn in Hd |- *; tauto. }
  split; [exact Hclosed|].
  apply (topological_sorts_agree_on_closed_jobs [job_B; job_A] Hclosed).
Defined.

(** X3. For jobs with distinct identifiers whose dependencies all name
    jobs, whenever either topological sort returns, what it returns is
    [None] (the cycle report) exactly when some job depends on itself,
    directly or through other jobs. *)
Theorem cycle_reported_iff_cyclic (jobs : list Job) :
  NoDup (map id jobs) -> deps_closed jobs ->
  (forall r, BacktrackingSolver._topological_sort jobs = Ok r ->
             (r = None <-> cyclic jobs)) /\
  (forall r, CulturalAlgorithm._topological_sort jobs = Ok r ->
             (r = None <-> cyclic jobs)).
Proof.
  intros Hnd Hclosed.
  destruct (closed_sort_cases jobs Hclosed) as [Hagree _].
  assert (Hbt : forall r, BacktrackingSolver._topological_sort jobs = Ok r ->
                          (r = None <-> cyclic jobs)).
  { intros r Hrun. split.
    - intros ->. apply bt_sort_none_cyclic, Hrun.
    - intros Hcyc.
      destruct (closed_cyclic_unsorted jobs Hnd Hclosed Hcyc) as [Hnone _].
      rewrite Hrun in Hnone. injection Hnone as ->. reflexivity. }
  split; [exact Hbt|].
  intros r Hrun. apply Hbt. rewrite Hagree. exact Hrun.
Qed.

Lemma cycle_reported_iff_cyclic_witness :
  cyclic [mkJob 1 "P" 5 [2] 1; mkJob 2 "Q" 5 [1] 1] /\
  ~ cyclic [job_B; job_A].
Proof.
  split.
  - apply (proj1 (cycle_reported_iff_cyclic
                    [mkJob 1 "P" 5 [2] 1; mkJob 2 "Q" 5 [1] 1]
                    ltac:(refine (bool_decide_unpack _ _); vm_compute; exact I)
                    ltac:(intros job d [<-|[<-|[]]] Hd; cbn in Hd |- *; tauto))
                 None).
    + vm_compute. reflexivity.
    + reflexivity.
  - intros Hcyc.
    pose proof (proj2 (proj2 (cycle_reported_iff_cyclic [job_B; job_A]
                    ltac:(refine (bool_decide_unpack _ _); vm_compute; exact I)
                    ltac:(intros job d [<-|[<-|[]]] Hd; cbn in Hd |- *; tauto))
                 (Some [job_A; job_B]) ltac:(vm_compute; reflexivity)) Hcyc) as E.
    discriminate E.
Defined.

(** ** Outcomes of the greedy solver *)

Lemma first_over_capacity_none jobs :
  first_over_capacity jobs = None <->
  forall job, In job jobs -> duration job <= FIXED_MACHINE_CAPACITY.
Proof.
  unfold first_over_capacity. induction jobs as [|j jobs IH]; cbn [find].
  - split; [intros _ job []|reflexivity].
  - destruct (Z.gtb_spec (duration j) FIXED_MACHINE_CAPACITY) as [Hj|Hj].
    + split; [discriminate|]. intros Hall. specialize (Hall j (or_introl eq_refl)). lia.
    + rewrite IH. split.
      * intros Hall job [<-|Hjob]; [exact Hj|apply Hall, Hjob].
      * intros Hall job Hjob. apply Hall. now right.
Qed.

Lemma final_sizes_ok d :
  MAX_CHUNK_SIZE < d -> exists sizes, final_sizes d = Ok sizes.
Proof.
  intros Hd. unfold final_sizes.
  destruct (Z.eqb_spec ((d + MAX_CHUNK_SIZE - 1) / MAX_CHUNK_SIZE) 0) as [E|_];
    [|eexists; reflexivity].
  exfalso. unfold MAX_CHUNK_SIZE in *.
  pose proof (Z.div_mod (d + 5 - 1) 5 ltac:(lia)).
  pose proof (Z.mod_pos_bound (d + 5 - 1) 5 ltac:(lia)). lia.
Qed.

Lemma fold_last_end sched t :
  fold_left (fun _ q => p_end q) sched t
  = match last sched with Some p => p_end p | None => t end.
Proof.
  induction sched as [|p sched _] using rev_ind; [reflexivity|].
  rewrite fold_left_app, last_snoc. reflexivity.
Qed.

Lemma put_machines_ok m job size cur times scheds :
  machines_ok times scheds -> (m < Z.to_nat NUM_MACHINES)%nat ->
  let '(_, _, times', scheds') := put m job size cur times scheds in
  machines_ok times' scheds'.
Proof.
  intros [Ht Hs Hb Hc] Hm. unfold put. constructor.
  - rewrite length_insert. exact Ht.
  - rewrite length_insert. exact Hs.
  - intros k. destruct (Nat.eq_dec m k) as [<-|Hne].
    + rewrite !nth_insert_eq by lia. rewrite busy_until_snoc. reflexivity.
    + rewrite !nth_insert_ne by exact Hne. apply Hb.
  - intros k. destruct (Nat.eq_dec m k) as [<-|Hne].
    + rewrite nth_insert_eq by lia. apply chained_app; [apply Hc| |reflexivity].
      cbn [p_start]. rewrite fold_last_end. fold (busy_until (nth m scheds [])).
      rewrite <- Hb. apply Z.le_max_r.
    + rewrite nth_insert_ne by exact Hne. apply Hc.
Qed.

Lemma tagged_from_insert p scheds :
  forall m start,
    (m < length scheds)%nat ->
    Permutation (tagged_from start (<[m := nth m scheds [] ++ [p]]> scheds))
                (tagged_from start scheds ++ [((start + m)%nat, p)]).
Proof.
  unfold tagged_from.
  induction scheds as [|sched scheds IH]; intros m start Hm; cbn [length] in Hm;
    [lia|].
  destruct m as [|m].
  - cbn [nth]. change (<[0%nat := sched ++ [p]]> (sched :: scheds))
      with ((sched ++ [p]) :: scheds).
    cbn [length seq combine map concat fst snd].
    rewrite map_app, Nat.add_0_r. cbn [map]. rewrite <- !app_assoc.
    apply Permutation_app_head, Permutation_app_comm.
  - cbn [nth]. change (<[S m := nth m scheds [] ++ [p]]> (sched :: scheds))
      with (sched :: <[m := nth m scheds [] ++ [p]]> scheds).
    cbn [length seq combine map concat fst snd].
    rewrite length_insert.
    specialize (IH m (S start) ltac:(lia)). rewrite length_insert in IH.
    rewrite IH, <- app_assoc.
    replace (S start + m)%nat with (start + S m)%nat by lia. reflexivity.
Qed.

Lemma violations_of_insert p scheds m :
  (m < length scheds)%nat ->
  Permutation (violations_of (<[m := nth m scheds [] ++ [p]]> scheds))
              (violations_of scheds
               ++ (if over_capacity p then [violation_of (m, p)] else [])).
Proof.
  intros Hm. unfold violations_of.
  change (tagged ?s) with (tagged_from 0 s).
  rewrite (filter_Permutation_bool _ _ _ (tagged_from_insert p scheds m 0 Hm)).
  rewrite List.filter_app, map_app. cbn [List.filter snd Nat.add].
  destruct (over_capacity p); reflexivity.
Qed.

Lemma place_machines job size cur st :
  greedy_machines st ->
  greedy_machines (snd (BacktrackingSolver.place job size cur st)).
Proof.
  intros [Hok Hviol]. unfold BacktrackingSolver.place.
  pose proof (min_machine_lt (BacktrackingSolver.machine_times st)) as Hm.
  pose proof (put_machines_ok _ job size cur _ _ Hok Hm) as Hput.
  unfold put in *. cbn [snd]. constructor;
    cbn [BacktrackingSolver.machine_times BacktrackingSolver.machine_schedules
         BacktrackingSolver.violations]; [exact Hput|].
  rewrite violations_of_insert by (rewrite (mo_scheds _ _ Hok); exact Hm).
  unfold check_capacity, over_capacity, violation_of. cbn [p_end p_job p_size p_start].
  destruct (_ >? FIXED_MACHINE_CAPACITY).
  - apply Permutation_app_tail, Hviol.
  - rewrite app_nil_r. exact Hviol.
Qed.

Lemma place_chunks_machines job sizes :
  forall cur st,
    greedy_machines st ->
    greedy_machines (BacktrackingSolver.place_chunks job sizes cur st).
Proof.
  induction sizes as [|size sizes IH]; intros cur st Hst;
    cbn [BacktrackingSolver.place_chunks]; [exact Hst|].
  pose proof (place_machines job size cur st Hst) as Hst1.
  destruct (BacktrackingSolver.place job size cur st) as [e st1].
  apply IH, Hst1.
Qed.

Lemma schedule_job_machines st job :
  greedy_machines st ->
  exists st', BacktrackingSolver.schedule_job st job = Ok st' /\ greedy_machines st'.
Proof.
  intros Hst. unfold BacktrackingSolver.schedule_job.
  destruct (Z.gtb_spec (duration job) MAX_CHUNK_SIZE) as [Hd|Hd].
  - destruct (final_sizes_ok (duration job) Hd) as [sizes ->]. cbn [obind].
    eexists. split; [reflexivity|]. apply place_chunks_machines, Hst.
  - eexists. split; [reflexivity|]. apply place_machines, Hst.
Qed.

Lemma schedule_all_machines order :
  forall st,
    greedy_machines st ->
    exists st', BacktrackingSolver.schedule_all order st = Ok st' /\
                greedy_machines st'.
Proof.
  induction order as [|job order IH]; intros st Hst;
    cbn [BacktrackingSolver.schedule_all].
  - exists st. split; [reflexivity|exact Hst].
  - destruct (schedule_job_machines st job Hst) as (st1 & -> & Hst1).
    cbn [obind]. apply IH, Hst1.
Qed.

Lemma greedy_machines_init : greedy_machines BacktrackingSolver.init_state.
Proof.
  constructor; [constructor|]; cbn; try reflexivity.
  - intros [|[|[|[|m]]]]; reflexivity.
  - intros [|[|[|[|m]]]]; exact I.
Qed.

Lemma max_list_machines times scheds :
  machines_ok times scheds ->
  max_list times = Ok (maximum (map busy_until scheds)).
Proof.
  intros [Ht Hs Hb _].
  assert (E : times = map busy_until scheds).
  { apply (nth_ext _ _ 0 (busy_until [])).
    - rewrite length_map. congruence.
    - intros m _. rewrite (map_nth busy_until). apply Hb. }
  rewrite E. destruct scheds as [|s scheds]; [discriminate Hs|]. reflexivity.
Qed.

Lemma sorted_nonempty jobs order :
  jobs <> [] ->
  BacktrackingSolver._topological_sort jobs = Ok (Some order) -> order <> [].
Proof.
  intros Hne Hsort ->.
  destruct (bt_topological_sort_ordered jobs [] Hsort) as (_ & _ & Hall & _).
  destruct jobs as [|job jobs]; [congruence|].
  apply (Hall job). now left.
Qed.

Lemma greedy_solve_sorted jobs order :
  first_over_capacity jobs = None ->
  BacktrackingSolver._topological_sort jobs = Ok (Some order) -> order <> [] ->
  exists st,
    BacktrackingSolver.schedule_all order BacktrackingSolver.init_state = Ok st /\
    greedy_machines st /\
    BacktrackingSolver.solve jobs
    = Ok (mkResult true
            (maximum (map busy_until (BacktrackingSolver.machine_schedules st)))
            (BacktrackingSolver._build_final (BacktrackingSolver.machine_schedules st))
            [] (_calc_splits (BacktrackingSolver.machine_schedules st))
            (Some (sumZ (map duration jobs)))
            (Some (BacktrackingSolver.violations st)) None).
Proof.
  intros Hcap Hsort Hne.
  destruct (schedule_all_machines order _ greedy_machines_init) as (st & Hrun & Hst).
  exists st. split; [exact Hrun|]. split; [exact Hst|].
  unfold BacktrackingSolver.solve. rewrite Hcap, Hsort. cbn [obind].
  destruct order as [|job order]; [congruence|].
  rewrite Hrun. cbn [obind].
  rewrite (max_list_machines _ _ (gm_ok _ Hst)). reflexivity.
Qed.

Lemma greedy_success_cases (jobs : list Job) :
  NoDup (map id jobs) ->
  ((exists r, BacktrackingSolver.solve jobs = Ok r /\ success r = true) <->
   jobs <> [] /\
   (forall job, In job jobs -> duration job <= FIXED_MACHINE_CAPACITY) /\
   deps_closed jobs /\ ~ cyclic jobs).
Proof.
  intros Hnd. split.
  - intros (r & Hrun & Hsucc).
    destruct (greedy_solve_success jobs r Hrun Hsucc) as (order & st & Hsort & _).
    destruct (bt_topological_sort_ordered jobs order Hsort)
      as (Hndo & Hord & Hall & Hfrom).
    split; [|split; [|split]].
    + intros ->. unfold BacktrackingSolver.solve in Hrun. cbn in Hrun.
      injection Hrun as <-. discriminate Hsucc.
    + apply first_over_capacity_none. unfold BacktrackingSolver.solve in Hrun.
      destruct (first_over_capacity jobs); [|reflexivity].
      injection Hrun as <-. discriminate Hsucc.
    + intros job d Hjob Hd.
      pose proof (Hall job Hjob) as Hin.
      apply in_map_iff in Hin as (job' & Hid & Hjob').
      pose proof (same_id_same_job jobs job' job Hnd (Hfrom job' Hjob') Hjob Hid) as ->.
      apply in_split in Hjob' as (pre & post & ->).
      pose proof (Hord pre job post eq_refl d Hd) as Hpre.
      apply in_map_iff in Hpre as (dj & <- & Hdj).
      apply in_map, Hfrom, in_or_app. left. exact Hdj.
    + apply (ordered_not_cyclic jobs order); assumption.
  - intros (Hne & Hcap & Hclosed & Hacyc).
    destruct (closed_acyclic_sorted jobs Hclosed Hacyc) as (order & Hsort & _).
    destruct (greedy_solve_sorted jobs order (proj2 (first_over_capacity_none jobs) Hcap)
                Hsort (sorted_nonempty jobs order Hne Hsort))
      as (st & _ & _ & Hsolve).
    eexists. split; [exact Hsolve|reflexivity].
Qed.

(** X4. For jobs with distinct identifiers, whenever the greedy solver
    returns a response, the response is a successful schedule exactly when
    the list is not empty, no duration exceeds 40, every dependency names
    a job of the list and no job depends on itself, directly or through
    other jobs; and on such a list it raises none of [KeyError],
    [IndexError], [ZeroDivisionError], [AssertionError], [ValueError]. *)
Theorem greedy_succeeds_iff_valid (jobs : list Job) (r : ScheduleResult Z) :
  NoDup (map id jobs) ->
  (BacktrackingSolver.solve jobs = Ok r ->
   (success r = true <->
    jobs <> [] /\
    (forall job, In job jobs -> duration job <= FIXED_MACHINE_CAPACITY) /\
    deps_closed jobs /\ ~ cyclic jobs)) /\
  (jobs <> [] /\
   (forall job, In job jobs -> duration job <= FIXED_MACHINE_CAPACITY) /\
   deps_closed jobs /\ ~ cyclic jobs ->
   forall e, BacktrackingSolver.solve jobs <> Raise e).
Proof.
  intros Hnd. split.
  - intros Hrun. split.
    + intros Hsucc. apply (proj1 (greedy_success_cases jobs Hnd)).
      exists r. split; assumption.
    + intros Hvalid.
      destruct (proj2 (greedy_success_cases jobs Hnd) Hvalid) as (r0 & Hrun0 & Hsucc).
      rewrite Hrun in Hrun0. injection Hrun0 as <-. exact Hsucc.
  - intros Hvalid e Hraise.
    destruct (proj2 (greedy_success_cases jobs Hnd) Hvalid) as (r0 & Hrun0 & _).
    rewrite Hraise in Hrun0. discriminate Hrun0.
Qed.

Lemma greedy_succeeds_iff_valid_witness :
  deps_closed [job_B; job_A] /\ ~ cyclic [job_B; job_A].
Proof.
  assert (Hnd : NoDup (map id [job_B; job_A]))
    by (refine (bool_decide_unpack _ _); vm_compute; exact I).
  assert (Hrun : exists r, BacktrackingSolver.solve [job_B; job_A] = Ok r /\
                           success r = true)
    by (eexists; split; [vm_compute; reflexivity|reflexivity]).
  destruct Hrun as (r & Hrun & Hsucc).
  destruct (proj1 (proj1 (greedy_succeeds_iff_valid [job_B; job_A] r Hnd) Hrun) Hsucc)
    as (_ & _ & Hclosed & Hacyc).
  split; assumption.
Defined.

Lemma cycle_error_cases
    {F : Type} {fo : FloatOps F} {R : Type} {rg : RandomGen R} (jobs : list Job) :
  NoDup (map id jobs) -> deps_closed jobs ->
  (forall job, In job jobs -> duration job <= FIXED_MACHINE_CAPACITY) ->
  jobs = [] \/ cyclic jobs ->
  BacktrackingSolver.solve jobs
  = Ok (_create_error_result 0 "Cycle Detected"%string) /\
  forall g : R,
    CulturalAlgorithm.solve (F := F) jobs g
    = Ok (_create_error_result (Fin (of_Z 0)) "Cyclic dependencies detected!"%string, g).
Proof.
  intros Hnd Hclosed Hcap Hcase.
  apply first_over_capacity_none in Hcap.
  unfold BacktrackingSolver.solve, CulturalAlgorithm.solve. rewrite Hcap.
  destruct Hcase as [->|Hcyc].
  - split; [reflexivity|]. intros g. reflexivity.
  - destruct (closed_cyclic_unsorted jobs Hnd Hclosed Hcyc) as [-> ->].
    split; [reflexivity|]. intros g. reflexivity.
Qed.

(** X5. For jobs with distinct identifiers, durations of at most 40 and
    dependencies that all name jobs, an empty job list and a dependency
    cycle are reported alike.  On the empty list the greedy solver returns
    the failure [Cycle Detected] and the cultural solver the failure
    [Cyclic dependencies detected!]; on a list with a cycle these are the
    only responses either solver returns; and the cultural solver has
    drawn no random number when it returns. *)
Theorem cycle_error_on_empty_or_cyclic_input
    {F : Type} {fo : FloatOps F} {R : Type} {rg : RandomGen R} (jobs : list Job) :
  NoDup (map id jobs) -> deps_closed jobs ->
  (forall job, In job jobs -> duration job <= FIXED_MACHINE_CAPACITY) ->
  jobs = [] \/ cyclic jobs ->
  (forall r, BacktrackingSolver.solve jobs = Ok r ->
             r = _create_error_result 0 "Cycle Detected"%string) /\
  (forall (g g' : R) (r : ScheduleResult (fitness F)),
     CulturalAlgorithm.solve jobs g = Ok (r, g') ->
     r = _create_error_result (Fin (of_Z 0)) "Cyclic dependencies detected!"%string /\
     g' = g) /\
  (jobs = [] ->
   BacktrackingSolver.solve jobs
   = Ok (_create_error_result 0 "Cycle Detected"%string) /\
   forall g : R,
     CulturalAlgorithm.solve (F := F) jobs g
     = Ok (_create_error_result (Fin (of_Z 0))
             "Cyclic dependencies detected!"%string, g)).
Proof.
  intros Hnd Hclosed Hcap Hcase.
  destruct (cycle_error_cases (F := F) (R := R) jobs Hnd Hclosed Hcap Hcase)
    as [Hbt Hca].
  split; [|split].
  - intros r Hrun. rewrite Hbt in Hrun. injection Hrun as <-. reflexivity.
  - intros g g' r Hrun. rewrite Hca in Hrun. injection Hrun as <- <-.
    split; reflexivity.
  - intros ->. split; [reflexivity|]. intros g. reflexivity.
Qed.

Lemma cycle_error_on_empty_or_cyclic_input_witness :
  (forall r,
     BacktrackingSolver.solve [mkJob 1 "P" 5 [2] 1; mkJob 2 "Q" 5 [1] 1] = Ok r ->
     r = _create_error_result 0 "Cycle Detected"%string) /\
  CulturalAlgorithm.solve (F := Q) [] 7%N
  = Ok (_create_error_result (Fin (of_Z 0)) "Cyclic dependencies detected!"%string,
        7%N).
Proof.
  split.
  - apply (cycle_error_on_empty_or_cyclic_input (fo := Q_float) (rg := lcg)
             [mkJob 1 "P" 5 [2] 1; mkJob 2 "Q" 5 [1] 1]).
    + refine (bool_decide_unpack _ _). vm_compute. exact I.
    + intros job d [<-|[<-|[]]] Hd; cbn in Hd |- *; tauto.
    + intros job [<-|[<-|[]]]; vm_compute; discriminate.
    + right. exists 1. eapply tc_l; [|apply tc_once].
      * exists (mkJob 1 "P" 5 [2] 1). cbn. tauto.
      * exists (mkJob 2 "Q" 5 [1] 1). cbn. tauto.
  - apply (cycle_error_on_empty_or_cyclic_input (fo := Q_float) (rg := lcg) []).
    + constructor.
    + intros job d [].
    + intros job [].
    + left. reflexivity.
    + reflexivity.
Defined.

(** ** The machine lists of the response *)

Lemma Zltb_swo : strict_weak_order Z.ltb.
Proof.
  split.
  - intros x y Hxy. apply Z.ltb_lt in Hxy. apply Z.ltb_ge. lia.
  - intros x y z Hxy Hyz. apply Z.ltb_ge in Hxy, Hyz. apply Z.ltb_ge. lia.
Qed.

Lemma sort_by_sorted {A} (key : A -> Z) (l : list A) :
  StronglySorted (fun a b => key a <= key b) (sort_by key l).
Proof.
  pose proof (sorted_by_sorted Z.ltb key Zltb_swo l) as Hs.
  fold (sort_by key l) in Hs. induction Hs as [|a l' Hs IH Ha]; constructor.
  - exact IH.
  - eapply Forall_impl; [exact Ha|]. cbn. intros b Hb.
    unfold key_le_by in Hb. apply Z.ltb_ge in Hb. exact Hb.
Qed.

Lemma filter_concat_nth {A} (g : A -> nat) (ls : list (list A)) :
  forall off m,
    (forall k x, In x (nth k ls []) -> g x = (off + k)%nat) ->
    List.filter (fun x => (g x =? m)%nat) (concat ls)
    = if (off <=? m)%nat then nth (m - off) ls [] else [].
Proof.
  induction ls as [|l ls IH]; intros off m Hg.
  - cbn. destruct (off <=? m)%nat; [|reflexivity]. destruct (m - off)%nat; reflexivity.
  - cbn [concat]. rewrite List.filter_app.
    rewrite (IH (S off) m).
    2: { intros k x Hx. rewrite (Hg (S k) x Hx). lia. }
    assert (Hl : forall x, In x l -> g x = off).
    { intros x Hx. rewrite (Hg 0%nat x Hx). lia. }
    destruct (Nat.leb_spec off m) as [Hle|Hlt].
    + destruct (Nat.eq_dec m off) as [->|Hne].
      * rewrite Nat.sub_diag. cbn [nth].
        destruct (Nat.leb_spec (S off) off) as [?|_]; [lia|].
        rewrite app_nil_r. apply forallb_filter_id.
        apply forallb_forall. intros x Hx. rewrite (Hl x Hx). apply Nat.eqb_refl.
      * destruct (Nat.leb_spec (S off) m) as [_|?]; [|lia].
        replace (m - off)%nat with (S (m - S off)) by lia. cbn [nth].
        replace (List.filter (fun x => (g x =? m)%nat) l) with (@nil A); [reflexivity|].
        symmetry. clear -Hl Hne. induction l as [|x l IH]; [reflexivity|].
        cbn [List.filter]. rewrite (Hl x (or_introl eq_refl)).
        destruct (Nat.eqb_spec off m) as [E|_]; [congruence|].
        apply IH. intros y Hy. apply Hl. now right.
    + destruct (Nat.leb_spec (S off) m) as [?|_]; [lia|]. rewrite app_nil_r.
      clear -Hl Hlt. induction l as [|x l IH]; [reflexivity|].
      cbn [List.filter]. rewrite (Hl x (or_introl eq_refl)).
      destruct (Nat.eqb_spec off m) as [E|_]; [lia|].
      apply IH. intros y Hy. apply Hl. now right.
Qed.

Lemma nth_tagged_from scheds :
  forall start k,
    nth k (map (fun ms : nat * list Placed => map (pair (fst ms)) (snd ms))
               (combine (seq start (length scheds)) scheds)) []
    = map (pair (start + k)%nat) (nth k scheds []).
Proof.
  induction scheds as [|sched scheds IH]; intros start k.
  - destruct k; reflexivity.
  - cbn [length seq combine map]. destruct k as [|k]; cbn [nth fst snd].
    + rewrite Nat.add_0_r. reflexivity.
    + rewrite IH. replace (S start + k)%nat with (start + S k)%nat by lia.
      reflexivity.
Qed.

Lemma tagged_filter scheds m :
  List.filter (fun mp : nat * Placed => (fst mp =? m)%nat) (tagged scheds)
  = map (pair m) (nth m scheds []).
Proof.
  unfold tagged. rewrite (filter_concat_nth fst _ 0%nat m).
  - cbn [Nat.leb]. rewrite Nat.sub_0_r, nth_tagged_from. reflexivity.
  - intros k x Hx. rewrite nth_tagged_from in Hx.
    apply in_map_iff in Hx as (p & <- & _). reflexivity.
Qed.

Lemma filter_map_comm {A B} (f : B -> bool) (h : A -> B) (l : list A) :
  List.filter f (map h l) = map h (List.filter (fun x => f (h x)) l).
Proof.
  induction l as [|x l IH]; [reflexivity|]. cbn [map List.filter].
  destruct (f (h x)); cbn [map]; rewrite IH; reflexivity.
Qed.

Lemma nth_map_sort {A} (key : A -> Z) (ls : list (list A)) m :
  nth m (map (sort_by key) ls) [] = sort_by key (nth m ls []).
Proof. exact (map_nth (sort_by key) ls [] m). Qed.

(** The filing of numbered chunks under their machines. *)
Lemma file_chunks_machine tcs :
  forall final : list (list TaskChunk),
    (forall m tc, In tc (nth m final []) -> tc_machine tc = Z.of_nat m) ->
    Forall (fun tc => exists k, tc_machine tc = Z.of_nat k) tcs ->
    forall m tc,
      In tc (nth m (fold_left (fun final tc =>
                      let m := Z.to_nat (tc_machine tc) in
                      <[m := nth m final [] ++ [tc]]> final) tcs final) []) ->
      tc_machine tc = Z.of_nat m.
Proof.
  induction tcs as [|tc0 tcs IH]; intros final Hfinal Hall; cbn [fold_left];
    [exact Hfinal|].
  inversion Hall as [|? ? [k Hk] Hall']; subst.
  apply IH; [|exact Hall'].
  intros m tc. cbv zeta. rewrite Hk, Nat2Z.id.
  destruct (Nat.eq_dec k m) as [->|Hne].
  - destruct (Nat.lt_ge_cases m (length final)) as [Hlt|Hge].
    + rewrite nth_insert_eq by exact Hlt. intros Hin.
      apply in_app_or in Hin as [Hin|[<-|[]]]; [apply Hfinal, Hin|exact Hk].
    + rewrite list_insert_ge by exact Hge. apply Hfinal.
  - rewrite nth_insert_ne by exact Hne. apply Hfinal.
Qed.

Lemma number_chunks_machine chunks :
  Forall (fun tc => exists k, tc_machine tc = Z.of_nat k) (number_chunks chunks).
Proof.
  unfold number_chunks. apply Forall_forall. intros tc Htc.
  apply list_elem_of_In, in_map_iff in Htc as ([idx [m p]] & <- & _).
  exists m. reflexivity.
Qed.

Lemma build_final_machine key scheds m tc :
  In tc (nth m (build_final key scheds) []) -> tc_machine tc = Z.of_nat m.
Proof.
  unfold build_final.
  rewrite nth_map_sort. intros Hin.
  apply (Permutation_in _ (sorted_by_perm Z.ltb tc_start _)) in Hin.
  revert m tc Hin.
  generalize (group_by_job scheds) as groups.
  assert (Hinit : forall m tc,
            In tc (nth m (repeat (@nil TaskChunk) (Z.to_nat NUM_MACHINES)) []) ->
            tc_machine tc = Z.of_nat m).
  { intros [|[|[|[|m]]]] tc []. }
  revert Hinit. generalize (repeat (@nil TaskChunk) (Z.to_nat NUM_MACHINES)) as final.
  intros final Hfinal groups. revert final Hfinal.
  induction groups as [|[k chunks] groups IH]; intros final Hfinal;
    cbn [fold_left]; [exact Hfinal|].
  apply IH. apply file_chunks_machine; [exact Hfinal|apply number_chunks_machine].
Qed.

Lemma build_final_length key scheds :
  length (build_final key scheds) = Z.to_nat NUM_MACHINES.
Proof.
  unfold build_final. rewrite length_map.
  generalize (group_by_job scheds) as groups.
  assert (Hinit : length (repeat (@nil TaskChunk) (Z.to_nat NUM_MACHINES))
                  = Z.to_nat NUM_MACHINES) by reflexivity.
  revert Hinit. generalize (repeat (@nil TaskChunk) (Z.to_nat NUM_MACHINES)) as final.
  intros final Hfinal groups. revert final Hfinal.
  induction groups as [|[k chunks] groups IH]; intros final Hfinal;
    cbn [fold_left]; [exact Hfinal|].
  apply IH. rewrite <- Hfinal.
  generalize (number_chunks (sort_by key chunks)) as tcs. clear.
  intros tcs. revert final. induction tcs as [|tc tcs IH]; intros final;
    cbn [fold_left]; [reflexivity|].
  rewrite IH. apply length_insert.
Qed.

(** Every machine list of the response holds the entries of that
    machine's timeline, sorted by start. *)
Lemma build_final_machine_perm key scheds m :
  (length scheds <= Z.to_nat NUM_MACHINES)%nat ->
  Permutation (map tc_placed (nth m (build_final key scheds) [])) (nth m scheds []).
Proof.
  intros Hlen.
  pose proof (build_final_perm key scheds Hlen) as Hperm.
  apply (filter_Permutation_bool (fun mp : nat * Placed => (fst mp =? m)%nat))
    in Hperm.
  rewrite tagged_filter, filter_map_comm in Hperm.
  rewrite (filter_concat_nth (fun tc => fst (tc_pair tc)) _ 0%nat m) in Hperm.
  2: { intros k tc Htc. unfold tc_pair. cbn [fst].
       rewrite (build_final_machine key scheds k tc Htc). apply Nat2Z.id. }
  cbn [Nat.leb] in Hperm. rewrite Nat.sub_0_r in Hperm.
  apply (Permutation_map snd) in Hperm. rewrite !map_map in Hperm.
  cbn [snd tc_pair] in Hperm. rewrite map_id in Hperm. exact Hperm.
Qed.

Lemma build_final_machine_sorted key scheds m :
  StronglySorted (fun a b => tc_start a <= tc_start b)
                 (nth m (build_final key scheds) []).
Proof.
  unfold build_final.
  rewrite nth_map_sort. apply sort_by_sorted.
Qed.

(** ** No machine of the greedy schedule runs two chunks at once *)

Lemma StronglySorted_perm_sym {A} (R : A -> A -> Prop) l l' :
  (forall a b, R a b -> R b a) ->
  Permutation l l' -> StronglySorted R l -> StronglySorted R l'.
Proof.
  intros Hsym. induction 1 as [|x l l' Hperm IH|x y l|l l' l'' _ IH1 _ IH2];
    intros Hs.
  - exact Hs.
  - apply StronglySorted_inv in Hs as [Hs Hx]. constructor; [apply IH, Hs|].
    eapply Permutation_Forall; eassumption.
  - apply StronglySorted_inv in Hs as [Hs Hy].
    apply StronglySorted_inv in Hs as [Hs Hx].
    inversion Hy as [|? ? Hyx Hyl]; subst.
    constructor; [constructor; assumption|].
    constructor; [apply Hsym, Hyx|exact Hx].
  - apply IH2, IH1, Hs.
Qed.

Lemma StronglySorted_map {A B} (R : B -> B -> Prop) (f : A -> B) l :
  StronglySorted R (map f l) <-> StronglySorted (fun a b => R (f a) (f b)) l.
Proof.
  induction l as [|x l IH]; cbn [map].
  - split; constructor.
  - split; intros Hs; apply StronglySorted_inv in Hs as [Hs Hx]; constructor;
      try (apply IH, Hs).
    + apply List.Forall_forall. intros b Hb.
      rewrite List.Forall_forall in Hx. apply Hx, in_map, Hb.
    + apply List.Forall_forall. intros b Hb.
      apply in_map_iff in Hb as (a & <- & Ha).
      rewrite List.Forall_forall in Hx. apply Hx, Ha.
Qed.

Lemma chained_apart t pl :
  chained t pl -> Forall (fun p => 0 <= p_size p) pl ->
  Forall (fun p => t <= p_start p /\ p_end p = p_start p + p_size p) pl /\
  StronglySorted (fun a b => p_end a <= p_start b) pl.
Proof.
  revert t. induction pl as [|p pl IH]; intros t Hc Hpos.
  - split; constructor.
  - destruct Hc as (H1 & H2 & H3).
    inversion Hpos as [|? ? Hp Hpos']; subst.
    destruct (IH _ H3 Hpos') as [Hall Hs].
    split; constructor.
    + auto.
    + eapply Forall_impl; [exact Hall|]. cbn. intros q [Hq1 Hq2]. split; [lia|exact Hq2].
    + exact Hs.
    + eapply Forall_impl; [exact Hall|]. cbn. intros q [Hq1 _]. exact Hq1.
Qed.

Lemma sorted_apart_sequential {A} (s e : A -> Z) l :
  StronglySorted (fun a b => s a <= s b) l ->
  StronglySorted (fun a b => e a <= s b \/ e b <= s a) l ->
  Forall (fun a => s a < e a) l ->
  StronglySorted (fun a b => e a <= s b) l.
Proof.
  induction l as [|x l IH]; intros Hs Ha Hpos; [constructor|].
  apply StronglySorted_inv in Hs as [Hs Hsx].
  apply StronglySorted_inv in Ha as [Ha Hax].
  inversion Hpos as [|? ? Hx Hpos']; subst.
  constructor; [apply IH; assumption|].
  rewrite List.Forall_forall in *. intros b Hb.
  specialize (Hsx b Hb). specialize (Hpos' b Hb).
  destruct (Hax b Hb) as [H|H]; [exact H|lia].
Qed.

Lemma chunk_sizes_sum job sizes :
  chunk_sizes job = Ok sizes ->
  sumZ sizes = duration job /\ sizes <> [] /\
  Forall (fun s => s <= MAX_CHUNK_SIZE) sizes /\
  (0 < duration job -> Forall (fun s => 0 < s) sizes) /\
  (0 <= duration job -> Forall (fun s => 0 <= s) sizes).
Proof.
  unfold chunk_sizes.
  destruct (Z.gtb_spec (duration job) MAX_CHUNK_SIZE) as [Hd|Hd].
  - intros Hfs.
    assert (Hpos : 0 < duration job) by (unfold MAX_CHUNK_SIZE in Hd; lia).
    rewrite (final_sizes_balanced _ Hpos) in Hfs. injection Hfs as <-.
    destruct (balanced_arith _ Hpos) as (Hn & Hr & Hq & Hq0 & Hq1 & _).
    set (n := (duration job + MAX_CHUNK_SIZE - 1) / MAX_CHUNK_SIZE) in *.
    pose proof (Z.div_mod (duration job) n ltac:(lia)) as Hdm.
    split; [rewrite sumZ_app, !sumZ_repeat; nia|].
    split.
    { intros E. apply (f_equal (@length Z)) in E.
      rewrite length_app, !repeat_length in E. cbn in E. lia. }
    split; [|split; intros _].
    + apply Forall_app. split; apply Forall_repeat_nonempty; intros Hk; [|lia].
      apply Hq1. lia.
    + apply Forall_app. split; apply Forall_repeat_nonempty; intros Hk; lia.
    + apply Forall_app. split; apply Forall_repeat_nonempty; intros Hk; lia.
  - intros [= <-]. cbn. split; [lia|]. split; [discriminate|].
    split; [|split; intros H]; repeat constructor; lia.
Qed.

(** The state behind a successful response of the greedy solver. *)
Lemma greedy_success_state jobs r :
  BacktrackingSolver.solve jobs = Ok r -> success r = true ->
  exists order st,
    BacktrackingSolver._topological_sort jobs = Ok (Some order) /\
    order <> [] /\
    BacktrackingSolver.schedule_all order BacktrackingSolver.init_state = Ok st /\
    greedy_inv order st /\ greedy_machines st /\
    r = mkResult true
          (maximum (map busy_until (BacktrackingSolver.machine_schedules st)))
          (BacktrackingSolver._build_final (BacktrackingSolver.machine_schedules st))
          [] (_calc_splits (BacktrackingSolver.machine_schedules st))
          (Some (sumZ (map duration jobs)))
          (Some (BacktrackingSolver.violations st)) None.
Proof.
  intros Hrun Hsucc.
  destruct (greedy_solve_success jobs r Hrun Hsucc)
    as (order & st & Hsort & Hall & Hinv & _).
  assert (Hcap : first_over_capacity jobs = None).
  { unfold BacktrackingSolver.solve in Hrun.
    destruct (first_over_capacity jobs); [|reflexivity].
    injection Hrun as <-. discriminate Hsucc. }
  assert (Hne : order <> []).
  { intros ->. unfold BacktrackingSolver.solve in Hrun.
    rewrite Hcap, Hsort in Hrun. cbn [obind] in Hrun.
    injection Hrun as <-. discriminate Hsucc. }
  destruct (greedy_solve_sorted jobs order Hcap Hsort Hne)
    as (st' & Hall' & Hm & Hsolve).
  assert (st' = st) by congruence. subst st'.
  exists order, st. repeat (split; [assumption|]). congruence.
Qed.

Lemma in_flat_machine (scheds : list (list Placed)) p :
  In p (concat scheds) -> exists m, In p (nth m scheds []).
Proof.
  intros Hin. apply in_concat in Hin as (l & Hl & Hp).
  destruct (In_nth scheds l [] Hl) as (m & _ & <-). exists m. exact Hp.
Qed.

Lemma in_machine_flat (scheds : list (list Placed)) m p :
  In p (nth m scheds []) -> In p (concat scheds).
Proof.
  intros Hin. destruct (Nat.lt_ge_cases m (length scheds)) as [Hlt|Hge].
  - apply in_concat. exists (nth m scheds []). split; [apply nth_In, Hlt|exact Hin].
  - rewrite nth_overflow in Hin by exact Hge. destruct Hin.
Qed.

Lemma greedy_flat_entry done st p :
  greedy_inv done st -> In p (flat st) ->
  In (p_job p) done /\
  exists sizes, chunk_sizes (p_job p) = Ok sizes /\ In (p_size p) sizes.
Proof.
  intros Hinv Hp. pose proof (gi_jobs _ _ Hinv p Hp) as Hjob.
  split; [exact Hjob|].
  destruct (gi_trace _ _ Hinv (p_job p) Hjob) as (sizes & pl & t & Hs & _ & _ & E & Hperm).
  exists sizes. split; [exact Hs|]. rewrite <- E. apply in_map.
  eapply Permutation_in; [exact Hperm|].
  unfold chunks_of. apply filter_In. split; [exact Hp|apply Z.eqb_refl].
Qed.

Lemma greedy_positive_sizes jobs order st :
  (forall job, In job jobs -> 0 < duration job) ->
  (forall job, In job order -> In job jobs) ->
  greedy_inv order st ->
  forall p, In p (flat st) -> 0 < p_size p.
Proof.
  intros Hpos Hfrom Hinv p Hp.
  destruct (greedy_flat_entry order st p Hinv Hp) as (Hjob & sizes & Hs & Hin).
  destruct (chunk_sizes_sum _ _ Hs) as (_ & _ & _ & Hall & _).
  specialize (Hall (Hpos _ (Hfrom _ Hjob))).
  rewrite List.Forall_forall in Hall. apply Hall, Hin.
Qed.

(** X6. In a successful response of the greedy solver for jobs of
    positive duration there are three machine lists; every chunk is filed
    under its machine, starts at time 0 or later and ends its (positive)
    size after it starts; and each machine list is in running order, every
    chunk ending before the next one starts: no machine runs two chunks
    at once. *)
Theorem greedy_machine_runs_one_chunk_at_a_time
    (jobs : list Job) (r : ScheduleResult Z) :
  (forall job, In job jobs -> 0 < duration job) ->
  BacktrackingSolver.solve jobs = Ok r -> success r = true ->
  length (schedule r) = Z.to_nat NUM_MACHINES /\
  forall m,
    Forall (fun tc => tc_machine tc = Z.of_nat m /\ 0 <= tc_start tc /\
                      tc_end tc = tc_start tc + tc_size tc /\ 0 < tc_size tc)
           (nth m (schedule r) []) /\
    StronglySorted (fun a b => tc_end a <= tc_start b) (nth m (schedule r) []).
Proof.
  intros Hpos Hrun Hsucc.
  destruct (greedy_success_state jobs r Hrun Hsucc)
    as (order & st & Hsort & _ & _ & Hinv & [Hok _] & ->).
  destruct (bt_topological_sort_ordered jobs order Hsort) as (_ & _ & _ & Hfrom).
  cbn [schedule]. unfold BacktrackingSolver._build_final.
  split; [apply build_final_length|]. intros m.
  set (scheds := BacktrackingSolver.machine_schedules st) in *.
  set (L := nth m (build_final (fun c => p_start (snd c)) scheds) []).
  assert (Hperm : Permutation (map tc_placed L) (nth m scheds []))
    by (apply build_final_machine_perm; rewrite (mo_scheds _ _ Hok); lia).
  assert (Hsizes : Forall (fun p => 0 < p_size p) (nth m scheds [])).
  { apply List.Forall_forall. intros p Hp.
    apply (greedy_positive_sizes jobs order st Hpos Hfrom Hinv).
    apply (in_machine_flat scheds m p Hp). }
  destruct (chained_apart 0 (nth m scheds []) (mo_chained _ _ Hok m))
    as [Hall Hsorted].
  { eapply Forall_impl; [exact Hsizes|]. cbn. intros p Hp. lia. }
  assert (HL : Forall (fun tc => tc_machine tc = Z.of_nat m /\ 0 <= tc_start tc /\
                         tc_end tc = tc_start tc + tc_size tc /\ 0 < tc_size tc) L).
  { apply List.Forall_forall. intros tc Htc.
    split; [apply (build_final_machine _ scheds m tc Htc)|].
    assert (Hin : In (tc_placed tc) (nth m scheds []))
      by (eapply Permutation_in; [exact Hperm|apply in_map, Htc]).
    rewrite List.Forall_forall in Hall, Hsizes.
    destruct (Hall _ Hin) as [H1 H2]. specialize (Hsizes _ Hin).
    cbn in H1, H2, Hsizes. auto. }
  split; [exact HL|].
  apply (sorted_apart_sequential tc_start tc_end).
  - apply build_final_machine_sorted.
  - apply (StronglySorted_map
             (fun a b => p_end a <= p_start b \/ p_end b <= p_start a) tc_placed L).
    apply (StronglySorted_perm_sym _ (nth m scheds [])).
    + intros a b [H|H]; auto.
    + symmetry. exact Hperm.
    + clear -Hsorted. induction Hsorted as [|a l Hs IH Ha]; constructor; [exact IH|].
      eapply Forall_impl; [exact Ha|]. cbn. auto.
  - eapply Forall_impl; [exact HL|]. cbn. intros tc (_ & _ & H1 & H2). lia.
Qed.

Lemma greedy_machine_runs_one_chunk_at_a_time_witness :
  exists r,
    BacktrackingSolver.solve scenario1 = Ok r /\
    StronglySorted (fun a b => tc_end a <= tc_start b) (nth 0 (schedule r) []).
Proof.
  eexists. split; [vm_compute; reflexivity|].
  apply (greedy_machine_runs_one_chunk_at_a_time scenario1).
  - intros job [<-|[<-|[<-|[]]]]; reflexivity.
  - vm_compute. reflexivity.
  - reflexivity.
Defined.

(** ** The work of the greedy schedule *)

Lemma sumZ_perm l l' : Permutation l l' -> sumZ l = sumZ l'.
Proof.
  unfold sumZ. induction 1; cbn [fold_right]; lia.
Qed.

Lemma schedule_all_work order :
  forall st st',
    length (BacktrackingSolver.machine_schedules st) = Z.to_nat NUM_MACHINES ->
    BacktrackingSolver.schedule_all order st = Ok st' ->
    sumZ (map p_size (flat st'))
    = sumZ (map p_size (flat st)) + sumZ (map duration order).
Proof.
  induction order as [|job order IH]; intros st st' Hlen Hrun;
    cbn [BacktrackingSolver.schedule_all] in Hrun.
  - injection Hrun as <-. cbn. lia.
  - destruct (BacktrackingSolver.schedule_job st job) as [st1| |] eqn:E1;
      try discriminate Hrun.
    cbn [obind] in Hrun.
    destruct (schedule_job_trace st job st1 Hlen E1)
      as (sizes & pl & Hs & _ & Hsz & _ & Hlen1 & Hperm).
    rewrite (IH st1 st' Hlen1 Hrun).
    rewrite (sumZ_perm _ _ (Permutation_map p_size Hperm)).
    rewrite map_app, sumZ_app, Hsz.
    destruct (chunk_sizes_sum job sizes Hs) as [-> _].
    cbn [map]. unfold sumZ at 4. cbn [fold_right]. fold (sumZ (map duration order)).
    lia.
Qed.

Lemma splits_count l :
  forall acc k,
    dict_get k (fold_left (fun splits p => dict_incr (id (p_job p)) splits) l acc)
    = if (length (chunks_of k l) =? 0)%nat then dict_get k acc
      else Some (default 0 (dict_get k acc) + Z.of_nat (length (chunks_of k l))).
Proof.
  induction l as [|p l IH]; intros acc k; [reflexivity|].
  cbn [fold_left]. rewrite IH, dict_get_incr. unfold chunks_of.
  cbn [List.filter]. fold (chunks_of k l).
  rewrite (Z.eqb_sym (id (p_job p)) k).
  destruct (k =? id (p_job p)); cbn [length]; [|reflexivity].
  destruct (Nat.eqb_spec (length (chunks_of k l)) 0) as [->|_];
    cbn [Nat.eqb from_option Datatypes.id]; f_equal; unfold Datatypes.id; lia.
Qed.

Lemma calc_splits_count scheds k :
  dict_get k (_calc_splits scheds)
  = if (length (chunks_of k (concat scheds)) =? 0)%nat then None
    else Some (Z.of_nat (length (chunks_of k (concat scheds)))).
Proof.
  unfold _calc_splits. rewrite fold_left_concat, splits_count. reflexivity.
Qed.

Lemma response_job_chunks (resp : list (list TaskChunk)) placed k :
  Permutation (map tc_placed (concat resp)) placed ->
  Permutation
    (map tc_placed (List.filter (fun tc => id (tc_job tc) =? k) (concat resp)))
    (chunks_of k placed).
Proof.
  intros Hperm. unfold chunks_of.
  rewrite <- (filter_Permutation_bool _ _ _ Hperm), filter_map_comm. reflexivity.
Qed.

(** X7. In a successful response of the greedy solver for jobs with
    distinct identifiers, every job is scheduled completely: the sizes of
    its chunks are those of its decomposition, so they sum to its duration
    and none exceeds 5; [splits_info] holds the number of its chunks; and
    [total_work], the sum of the durations, is the sum of all chunk
    sizes. *)
Theorem greedy_schedules_every_job_completely
    (jobs : list Job) (r : ScheduleResult Z) :
  NoDup (map id jobs) ->
  BacktrackingSolver.solve jobs = Ok r -> success r = true ->
  total_work r = Some (sumZ (map tc_size (concat (schedule r)))) /\
  forall job, In job jobs ->
    let cs := List.filter (fun tc => id (tc_job tc) =? id job) (concat (schedule r)) in
    exists sizes,
      chunk_sizes job = Ok sizes /\
      Permutation (map tc_size cs) sizes /\
      sumZ (map tc_size cs) = duration job /\
      Forall (fun tc => tc_job tc = job /\ tc_size tc <= MAX_CHUNK_SIZE) cs /\
      dict_get (id job) (splits_info r) = Some (Z.of_nat (length cs)).
Proof.
  intros Hnd Hrun Hsucc.
  destruct (greedy_success_state jobs r Hrun Hsucc)
    as (order & st & Hsort & _ & Hall & Hinv & [Hok _] & ->).
  destruct (bt_topological_sort_ordered jobs order Hsort)
    as (Hndo & _ & Hcover & Hfrom).
  pose proof (ordered_permutation jobs order Hnd Hndo Hcover Hfrom) as Horder.
  cbn [schedule total_work splits_info].
  assert (Hresp : Permutation
            (map tc_placed (concat (BacktrackingSolver._build_final
                                      (BacktrackingSolver.machine_schedules st))))
            (flat st)).
  { apply build_final_placed. rewrite (mo_scheds _ _ Hok). lia. }
  split.
  - f_equal. rewrite <- (sumZ_perm _ _ (Permutation_map duration Horder)).
    pose proof (schedule_all_work order BacktrackingSolver.init_state st eq_refl Hall)
      as Hwork.
    transitivity (sumZ (map p_size (flat st))); [symmetry; exact Hwork|].
    rewrite <- (sumZ_perm _ _ (Permutation_map p_size Hresp)), map_map.
    reflexivity.
  - intros job Hjob.
    set (cs := List.filter (fun tc => id (tc_job tc) =? id job) _).
    assert (Hjob' : In job order)
      by (eapply Permutation_in; [symmetry; exact Horder|exact Hjob]).
    destruct (gi_trace _ _ Hinv job Hjob')
      as (sizes & pl & t & Hs & _ & _ & Hsz & Hperm).
    pose proof (response_job_chunks _ _ (id job) Hresp) as Hcs. fold cs in Hcs.
    rewrite Hperm in Hcs.
    assert (Hsizes : Permutation (map tc_size cs) sizes).
    { rewrite <- Hsz, <- (Permutation_map p_size Hcs), map_map. reflexivity. }
    destruct (chunk_sizes_sum job sizes Hs) as (Hsum & Hne & Hmax & _).
    exists sizes. split; [exact Hs|]. split; [exact Hsizes|].
    split; [rewrite (sumZ_perm _ _ Hsizes); exact Hsum|]. split.
    + apply List.Forall_forall. intros tc Htc. split.
      * apply filter_In in Htc as [Htc Hid]. apply Z.eqb_eq in Hid.
        apply (same_id_same_job order); [exact Hndo| |exact Hjob'|exact Hid].
        apply (gi_jobs _ _ Hinv (tc_placed tc)).
        eapply Permutation_in; [exact Hresp|apply in_map, Htc].
      * rewrite List.Forall_forall in Hmax. apply Hmax.
        eapply Permutation_in; [exact Hsizes|]. apply in_map, Htc.
    + rewrite calc_splits_count. fold (flat st).
      rewrite (Permutation_length Hperm), <- (Permutation_length Hcs), length_map.
      destruct (Nat.eqb_spec (length cs) 0) as [E|_]; [|reflexivity].
      exfalso. apply Hne. apply Permutation_length in Hsizes.
      rewrite length_map, E in Hsizes. destruct sizes; [reflexivity|discriminate].
Qed.

Lemma greedy_schedules_every_job_completely_witness :
  exists r,
    BacktrackingSolver.solve [mkJob 7 "J" 12 [] 1] = Ok r /\
    total_work r = Some (sumZ (map tc_size (concat (schedule r)))) /\
    dict_get 7 (splits_info r) = Some 3.
Proof.
  eexists. split; [vm_compute; reflexivity|].
  destruct (greedy_schedules_every_job_completely [mkJob 7 "J" 12 [] 1] _
              ltac:(refine (bool_decide_unpack _ _); vm_compute; exact I)
              ltac:(vm_compute; reflexivity) eq_refl) as [Htotal Hjobs].
  split; [exact Htotal|].
  destruct (Hjobs (mkJob 7 "J" 12 [] 1) (or_introl eq_refl))
    as (sizes & _ & _ & _ & _ & Hsplits).
  exact Hsplits.
Defined.

(** ** The makespan of the greedy schedule *)

Lemma maximum_in l : l <> [] -> In (maximum l) l.
Proof.
  destruct l as [|x l]; [congruence|]. intros _. cbn [maximum].
  revert x. induction l as [|y l IH]; intros x; cbn [fold_left]; [now left|].
  destruct (IH (Z.max x y)) as [E|Hin].
  - destruct (Z.max_spec x y) as [[_ Hm]|[_ Hm]]; rewrite Hm in E |- *.
    + right. left. exact E.
    + left. exact E.
  - right. right. exact Hin.
Qed.

Lemma chunks_of_sub job_id placed p :
  In p (chunks_of job_id placed) -> In p placed.
Proof. intros Hin. apply (chunks_of_in job_id placed p), Hin. Qed.

Lemma busy_until_fold sched :
  fold_left (fun _ q => p_end q) sched 0 = busy_until sched.
Proof. rewrite fold_last_end. reflexivity. Qed.

Lemma chained_work t pl :
  chained t pl ->
  t + sumZ (map p_size pl) <= fold_left (fun _ q => p_end q) pl t.
Proof.
  revert t. induction pl as [|p pl IH]; intros t Hc.
  - cbn. lia.
  - destruct Hc as (H1 & H2 & H3). specialize (IH _ H3).
    cbn [map fold_left]. unfold sumZ in *. cbn [fold_right]. lia.
Qed.

Lemma greedy_nonneg_sizes jobs order st :
  (forall job, In job jobs -> 0 <= duration job) ->
  (forall job, In job order -> In job jobs) ->
  greedy_inv order st ->
  forall p, In p (flat st) -> 0 <= p_size p.
Proof.
  intros Hpos Hfrom Hinv p Hp.
  destruct (greedy_flat_entry order st p Hinv Hp) as (Hjob & sizes & Hs & Hin).
  destruct (chunk_sizes_sum _ _ Hs) as (_ & _ & _ & _ & Hall).
  specialize (Hall (Hpos _ (Hfrom _ Hjob))).
  rewrite List.Forall_forall in Hall. apply Hall, Hin.
Qed.

Lemma timeline_entry_bounds (scheds : list (list Placed)) m p :
  chained 0 (nth m scheds []) ->
  Forall (fun q => 0 <= p_size q) (nth m scheds []) ->
  In p (nth m scheds []) ->
  0 <= p_start p /\ p_end p = p_start p + p_size p /\
  p_end p <= maximum (map busy_until scheds).
Proof.
  intros Hc Hpos Hp.
  destruct (chained_apart 0 _ Hc Hpos) as [Hall _].
  rewrite List.Forall_forall in Hall. destruct (Hall p Hp) as [H1 H2].
  split; [exact H1|]. split; [exact H2|].
  assert (Hm : (m < length scheds)%nat).
  { destruct (Nat.lt_ge_cases m (length scheds)) as [?|Hge]; [assumption|].
    rewrite nth_overflow in Hp by exact Hge. destruct Hp. }
  transitivity (busy_until (nth m scheds [])).
  - destruct (chained_bounds 0 _ Hc (or_intror Hpos)) as [_ [[q Hq]|[Hends _]]].
    + rewrite Hq in Hp |- *. destruct Hp as [->|[]]. reflexivity.
    + rewrite busy_until_fold in Hends. rewrite List.Forall_forall in Hends.
      apply Hends, Hp.
  - apply maximum_ge. apply in_map, nth_In, Hm.
Qed.

Lemma greedy_makespan_flat jobs order st :
  (forall job, In job jobs -> 0 <= duration job) ->
  (forall job, In job order -> In job jobs) ->
  greedy_inv order st -> greedy_machines st -> order <> [] ->
  let mk := maximum (map busy_until (BacktrackingSolver.machine_schedules st)) in
  (forall p, In p (flat st) ->
             0 <= p_start p /\ p_end p = p_start p + p_size p /\ p_end p <= mk) /\
  (exists p, In p (flat st) /\ p_end p = mk).
Proof.
  intros Hpos Hfrom Hinv [Hok _] Hne mk.
  set (scheds := BacktrackingSolver.machine_schedules st) in *.
  assert (Hbounds : forall p, In p (flat st) ->
            0 <= p_start p /\ p_end p = p_start p + p_size p /\ p_end p <= mk).
  { intros p Hp. destruct (in_flat_machine scheds p Hp) as [m Hm].
    apply (timeline_entry_bounds scheds m p); [apply (mo_chained _ _ Hok)| |exact Hm].
    apply List.Forall_forall. intros q Hq.
    apply (greedy_nonneg_sizes jobs order st Hpos Hfrom Hinv).
    apply (in_machine_flat scheds m q Hq). }
  split; [exact Hbounds|].
  assert (Hsome : exists p, In p (flat st)).
  { destruct order as [|job order]; [congruence|].
    destruct (gi_trace _ _ Hinv job (or_introl eq_refl))
      as (sizes & pl & t & Hs & _ & _ & Hsz & Hperm).
    destruct (chunk_sizes_sum job sizes Hs) as (_ & Hnil & _).
    destruct pl as [|p pl]; [cbn in Hsz; congruence|].
    exists p. apply (chunks_of_sub (id job)).
    eapply Permutation_in; [symmetry; exact Hperm|now left]. }
  assert (Hin : In mk (map busy_until scheds)).
  { apply maximum_in. intros E. apply (f_equal (@length Z)) in E.
    rewrite length_map, (mo_scheds _ _ Hok) in E. discriminate E. }
  apply in_map_iff in Hin as (sched & Hbusy & Hsched).
  unfold busy_until in Hbusy. destruct (last sched) as [p|] eqn:Elast.
  - exists p. split; [|exact Hbusy].
    apply in_concat. exists sched. split; [exact Hsched|].
    apply list_elem_of_In. apply last_Some_elem_of. exact Elast.
  - destruct Hsome as [p Hp]. exists p. split; [exact Hp|].
    destruct (Hbounds p Hp) as (H1 & H2 & H3).
    pose proof (greedy_nonneg_sizes jobs order st Hpos Hfrom Hinv p Hp). lia.
Qed.

Lemma timelines_work (scheds : list (list Placed)) :
  length scheds = Z.to_nat NUM_MACHINES ->
  (forall m, chained 0 (nth m scheds [])) ->
  sumZ (map p_size (concat scheds))
  <= NUM_MACHINES * maximum (map busy_until scheds).
Proof.
  intros Hlen Hc.
  destruct scheds as [|s0 [|s1 [|s2 [|s3 scheds]]]]; try discriminate Hlen.
  pose proof (chained_work 0 s0 (Hc 0%nat)) as H0.
  pose proof (chained_work 0 s1 (Hc 1%nat)) as H1.
  pose proof (chained_work 0 s2 (Hc 2%nat)) as H2.
  rewrite busy_until_fold in H0, H1, H2.
  cbn [concat map maximum fold_left]. rewrite app_nil_r, !map_app, !sumZ_app.
  unfold NUM_MACHINES. lia.
Qed.

(** X8. In a successful response of the greedy solver for jobs with
    distinct identifiers and non-negative durations, the makespan is the
    largest end time of the schedule: no chunk ends later and some chunk
    ends then.  It is at least the duration of every job, and three times
    the makespan is at least the total work. *)
Theorem greedy_makespan_is_latest_end (jobs : list Job) (r : ScheduleResult Z) :
  NoDup (map id jobs) ->
  (forall job, In job jobs -> 0 <= duration job) ->
  BacktrackingSolver.solve jobs = Ok r -> success r = true ->
  (forall tc, In tc (concat (schedule r)) -> tc_end tc <= makespan r) /\
  (exists tc, In tc (concat (schedule r)) /\ tc_end tc = makespan r) /\
  (forall job, In job jobs -> duration job <= makespan r) /\
  sumZ (map duration jobs) <= NUM_MACHINES * makespan r.
Proof.
  intros Hnd Hpos Hrun Hsucc.
  destruct (greedy_success_state jobs r Hrun Hsucc)
    as (order & st & Hsort & Hne & Hall & Hinv & Hm & ->).
  destruct (bt_topological_sort_ordered jobs order Hsort)
    as (Hndo & _ & Hcover & Hfrom).
  pose proof (ordered_permutation jobs order Hnd Hndo Hcover Hfrom) as Horder.
  destruct (greedy_makespan_flat jobs order st Hpos Hfrom Hinv Hm Hne)
    as [Hbounds (p & Hp & Hend)].
  pose proof (gm_ok _ Hm) as Hok.
  cbn [schedule makespan].
  assert (Hresp : Permutation
            (map tc_placed (concat (BacktrackingSolver._build_final
                                      (BacktrackingSolver.machine_schedules st))))
            (flat st)).
  { apply build_final_placed. rewrite (mo_scheds _ _ Hok). lia. }
  split; [|split; [|split]].
  - intros tc Htc.
    apply (Hbounds (tc_placed tc)).
    eapply Permutation_in; [exact Hresp|apply in_map, Htc].
  - apply (Permutation_in _ (Permutation_sym Hresp)) in Hp.
    apply in_map_iff in Hp as (tc & <- & Htc). exists tc. split; [exact Htc|exact Hend].
  - intros job Hjob.
    assert (Hjob' : In job order)
      by (eapply Permutation_in; [symmetry; exact Horder|exact Hjob]).
    destruct (gi_trace _ _ Hinv job Hjob')
      as (sizes & pl & t & Hs & Ht & Hc & Hsz & Hperm).
    destruct (chunk_sizes_sum job sizes Hs) as (Hsum & Hnil & _).
    pose proof (chained_work t pl Hc) as Hwork. rewrite Hsz, Hsum in Hwork.
    rewrite fold_last_end in Hwork.
    destruct (last pl) as [q|] eqn:Elast.
    + assert (Hq : In q (flat st)).
      { apply (chunks_of_sub (id job)).
        eapply Permutation_in; [symmetry; exact Hperm|].
        apply list_elem_of_In, last_Some_elem_of, Elast. }
      destruct (Hbounds q Hq) as (_ & _ & Hq3). lia.
    + apply last_None in Elast. subst pl. cbn in Hsz. congruence.
  - rewrite <- (sumZ_perm _ _ (Permutation_map duration Horder)).
    pose proof (schedule_all_work order BacktrackingSolver.init_state st eq_refl Hall)
      as Hwork.
    transitivity (sumZ (map p_size (flat st))); [rewrite Hwork; cbn; lia|].
    apply timelines_work; [apply (mo_scheds _ _ Hok)|apply (mo_chained _ _ Hok)].
Qed.

Lemma greedy_makespan_is_latest_end_witness :
  exists r,
    BacktrackingSolver.solve scenario1 = Ok r /\
    sumZ (map duration scenario1) <= NUM_MACHINES * makespan r.
Proof.
  eexists. split; [vm_compute; reflexivity|].
  apply (greedy_makespan_is_latest_end scenario1).
  - refine (bool_decide_unpack _ _). vm_compute. exact I.
  - intros job [<-|[<-|[<-|[]]]]; vm_compute; discriminate.
  - vm_compute. reflexivity.
  - reflexivity.
Defined.

(** ** The capacity violations of the greedy schedule *)

Lemma filter_nil_iff {A} (f : A -> bool) l :
  List.filter f l = [] <-> forall x, In x l -> f x = false.
Proof.
  induction l as [|x l IH]; cbn [List.filter].
  - split; [intros _ x []|reflexivity].
  - destruct (f x) eqn:Ex.
    + split; [discriminate|]. intros H. specialize (H x (or_introl eq_refl)). congruence.
    + rewrite IH. split.
      * intros H y [<-|Hy]; [exact Ex|apply H, Hy].
      * intros H y Hy. apply H. now right.
Qed.

(** X9. In a successful response of the greedy solver,
    [capacity_violations] holds exactly one entry for every chunk of the
    schedule that ends after time 40, with that chunk's job, machine, size,
    start and end and the excess [end - 40]; for jobs of non-negative
    duration it is empty exactly when the makespan is at most 40. *)
Theorem greedy_violations_are_the_late_chunks
    (jobs : list Job) (r : ScheduleResult Z) :
  BacktrackingSolver.solve jobs = Ok r -> success r = true ->
  exists viol,
    capacity_violations r = Some viol /\
    Permutation viol
      (map violation_of
           (List.filter (fun mp => over_capacity (snd mp))
                        (map tc_pair (concat (schedule r))))) /\
    ((forall job, In job jobs -> 0 <= duration job) ->
     (viol = [] <-> makespan r <= FIXED_MACHINE_CAPACITY)).
Proof.
  intros Hrun Hsucc.
  destruct (greedy_success_state jobs r Hrun Hsucc)
    as (order & st & Hsort & Hne & Hall & Hinv & Hm & ->).
  destruct (bt_topological_sort_ordered jobs order Hsort) as (_ & _ & _ & Hfrom).
  pose proof (gm_ok _ Hm) as Hok. pose proof (gm_viol _ Hm) as Hviol.
  set (scheds := BacktrackingSolver.machine_schedules st) in *.
  cbn [capacity_violations schedule makespan]. fold scheds.
  exists (BacktrackingSolver.violations st). split; [reflexivity|].
  assert (Hperm : Permutation
            (map tc_pair (concat (BacktrackingSolver._build_final scheds)))
            (tagged scheds)).
  { apply build_final_perm. rewrite (mo_scheds _ _ Hok). lia. }
  split.
  - rewrite Hviol. unfold violations_of. apply Permutation_map.
    apply filter_Permutation_bool. symmetry. exact Hperm.
  - intros Hpos.
    destruct (greedy_makespan_flat jobs order st Hpos Hfrom Hinv Hm Hne)
      as [Hbounds (p & Hp & Hend)]. fold scheds in Hbounds, Hend.
    assert (Hnone : BacktrackingSolver.violations st = [] <->
                    forall mp, In mp (tagged scheds) -> over_capacity (snd mp) = false).
    { rewrite <- filter_nil_iff. split.
      - intros E. rewrite E in Hviol. apply Permutation_nil in Hviol.
        unfold violations_of in Hviol.
        destruct (List.filter _ _); [reflexivity|discriminate Hviol].
      - intros E. unfold violations_of in Hviol. rewrite E in Hviol.
        apply Permutation_sym, Permutation_nil in Hviol. exact Hviol. }
    rewrite Hnone. split.
    + intros Hall'. unfold flat in Hp. rewrite <- tagged_snd in Hp.
      apply in_map_iff in Hp as (mp & <- & Hmp).
      specialize (Hall' mp Hmp). unfold over_capacity in Hall'.
      rewrite Z.gtb_ltb in Hall'. apply Z.ltb_ge in Hall'. lia.
    + intros Hle mp Hmp. unfold over_capacity. rewrite Z.gtb_ltb. apply Z.ltb_ge.
      assert (Hin : In (snd mp) (flat st)).
      { unfold flat. fold scheds. rewrite <- tagged_snd. apply in_map, Hmp. }
      destruct (Hbounds _ Hin) as (_ & _ & H3). lia.
Qed.

Lemma greedy_violations_are_the_late_chunks_witness :
  exists r,
    BacktrackingSolver.solve scenario1 = Ok r /\
    capacity_violations r = Some [] /\ makespan r <= FIXED_MACHINE_CAPACITY.
Proof.
  eexists. split; [vm_compute; reflexivity|].
  destruct (greedy_violations_are_the_late_chunks scenario1 _
              ltac:(vm_compute; reflexivity) eq_refl) as (viol & Hv & _ & Hiff).
  assert (Hviol : viol = []) by (vm_compute in Hv; congruence).
  split; [rewrite Hv, Hviol; reflexivity|].
  apply Hiff; [|exact Hviol].
  intros job [<-|[<-|[<-|[]]]]; vm_compute; discriminate.
Defined.

(** ** The statistics of the greedy response *)

Lemma add_machine_work_spec m sched :
  forall total machine_work work,
    machine_work !! m = Some work ->
    add_machine_work m sched (total, machine_work)
    = Ok (total + sumZ (map p_size sched),
          <[m := work + sumZ (map p_size sched)]> machine_work).
Proof.
  induction sched as [|p sched IH]; intros total mw w Hm; cbn [add_machine_work].
  - cbn. rewrite !Z.add_0_r, (list_insert_id _ _ _ Hm). reflexivity.
  - rewrite Hm. pose proof (lookup_lt_Some _ _ _ Hm) as Hlt.
    rewrite (IH _ _ (w + p_size p)) by (apply list_lookup_insert_eq, Hlt).
    rewrite list_insert_insert_eq. cbn [map]. unfold sumZ. cbn [fold_right].
    fold (sumZ (map p_size sched)). f_equal. f_equal; [lia|]. f_equal. lia.
Qed.

Section StatsFacts.
Context {F : Type} {fo : FloatOps F}.

Lemma calc_stats_three (mk : Z) (scheds : list (list Placed)) :
  length scheds = Z.to_nat NUM_MACHINES ->
  _calc_stats (F := F) mk (Some scheds)
  = Ok (if mk * 3 >? 0
        then fmul (truediv (sumZ (map p_size (concat scheds))) (mk * 3)) (of_Z 100)
        else of_Z 0,
        mk * 3 - sumZ (map p_size (concat scheds)),
        mk * 3,
        map (fun sched =>
               fmul (truediv (Evaluator.sched_work sched) FIXED_MACHINE_CAPACITY)
                    (of_Z 100)) scheds).
Proof.
  intros Hlen.
  destruct scheds as [|s0 [|s1 [|s2 [|s3 scheds]]]]; try discriminate Hlen.
  unfold _calc_stats. cbn [length seq combine add_work].
  rewrite (add_machine_work_spec 0 s0 0 [0; 0; 0] 0 eq_refl). cbn [obind].
  change (<[0%nat := ?x]> [0; 0; 0]) with [x; 0; 0].
  rewrite (add_machine_work_spec 1 s1 _ [_; 0; 0] 0 eq_refl). cbn [obind].
  change (<[1%nat := ?x]> [?a; 0; 0]) with [a; x; 0].
  rewrite (add_machine_work_spec 2 s2 _ [_; _; 0] 0 eq_refl). cbn [obind].
  change (<[2%nat := ?x]> [?a; ?b; 0]) with [a; b; x].
  cbn [concat map]. rewrite app_nil_r, !map_app, !sumZ_app.
  unfold Evaluator.sched_work. cbn [Z.add]. rewrite !Z.add_assoc.
  reflexivity.
Qed.

End StatsFacts.

(** X10. For a successful run of the greedy solver on jobs with distinct
    identifiers, [_calc_stats] on the stored makespan and timelines
    returns without an index error; the total machine time is three times
    the makespan; the idle time is the total machine time less the sum of
    the job durations, and is never negative; and there is one load per
    machine, the machine's work as a share of the capacity 40. *)
Theorem greedy_idle_time_is_not_negative
    {F : Type} {fo : FloatOps F} (jobs : list Job) (r : ScheduleResult Z) :
  NoDup (map id jobs) ->
  BacktrackingSolver.solve jobs = Ok r -> success r = true ->
  exists order st efficiency idle_time total_machine_time,
    BacktrackingSolver._topological_sort jobs = Ok (Some order) /\
    BacktrackingSolver.schedule_all order BacktrackingSolver.init_state = Ok st /\
    schedule r
    = BacktrackingSolver._build_final (BacktrackingSolver.machine_schedules st) /\
    _calc_stats (F := F) (makespan r) (Some (BacktrackingSolver.machine_schedules st))
    = Ok (efficiency, idle_time, total_machine_time,
          map (fun sched =>
                 fmul (truediv (Evaluator.sched_work sched) FIXED_MACHINE_CAPACITY)
                      (of_Z 100)) (BacktrackingSolver.machine_schedules st)) /\
    length (BacktrackingSolver.machine_schedules st) = Z.to_nat NUM_MACHINES /\
    total_machine_time = makespan r * 3 /\
    idle_time = total_machine_time - sumZ (map duration jobs) /\
    0 <= idle_time.
Proof.
  intros Hnd Hrun Hsucc.
  destruct (greedy_success_state jobs r Hrun Hsucc)
    as (order & st & Hsort & Hne & Hall & Hinv & Hm & ->).
  destruct (bt_topological_sort_ordered jobs order Hsort)
    as (Hndo & _ & Hcover & Hfrom).
  pose proof (ordered_permutation jobs order Hnd Hndo Hcover Hfrom) as Horder.
  pose proof (gm_ok _ Hm) as Hok.
  cbn [schedule makespan].
  set (scheds := BacktrackingSolver.machine_schedules st) in *.
  assert (Hwork : sumZ (map p_size (concat scheds)) = sumZ (map duration jobs)).
  { rewrite <- (sumZ_perm _ _ (Permutation_map duration Horder)).
    exact (schedule_all_work order BacktrackingSolver.init_state st eq_refl Hall). }
  pose proof (timelines_work scheds (mo_scheds _ _ Hok) (mo_chained _ _ Hok)) as Hidle.
  eexists order, st, _, _, _.
  split; [exact Hsort|]. split; [exact Hall|]. split; [reflexivity|].
  split; [apply calc_stats_three, (mo_scheds _ _ Hok)|].
  split; [apply (mo_scheds _ _ Hok)|]. split; [reflexivity|].
  subst scheds. split; [rewrite Hwork; reflexivity|].
  unfold NUM_MACHINES in Hidle. lia.
Qed.

Lemma greedy_idle_time_is_not_negative_witness :
  exists st (efficiency : Q) loads,
    BacktrackingSolver.schedule_all scenario1 BacktrackingSolver.init_state = Ok st /\
    _calc_stats 15 (Some (BacktrackingSolver.machine_schedules st))
    = Ok (efficiency, 15, 45, loads).
Proof.
  destruct (greedy_idle_time_is_not_negative (fo := Q_float) scenario1
              (mkResult true 15 (three_jobs_schedule (mkJob 1 "A" 10 [] 1)
                 (mkJob 2 "B" 10 [] 1) (mkJob 3 "C" 10 [] 1)) []
                 [(1, 2); (2, 2); (3, 2)] (Some 30) (Some []) None))
    as (order & st & eff & idle & tm & Hsort & Hall & _ & Hstats & _ & Htm & Hidle & _).
  - refine (bool_decide_unpack _ _). vm_compute. exact I.
  - vm_compute. reflexivity.
  - reflexivity.
  - cbn [makespan] in *.
    assert (Hs : BacktrackingSolver._topological_sort scenario1 = Ok (Some scenario1))
      by (vm_compute; reflexivity).
    assert (Horder : order = scenario1) by congruence.
    subst order. exists st, eff. eexists. split; [exact Hall|].
    rewrite Hstats. subst tm idle. reflexivity.
Defined.

(** ** A missing dependency that is named twice *)

Lemma references_app d l1 l2 :
  references d (l1 ++ l2) = references d l1 + references d l2.
Proof. unfold references. rewrite map_app, sumZ_app. reflexivity. Qed.

Lemma references_single d job :
  references d [job] = Z.of_nat (length (List.filter (Z.eqb d) (dependencies job))).
Proof. unfold references, sumZ. cbn [map fold_right]. lia. Qed.

Section MissingTwice.
Variable job_dict : gmap Z Job.
Variable d : Z.
Hypothesis Hmissing : job_dict !! d = None.

Let known (st : topo_state) : Prop :=
  forall x, x ∈ visited st -> is_Some (job_dict !! x).

Lemma each_dep_refs f deps :
  (forall k st st', known st -> f k st = Ok (true, st') ->
     known st' /\
     references d (result st') + in_progress d st + (if d =? k then 1 else 0)
     <= references d (result st) + in_progress d st') ->
  forall st st', known st -> each_dep f deps st = Ok (true, st') ->
    known st' /\
    references d (result st') + in_progress d st
    + Z.of_nat (length (List.filter (Z.eqb d) deps))
    <= references d (result st) + in_progress d st'.
Proof.
  intros Hf. induction deps as [|k deps IH]; intros st st' Hst Hrun;
    cbn [each_dep] in Hrun.
  - injection Hrun as <-. split; [exact Hst|]. cbn. lia.
  - destruct (f k st) as [[[|] st1]| |] eqn:Ek; try discriminate Hrun.
    destruct (Hf k st st1 Hst Ek) as [Hst1 H1].
    destruct (IH st1 st' Hst1 Hrun) as [Hst' H2].
    split; [exact Hst'|]. cbn [List.filter].
    destruct (d =? k); cbn [length]; lia.
Qed.

Lemma ca_dfs_refs fuel :
  forall k st st',
    known st -> CulturalAlgorithm.dfs job_dict fuel k st = Ok (true, st') ->
    known st' /\
    references d (result st') + in_progress d st + (if d =? k then 1 else 0)
    <= references d (result st) + in_progress d st'.
Proof.
  induction fuel as [|fuel IH]; intros k st st' Hst Hrun; [discriminate Hrun|].
  cbn [CulturalAlgorithm.dfs] in Hrun.
  destruct (decide (k ∈ temp st)) as [Ht|Ht]; [discriminate Hrun|].
  destruct (decide (k ∈ visited st)) as [Hv|Hv].
  { injection Hrun as <-. split; [exact Hst|].
    destruct (Z.eqb_spec d k) as [->|_]; [|lia].
    destruct (Hst k Hv) as [job Hjob]. congruence. }
  destruct (job_dict !! k) as [job|] eqn:Ejob.
  - assert (Hne : d <> k) by congruence.
    destruct (each_dep (CulturalAlgorithm.dfs job_dict fuel) (dependencies job) _)
      as [[[|] st2]| |] eqn:Edeps; try discriminate Hrun.
    injection Hrun as <-.
    destruct (each_dep_refs _ (dependencies job) IH
                (mkTopo (visited st) ({[k]} ∪ temp st) (result st)) st2 Hst Edeps)
      as [Hst2 H2].
    split.
    + intros x Hx. cbn [visited] in Hx. apply elem_of_union in Hx as [Hx|Hx].
      * apply elem_of_singleton in Hx as ->. eauto.
      * apply Hst2, Hx.
    + unfold in_progress in *. cbn [temp result] in *.
      rewrite references_app, references_single.
      destruct (Z.eqb_spec d k) as [?|_]; [contradiction|].
      repeat destruct (decide _); try lia; set_solver.
  - injection Hrun as <-. split; [exact Hst|].
    unfold in_progress. cbn [temp result].
    destruct (Z.eqb_spec d k) as [->|Hne];
      repeat destruct (decide _); try lia; set_solver.
Qed.

Lemma sort_loop_refs fuel jobs :
  forall st order,
    known st ->
    sort_loop (CulturalAlgorithm.dfs job_dict fuel) jobs st = Ok (Some order) ->
    references d order + in_progress d st <= references d (result st) + 1.
Proof.
  induction jobs as [|job jobs IH]; intros st order Hst Hrun; cbn [sort_loop] in Hrun.
  - injection Hrun as <-. unfold in_progress. destruct (decide _); lia.
  - destruct (decide (id job ∈ visited st)); [apply IH; assumption|].
    destruct (CulturalAlgorithm.dfs job_dict fuel (id job) st)
      as [[[|] st1]| |] eqn:Ed; try discriminate Hrun.
    destruct (ca_dfs_refs fuel _ _ _ Hst Ed) as [Hst1 H1].
    specialize (IH st1 order Hst1 Hrun).
    destruct (d =? id job); lia.
Qed.

End MissingTwice.

Lemma make_job_dict_missing jobs d :
  ~ In d (map id jobs) -> make_job_dict jobs !! d = None.
Proof.
  intros Hnot. destruct (make_job_dict jobs !! d) as [job|] eqn:E; [|reflexivity].
  destruct (make_job_dict_ids jobs d job E) as [<- Hjob].
  exfalso. apply Hnot, in_map, Hjob.
Qed.

Lemma missing_twice_sort_none
    {F : Type} {fo : FloatOps F} {R : Type} {rg : RandomGen R}
    (jobs : list Job) (d : Z) :
  NoDup (map id jobs) ->
  (forall job, In job jobs -> duration job <= FIXED_MACHINE_CAPACITY) ->
  ~ In d (map id jobs) ->
  2 <= references d jobs ->
  CulturalAlgorithm._topological_sort jobs = Ok None /\
  forall g : R,
    CulturalAlgorithm.solve (F := F) jobs g
    = Ok (_create_error_result (Fin (of_Z 0)) "Cyclic dependencies detected!"%string, g).
Proof.
  intros Hnd Hcap Hmissing Hrefs.
  assert (Hsort : CulturalAlgorithm._topological_sort jobs = Ok None).
  { pose proof (proj2 (topological_sort_total jobs)) as Htotal.
    pose proof (ca_topological_sort_no_raise jobs) as Hraise.
    destruct (CulturalAlgorithm._topological_sort jobs) as [[order|]|e|] eqn:Esort;
      [exfalso|reflexivity|destruct (Hraise e eq_refl)|destruct (Htotal eq_refl)].
    pose proof (ca_topological_sort_nodup jobs order Esort) as Hndo.
    destruct (ca_topological_sort_complete jobs order Esort) as [Hcover Hfrom].
    pose proof (ordered_permutation jobs order Hnd Hndo Hcover Hfrom) as Hperm.
    unfold CulturalAlgorithm._topological_sort in Esort.
    assert (Hinit : forall x, x ∈ visited (mkTopo ∅ ∅ []) ->
                              is_Some (make_job_dict jobs !! x)).
    { intros x Hx. cbn [visited] in Hx. apply elem_of_empty in Hx. destruct Hx. }
    pose proof (sort_loop_refs _ d (make_job_dict_missing jobs d Hmissing)
                  _ jobs _ order Hinit Esort) as Hle.
    unfold in_progress in Hle. cbn in Hle.
    assert (E : references d order = references d jobs).
    { unfold references. apply sumZ_perm, Permutation_map, Hperm. }
    destruct (decide (d ∈ ∅)); lia. }
  split; [exact Hsort|]. intros g.
  unfold CulturalAlgorithm.solve.
  rewrite (proj2 (first_over_capacity_none jobs) Hcap), Hsort. reflexivity.
Qed.

(** X11. An identifier that names no job and is listed as a dependency
    more than once (by one job or by several) keeps the cultural solver's
    topological sort from returning an order: whenever the sort returns,
    it returns [None].  For jobs with distinct identifiers and durations
    of at most 40 the only response [solve] then returns is the failure
    [Cyclic dependencies detected!], although no job need depend on
    itself, and it has drawn no random number. *)
Theorem missing_dependency_named_twice_reported_as_cycle
    {F : Type} {fo : FloatOps F} {R : Type} {rg : RandomGen R}
    (jobs : list Job) (d : Z) :
  NoDup (map id jobs) ->
  (forall job, In job jobs -> duration job <= FIXED_MACHINE_CAPACITY) ->
  ~ In d (map id jobs) ->
  2 <= references d jobs ->
  (forall r, CulturalAlgorithm._topological_sort jobs = Ok r -> r = None) /\
  forall (g g' : R) (r : ScheduleResult (fitness F)),
    CulturalAlgorithm.solve jobs g = Ok (r, g') ->
    r = _create_error_result (Fin (of_Z 0)) "Cyclic dependencies detected!"%string /\
    g' = g.
Proof.
  intros Hnd Hcap Hmissing Hrefs.
  destruct (missing_twice_sort_none (F := F) (R := R) jobs d Hnd Hcap Hmissing Hrefs)
    as [Hsort Hsolve].
  split.
  - intros r Hrun. rewrite Hsort in Hrun. injection Hrun as <-. reflexivity.
  - intros g g' r Hrun. rewrite Hsolve in Hrun. injection Hrun as <- <-.
    split; reflexivity.
Qed.

Lemma missing_dependency_named_twice_reported_as_cycle_witness :
  exists r,
    CulturalAlgorithm._topological_sort
      [mkJob 1 "A" 5 [99] 1; mkJob 2 "B" 5 [99] 1] = Ok r /\
    r = None.
Proof.
  eexists. split; [vm_compute; reflexivity|].
  refine (proj1 (missing_dependency_named_twice_reported_as_cycle
                   (fo := Q_float) (rg := lcg)
                   [mkJob 1 "A" 5 [99] 1; mkJob 2 "B" 5 [99] 1] 99 _ _ _ _)
                None _).
  - refine (bool_decide_unpack _ _). vm_compute. exact I.
  - intros job [<-|[<-|[]]]; vm_compute; discriminate.
  - cbn. lia.
  - vm_compute. discriminate.
  - vm_compute. reflexivity.
Defined.

(** ** The numbering of the chunks in the response *)

Lemma dict_append_keys {A} k (v : A) d :
  map fst (dict_append k v d)
  = if in_dec Z.eq_dec k (map fst d) then map fst d else map fst d ++ [k].
Proof.
  induction d as [|[k' vs] d IH]; cbn [dict_append map fst].
  - destruct (in_dec Z.eq_dec k []) as [[]|_]. reflexivity.
  - destruct (Z.eqb_spec k k') as [->|Hne]; cbn [map fst].
    + destruct (in_dec Z.eq_dec k' (k' :: map fst d)) as [_|Hn]; [reflexivity|].
      exfalso. apply Hn. now left.
    + rewrite IH.
      destruct (in_dec Z.eq_dec k (map fst d)) as [Hin|Hnin];
        destruct (in_dec Z.eq_dec k (k' :: map fst d)) as [Hin'|Hnin'];
        try reflexivity.
      * exfalso. apply Hnin'. now right.
      * destruct Hin' as [E|Hin']; [congruence|contradiction].
Qed.

Lemma dict_append_ok k v d :
  groups_ok d -> id (p_job (snd v)) = k -> groups_ok (dict_append k v d).
Proof.
  intros [Hnd Hall] Hv. split.
  - rewrite dict_append_keys. destruct (in_dec Z.eq_dec k (map fst d)) as [_|Hnin];
      [exact Hnd|].
    apply NoDup_app. split; [exact Hnd|]. split; [|apply NoDup_singleton].
    intros x Hx Hx'. apply list_elem_of_singleton in Hx'. subst x.
    apply Hnin, list_elem_of_In, Hx.
  - clear Hnd. induction Hall as [|[k' vs] d Hg Hall IH]; cbn [dict_append].
    + repeat constructor. exact Hv.
    + destruct (Z.eqb_spec k k') as [->|Hne].
      * constructor; [|exact Hall]. cbn [fst snd] in *.
        apply Forall_app. split; [exact Hg|]. repeat constructor. exact Hv.
      * constructor; assumption.
Qed.

Lemma group_by_job_ok scheds : groups_ok (group_by_job scheds).
Proof.
  unfold group_by_job.
  generalize (combine (seq 0 (length scheds)) scheds) as mss.
  assert (Hinit : groups_ok []) by (split; constructor).
  revert Hinit. generalize (@nil (Z * list (nat * Placed))) as acc.
  intros acc Hacc mss. revert acc Hacc.
  induction mss as [|[m sched] mss IH]; intros acc Hacc; cbn [fold_left];
    [exact Hacc|].
  apply IH. clear IH. revert acc Hacc.
  induction sched as [|p sched IH]; intros acc Hacc; cbn [fold_left]; [exact Hacc|].
  apply IH. apply dict_append_ok; [exact Hacc|reflexivity].
Qed.

Lemma build_final_chunks key scheds :
  (length scheds <= Z.to_nat NUM_MACHINES)%nat ->
  Permutation (concat (build_final key scheds))
              (concat (map (numbered key) (group_by_job scheds))).
Proof.
  intros Hlen. unfold build_final. rewrite concat_map_sorted.
  assert (Hids : forall m p, In (m, p) (concat (map snd (group_by_job scheds))) ->
                             (m < Z.to_nat NUM_MACHINES)%nat).
  { intros m p Hin. eapply Nat.lt_le_trans; [|exact Hlen].
    apply (tagged_in scheds m p).
    eapply Permutation_in; [apply group_by_job_perm|exact Hin]. }
  revert Hids. generalize (group_by_job scheds) as groups.
  assert (Hgen : forall (groups : list (Z * list (nat * Placed)))
                         (final : list (list TaskChunk)),
    length final = Z.to_nat NUM_MACHINES ->
    (forall m p, In (m, p) (concat (map snd groups)) -> (m < Z.to_nat NUM_MACHINES)%nat) ->
    Permutation
      (concat
         (fold_left (fun final '(_, chunks) =>
            fold_left (fun final tc =>
              let m := Z.to_nat (tc_machine tc) in
              <[m := nth m final [] ++ [tc]]> final)
              (number_chunks (sort_by key chunks)) final) groups final))
      (concat final ++ concat (map (numbered key) groups))).
  { induction groups as [|[k chunks] groups IH]; intros final Hfin Hids;
      cbn [fold_left map concat].
    - rewrite app_nil_r. reflexivity.
    - destruct (file_chunks_perm (number_chunks (sort_by key chunks)) final)
        as [H1 H2].
      { apply Forall_forall. intros tc Htc. apply list_elem_of_In in Htc.
        rewrite Hfin. destruct (tc_pair tc) as [m p] eqn:Etc.
        assert (Hm : m = Z.to_nat (tc_machine tc)) by (unfold tc_pair in Etc; congruence).
        rewrite <- Hm. apply (Hids m p).
        cbn [map concat snd]. apply in_or_app. left.
        eapply Permutation_in; [apply (sorted_by_perm Z.ltb key)|].
        fold (sort_by key chunks).
        rewrite <- (number_chunks_pairs (sort_by key chunks)), <- Etc.
        apply in_map, Htc. }
      cbv zeta in H1, H2.
      rewrite IH.
      + rewrite H2, <- app_assoc. reflexivity.
      + rewrite H1. exact Hfin.
      + intros m p Hin. apply (Hids m p). cbn [map concat snd].
        apply in_or_app. right. exact Hin. }
  intros groups Hids. rewrite Hgen; [|apply repeat_length|exact Hids].
  reflexivity.
Qed.

Lemma dict_get_absent {A} k (d : list (Z * A)) :
  ~ In k (map fst d) -> dict_get k d = None.
Proof.
  induction d as [|[k' v] d IH]; intros Hnot; [reflexivity|].
  cbn [dict_get]. destruct (Z.eqb_spec k k') as [->|_].
  - exfalso. apply Hnot. now left.
  - apply IH. intros Hin. apply Hnot. now right.
Qed.

Lemma numbered_job key g tc :
  Forall (fun mp => id (p_job (snd mp)) = fst g) (snd g) ->
  In tc (numbered key g) -> id (tc_job tc) = fst g.
Proof.
  intros Hg Htc. unfold numbered in Htc.
  assert (Hin : In (tc_pair tc) (snd g)).
  { eapply Permutation_in; [apply (sorted_by_perm Z.ltb key)|].
    fold (sort_by key (snd g)).
    rewrite <- (number_chunks_pairs (sort_by key (snd g))). apply in_map, Htc. }
  rewrite List.Forall_forall in Hg. apply (Hg _ Hin).
Qed.

Lemma filter_all {A} (f : A -> bool) l :
  (forall x, In x l -> f x = true) -> List.filter f l = l.
Proof.
  intros H. apply forallb_filter_id, forallb_forall, H.
Qed.

Lemma filter_groups key k groups :
  groups_ok groups ->
  List.filter (fun tc => id (tc_job tc) =? k) (concat (map (numbered key) groups))
  = match dict_get k groups with
    | Some chunks => numbered key (k, chunks)
    | None => []
    end.
Proof.
  intros [Hnd Hall]. induction Hall as [|[k' vs] groups Hg Hall IH];
    [reflexivity|].
  cbn [map fst] in Hnd. apply NoDup_cons in Hnd as [Hk' Hnd].
  cbn [map concat dict_get]. rewrite List.filter_app, (IH Hnd).
  destruct (Z.eqb_spec k k') as [->|Hne].
  - rewrite dict_get_absent by (intros Hin; apply Hk', list_elem_of_In, Hin).
    rewrite app_nil_r. apply filter_all. intros tc Htc.
    apply Z.eqb_eq. apply (numbered_job key (k', vs) tc Hg Htc).
  - replace (List.filter _ (numbered key (k', vs))) with (@nil TaskChunk);
      [reflexivity|].
    symmetry. apply filter_nil_iff. intros tc Htc. apply Z.eqb_neq.
    rewrite (numbered_job key (k', vs) tc Hg Htc). cbn [fst]. congruence.
Qed.

Lemma StronglySorted_pairs {A} (R : A -> A -> Prop) l a b :
  StronglySorted R l -> In a l -> In b l -> a = b \/ R a b \/ R b a.
Proof.
  induction 1 as [|x l Hs IH Hx]; intros Ha Hb; [destruct Ha|].
  rewrite List.Forall_forall in Hx.
  destruct Ha as [->|Ha], Hb as [->|Hb]; auto.
Qed.

Lemma number_from_sorted (key : nat * Placed -> Z) (total : Z) l :
  forall start,
    StronglySorted (fun a b => key a <= key b) l ->
    StronglySorted
      (fun a b => tc_chunk_id a < tc_chunk_id b /\ key (tc_pair a) <= key (tc_pair b))
      (map (fun '(idx, (machine_id, p)) =>
              mkTaskChunk (p_job p) (Z.of_nat machine_id) (p_start p) (p_end p)
                          (Z.of_nat idx + 1) total (p_size p))
           (combine (seq start (length l)) l)) /\
    Forall (fun tc => Z.of_nat start < tc_chunk_id tc <= Z.of_nat (start + length l)
                      /\ tc_total_chunks tc = total)
      (map (fun '(idx, (machine_id, p)) =>
              mkTaskChunk (p_job p) (Z.of_nat machine_id) (p_start p) (p_end p)
                          (Z.of_nat idx + 1) total (p_size p))
           (combine (seq start (length l)) l)).
Proof.
  induction l as [|[m p] l IH]; intros start Hs; cbn [length seq combine map].
  - split; constructor.
  - apply StronglySorted_inv in Hs as [Hs Hx].
    destruct (IH (S start) Hs) as [H1 H2]. split.
    + constructor; [exact H1|].
      rewrite List.Forall_forall in H2 |- *. intros tc Htc.
      destruct (H2 tc Htc) as [[Hlo _] _]. cbn [tc_chunk_id]. split; [lia|].
      rewrite List.Forall_forall in Hx.
      apply in_map_iff in Htc as ([idx [m' p']] & <- & Hin).
      apply in_combine_r in Hin. specialize (Hx _ Hin).
      unfold tc_pair, tc_placed. cbn. rewrite !Nat2Z.id.
      destruct p, p'. exact Hx.
    + constructor; [cbn; split; [lia|reflexivity]|].
      eapply Forall_impl; [exact H2|]. cbn. intros tc [[Hlo Hhi] Ht].
      split; [lia|exact Ht].
Qed.

Lemma numbered_spec key g :
  length (numbered key g) = length (snd g) /\
  Forall (fun tc => 1 <= tc_chunk_id tc <= Z.of_nat (length (snd g)) /\
                    tc_total_chunks tc = Z.of_nat (length (snd g)))
         (numbered key g) /\
  StronglySorted
    (fun a b => tc_chunk_id a < tc_chunk_id b /\ key (tc_pair a) <= key (tc_pair b))
    (numbered key g).
Proof.
  unfold numbered, number_chunks.
  pose proof (sorted_by_length Z.ltb key (snd g)) as Hlen.
  fold (sort_by key (snd g)) in Hlen.
  destruct (number_from_sorted key (Z.of_nat (length (sort_by key (snd g))))
              (sort_by key (snd g)) 0 (sort_by_sorted key (snd g))) as [H1 H2].
  split; [|split].
  - rewrite length_map, length_combine, length_seq, Hlen. lia.
  - eapply Forall_impl; [exact H2|]. cbn. intros tc [[Hlo Hhi] Ht].
    rewrite Hlen in *. split; [lia|exact Ht].
  - exact H1.
Qed.

Lemma sorted_ids_nodup (R : TaskChunk -> TaskChunk -> Prop) l :
  (forall a b, R a b -> tc_chunk_id a < tc_chunk_id b) ->
  StronglySorted R l -> NoDup (map tc_chunk_id l).
Proof.
  intros HR. induction 1 as [|a l Hs IH Ha]; cbn [map]; [apply NoDup_nil_2|].
  apply NoDup_cons. split; [|exact IH].
  intros Hin. apply list_elem_of_In, in_map_iff in Hin as (b & E & Hb).
  rewrite List.Forall_forall in Ha. specialize (HR a b (Ha b Hb)). lia.
Qed.

Lemma build_final_numbering key (keytc : TaskChunk -> Z) scheds job_id :
  (forall tc, keytc tc = key (tc_pair tc)) ->
  (length scheds <= Z.to_nat NUM_MACHINES)%nat ->
  let cs := response_chunks job_id (build_final key scheds) in
  Forall (fun tc => 1 <= tc_chunk_id tc <= tc_total_chunks tc /\
                    tc_total_chunks tc = Z.of_nat (length cs)) cs /\
  NoDup (map tc_chunk_id cs) /\
  (forall a b, In a cs -> In b cs -> tc_chunk_id a < tc_chunk_id b ->
               keytc a <= keytc b) /\
  length cs = length (chunks_of job_id (concat scheds)).
Proof.
  intros Hkey Hlen cs.
  assert (Hcount : length cs = length (chunks_of job_id (concat scheds))).
  { rewrite <- (length_map tc_placed cs). apply Permutation_length.
    apply response_job_chunks, build_final_placed, Hlen. }
  assert (Hperm : Permutation cs
            match dict_get job_id (group_by_job scheds) with
            | Some chunks => numbered key (job_id, chunks)
            | None => []
            end).
  { unfold cs, response_chunks.
    rewrite (filter_Permutation_bool _ _ _ (build_final_chunks key scheds Hlen)).
    rewrite (filter_groups key job_id _ (group_by_job_ok scheds)). reflexivity. }
  destruct (dict_get job_id (group_by_job scheds)) as [chunks|].
  2: { apply Permutation_sym, Permutation_nil in Hperm. rewrite Hperm.
       split; [constructor|]. split; [apply NoDup_nil_2|].
       split; [intros a b []|]. rewrite <- Hcount, Hperm. reflexivity. }
  destruct (numbered_spec key (job_id, chunks)) as (Hn & Hall & Hs).
  cbn [snd] in Hn, Hall.
  assert (Hlen' : length cs = length chunks)
    by (rewrite (Permutation_length Hperm); exact Hn).
  split; [|split; [|split; [|exact Hcount]]].
  - eapply Permutation_Forall; [symmetry; exact Hperm|].
    eapply Forall_impl; [exact Hall|]. cbn. intros tc [Hr Ht].
    rewrite Hlen', Ht. split; [exact Hr|reflexivity].
  - apply (proj2 (NoDup_Permutation_proper _ _ (Permutation_map tc_chunk_id Hperm))).
    apply (sorted_ids_nodup _ _ (fun a b H => proj1 H) Hs).
  - intros a b Ha Hb Hlt. rewrite !Hkey.
    apply (Permutation_in _ Hperm) in Ha, Hb.
    destruct (StronglySorted_pairs _ _ a b Hs Ha Hb) as [->|[[_ H]|[H _]]];
      [lia|exact H|lia].
Qed.

(** X12. In the response schedule built from at most three machine
    timelines, by [_build_final] of the greedy solver and by
    [_build_final_schedule] of the cultural solver alike, the chunks of
    every job are numbered consistently: each carries as [total_chunks]
    the number of chunks of that job, which is the number of the job's
    timeline entries; the [chunk_id]s lie between 1 and that total and are
    distinct; and they follow the start times (greedy) or the end times
    (cultural) of the chunks. *)
Theorem response_chunks_are_numbered_per_job
    (scheds : list (list Placed)) (job_id : Z) :
  (length scheds <= Z.to_nat NUM_MACHINES)%nat ->
  let greedy := response_chunks job_id (BacktrackingSolver._build_final scheds) in
  let cultural :=
    response_chunks job_id (CulturalAlgorithm._build_final_schedule scheds) in
  (Forall (fun tc => 1 <= tc_chunk_id tc <= tc_total_chunks tc /\
                     tc_total_chunks tc = Z.of_nat (length greedy)) greedy /\
   NoDup (map tc_chunk_id greedy) /\
   (forall a b, In a greedy -> In b greedy -> tc_chunk_id a < tc_chunk_id b ->
                tc_start a <= tc_start b) /\
   length greedy = length (chunks_of job_id (concat scheds))) /\
  (Forall (fun tc => 1 <= tc_chunk_id tc <= tc_total_chunks tc /\
                     tc_total_chunks tc = Z.of_nat (length cultural)) cultural /\
   NoDup (map tc_chunk_id cultural) /\
   (forall a b, In a cultural -> In b cultural -> tc_chunk_id a < tc_chunk_id b ->
                tc_end a <= tc_end b) /\
   length cultural = length (chunks_of job_id (concat scheds))).
Proof.
  intros Hlen. split.
  - apply (build_final_numbering (fun c => p_start (snd c)) tc_start);
      [reflexivity|exact Hlen].
  - apply (build_final_numbering (fun c => p_end (snd c)) tc_end);
      [reflexivity|exact Hlen].
Qed.

Lemma response_chunks_are_numbered_per_job_witness :
  exists st,
    BacktrackingSolver.schedule_all scenario1 BacktrackingSolver.init_state = Ok st /\
    map (fun tc => (tc_chunk_id tc, tc_total_chunks tc, tc_start tc))
        (response_chunks 2 (BacktrackingSolver._build_final
                              (BacktrackingSolver.machine_schedules st)))
    = [(2, 2, 5); (1, 2, 0)] /\
    NoDup (map tc_chunk_id
             (response_chunks 2 (BacktrackingSolver._build_final
                                   (BacktrackingSolver.machine_schedules st)))).
Proof.
  eexists. split; [vm_compute; reflexivity|]. split; [vm_compute; reflexivity|].
  apply (response_chunks_are_numbered_per_job _ 2). vm_compute. lia.
Defined.

(** ** When an evaluation is feasible *)

Lemma py_index_some len i :
  - Z.of_nat len <= i < Z.of_nat len -> exists m, py_index len i = Some m.
Proof.
  intros Hi. unfold py_index.
  destruct (Z.leb_spec 0 i), (Z.ltb_spec i (Z.of_nat len)); cbn [andb];
    try (eexists; reflexivity); try lia.
  destruct (Z.leb_spec (- Z.of_nat len) i), (Z.ltb_spec i 0); cbn [andb];
    try (eexists; reflexivity); lia.
Qed.

Lemma validate_spec job_dict chrom :
  genes_known job_dict chrom ->
  exists b, Evaluator.validate job_dict chrom = Ok b /\
            (b = true <-> genes_valid job_dict chrom).
Proof.
  unfold genes_known, genes_valid.
  induction 1 as [|[k chunks] chrom [job Hjob] _ IH];
    cbn [Evaluator.validate fst snd] in *.
  - exists true. split; [reflexivity|]. split; [constructor|reflexivity].
  - rewrite Hjob.
    destruct (Z.eqb_spec (sumZ (map c_size chunks)) (duration job)) as [Hsum|Hsum];
      cbn [negb].
    2: { exists false. split; [reflexivity|]. split; [discriminate|].
         intros Hv. inversion Hv as [|? ? (job' & Hj & Hs & _) _]; subst.
         cbn [fst snd] in *. congruence. }
    destruct (existsb (fun c => c_size c >? MAX_CHUNK_SIZE) chunks) eqn:Ebig.
    + exists false. split; [reflexivity|]. split; [discriminate|].
      intros Hv. inversion Hv as [|? ? (job' & _ & _ & Hmax) _]; subst.
      cbn [snd] in Hmax. apply existsb_exists in Ebig as (c & Hc & Hgt).
      rewrite List.Forall_forall in Hmax. specialize (Hmax c Hc).
      rewrite Z.gtb_ltb in Hgt. apply Z.ltb_lt in Hgt. lia.
    + destruct IH as (b & -> & Hb). exists b. split; [reflexivity|].
      rewrite Hb. split.
      * intros Hv. constructor; [|exact Hv]. exists job. cbn [fst snd].
        split; [exact Hjob|]. split; [exact Hsum|].
        apply List.Forall_forall. intros c Hc.
        destruct (Z.gtb_spec (c_size c) MAX_CHUNK_SIZE) as [Hgt|Hle]; [|exact Hle].
        assert (Hex : existsb (fun c => c_size c >? MAX_CHUNK_SIZE) chunks = true).
        { apply existsb_exists. exists c. split; [exact Hc|].
          rewrite Z.gtb_ltb. apply Z.ltb_lt. lia. }
        congruence.
      * intros Hv. inversion Hv; assumption.
Qed.

Lemma dep_start_iff completed deps s0 :
  is_Some (Evaluator.dep_start completed deps s0) <->
  forall d, In d deps -> d ∈ dom completed.
Proof.
  revert s0. induction deps as [|d deps IH]; intros s0; cbn [Evaluator.dep_start].
  - split; [intros _ d []|eauto].
  - destruct (completed !! d) as [t|] eqn:Et.
    + rewrite IH. split.
      * intros H d' [<-|Hd']; [apply elem_of_dom; eauto|apply H, Hd'].
      * intros H d' Hd'. apply H. now right.
    + split; [intros [? ?]; discriminate|].
      intros H. specialize (H d (or_introl eq_refl)).
      apply elem_of_dom in H as [? ?]. congruence.
Qed.

Lemma eval_place_machines job c cur st :
  eval_machines st ->
  - NUM_MACHINES <= c_machine c < NUM_MACHINES ->
  exists t st',
    Evaluator.place job c cur st = Ok (t, st') /\ eval_machines st' /\
    Evaluator.completed st' = Evaluator.completed st /\
    (0 <= c_machine c ->
     Permutation (Evaluator.violations st) (violations_of (Evaluator.m_scheds st)) ->
     Permutation (Evaluator.violations st') (violations_of (Evaluator.m_scheds st'))).
Proof.
  intros Hok Hc. unfold Evaluator.place.
  destruct (py_index_some (length (Evaluator.m_times st)) (c_machine c))
    as [m Em].
  { rewrite (mo_times _ _ Hok). exact Hc. }
  rewrite Em. pose proof (py_index_lt _ _ _ Em) as Hm.
  rewrite (mo_times _ _ Hok) in Hm.
  pose proof (put_machines_ok m job (c_size c) cur _ _ Hok Hm) as Hput.
  unfold put in *. eexists _, _. split; [reflexivity|].
  split; [exact Hput|]. split; [reflexivity|].
  cbn [Evaluator.violations Evaluator.m_scheds]. intros Hpos Hviol.
  rewrite violations_of_insert by (rewrite (mo_scheds _ _ Hok); exact Hm).
  assert (Em' : Z.of_nat m = c_machine c).
  { unfold py_index in Em.
    destruct ((0 <=? c_machine c) && (c_machine c <? _)) eqn:E1.
    - injection Em as <-. lia.
    - apply andb_false_iff in E1 as [E1|E1].
      + apply Z.leb_gt in E1. lia.
      + apply Z.ltb_ge in E1. rewrite (mo_times _ _ Hok) in E1.
        unfold NUM_MACHINES in *. lia. }
  unfold check_capacity, over_capacity, violation_of.
  cbn [p_end p_job p_size p_start]. rewrite Em'.
  destruct (_ >? FIXED_MACHINE_CAPACITY).
  - apply Permutation_app_tail, Hviol.
  - rewrite app_nil_r. exact Hviol.
Qed.

Lemma eval_place_chunks_machines job chunks :
  forall cur st,
    eval_machines st ->
    Forall (fun c => - NUM_MACHINES <= c_machine c < NUM_MACHINES) chunks ->
    exists t st',
      Evaluator.place_chunks job chunks cur st = Ok (t, st') /\ eval_machines st' /\
      Evaluator.completed st' = Evaluator.completed st /\
      (Forall (fun c => 0 <= c_machine c) chunks ->
       Permutation (Evaluator.violations st) (violations_of (Evaluator.m_scheds st)) ->
       Permutation (Evaluator.violations st') (violations_of (Evaluator.m_scheds st'))).
Proof.
  induction chunks as [|c chunks IH]; intros cur st Hok Hall;
    cbn [Evaluator.place_chunks].
  - exists cur, st. split; [reflexivity|]. split; [exact Hok|].
    split; [reflexivity|]. intros _ H. exact H.
  - inversion Hall as [|? ? Hc Hall']; subst.
    destruct (eval_place_machines job c cur st Hok Hc) as (t1 & st1 & -> & Hok1 & Hc1 & Hv1).
    cbn [obind fst snd].
    destruct (IH t1 st1 Hok1 Hall') as (t & st' & -> & Hok' & Hc' & Hv').
    exists t, st'. split; [reflexivity|]. split; [exact Hok'|].
    split; [congruence|]. intros Hpos Hviol.
    inversion Hpos; subst. apply Hv'; [assumption|]. apply Hv1; assumption.
Qed.

Lemma dict_get_in {A} k (d : list (Z * A)) v : dict_get k d = Some v -> In (k, v) d.
Proof.
  induction d as [|[k' v'] d IH]; cbn [dict_get]; [discriminate|].
  destruct (Z.eqb_spec k k') as [->|_].
  - intros [= ->]. now left.
  - intros H. right. apply IH, H.
Qed.

Lemma gene_chunks (P : chunk -> Prop) chrom k chunks :
  Forall (fun g => Forall P (snd g)) chrom ->
  dict_get k chrom = Some chunks ->
  Forall P (sort_by c_order chunks).
Proof.
  intros Hall Hget. apply dict_get_in in Hget.
  rewrite List.Forall_forall in Hall. specialize (Hall _ Hget). cbn [snd] in Hall.
  eapply Permutation_Forall; [symmetry; apply (sorted_by_perm Z.ltb c_order)|].
  exact Hall.
Qed.

Lemma eval_jobs_total chrom order :
  machines_indexable chrom ->
  forall st,
    eval_machines st ->
    exists r,
      Evaluator.eval_jobs chrom order st = Ok r /\
      (is_Some r <->
       forall pre job post, order = pre ++ job :: post ->
         (forall d, In d (dependencies job) ->
                    d ∈ dom (Evaluator.completed st) \/ In d (map id pre)) /\
         exists c cs, dict_get (id job) chrom = Some (c :: cs)) /\
      (forall st', r = Some st' ->
         eval_machines st' /\
         (machines_in_range chrom ->
          Permutation (Evaluator.violations st) (violations_of (Evaluator.m_scheds st)) ->
          Permutation (Evaluator.violations st')
                      (violations_of (Evaluator.m_scheds st')))).
Proof.
  intros Hidx. induction order as [|job rest IH]; intros st Hok;
    cbn [Evaluator.eval_jobs].
  - exists (Some st). split; [reflexivity|]. split.
    + split; [|eauto]. intros _ pre job post E. destruct pre; discriminate E.
    + intros st' [= <-]. split; [exact Hok|]. intros _ H. exact H.
  - destruct (Evaluator.dep_start (Evaluator.completed st) (dependencies job) 0)
      as [start|] eqn:Estart.
    2: { exists None. split; [reflexivity|]. split; [|discriminate].
         split; [intros [? ?]; discriminate|]. intros H.
         destruct (H [] job rest eq_refl) as [Hdeps _].
         assert (Hs : is_Some (Evaluator.dep_start (Evaluator.completed st)
                                 (dependencies job) 0)).
         { apply (proj2 (dep_start_iff (Evaluator.completed st) (dependencies job) 0)).
           intros d Hd. destruct (Hdeps d Hd) as [?|[]]. assumption. }
         rewrite Estart in Hs. destruct Hs as [? ?]. discriminate. }
    assert (Hdeps : forall d, In d (dependencies job) ->
                              d ∈ dom (Evaluator.completed st)).
    { apply (proj1 (dep_start_iff (Evaluator.completed st) (dependencies job) 0)).
      rewrite Estart. eauto. }
    destruct (dict_get (id job) chrom) as [[|c cs]|] eqn:Egene;
      cbn [from_option Datatypes.id].
    1, 3: (exists None; split; [reflexivity|]; split; [|discriminate];
           split; [intros [? ?]; discriminate|]; intros H;
           destruct (H [] job rest eq_refl) as [_ (c & cs & Hc)];
           rewrite Egene in Hc; discriminate Hc).
    pose proof (gene_chunks _ chrom (id job) (c :: cs) Hidx Egene) as Hchunks.
    destruct (eval_place_chunks_machines job (sort_by c_order (c :: cs)) start st
                Hok Hchunks) as (t & st1 & Hplace & Hok1 & Hc1 & Hv1).
    unfold Datatypes.id. rewrite Hplace. cbn [obind fst snd].
    set (st2 := Evaluator.mkEval (Evaluator.m_times st1) (Evaluator.m_scheds st1)
                  (<[id job := t]> (Evaluator.completed st1))
                  (Evaluator.violations st1) (Evaluator.machine_loads st1)).
    destruct (IH st2 Hok1) as (r & Hrun & Hiff & Hpost).
    exists r. split; [exact Hrun|]. split.
    + rewrite Hiff. split.
      * intros H pre j post E. destruct pre as [|j0 pre]; cbn [app] in E.
        -- injection E as <- <-. split; [|eauto].
           intros d Hd. left. apply Hdeps, Hd.
        -- injection E as <- ->. destruct (H pre j post eq_refl) as [H1 H2].
           split; [|exact H2]. intros d Hd. cbn [map].
           destruct (H1 d Hd) as [Hd'|Hd']; [|right; right; exact Hd'].
           unfold st2 in Hd'. cbn [Evaluator.completed] in Hd'.
           rewrite Hc1, dom_insert_L in Hd'.
           apply elem_of_union in Hd' as [Hd'|Hd']; [|left; exact Hd'].
           apply elem_of_singleton in Hd'. right. left. congruence.
      * intros H pre j post E.
        destruct (H (job :: pre) j post ltac:(rewrite E; reflexivity)) as [H1 H2].
        split; [|exact H2]. intros d Hd.
        unfold st2. cbn [Evaluator.completed]. rewrite Hc1, dom_insert_L.
        destruct (H1 d Hd) as [Hd'|[Hd'|Hd']].
        -- left. apply elem_of_union. right. exact Hd'.
        -- left. apply elem_of_union. left. apply elem_of_singleton. congruence.
        -- right. exact Hd'.
    + intros st' Hr. destruct (Hpost st' Hr) as [Hok' Hv']. split; [exact Hok'|].
      intros Hrange Hviol. apply (Hv' Hrange). unfold st2.
      cbn [Evaluator.violations Evaluator.m_scheds]. apply Hv1; [|exact Hviol].
      eapply Forall_impl; [apply (gene_chunks _ chrom (id job) (c :: cs) Hrange Egene)|].
      cbn. intros c0 Hc0. lia.
Qed.

Lemma eval_machines_init : eval_machines Evaluator.init_state.
Proof.
  constructor; cbn; try reflexivity.
  - intros [|[|[|[|m]]]]; reflexivity.
  - intros [|[|[|[|m]]]]; exact I.
Qed.

Section FeasibilityFacts.
Context {F : Type} {fo : FloatOps F}.

Lemma adjusted_makespan_total st :
  eval_machines st -> exists f : F, Evaluator.adjusted_makespan st = Ok f.
Proof.
  intros [Ht Hs _ _]. unfold Evaluator.adjusted_makespan.
  destruct (Evaluator.m_times st) as [|t0 times]; [discriminate Ht|].
  cbn [max_list obind].
  destruct (Evaluator.m_scheds st) as [|s0 scheds]; [discriminate Hs|].
  cbn [length seq combine map]. eexists. reflexivity.
Qed.

End FeasibilityFacts.




(** ** The schedule of a feasible evaluation *)

Lemma machines_timelines st : eval_machines st -> timelines_ok st.
Proof. intros [Ht Hs Hb _]. constructor; assumption. Qed.

Lemma eval_jobs_sizes (P : Z -> Prop) chrom order :
  (forall g c, In g chrom -> In c (snd g) -> P (c_size c)) ->
  forall st st',
    timelines_ok st ->
    Evaluator.eval_jobs chrom order st = Ok (Some st') ->
    Forall (fun p => P (p_size p)) (eflat st) ->
    Forall (fun p => P (p_size p)) (eflat st').
Proof.
  intros HP. induction order as [|job rest IH]; intros st st' Hok Hrun Hall;
    cbn [Evaluator.eval_jobs] in Hrun.
  - injection Hrun as <-. exact Hall.
  - destruct (Evaluator.dep_start _ _ _) as [start|]; [|discriminate Hrun].
    destruct (dict_get (id job) chrom) as [chunks|] eqn:Egene;
      cbn [from_option Datatypes.id] in Hrun; [|discriminate Hrun].
    unfold Datatypes.id in Hrun.
    destruct chunks as [|c cs]; [discriminate Hrun|].
    destruct (Evaluator.place_chunks job (sort_by c_order (c :: cs)) start st)
      as [[t st1]| |] eqn:Eplace; cbn [obind fst snd] in Hrun;
      try discriminate Hrun.
    destruct (eval_place_chunks_trace job _ start st t st1 Hok Eplace)
      as (pl & _ & Hsz & _ & _ & Hok1 & _ & Hperm).
    eapply IH; [|exact Hrun|].
    + destruct Hok1. constructor; assumption.
    + unfold eflat in *. cbn [Evaluator.m_scheds].
      eapply Permutation_Forall; [symmetry; exact Hperm|].
      apply Forall_app. split; [exact Hall|].
      assert (Hsizes : Forall P (map p_size pl)).
      { rewrite Hsz. apply List.Forall_forall. intros z Hz.
        apply in_map_iff in Hz as (c0 & <- & Hc0).
        apply (HP (id job, c :: cs) c0); [apply dict_get_in, Egene|].
        cbn [snd]. eapply Permutation_in; [apply (sorted_by_perm Z.ltb c_order)|].
        exact Hc0. }
      clear -Hsizes. induction pl as [|p pl IH]; [constructor|].
      cbn [map] in Hsizes. inversion Hsizes; subst. constructor; auto.
Qed.

(** X14. The schedule of a feasible evaluation of a chromosome whose
    machines are 0, 1 or 2 has three timelines, each a chain from time 0
    (every entry starts when the previous entry of its machine has ended,
    or later, and ends its size after it starts); its violation list has
    exactly one entry for every timeline entry that ends after time 40;
    and when all chunk sizes are positive every entry of a timeline ends
    before the next one starts. *)
Theorem evaluated_schedule_is_well_formed
    {F : Type} {fo : FloatOps F}
    (job_dict : gmap Z Job) (chrom : chromosome) (order : list Job)
    (f : F) (s : list (list Placed)) (viol : list Violation) :
  machines_in_range chrom ->
  Evaluator._evaluate_chromosome job_dict chrom order = Ok (Fin f, s, viol) ->
  length s = Z.to_nat NUM_MACHINES /\
  (forall m, chained 0 (nth m s [])) /\
  Permutation viol (violations_of s) /\
  ((forall g c, In g chrom -> In c (snd g) -> 0 < c_size c) ->
   forall m, StronglySorted (fun a b => p_end a <= p_start b) (nth m s [])).
Proof.
  intros Hrange Hrun.
  destruct (evaluate_feasible _ _ _ _ _ _ Hrun) as (st & _ & Hjobs & _ & -> & ->).
  assert (Hidx : machines_indexable chrom).
  { eapply Forall_impl; [exact Hrange|]. cbn. intros g Hg.
    eapply Forall_impl; [exact Hg|]. cbn. unfold NUM_MACHINES. intros c Hc. lia. }
  destruct (eval_jobs_total chrom order Hidx _ eval_machines_init)
    as (r & Hjobs' & _ & Hpost).
  assert (r = Some st) by congruence. subst r.
  destruct (Hpost st eq_refl) as [Hok Hviol].
  split; [apply (mo_scheds _ _ Hok)|]. split; [apply (mo_chained _ _ Hok)|].
  split; [apply (Hviol Hrange); reflexivity|].
  intros Hpos m.
  assert (Hsizes : Forall (fun p => 0 < p_size p) (eflat st)).
  { apply (eval_jobs_sizes (fun z => 0 < z) chrom order Hpos _ st
             (machines_timelines _ eval_machines_init) Hjobs). constructor. }
  destruct (chained_apart 0 (nth m (Evaluator.m_scheds st) []) (mo_chained _ _ Hok m))
    as [_ Hs]; [|exact Hs].
  apply List.Forall_forall. intros p Hp.
  rewrite List.Forall_forall in Hsizes.
  specialize (Hsizes p (in_machine_flat _ m p Hp)). lia.
Qed.

Lemma evaluated_schedule_is_well_formed_witness :
  StronglySorted (fun a b => p_end a <= p_start b)
                 [mkPlaced job_A 0 5 5; mkPlaced job_B 5 10 5].
Proof.
  apply (proj2 (proj2 (proj2
    (evaluated_schedule_is_well_formed (fo := Q_float)
       (make_job_dict [job_A; job_B])
       [(1, [mkChunk 0 5 0]); (2, [mkChunk 0 5 0])] [job_A; job_B]
       (44 # 3)%Q [[mkPlaced job_A 0 5 5; mkPlaced job_B 5 10 5]; []; []] []
       ltac:(apply List.Forall_forall; intros g [<-|[<-|[]]]; apply List.Forall_forall;
             intros c [<-|[]]; unfold NUM_MACHINES; cbn; lia)
       ltac:(vm_compute; reflexivity))))
    ltac:(intros g c [<-|[<-|[]]] [<-|[]]; reflexivity) 0%nat).
Defined.

(** ** What the belief space suggests *)

Lemma best_machine_spec scores m :
  BeliefSpace.best_machine scores = Some m ->
  exists n, In (m, n) scores /\ forall kv, In kv scores -> snd kv <= n.
Proof.
  unfold BeliefSpace.best_machine. destruct scores as [|[m0 n0] rest]; [discriminate|].
  intros [= <-].
  assert (Hgen : forall l (best : Z * Z),
            let r := fold_left (fun best kv => if snd best <? snd kv then kv else best)
                               l best in
            (r = best \/ In r l) /\ snd best <= snd r /\
            forall kv, In kv l -> snd kv <= snd r).
  { induction l as [|kv l IH]; intros best; cbn [fold_left].
    - split; [now left|]. split; [lia|intros kv []].
    - destruct (IH (if snd best <? snd kv then kv else best)) as (H1 & H2 & H3).
      cbv zeta in *. split; [|split].
      + destruct H1 as [H1|H1]; [|right; right; exact H1].
        rewrite H1. destruct (snd best <? snd kv); [right; left|left]; reflexivity.
      + destruct (Z.ltb_spec (snd best) (snd kv)); lia.
      + intros kv' [<-|Hkv']; [|apply H3, Hkv'].
        destruct (Z.ltb_spec (snd best) (snd kv)); lia. }
  destruct (Hgen rest (m0, n0)) as (H1 & H2 & H3). cbv zeta in *.
  set (r := fold_left _ rest (m0, n0)) in *.
  exists (snd r). split.
  - destruct H1 as [H1|H1]; [rewrite H1; now left|right].
    destruct r; exact H1.
  - intros kv [<-|Hkv]; [exact H2|apply H3, Hkv].
Qed.

Lemma dict_get_nodup {A} k (v : A) d :
  NoDup (map fst d) -> In (k, v) d -> dict_get k d = Some v.
Proof.
  induction d as [|[k' v'] d IH]; intros Hnd Hin; [destruct Hin|].
  cbn [map fst] in Hnd. apply NoDup_cons in Hnd as [Hk' Hnd]. cbn [dict_get].
  destruct Hin as [[= -> ->]|Hin]; [rewrite Z.eqb_refl; reflexivity|].
  destruct (Z.eqb_spec k k') as [->|_]; [|apply IH; assumption].
  exfalso. apply Hk', list_elem_of_In. apply (in_map fst _ _ Hin).
Qed.

Lemma dict_incr_keys k d :
  map fst (dict_incr k d)
  = if in_dec Z.eq_dec k (map fst d) then map fst d else map fst d ++ [k].
Proof.
  induction d as [|[k' n] d IH]; cbn [dict_incr map fst].
  - destruct (in_dec Z.eq_dec k []) as [[]|_]. reflexivity.
  - destruct (Z.eqb_spec k k') as [->|Hne]; cbn [map fst].
    + destruct (in_dec Z.eq_dec k' (k' :: map fst d)) as [_|Hn]; [reflexivity|].
      exfalso. apply Hn. now left.
    + rewrite IH.
      destruct (in_dec Z.eq_dec k (map fst d)) as [Hin|Hnin];
        destruct (in_dec Z.eq_dec k (k' :: map fst d)) as [Hin'|Hnin'];
        try reflexivity.
      * exfalso. apply Hnin'. now right.
      * destruct Hin' as [E|Hin']; [congruence|contradiction].
Qed.

Lemma dict_incr_ok k d :
  NoDup (map fst d) /\ Forall (fun kv => 0 < snd kv) d ->
  NoDup (map fst (dict_incr k d)) /\ Forall (fun kv => 0 < snd kv) (dict_incr k d).
Proof.
  intros [Hnd Hpos]. split.
  - rewrite dict_incr_keys. destruct (in_dec Z.eq_dec k (map fst d)) as [_|Hnin];
      [exact Hnd|].
    apply NoDup_app. split; [exact Hnd|]. split; [|apply NoDup_singleton].
    intros x Hx Hx'. apply list_elem_of_singleton in Hx'. subst x.
    apply Hnin, list_elem_of_In, Hx.
  - clear Hnd. induction Hpos as [|[k' n] d Hn Hpos IH]; cbn [dict_incr].
    + repeat constructor.
    + destruct (k =? k'); constructor; cbn [snd] in *; try assumption. lia.
Qed.

Lemma bump_ok j m rep :
  reputation_ok rep -> reputation_ok (BeliefSpace.bump j m rep).
Proof.
  intros Hrep j' scores. unfold BeliefSpace.bump.
  destruct (Z.eq_dec j j') as [<-|Hne].
  - rewrite lookup_insert_eq. intros [= <-]. apply dict_incr_ok.
    destruct (rep !! j) as [s|] eqn:E; cbn [from_option Datatypes.id].
    + apply (Hrep j s E).
    + split; [apply NoDup_nil_2|constructor].
  - rewrite lookup_insert_ne by exact Hne. apply Hrep.
Qed.

Lemma learn_ok {F} rep (accepted : list (BeliefSpace.individual F)) :
  reputation_ok rep -> reputation_ok (BeliefSpace.learn rep accepted).
Proof.
  unfold BeliefSpace.learn. revert rep.
  induction accepted as [|x accepted IH]; intros rep Hrep; cbn [fold_left];
    [exact Hrep|].
  apply IH. generalize (BeliefSpace.ind_chromosome x) as chrom. intros chrom.
  revert rep Hrep. induction chrom as [|[j chunks] chrom IHc]; intros rep Hrep;
    cbn [fold_left]; [exact Hrep|].
  apply IHc. unfold BeliefSpace.learn_entry.
  assert (Hrep1 : reputation_ok match rep !! j with
                                | Some _ => rep
                                | None => <[j := []]> rep
                                end).
  { destruct (rep !! j) eqn:E; [exact Hrep|].
    intros j' scores. destruct (Z.eq_dec j j') as [<-|Hne].
    - rewrite lookup_insert_eq. intros [= <-]. split; [apply NoDup_nil_2|constructor].
    - rewrite lookup_insert_ne by exact Hne. apply Hrep. }
  revert Hrep1. generalize (match rep !! j with
                            | Some _ => rep
                            | None => <[j := []]> rep
                            end) as rep1.
  induction chunks as [|c chunks IHk]; intros rep1 Hrep1; cbn [fold_left];
    [exact Hrep1|].
  apply IHk, bump_ok, Hrep1.
Qed.

Section SuggestionFacts.
Context {F : Type} {fo : FloatOps F}.

Lemma update_reputation (bs bs' : BeliefSpace.t F) pop :
  BeliefSpace.update bs pop = Ok bs' ->
  BeliefSpace.machine_reputation bs'
  = BeliefSpace.learn (BeliefSpace.machine_reputation bs)
                      (BeliefSpace.accepted_individuals pop).
Proof.
  unfold BeliefSpace.update.
  destruct (BeliefSpace.accepted_individuals pop) as [|best rest]; [discriminate|].
  intros [= <-]. cbn [BeliefSpace.machine_reputation].
  destruct (fit_ltb _ _); reflexivity.
Qed.

Lemma update_all_reputation pops :
  forall bs bs' : BeliefSpace.t F,
    update_all bs pops = Ok bs' ->
    reputation_ok (BeliefSpace.machine_reputation bs) ->
    reputation_ok (BeliefSpace.machine_reputation bs') /\
    forall job_id m_id,
      BeliefSpace.reputation (BeliefSpace.machine_reputation bs') job_id m_id
      = BeliefSpace.reputation (BeliefSpace.machine_reputation bs) job_id m_id
        + accepted_chunks job_id m_id pops.
Proof.
  induction pops as [|pop pops IH]; intros bs bs' Hrun Hrep; cbn [update_all] in Hrun.
  - injection Hrun as <-. split; [exact Hrep|]. intros j m.
    unfold accepted_chunks. cbn. lia.
  - destruct (BeliefSpace.update bs pop) as [bs1| |] eqn:E1; cbn [obind] in Hrun;
      try discriminate Hrun.
    pose proof (update_reputation bs bs1 pop E1) as Hrep1.
    destruct (IH bs1 bs' Hrun) as [Hok Hcount].
    { rewrite Hrep1. apply learn_ok, Hrep. }
    split; [exact Hok|]. intros j m.
    rewrite Hcount, Hrep1, reputation_learn.
    unfold accepted_chunks. cbn [map]. unfold sumZ. cbn [fold_right]. lia.
Qed.

End SuggestionFacts.

(** X15. In a belief space built from the initial one by [update]s,
    [influence_mutation] returns a machine only after a random draw below
    0.7, and that machine is the one the accepted individuals have used
    most for the job: its count is positive, it is the number of chunks the
    accepted individuals of all updates placed for the job on it, and no
    machine has a greater count. *)
Theorem influence_mutation_suggests_most_used_machine
    {F : Type} {fo : FloatOps F} {R : Type} {rg : RandomGen R}
    (pops : list (list (BeliefSpace.individual F))) (bs : BeliefSpace.t F)
    (job_id m : Z) (g g' : R) :
  update_all (BeliefSpace.init NUM_MACHINES) pops = Ok bs ->
  BeliefSpace.influence_mutation bs job_id g = (Some m, g') ->
  random_lt (7 # 10) g = (true, g') /\
  0 < accepted_chunks job_id m pops /\
  BeliefSpace.reputation (BeliefSpace.machine_reputation bs) job_id m
  = accepted_chunks job_id m pops /\
  forall m', accepted_chunks job_id m' pops <= accepted_chunks job_id m pops.
Proof.
  intros Hrun Hinf.
  destruct (update_all_reputation pops _ bs Hrun) as [Hok Hcount].
  { intros j scores. cbn. rewrite lookup_empty. discriminate. }
  assert (Hrep : forall m0,
            BeliefSpace.reputation (BeliefSpace.machine_reputation bs) job_id m0
            = accepted_chunks job_id m0 pops).
  { intros m0. rewrite Hcount. unfold BeliefSpace.reputation. cbn.
    rewrite lookup_empty. cbn. lia. }
  unfold BeliefSpace.influence_mutation in Hinf.
  destruct (BeliefSpace.machine_reputation bs !! job_id) as [scores|] eqn:Escores;
    [|discriminate Hinf].
  destruct (random_lt (7 # 10) g) as [[|] g1]; [|discriminate Hinf].
  injection Hinf as Hbest <-. split; [reflexivity|].
  destruct (best_machine_spec scores m Hbest) as (n & Hin & Hmax).
  destruct (Hok job_id scores Escores) as [Hnd Hpos].
  rewrite List.Forall_forall in Hpos. pose proof (Hpos _ Hin) as Hn. cbn [snd] in Hn.
  assert (Hm : BeliefSpace.reputation (BeliefSpace.machine_reputation bs) job_id m = n).
  { unfold BeliefSpace.reputation. rewrite Escores.
    cbn [from_option Datatypes.id]. unfold Datatypes.id.
    rewrite (dict_get_nodup m n scores Hnd Hin). reflexivity. }
  rewrite <- !Hrep, Hm. split; [exact Hn|]. split; [reflexivity|].
  intros m'. rewrite <- Hrep. unfold BeliefSpace.reputation. rewrite Escores.
  cbn [from_option Datatypes.id]. unfold Datatypes.id.
  destruct (dict_get m' scores) as [n'|] eqn:E'; cbn [from_option]; [|lia].
  apply (Hmax (m', n')). apply dict_get_in, E'.
Qed.

Lemma influence_mutation_suggests_most_used_machine_witness :
  exists bs,
    update_all (BeliefSpace.init NUM_MACHINES) [six_individuals] = Ok bs /\
    BeliefSpace.influence_mutation bs 1 7%N = (Some 0, lcg_next 7%N) /\
    0 < accepted_chunks 1 0 [six_individuals].
Proof.
  eexists. split; [vm_compute; reflexivity|]. split; [vm_compute; reflexivity|].
  eapply (influence_mutation_suggests_most_used_machine (fo := Q_float) (rg := lcg)
            [six_individuals] _ 1 0 7%N).
  - vm_compute. reflexivity.
  - vm_compute. reflexivity.
Defined.

(** ** The reference random source is lawful *)

Lemma in_insert {A} (l : list A) i v x :
  In x (<[i := v]> l) -> x = v \/ In x l.
Proof.
  revert i. induction l as [|y l IH]; intros i Hin; [destruct Hin|].
  destruct i as [|i]; cbn in Hin.
  - destruct Hin as [<-|Hin]; [now left|right; now right].
  - destruct Hin as [<-|Hin]; [right; now left|].
    destruct (IH i Hin) as [->|H]; [now left|right; now right].
Qed.

Lemma lcg_shuffle_keeps n :
  forall l g,
    (n <= length l - 1)%nat ->
    length (fst (lcg_shuffle n l g)) = length l /\
    forall x, In x (fst (lcg_shuffle n l g)) -> In x l.
Proof.
  induction n as [|n IH]; intros l g Hn; cbn [lcg_shuffle].
  - split; [reflexivity|auto].
  - set (j := N.to_nat (g mod N.of_nat (S n))%N).
    assert (Hj : (j < S n)%nat).
    { subst j. pose proof (N.mod_lt g (N.of_nat (S n)) ltac:(lia)). lia. }
    destruct (IH (<[n := nth j l 0]> (<[j := nth n l 0]> l)) (lcg_next g)) as [H1 H2].
    { rewrite !length_insert. lia. }
    rewrite !length_insert in H1. split; [exact H1|].
    intros x Hx. specialize (H2 x Hx).
    apply in_insert in H2 as [->|H2]; [apply nth_In; lia|].
    apply in_insert in H2 as [->|H2]; [apply nth_In; lia|exact H2].
Qed.

Lemma lcg_sample_range k :
  forall n g,
    (k <= n)%nat ->
    length (fst (lcg_sample k n g)) = k /\
    Forall (fun i => (i < n)%nat) (fst (lcg_sample k n g)).
Proof.
  induction k as [|k IH]; intros n g Hk; cbn [lcg_sample].
  - split; [reflexivity|constructor].
  - destruct (IH n (lcg_next g) ltac:(lia)) as [H1 H2].
    destruct (lcg_sample k n (lcg_next g)) as [rest g']. cbn [fst] in *.
    split; [cbn; lia|]. constructor; [|exact H2].
    pose proof (N.mod_lt g (N.of_nat (Nat.max 1 n)) ltac:(lia)). lia.
Qed.

Lemma lcg_lawful : lawful_random N.
Proof.
  constructor.
  - intros a b g Hab. cbn.
    pose proof (Z.mod_pos_bound (Z.of_N g) (b - a + 1) ltac:(lia)). lia.
  - intros l g. cbn. apply lcg_shuffle_keeps. lia.
  - intros n g Hn. cbn.
    pose proof (N.mod_lt g (N.of_nat (Nat.max 1 n)) ltac:(lia)). lia.
  - intros n k g Hk. cbn. apply lcg_sample_range, Hk.
Qed.

(** ** Runs of the search that do not raise *)

Section RunFacts.
Context {F : Type} {fo : FloatOps F} {R : Type} {rg : RandomGen R}.
Hypothesis Hlaw : lawful_random R.

Lemma returns_bind {A B} (c : CulturalAlgorithm.GA (R := R) A)
    (k : A -> CulturalAlgorithm.GA (R := R) B) g (P : A -> Prop) (Q : B -> Prop) :
  returns c g P ->
  (forall a g1, P a -> returns (k a) g1 Q) ->
  returns (CulturalAlgorithm.bind c k) g Q.
Proof.
  intros (a & g1 & Hc & Ha) Hk. destruct (Hk a g1 Ha) as (b & g2 & Hb & Hq).
  exists b, g2. split; [|exact Hq].
  unfold CulturalAlgorithm.bind. rewrite Hc. exact Hb.
Qed.

Lemma returns_ret {A} (a : A) g (P : A -> Prop) :
  P a -> returns (CulturalAlgorithm.ret (R := R) a) g P.
Proof. intros Ha. exists a, g. split; [reflexivity|exact Ha]. Qed.

Lemma returns_lift {A} (x : outcome A) a g (P : A -> Prop) :
  x = Ok a -> P a -> returns (CulturalAlgorithm.lift (R := R) x) g P.
Proof. intros -> Ha. exists a, g. split; [reflexivity|exact Ha]. Qed.

Lemma returns_draw {A} (f : R -> A * R) g (P : A -> Prop) :
  P (fst (f g)) -> returns (CulturalAlgorithm.draw f) g P.
Proof.
  intros Ha. exists (fst (f g)), (snd (f g)). split; [|exact Ha].
  unfold CulturalAlgorithm.draw. destruct (f g). reflexivity.
Qed.

Lemma returns_weaken {A} (c : R -> outcome (A * R)) g (P Q : A -> Prop) :
  returns c g P -> (forall a, P a -> Q a) -> returns c g Q.
Proof. intros (a & g' & Hc & Ha) HPQ. exists a, g'. split; [exact Hc|apply HPQ, Ha]. Qed.

Lemma choice_returns {A} (l : list A) g :
  l <> [] -> returns (choice l) g (fun x => In x l).
Proof.
  intros Hne. unfold returns, choice.
  pose proof (choice_range R Hlaw (length l) g) as Hi.
  destruct (choice_index (length l) g) as [i g']. cbn [fst] in Hi.
  assert (Hlt : (i < length l)%nat) by (apply Hi; destruct l; [congruence|cbn; lia]).
  destruct (nth_error l i) as [x|] eqn:Ex.
  - exists x, g'. split; [reflexivity|]. eapply nth_error_In, Ex.
  - apply nth_error_None in Ex. lia.
Qed.

Lemma mapM_nth_error_total {A} (l : list A) idx :
  Forall (fun i => (i < length l)%nat) idx ->
  exists xs, mapM (fun i => nth_error l i) idx = Some xs /\ length xs = length idx.
Proof.
  induction 1 as [|i idx Hi _ IH].
  - exists []. split; reflexivity.
  - destruct IH as (xs & Hxs & Hlen).
    destruct (nth_error l i) as [x|] eqn:Ex; [|apply nth_error_None in Ex; lia].
    exists (x :: xs). split; [|cbn; lia].
    cbn. rewrite Ex. cbn. rewrite Hxs. reflexivity.
Qed.

Lemma sample_returns {A} (l : list A) k g :
  (k <= length l)%nat ->
  returns (sample l k) g (fun xs => length xs = k /\ forall x, In x xs -> In x l).
Proof.
  intros Hk. unfold returns, sample.
  destruct (sample_range R Hlaw (length l) k g Hk) as [Hlen Hidx].
  destruct (sample_indices (length l) k g) as [idx g']. cbn [fst] in *.
  destruct (mapM_nth_error_total l idx Hidx) as (xs & Hxs & Hlen').
  rewrite Hxs. exists xs, g'. split; [reflexivity|]. split; [lia|].
  intros x Hx. eapply mapM_nth_error_in; eassumption.
Qed.

End RunFacts.

(** ** The operators of the search keep the chromosomes well formed *)

Lemma dict_set_forall {A} (P : Z * A -> Prop) k v d :
  Forall P d -> P (k, v) -> Forall P (CulturalAlgorithm.dict_set k v d).
Proof.
  intros Hd Hv. induction Hd as [|[k' v'] d Hx Hd IH];
    cbn [CulturalAlgorithm.dict_set].
  - repeat constructor. exact Hv.
  - destruct (Z.eqb_spec k k') as [->|_]; constructor; assumption.
Qed.

Lemma insert_map_same {A B} (f : A -> B) (l : list A) k x c :
  l !! k = Some c -> f x = f c -> map f (<[k := x]> l) = map f l.
Proof.
  revert k. induction l as [|y l IH]; intros [|k] Hk Hf; cbn in *;
    try discriminate.
  - injection Hk as ->. rewrite Hf. reflexivity.
  - f_equal. apply IH; assumption.
Qed.

Section OperatorFacts.
Context {F : Type} {fo : FloatOps F} {R : Type} {rg : RandomGen R}.
Hypothesis Hlaw : lawful_random R.
Variable job_dict : gmap Z Job.
Variable order : list Job.
Hypothesis Hdict : forall job, In job order -> job_dict !! id job = Some job.

Lemma chromosome_set chrom done job chunks :
  genes_valid job_dict chrom -> machines_in_range chrom -> genes_present chrom done ->
  In job order -> gene_ok job chunks ->
  genes_valid job_dict (CulturalAlgorithm.dict_set (id job) chunks chrom) /\
  machines_in_range (CulturalAlgorithm.dict_set (id job) chunks chrom) /\
  genes_present (CulturalAlgorithm.dict_set (id job) chunks chrom) (done ++ [job]).
Proof.
  intros Hv Hr Hp Hjob (Hne & Hsum & Hmax & Hm). split; [|split].
  - apply dict_set_forall; [exact Hv|]. exists job. cbn [fst snd].
    split; [apply Hdict, Hjob|]. split; assumption.
  - apply dict_set_forall; [exact Hr|]. exact Hm.
  - intros j Hj. rewrite dict_get_set.
    destruct (Z.eqb_spec (id j) (id job)) as [_|Hneq].
    + destruct chunks as [|c cs]; [congruence|eauto].
    + apply in_app_or in Hj as [Hj|[<-|[]]]; [apply Hp, Hj|congruence].
Qed.

Lemma chromosome_set_ok chrom job chunks :
  chromosome_ok job_dict order chrom -> In job order -> gene_ok job chunks ->
  chromosome_ok job_dict order (CulturalAlgorithm.dict_set (id job) chunks chrom).
Proof.
  intros (Hv & Hr & Hp) Hjob Hgene.
  destruct (chromosome_set chrom order job chunks Hv Hr Hp Hjob Hgene)
    as (Hv' & Hr' & Hp').
  split; [exact Hv'|]. split; [exact Hr'|].
  intros j Hj. apply Hp'. apply in_or_app. left. exact Hj.
Qed.

Lemma spread_machines_returns machines sizes :
  length machines = Z.to_nat NUM_MACHINES ->
  (forall x, In x machines -> 0 <= x < NUM_MACHINES) ->
  forall i,
    exists chunks,
      CulturalAlgorithm.spread_machines machines i sizes = Ok chunks /\
      map c_size chunks = sizes /\
      map c_order chunks = map (fun k => i + Z.of_nat k) (seq 0 (length sizes)) /\
      Forall (fun c => 0 <= c_machine c < NUM_MACHINES) chunks.
Proof.
  intros Hlen Hin. induction sizes as [|s sizes IH]; intros i;
    cbn [CulturalAlgorithm.spread_machines].
  - exists []. repeat split; constructor.
  - destruct (py_index_some (length machines) (i mod NUM_MACHINES)) as [k Hk].
    { rewrite Hlen. unfold NUM_MACHINES.
      pose proof (Z.mod_pos_bound i 3 ltac:(lia)). lia. }
    rewrite Hk. destruct (IH (i + 1)) as (cs & -> & Hs & Ho & Hm). cbn [obind].
    eexists. split; [reflexivity|]. cbn [map c_size c_order length seq].
    split; [rewrite Hs; reflexivity|]. split.
    + rewrite Ho, Z.add_0_r. f_equal. rewrite <- seq_shift, map_map.
      apply map_ext. intros a. lia.
    + constructor; [|exact Hm]. cbn [c_machine]. apply Hin, nth_In.
      apply py_index_lt in Hk. exact Hk.
Qed.

Lemma split_returns job g :
  MAX_CHUNK_SIZE < duration job ->
  returns (CulturalAlgorithm._create_intelligent_split job) g
          (fun chunks => gene_ok job chunks /\
                         final_sizes (duration job) = Ok (map c_size chunks)).
Proof.
  intros Hd. unfold CulturalAlgorithm._create_intelligent_split.
  destruct (final_sizes_ok (duration job) Hd) as [sizes Hsizes].
  assert (Hcs : chunk_sizes job = Ok sizes).
  { unfold chunk_sizes. destruct (Z.gtb_spec (duration job) MAX_CHUNK_SIZE); [|lia].
    exact Hsizes. }
  destruct (chunk_sizes_sum job sizes Hcs) as (Hsum & Hne & Hmax & _).
  eapply returns_bind with (P := fun s => s = sizes);
    [apply (returns_lift _ sizes); [exact Hsizes|reflexivity]|].
  intros sizes' g1 ->.
  eapply returns_bind.
  { apply (returns_draw _ _ (fun machines =>
             length machines = Z.to_nat NUM_MACHINES /\
             forall x, In x machines -> 0 <= x < NUM_MACHINES)).
    destruct (shuffle_keeps R Hlaw (range NUM_MACHINES) g1) as [H1 H2].
    split; [rewrite H1; reflexivity|].
    intros x Hx. apply H2, range_elem in Hx. exact Hx. }
  intros machines g2 [Hlen Hin].
  destruct (spread_machines_returns machines sizes Hlen Hin 0)
    as (chunks & Hrun & Hs & _ & Hm).
  eapply returns_bind with (P := fun cs => cs = chunks);
    [apply (returns_lift _ chunks); [exact Hrun|reflexivity]|].
  intros chunks' g3 ->. rewrite Hs, Hsum, Z.eqb_refl.
  apply returns_ret. split; [|rewrite Hs; exact Hsizes].
  split; [|split; [|split]].
  - intros ->. cbn in Hs. congruence.
  - rewrite Hs. exact Hsum.
  - rewrite <- Hs in Hmax. clear -Hmax. induction chunks as [|c cs IH];
      [constructor|]. cbn [map] in Hmax. inversion Hmax; subst. constructor; auto.
  - exact Hm.
Qed.

Lemma smart_chromosome_from_returns todo :
  forall done chrom g,
    (forall job, In job todo -> In job order) ->
    genes_valid job_dict chrom -> machines_in_range chrom -> genes_present chrom done ->
    returns (CulturalAlgorithm._create_smart_chromosome_from chrom todo) g
            (fun chrom' => genes_valid job_dict chrom' /\ machines_in_range chrom' /\
                           genes_present chrom' (done ++ todo)).
Proof.
  induction todo as [|job todo IH]; intros done chrom g Hsub Hv Hr Hp;
    cbn [CulturalAlgorithm._create_smart_chromosome_from].
  - apply returns_ret. rewrite app_nil_r. auto.
  - eapply returns_bind with (P := gene_ok job).
    + destruct (Z.leb_spec (duration job) MAX_CHUNK_SIZE) as [Hle|Hgt].
      * eapply returns_bind.
        { apply (returns_draw _ _ (fun m => 0 <= m < NUM_MACHINES)).
          pose proof (randint_range R Hlaw 0 (NUM_MACHINES - 1) g
                        ltac:(unfold NUM_MACHINES; lia)). lia. }
        intros m g1 Hm. cbn beta in Hm. apply returns_ret.
        split; [discriminate|]. split; [cbn; lia|].
        split; (constructor; [cbn [c_size c_machine]; lia|constructor]).
      * eapply returns_weaken; [apply split_returns; lia|]. intros cs [H _]. exact H.
    + intros chunks g1 Hgene.
      destruct (chromosome_set chrom done job chunks Hv Hr Hp
                  (Hsub job (or_introl eq_refl)) Hgene) as (Hv' & Hr' & Hp').
      replace (done ++ job :: todo) with ((done ++ [job]) ++ todo)
        by (rewrite <- app_assoc; reflexivity).
      apply IH; try assumption. intros j Hj. apply Hsub. now right.
Qed.

Lemma smart_chromosome_returns g :
  returns (CulturalAlgorithm._create_smart_chromosome order) g
          (chromosome_ok job_dict order).
Proof.
  unfold CulturalAlgorithm._create_smart_chromosome.
  eapply returns_weaken.
  - apply (smart_chromosome_from_returns order [] [] g); try constructor.
    + auto.
    + intros j [].
  - intros chrom H. exact H.
Qed.

Lemma crossover_from_returns p1 p2 todo :
  chromosome_ok job_dict order p1 -> chromosome_ok job_dict order p2 ->
  forall done child g,
    (forall job, In job todo -> In job order) ->
    genes_valid job_dict child -> machines_in_range child -> genes_present child done ->
    (forall k chunks, dict_get k child = Some chunks ->
                      dict_get k p1 = Some chunks \/ dict_get k p2 = Some chunks) ->
    returns (CulturalAlgorithm._crossover_from child p1 p2 todo) g
            (fun child' => genes_valid job_dict child' /\ machines_in_range child' /\
                           genes_present child' (done ++ todo) /\
                           forall k chunks, dict_get k child' = Some chunks ->
                             dict_get k p1 = Some chunks \/ dict_get k p2 = Some chunks).
Proof.
  intros Hp1 Hp2. induction todo as [|job todo IH];
    intros done child g Hsub Hv Hr Hp Hfrom;
    cbn [CulturalAlgorithm._crossover_from].
  - apply returns_ret. rewrite app_nil_r. auto.
  - eapply returns_bind; [apply (returns_draw _ _ (fun _ => True)); exact I|].
    intros first g1 _.
    pose proof (Hsub job (or_introl eq_refl)) as Hjob.
    set (parent := if first then p1 else p2).
    assert (Hparent : chromosome_ok job_dict order parent)
      by (destruct first; assumption).
    destruct Hparent as (Hpv & Hpr & Hpp).
    destruct (Hpp job Hjob) as (c & cs & Hgene). rewrite Hgene.
    assert (Hgok : gene_ok job (c :: cs)).
    { pose proof (dict_get_in _ _ _ Hgene) as Hin.
      unfold genes_valid, machines_in_range in Hpv, Hpr.
      rewrite List.Forall_forall in Hpv, Hpr.
      destruct (Hpv _ Hin) as (job' & Hj' & Hsum & Hmax). cbn [fst snd] in *.
      rewrite (Hdict job Hjob) in Hj'. injection Hj' as <-.
      split; [discriminate|]. split; [exact Hsum|]. split; [exact Hmax|].
      apply (Hpr _ Hin). }
    destruct (chromosome_set child done job (c :: cs) Hv Hr Hp Hjob Hgok)
      as (Hv' & Hr' & Hp').
    replace (done ++ job :: todo) with ((done ++ [job]) ++ todo)
      by (rewrite <- app_assoc; reflexivity).
    apply IH; try assumption.
    + intros j Hj. apply Hsub. now right.
    + intros k chunks. rewrite dict_get_set.
      destruct (Z.eqb_spec k (id job)) as [->|_]; [|apply Hfrom].
      intros [= <-]. subst parent. destruct first; [left|right]; exact Hgene.
Qed.

Lemma set_machine_returns chunks i m :
  0 <= i < Z.of_nat (length chunks) ->
  exists cs,
    CulturalAlgorithm.set_machine chunks i m = Ok cs /\
    map c_size cs = map c_size chunks /\ map c_order cs = map c_order chunks /\
    cs <> [] /\
    (0 <= m < NUM_MACHINES ->
     Forall (fun c => 0 <= c_machine c < NUM_MACHINES) chunks ->
     Forall (fun c => 0 <= c_machine c < NUM_MACHINES) cs).
Proof.
  intros Hi. unfold CulturalAlgorithm.set_machine.
  destruct (py_index_some (length chunks) i ltac:(lia)) as [k Hk]. rewrite Hk.
  pose proof (py_index_lt _ _ _ Hk) as Hlt.
  destruct (nth_error chunks k) as [c|] eqn:Ec; [|apply nth_error_None in Ec; lia].
  eexists. split; [reflexivity|].
  assert (Hlook : chunks !! k = Some c).
  { clear -Ec. revert k Ec. induction chunks as [|x l IH]; intros [|k] E;
      cbn in *; try discriminate; [exact E|apply IH, E]. }
  split; [|split; [|split]].
  - apply insert_map_same with (c := c); [exact Hlook|reflexivity].
  - apply insert_map_same with (c := c); [exact Hlook|reflexivity].
  - intros E. apply (f_equal (@length chunk)) in E. rewrite length_insert in E.
    cbn in E. lia.
  - intros Hm Hall. apply Forall_insert; [exact Hall|exact Hm].
Qed.

Lemma gene_machine_set job chunks i m :
  gene_ok job chunks -> 0 <= i < Z.of_nat (length chunks) -> 0 <= m < NUM_MACHINES ->
  exists cs, CulturalAlgorithm.set_machine chunks i m = Ok cs /\ gene_ok job cs.
Proof.
  intros (Hne & Hsum & Hmax & Hm) Hi Hrange.
  destruct (set_machine_returns chunks i m Hi) as (cs & Hrun & Hs & _ & Hne' & Hr).
  exists cs. split; [exact Hrun|]. split; [exact Hne'|].
  split; [rewrite Hs; exact Hsum|]. split; [|apply Hr; assumption].
  assert (Hsizes : Forall (fun z => z <= MAX_CHUNK_SIZE) (map c_size cs)).
  { rewrite Hs. clear -Hmax. induction Hmax; cbn [map]; constructor; assumption. }
  clear -Hsizes. induction cs as [|c cs IH]; [constructor|].
  cbn [map] in Hsizes. inversion Hsizes; subst. constructor; auto.
Qed.

Lemma chromosome_gene chrom job :
  chromosome_ok job_dict order chrom -> In job order ->
  exists chunks, dict_get (id job) chrom = Some chunks /\ gene_ok job chunks.
Proof.
  intros (Hv & Hr & Hp) Hjob. destruct (Hp job Hjob) as (c & cs & Hgene).
  exists (c :: cs). split; [exact Hgene|].
  pose proof (dict_get_in _ _ _ Hgene) as Hin.
  unfold genes_valid, machines_in_range in Hv, Hr.
  rewrite List.Forall_forall in Hv, Hr.
  destruct (Hv _ Hin) as (job' & Hj' & Hsum & Hmax). cbn [fst snd] in *.
  rewrite (Hdict job Hjob) in Hj'. injection Hj' as <-.
  split; [discriminate|]. split; [exact Hsum|]. split; [exact Hmax|].
  apply (Hr _ Hin).
Qed.

Lemma mutate_returns (bs : BeliefSpace.t F) chrom g :
  reputation_in_range (BeliefSpace.machine_reputation bs) ->
  chromosome_ok job_dict order chrom ->
  returns (CulturalAlgorithm._mutate bs chrom order) g
          (fun chrom' =>
             chromosome_ok job_dict order chrom' /\
             (chrom' = chrom \/
              exists job chunks, In job order /\ gene_ok job chunks /\
                chrom' = CulturalAlgorithm.dict_set (id job) chunks chrom)).
Proof.
  intros Hrep Hok.
  assert (Hgen : forall ord, ord = order ->
            returns (CulturalAlgorithm._mutate bs chrom ord) g
              (fun chrom' =>
                 chromosome_ok job_dict order chrom' /\
                 (chrom' = chrom \/
                  exists job chunks, In job order /\ gene_ok job chunks /\
                    chrom' = CulturalAlgorithm.dict_set (id job) chunks chrom)));
    [|apply Hgen; reflexivity].
  intros ord Eord. unfold CulturalAlgorithm._mutate.
  destruct ord as [|job0 ord0].
  { apply returns_ret. split; [exact Hok|now left]. }
  assert (Hne : order <> []) by (rewrite <- Eord; discriminate).
  rewrite Eord.
  eapply returns_bind; [apply (choice_returns Hlaw); exact Hne|].
  intros job g1 Hjob. cbn beta in Hjob.
  destruct (chromosome_gene chrom job Hok Hjob) as (chunks & Hgene & Hgok).
  rewrite Hgene.
  eapply returns_bind; [apply (returns_draw _ _ (fun _ => True)); exact I|].
  intros mutation_type g2 _.
  assert (Hset : forall cs, gene_ok job cs ->
            forall g' : R, returns (CulturalAlgorithm.ret (R := R)
                                  (CulturalAlgorithm.dict_set (id job) cs chrom)) g'
              (fun chrom' =>
                 chromosome_ok job_dict order chrom' /\
                 (chrom' = chrom \/
                  exists job chunks, In job order /\ gene_ok job chunks /\
                    chrom' = CulturalAlgorithm.dict_set (id job) chunks chrom))).
  { intros cs Hcs g'. apply returns_ret. split.
    - apply chromosome_set_ok; assumption.
    - right. exists job, cs. auto. }
  assert (Hlen : 0 < Z.of_nat (length chunks)).
  { destruct Hgok as (Hnil & _). destruct chunks; [congruence|cbn; lia]. }
  assert (Hrand : forall g' : R, returns (CulturalAlgorithm.draw
                                        (randint 0 (NUM_MACHINES - 1))) g'
                               (fun m => 0 <= m < NUM_MACHINES)).
  { intros g'. apply returns_draw.
    pose proof (randint_range R Hlaw 0 (NUM_MACHINES - 1) g'
                  ltac:(unfold NUM_MACHINES; lia)). lia. }
  destruct (duration job >? MAX_CHUNK_SIZE) eqn:Ebig.
  - destruct mutation_type.
    + eapply returns_bind.
      { apply split_returns. rewrite Z.gtb_ltb in Ebig. apply Z.ltb_lt, Ebig. }
      intros cs g3 [Hcs _]. apply Hset, Hcs.
    + destruct chunks as [|c chunks']; [cbn in Hlen; lia|].
      eapply returns_bind.
      { apply (returns_draw _ _ (fun i => 0 <= i < Z.of_nat (length (c :: chunks')))).
        pose proof (randint_range R Hlaw 0 (Z.of_nat (length (c :: chunks')) - 1) g2
                      ltac:(lia)). lia. }
      intros chunk_idx g3 Hidx. cbn beta in Hidx.
      eapply returns_bind; [apply Hrand|]. intros m g4 Hm. cbn beta in Hm.
      destruct (gene_machine_set job (c :: chunks') chunk_idx m Hgok Hidx Hm)
        as (cs & Hrun & Hcs).
      eapply returns_bind with (P := fun x => x = cs);
        [apply (returns_lift _ cs); [exact Hrun|reflexivity]|].
      intros cs' g5 ->. apply Hset, Hcs.
  - eapply returns_bind.
    { apply (returns_draw _ _ (fun influenced =>
               forall m, influenced = Some m -> 0 <= m < NUM_MACHINES)).
      intros m Hm. unfold BeliefSpace.influence_mutation in Hm.
      destruct (BeliefSpace.machine_reputation bs !! id job) as [scores|] eqn:Es;
        [|discriminate Hm].
      destruct (random_lt (7 # 10) g2) as [[|] g']; cbn [fst] in Hm;
        [|discriminate Hm].
      destruct (best_machine_spec scores m Hm) as (n & Hin & _).
      specialize (Hrep _ _ Es). rewrite List.Forall_forall in Hrep.
      apply (Hrep _ Hin). }
    intros influenced g3 Hinf. cbn beta in Hinf.
    eapply returns_bind with (P := fun m => 0 <= m < NUM_MACHINES).
    { destruct influenced as [m|]; [apply returns_ret, Hinf; reflexivity|apply Hrand]. }
    intros m g4 Hm.
    destruct (gene_machine_set job chunks 0 m Hgok ltac:(lia) Hm) as (cs & Hrun & Hcs).
    eapply returns_bind with (P := fun x => x = cs);
      [apply (returns_lift _ cs); [exact Hrun|reflexivity]|].
    intros cs' g5 ->. apply Hset, Hcs.
Qed.

End OperatorFacts.

(** ** Runs of the generation loop *)

Lemma dict_incr_in_range k d :
  0 <= k < NUM_MACHINES ->
  Forall (fun kv : Z * Z => 0 <= fst kv < NUM_MACHINES) d ->
  Forall (fun kv : Z * Z => 0 <= fst kv < NUM_MACHINES) (dict_incr k d).
Proof.
  intros Hk Hd. induction Hd as [|[k' n] d Hx Hd IH]; cbn [dict_incr].
  - constructor; [exact Hk|constructor].
  - destruct (k =? k'); constructor; assumption.
Qed.

Lemma learn_in_range {F} rep (accepted : list (BeliefSpace.individual F)) :
  reputation_in_range rep ->
  Forall (fun x => machines_in_range (BeliefSpace.ind_chromosome x)) accepted ->
  reputation_in_range (BeliefSpace.learn rep accepted).
Proof.
  unfold BeliefSpace.learn. intros Hrep Hall. revert rep Hrep.
  induction Hall as [|x accepted Hx _ IH]; intros rep Hrep; cbn [fold_left];
    [exact Hrep|].
  apply IH. revert rep Hrep. unfold machines_in_range in Hx.
  induction Hx as [|[j chunks] chrom Hg _ IHc]; intros rep Hrep; cbn [fold_left];
    [exact Hrep|].
  apply IHc. unfold BeliefSpace.learn_entry. cbn [snd] in Hg.
  assert (Hrep1 : reputation_in_range match rep !! j with
                                      | Some _ => rep
                                      | None => <[j := []]> rep
                                      end).
  { destruct (rep !! j) eqn:E; [exact Hrep|].
    intros j' scores. destruct (Z.eq_dec j j') as [<-|Hne].
    - rewrite lookup_insert_eq. intros [= <-]. constructor.
    - rewrite lookup_insert_ne by exact Hne. apply Hrep. }
  revert Hrep1. generalize (match rep !! j with
                            | Some _ => rep
                            | None => <[j := []]> rep
                            end) as rep1.
  induction Hg as [|c chunks Hc _ IHk]; intros rep1 Hrep1; cbn [fold_left];
    [exact Hrep1|].
  apply IHk. intros j' scores. unfold BeliefSpace.bump.
  destruct (Z.eq_dec j j') as [<-|Hne].
  - rewrite lookup_insert_eq. intros [= <-]. apply dict_incr_in_range; [exact Hc|].
    destruct (rep1 !! j) as [s|] eqn:E; cbn [from_option Datatypes.id].
    + apply (Hrep1 j s E).
    + constructor.
  - rewrite lookup_insert_ne by exact Hne. apply Hrep1.
Qed.

Section SearchRuns.
Context {F : Type} {fo : FloatOps F} {R : Type} {rg : RandomGen R}.
Hypothesis Hlaw : lawful_random R.
Variable job_dict : gmap Z Job.
Variable order : list Job.
Hypothesis Hdict : forall job, In job order -> job_dict !! id job = Some job.

Lemma evaluate_total chrom :
  chromosome_ok job_dict order chrom ->
  exists (fit : fitness F) s viol,
    Evaluator._evaluate_chromosome job_dict chrom order = Ok (fit, s, viol) /\
    (fit_ltb fit Inf = true -> length s = Z.to_nat NUM_MACHINES) /\
    (dep_ordered order -> fit_ltb fit Inf = true).
Proof.
  intros (Hv & Hr & Hp). unfold Evaluator._evaluate_chromosome.
  assert (Hknown : genes_known job_dict chrom).
  { eapply Forall_impl; [exact Hv|]. cbn. intros g (job & Hj & _). eauto. }
  assert (Hidx : machines_indexable chrom).
  { eapply Forall_impl; [exact Hr|]. cbn. intros g Hg.
    eapply Forall_impl; [exact Hg|]. cbn. unfold NUM_MACHINES. intros c Hc. lia. }
  destruct (validate_spec job_dict chrom Hknown) as (b & -> & Hb).
  rewrite (proj2 Hb Hv). cbn [obind negb].
  destruct (eval_jobs_total chrom order Hidx _ eval_machines_init)
    as (r & -> & Hiff & Hpost). cbn [obind].
  destruct r as [st|].
  - destruct (Hpost st eq_refl) as [Hok _].
    destruct (adjusted_makespan_total (F := F) st Hok) as [f ->]. cbn [obind].
    exists (Fin f), (Evaluator.m_scheds st), (Evaluator.violations st).
    split; [reflexivity|]. split; [intros _; apply (mo_scheds _ _ Hok)|reflexivity].
  - exists Inf, [], []. split; [reflexivity|]. split; [discriminate|].
    intros Hord. exfalso.
    assert (Hsome : is_Some (@None Evaluator.eval_state)); [|destruct Hsome; discriminate].
    apply Hiff. intros pre job post E. split.
    + intros d Hd. right. apply (Hord pre job post E d Hd).
    + apply Hp. rewrite E. apply in_or_app. right. now left.
Qed.

Lemma score_returns pop :
  Forall (chromosome_ok job_dict order) pop ->
  exists scored : list (BeliefSpace.individual F),
    CulturalAlgorithm.score job_dict order pop = Ok scored /\
    Forall (individual_ok job_dict order) scored /\
    (dep_ordered order -> map BeliefSpace.ind_chromosome scored = pop).
Proof.
  induction 1 as [|chrom pop Hc _ IH]; cbn [CulturalAlgorithm.score].
  - exists []. repeat split; constructor.
  - destruct (evaluate_total chrom Hc) as (fit & s & viol & Heval & _ & Hfin).
    rewrite Heval. cbn [obind].
    destruct IH as (scored & -> & Hall & Hmap). cbn [obind].
    destruct fit as [f|]; cbn [fit_ltb].
    + exists ((Fin f, chrom, s, viol) :: scored). split; [reflexivity|]. split.
      * constructor; [|exact Hall]. split; [exact Hc|]. exists f.
        split; [reflexivity|exact Heval].
      * intros Hord. cbn. rewrite (Hmap Hord). reflexivity.
    + exists scored. split; [reflexivity|]. split; [exact Hall|].
      intros Hord. discriminate (Hfin Hord).
Qed.

Lemma best_of_returns (tournament : list (BeliefSpace.individual F)) :
  tournament <> [] ->
  exists x, CulturalAlgorithm.best_of tournament = Ok x /\ In x tournament.
Proof.
  intros Hne. destruct tournament as [|x rest] eqn:E; [congruence|].
  eexists. split; [reflexivity|].
  apply (best_of_in (x :: rest)). reflexivity.
Qed.

Lemma select_n_returns n (scores : list (BeliefSpace.individual F)) g :
  scores <> [] ->
  returns (CulturalAlgorithm.select_n n scores) g
          (fun parents => length parents = n /\
             forall p, In p parents ->
                       exists x, In x scores /\ p = BeliefSpace.ind_chromosome x).
Proof.
  intros Hne. revert g. induction n as [|n IH]; intros g;
    cbn [CulturalAlgorithm.select_n].
  - apply returns_ret. split; [reflexivity|intros p []].
  - assert (Hlen : (0 < length scores)%nat) by (destruct scores; [congruence|cbn; lia]).
    eapply returns_bind; [apply (sample_returns Hlaw); lia|].
    intros tournament g1 [Hk Hin]. cbn beta in Hk, Hin.
    destruct (best_of_returns tournament) as (best & Hbest & Hb).
    { intros ->. cbn [length] in Hk. lia. }
    eapply returns_bind with (P := fun x => x = best);
      [apply (returns_lift _ best); [exact Hbest|reflexivity]|].
    intros best' g2 ->.
    eapply returns_bind; [apply IH|].
    intros parents g3 [Hn Hfrom]. apply returns_ret. split; [cbn; lia|].
    intros p [<-|Hp]; [|apply Hfrom, Hp].
    exists best. split; [apply Hin, Hb|reflexivity].
Qed.

Lemma crossover_returns p1 p2 g :
  chromosome_ok job_dict order p1 -> chromosome_ok job_dict order p2 ->
  returns (CulturalAlgorithm._crossover p1 p2 order) g
          (fun child => chromosome_ok job_dict order child /\
             forall k chunks, dict_get k child = Some chunks ->
               dict_get k p1 = Some chunks \/ dict_get k p2 = Some chunks).
Proof.
  intros Hp1 Hp2. unfold CulturalAlgorithm._crossover.
  eapply returns_weaken.
  - apply (crossover_from_returns job_dict order Hdict p1 p2 order Hp1 Hp2 [] [] g);
      try constructor; try (intros; discriminate); auto.
    intros j [].
  - intros child (H1 & H2 & H3 & H4). split; [|exact H4]. split; [exact H1|].
    split; assumption.
Qed.

Lemma breed_returns n (bs : BeliefSpace.t F) parents :
  parents <> [] ->
  Forall (chromosome_ok job_dict order) parents ->
  reputation_in_range (BeliefSpace.machine_reputation bs) ->
  forall g,
    returns (CulturalAlgorithm.breed n bs parents order) g
            (fun children => length children = n /\
                             Forall (chromosome_ok job_dict order) children).
Proof.
  intros Hne Hall Hrep. rewrite List.Forall_forall in Hall.
  induction n as [|n IH]; intros g; cbn [CulturalAlgorithm.breed].
  - apply returns_ret. split; [reflexivity|constructor].
  - eapply returns_bind; [apply (choice_returns Hlaw), Hne|].
    intros p1 g1 Hp1. cbn beta in Hp1.
    eapply returns_bind; [apply (choice_returns Hlaw), Hne|].
    intros p2 g2 Hp2. cbn beta in Hp2.
    eapply returns_bind; [apply (returns_draw _ _ (fun _ => True)); exact I|].
    intros cross g3 _.
    eapply returns_bind with (P := chromosome_ok job_dict order).
    { destruct cross.
      - eapply returns_weaken; [apply crossover_returns; apply Hall; assumption|].
        intros child [H _]. exact H.
      - apply returns_ret, Hall, Hp1. }
    intros child g4 Hchild.
    eapply returns_bind; [apply (returns_draw _ _ (fun _ => True)); exact I|].
    intros mut g5 _.
    eapply returns_bind with (P := chromosome_ok job_dict order).
    { destruct mut.
      - eapply returns_weaken;
          [apply (mutate_returns Hlaw job_dict order Hdict bs child g5 Hrep Hchild)|].
        intros c [H _]. exact H.
      - apply returns_ret, Hchild. }
    intros child' g6 Hchild'.
    eapply returns_bind; [apply IH|].
    intros children g7 [Hn Hcs]. apply returns_ret.
    split; [cbn; lia|constructor; assumption].
Qed.

Lemma update_returns (bs : BeliefSpace.t F) scored :
  scored <> [] ->
  Forall (individual_ok job_dict order) scored ->
  reputation_in_range (BeliefSpace.machine_reputation bs) ->
  belief_found job_dict order bs \/ BeliefSpace.global_best_fitness bs = Inf ->
  exists bs', BeliefSpace.update bs scored = Ok bs' /\
              reputation_in_range (BeliefSpace.machine_reputation bs') /\
              belief_found job_dict order bs'.
Proof.
  intros Hne Hall Hrep Hbest.
  destruct (update_unfold bs scored Hne) as (best & rest & Es & Hacc & ->).
  eexists. split; [reflexivity|].
  assert (Hsub : forall x, In x (BeliefSpace.accepted_individuals scored) ->
                           In x scored).
  { intros x Hx. unfold BeliefSpace.accepted_individuals in Hx.
    apply list_elem_of_In, elem_of_take in Hx as (i & Hi & _).
    apply list_elem_of_lookup_2, list_elem_of_In in Hi.
    eapply Permutation_in; [apply (sorted_by_perm fit_ltb BeliefSpace.ind_fitness)|].
    exact Hi. }
  rewrite List.Forall_forall in Hall.
  assert (Hin : In best scored) by (apply Hsub; rewrite Hacc; now left).
  destruct (Hall best Hin) as [Hc (f & Hf & Heval)].
  assert (Hlen : length (BeliefSpace.ind_schedule best) = Z.to_nat NUM_MACHINES).
  { destruct (evaluate_total _ Hc) as (fit & s & viol & Heval' & Hlen & _).
    rewrite Heval in Heval'. injection Heval' as <- <- _. apply Hlen. reflexivity. }
  split.
  - cbv zeta.
    assert (Hrep1 : reputation_in_range
              (BeliefSpace.machine_reputation
                 (if fit_ltb (BeliefSpace.ind_fitness best)
                             (BeliefSpace.global_best_fitness bs)
                  then BeliefSpace.mkBelief (BeliefSpace.num_machines bs)
                         (Some (BeliefSpace.ind_chromosome best))
                         (BeliefSpace.ind_fitness best)
                         (Some (BeliefSpace.ind_schedule best))
                         (BeliefSpace.machine_reputation bs)
                         (BeliefSpace.ind_violations best)
                  else bs)))
      by (destruct (fit_ltb _ _); exact Hrep).
    cbn [BeliefSpace.machine_reputation]. apply learn_in_range; [exact Hrep1|].
    apply List.Forall_forall. intros x Hx. apply (Hall x (Hsub x Hx)).
  - cbv zeta.
    assert (Hnew : belief_found job_dict order
              (BeliefSpace.mkBelief (BeliefSpace.num_machines bs)
                 (Some (BeliefSpace.ind_chromosome best))
                 (BeliefSpace.ind_fitness best)
                 (Some (BeliefSpace.ind_schedule best))
                 (BeliefSpace.learn (BeliefSpace.machine_reputation bs)
                    (BeliefSpace.accepted_individuals scored))
                 (BeliefSpace.ind_violations best))).
    { exists (BeliefSpace.ind_chromosome best), f, (BeliefSpace.ind_schedule best).
      cbn. rewrite Hf. auto 10. }
    destruct Hbest as [Hfound|Hinf].
    + destruct (fit_ltb _ _); [exact Hnew|].
      destruct Hfound as (chrom0 & f0 & s0 & H1 & H2 & H3 & H4 & H5 & H6).
      exists chrom0, f0, s0. cbn. auto 10.
    + assert (Hlt : fit_ltb (BeliefSpace.ind_fitness best) Inf = true)
        by (rewrite Hf; reflexivity).
      rewrite Hinf, Hlt. exact Hnew.
Qed.

Lemma generation_returns st g :
  search_ok job_dict order st ->
  returns (CulturalAlgorithm.generation job_dict order st) g
          (fun st' => search_ok job_dict order st' /\
                      (belief_found job_dict order (fst st) \/ dep_ordered order ->
                       belief_found job_dict order (fst st')) /\
                      forall scored,
                        CulturalAlgorithm.score job_dict order (snd st) = Ok scored ->
                        scored <> [] ->
                        BeliefSpace.update (fst st) scored = Ok (fst st') /\
                        exists children,
                          snd st'
                          = map BeliefSpace.ind_chromosome
                              (take CulturalAlgorithm.elite_size
                                 (sorted_by fit_ltb BeliefSpace.ind_fitness scored))
                            ++ children).
Proof.
  destruct st as [bs pop]. intros (Hpop & Hlen & Hrep & Hbest).
  cbn [fst snd] in Hpop, Hlen, Hrep, Hbest. unfold CulturalAlgorithm.generation.
  destruct (score_returns pop Hpop) as (scored & Hscore & Hall & Hmap).
  eapply returns_bind with (P := fun x => x = scored);
    [apply (returns_lift _ scored); [exact Hscore|reflexivity]|].
  intros scored' g1 ->.
  assert (Hcases : scored = [] \/ scored <> [])
    by (destruct scored; [left; reflexivity|right; discriminate]).
  destruct Hcases as [->|Hne].
  { apply returns_ret. split; [repeat split; assumption|]. split.
    - cbn [fst]. intros [Hfound|Hord]; [exact Hfound|].
      specialize (Hmap Hord). cbn [map] in Hmap. subst pop. discriminate Hlen.
    - cbn [fst snd]. intros scored' Hscore' Hne'. rewrite Hscore in Hscore'.
      injection Hscore' as <-. congruence. }
  destruct (update_returns bs scored Hne Hall Hrep Hbest) as (bs' & Hup & Hrep' & Hfound).
  assert (Hgoal : returns
    (CulturalAlgorithm.bind (CulturalAlgorithm.lift (BeliefSpace.update bs scored))
       (fun bs' =>
        CulturalAlgorithm.bind (CulturalAlgorithm._select_parents scored)
          (fun parents =>
           let sorted_fitness := sorted_by fit_ltb BeliefSpace.ind_fitness scored in
           let elite :=
             map BeliefSpace.ind_chromosome
               (take (Nat.min CulturalAlgorithm.elite_size (length sorted_fitness))
                     sorted_fitness) in
           CulturalAlgorithm.bind
             (CulturalAlgorithm.breed
                (CulturalAlgorithm.population_size - length elite) bs' parents order)
             (fun children => CulturalAlgorithm.ret (bs', elite ++ children)))))
    g1 (fun st' => search_ok job_dict order st' /\
                   (belief_found job_dict order bs \/ dep_ordered order ->
                    belief_found job_dict order (fst st')) /\
                   forall scored',
                     CulturalAlgorithm.score job_dict order pop = Ok scored' ->
                     scored' <> [] ->
                     BeliefSpace.update bs scored' = Ok (fst st') /\
                     exists children,
                       snd st'
                       = map BeliefSpace.ind_chromosome
                           (take CulturalAlgorithm.elite_size
                              (sorted_by fit_ltb BeliefSpace.ind_fitness scored'))
                         ++ children)).
  { eapply returns_bind with (P := fun x => x = bs');
      [apply (returns_lift _ bs'); [exact Hup|reflexivity]|].
    intros bs'' g2 ->.
    assert (Hscored : forall x, In x scored ->
                                chromosome_ok job_dict order (BeliefSpace.ind_chromosome x)).
    { intros x Hx. rewrite List.Forall_forall in Hall. apply (Hall x Hx). }
    eapply returns_bind; [apply (select_n_returns _ _ _ Hne)|].
    intros parents g3 [Hn Hfrom]. cbv zeta.
    assert (Hparents : parents <> []).
    { intros ->. cbn [length] in Hn. destruct scored; [congruence|discriminate Hn]. }
    eapply returns_bind.
    { apply breed_returns; [exact Hparents| |exact Hrep'].
      apply List.Forall_forall. intros p Hp.
      destruct (Hfrom p Hp) as (x & Hx & ->). apply Hscored, Hx. }
    intros children g4 [Hk Hcs]. apply returns_ret.
    split; [|split; [intros _; exact Hfound|]]; cycle 1.
    { cbn [fst snd]. intros scored' Hscore' _. rewrite Hscore in Hscore'.
      injection Hscore' as <-. split; [exact Hup|]. exists children.
      rewrite sorted_by_length. f_equal. f_equal.
      destruct (Nat.le_ge_cases CulturalAlgorithm.elite_size (length scored))
        as [Hle|Hge].
      - rewrite Nat.min_l by exact Hle. reflexivity.
      - rewrite Nat.min_r by exact Hge.
        rewrite !take_ge; [reflexivity| |]; rewrite sorted_by_length; lia. }
    split; [|split; [|split]]; cbn [fst snd].
    - apply Forall_app. split; [|exact Hcs].
      apply List.Forall_forall. intros c Hc.
      apply in_map_iff in Hc as (x & <- & Hx). apply Hscored.
      apply list_elem_of_In, elem_of_take in Hx as (i & Hi & _).
      apply list_elem_of_lookup_2, list_elem_of_In in Hi.
      eapply Permutation_in; [apply (sorted_by_perm fit_ltb BeliefSpace.ind_fitness)|].
      exact Hi.
    - rewrite length_app, Hk.
      assert (length (map BeliefSpace.ind_chromosome
                (take (Nat.min CulturalAlgorithm.elite_size
                         (length (sorted_by fit_ltb BeliefSpace.ind_fitness scored)))
                      (sorted_by fit_ltb BeliefSpace.ind_fitness scored)))
              <= CulturalAlgorithm.population_size)%nat; [|lia].
      rewrite length_map, length_take.
      unfold CulturalAlgorithm.elite_size, CulturalAlgorithm.population_size. lia.
    - exact Hrep'.
    - left. exact Hfound. }
  destruct scored as [|x scored']; [congruence|]. exact Hgoal.
Qed.

Lemma evolve_returns n st g :
  search_ok job_dict order st ->
  returns (CulturalAlgorithm.evolve n job_dict order st) g
          (fun st' => search_ok job_dict order st' /\
                      (belief_found job_dict order (fst st) \/
                       (dep_ordered order /\ (0 < n)%nat) ->
                       belief_found job_dict order (fst st'))).
Proof.
  revert st g. induction n as [|n IH]; intros st g Hst;
    cbn [CulturalAlgorithm.evolve].
  - apply returns_ret. split; [exact Hst|]. intros [H|[_ H]]; [exact H|lia].
  - eapply returns_bind; [apply generation_returns, Hst|].
    intros st1 g1 (Hst1 & Hfound1 & _). eapply returns_weaken; [apply IH, Hst1|].
    intros st2 [Hst2 Hfound2]. split; [exact Hst2|].
    intros H. apply Hfound2. left. apply Hfound1.
    destruct H as [H|[H _]]; [left|right]; exact H.
Qed.

Lemma init_population_returns n g :
  returns (CulturalAlgorithm.init_population n order) g
          (fun pop => length pop = n /\ Forall (chromosome_ok job_dict order) pop).
Proof.
  revert g. induction n as [|n IH]; intros g; cbn [CulturalAlgorithm.init_population].
  - apply returns_ret. split; [reflexivity|constructor].
  - eapply returns_bind;
      [apply (smart_chromosome_returns Hlaw job_dict order Hdict)|].
    intros chrom g1 Hc. eapply returns_bind; [apply IH|].
    intros pop g2 [Hlen Hpop]. apply returns_ret.
    split; [cbn; lia|constructor; assumption].
Qed.

End SearchRuns.

(** ** The cultural solver as a whole *)

Lemma ca_sorted_known jobs order :
  CulturalAlgorithm._topological_sort jobs = Ok (Some order) ->
  forall job, In job order -> make_job_dict jobs !! id job = Some job.
Proof.
  unfold CulturalAlgorithm._topological_sort. intros Hrun.
  assert (Hids : forall k job, make_job_dict jobs !! k = Some job -> id job = k)
    by (intros k job Hk; apply (make_job_dict_ids jobs k job Hk)).
  destruct (sort_loop_covers
              (fun s => visit_inv s /\
                        forall j, In j (result s) ->
                                  make_job_dict jobs !! id j = Some j)
              (fun k => is_Some (make_job_dict jobs !! k))
              (CulturalAlgorithm.dfs (make_job_dict jobs) (S (length jobs))) jobs)
    with (st := mkTopo ∅ ∅ []) (order := order)
    as (st' & -> & [Hinv Hknown] & _ & Hall).
  - intros k s s' [Hs Hk] Hd.
    destruct (ca_dfs_visit _ Hids _ k s s' Hs Hd) as (H1 & H2 & _).
    split; [split; [exact H1|]|split; [exact H2|]].
    + apply (ca_dfs_known _ Hids _ k s s' Hk Hd).
    + apply (ca_dfs_visits _ _ k s s' Hd).
  - apply make_job_dict_covers.
  - split; [|intros j []]. constructor; cbn.
    + intros k. split; [set_solver|intros []].
    + apply NoDup_nil_2.
  - exact Hrun.
  - exact Hknown.
Qed.

Lemma first_over_capacity_some jobs job :
  first_over_capacity jobs = Some job ->
  In job jobs /\ FIXED_MACHINE_CAPACITY < duration job.
Proof.
  unfold first_over_capacity. intros Hfind. apply find_some in Hfind as [Hin Hd].
  split; [exact Hin|]. rewrite Z.gtb_ltb in Hd. apply Z.ltb_lt, Hd.
Qed.

Section SolveRuns.
Context {F : Type} {fo : FloatOps F} {R : Type} {rg : RandomGen R}.
Hypothesis Hlaw : lawful_random R.

Lemma cultural_solve_runs jobs order (g : R) :
  first_over_capacity jobs = None ->
  CulturalAlgorithm._topological_sort jobs = Ok (Some order) -> order <> [] ->
  returns (CulturalAlgorithm.solve (F := F) jobs) g
          (fun r => (dep_ordered order -> success r = true) /\
                    (success r = false ->
                     r = _create_error_result (Fin (of_Z 0))
                           "No valid solution found"%string) /\
                    (success r = true ->
                     exists chrom f s viol,
                       chromosome_ok (make_job_dict jobs) order chrom /\
                       Evaluator._evaluate_chromosome (make_job_dict jobs) chrom order
                       = Ok (Fin f, s, viol) /\
                       r = mkResult true (Fin f)
                             (CulturalAlgorithm._build_final_schedule s) []
                             (_calc_splits s) (Some (sumZ (map duration jobs)))
                             (Some viol) None)).
Proof.
  intros Hcap Hsort Hne. unfold CulturalAlgorithm.solve. rewrite Hcap.
  eapply returns_bind with (P := fun x => x = Some order);
    [apply (returns_lift _ (Some order)); [exact Hsort|reflexivity]|].
  intros topo g1 ->. destruct order as [|job0 order0] eqn:Eorder; [congruence|].
  rewrite <- Eorder in *. clear Hne.
  pose proof (ca_sorted_known jobs order Hsort) as Hdict.
  eapply returns_bind;
    [apply (init_population_returns Hlaw (make_job_dict jobs) order Hdict)|].
  intros pop g2 [Hlen Hpop].
  eapply returns_bind.
  { apply (evolve_returns (F := F) Hlaw (make_job_dict jobs) order Hdict
             CulturalAlgorithm.generations (BeliefSpace.init NUM_MACHINES, pop)).
    split; [exact Hpop|]. split; [exact Hlen|]. cbn [fst BeliefSpace.init].
    split; [|right; reflexivity].
    intros j scores Hj. unfold BeliefSpace.init in Hj.
    cbn [BeliefSpace.machine_reputation] in Hj.
    rewrite lookup_empty in Hj. discriminate Hj. }
  intros [bs pop'] g3 [(_ & _ & _ & Hbest) Hfound]. cbn [fst snd] in Hfound, Hbest |- *.
  assert (Hfound' : dep_ordered order ->
                    belief_found (make_job_dict jobs) order bs).
  { intros Hord. apply Hfound. right. split; [exact Hord|].
    unfold CulturalAlgorithm.generations. lia. }
  clear Hfound.
  destruct (BeliefSpace.global_best_schedule bs) as [[|m ms]|] eqn:Es.
  - apply returns_ret. split; [|split; [reflexivity|discriminate]].
    intros Hord.
    destruct (Hfound' Hord) as (chrom & f & s & _ & _ & _ & Hs & Hlen3 & _).
    rewrite Es in Hs. injection Hs as <-. discriminate Hlen3.
  - destruct (fit_ltb (BeliefSpace.global_best_fitness bs) Inf) eqn:Ef;
      apply returns_ret.
    + split; [reflexivity|]. split; [discriminate|]. intros _.
      destruct Hbest as [Hb|Hinf]; [|rewrite Hinf in Ef; discriminate Ef].
      destruct Hb as (chrom & f & s & _ & Hc & Hf & Hs & _ & Heval).
      rewrite Es in Hs. injection Hs as <-.
      exists chrom, f, (m :: ms), (BeliefSpace.capacity_violations_history bs).
      split; [exact Hc|]. split; [exact Heval|]. rewrite Hf. reflexivity.
    + split; [|split; [reflexivity|discriminate]].
      intros Hord.
      destruct (Hfound' Hord) as (chrom & f & s & _ & _ & Hf & _).
      rewrite Hf in Ef. discriminate Ef.
  - apply returns_ret. split; [|split; [reflexivity|discriminate]].
    intros Hord.
    destruct (Hfound' Hord) as (chrom & f & s & _ & _ & _ & Hs & _).
    rewrite Es in Hs. discriminate Hs.
Qed.

End SolveRuns.

Lemma cultural_solve_cases
    {F : Type} {fo : FloatOps F} {R : Type} {rg : RandomGen R}
    (jobs : list Job) (g : R) :
  lawful_random R ->
  exists (r : ScheduleResult (fitness F)) g',
    CulturalAlgorithm.solve jobs g = Ok (r, g') /\
    (success r = true \/
     (exists job, In job jobs /\ FIXED_MACHINE_CAPACITY < duration job /\
                  r = _create_capacity_error_result (Fin (of_Z 0))
                        (capacity_message job)) \/
     r = _create_error_result (Fin (of_Z 0)) "Cyclic dependencies detected!"%string \/
     r = _create_error_result (Fin (of_Z 0)) "No valid solution found"%string).
Proof.
  intros Hlaw.
  destruct (first_over_capacity jobs) as [job|] eqn:Hcap.
  { exists (_create_capacity_error_result (Fin (of_Z 0)) (capacity_message job)), g.
    split; [unfold CulturalAlgorithm.solve; rewrite Hcap; reflexivity|].
    right. left. exists job.
    destruct (first_over_capacity_some jobs job Hcap) as [Hin Hd]. auto. }
  destruct (CulturalAlgorithm._topological_sort jobs) as [[order|]|e|] eqn:Hsort.
  - destruct order as [|job0 order0] eqn:Eorder.
    + eexists _, g. split;
        [unfold CulturalAlgorithm.solve; rewrite Hcap, Hsort; reflexivity|].
      right. right. left. reflexivity.
    + destruct (cultural_solve_runs (F := F) Hlaw jobs (job0 :: order0) g Hcap Hsort)
        as (r & g' & Hrun & _ & Hfail & _); [discriminate|].
      exists r, g'. split; [exact Hrun|].
      destruct (success r); [left; reflexivity|].
      right. right. right. apply Hfail. reflexivity.
  - eexists _, g. split;
      [unfold CulturalAlgorithm.solve; rewrite Hcap, Hsort; reflexivity|].
    right. right. left. reflexivity.
  - destruct (ca_topological_sort_no_raise jobs e Hsort).
  - destruct (proj2 (topological_sort_total jobs) Hsort).
Qed.


(** X16. Whatever the job list, with a random source that keeps its
    results in range the cultural solver raises none of [KeyError],
    [IndexError], [ZeroDivisionError], [AssertionError], [ValueError]:
    unlike the greedy solver, it has no failing lookup on a dependency
    that names no job.  Whenever it returns, the response is a successful
    one, the capacity error naming a job longer than 40, the failure
    [Cyclic dependencies detected!], or the failure
    [No valid solution found]. *)
Theorem cultural_solver_raises_no_lookup_error
    {F : Type} {fo : FloatOps F} {R : Type} {rg : RandomGen R}
    (jobs : list Job) (g : R) :
  lawful_random R ->
  (forall e, CulturalAlgorithm.solve (F := F) jobs g <> Raise e) /\
  forall (r : ScheduleResult (fitness F)) g',
    CulturalAlgorithm.solve jobs g = Ok (r, g') ->
    success r = true \/
    (exists job, In job jobs /\ FIXED_MACHINE_CAPACITY < duration job /\
                 r = _create_capacity_error_result (Fin (of_Z 0))
                       (capacity_message job)) \/
    r = _create_error_result (Fin (of_Z 0)) "Cyclic dependencies detected!"%string \/
    r = _create_error_result (Fin (of_Z 0)) "No valid solution found"%string.
Proof.
  intros Hlaw.
  destruct (cultural_solve_cases (F := F) jobs g Hlaw) as (r0 & g0 & Hrun0 & Hkind).
  split.
  - intros e Hraise. rewrite Hraise in Hrun0. discriminate Hrun0.
  - intros r g' Hrun. rewrite Hrun in Hrun0. injection Hrun0 as <- <-.
    exact Hkind.
Qed.

Lemma cultural_solver_raises_no_lookup_error_witness :
  exists (r : ScheduleResult (fitness Q)) g',
    CulturalAlgorithm.solve [mkJob 1 "A" 7 [99] 1] 7%N = Ok (r, g') /\
    (success r = true \/
     (exists job, In job [mkJob 1 "A" 7 [99] 1] /\
                  FIXED_MACHINE_CAPACITY < duration job /\
                  r = _create_capacity_error_result (Fin (of_Z 0))
                        (capacity_message job)) \/
     r = _create_error_result (Fin (of_Z 0)) "Cyclic dependencies detected!"%string \/
     r = _create_error_result (Fin (of_Z 0)) "No valid solution found"%string).
Proof.
  assert (Hrun : exists (r : ScheduleResult (fitness Q)) g',
             CulturalAlgorithm.solve [mkJob 1 "A" 7 [99] 1] 7%N = Ok (r, g'))
    by (eexists _, _; vm_compute; reflexivity).
  destruct Hrun as (r & g' & Hrun). exists r, g'. split; [exact Hrun|].
  apply (proj2 (cultural_solver_raises_no_lookup_error (fo := Q_float) (rg := lcg)
                  [mkJob 1 "A" 7 [99] 1] 7%N lcg_lawful) r g' Hrun).
Defined.



(** X18. With a random source that keeps its results in range, a
    successful response of the cultural solver is consistent: there is a
    well-formed chromosome whose evaluation over the topological order
    gives the reported makespan (its fitness), the timelines from which
    the reported schedule and split counts are built, and the reported
    capacity violations; the total work is the sum of the durations. *)
Theorem cultural_response_comes_from_one_evaluation
    {F : Type} {fo : FloatOps F} {R : Type} {rg : RandomGen R}
    (jobs : list Job) (g g' : R) (r : ScheduleResult (fitness F)) :
  lawful_random R ->
  CulturalAlgorithm.solve jobs g = Ok (r, g') -> success r = true ->
  exists order chrom f s viol,
    CulturalAlgorithm._topological_sort jobs = Ok (Some order) /\
    chromosome_ok (make_job_dict jobs) order chrom /\
    Evaluator._evaluate_chromosome (make_job_dict jobs) chrom order
    = Ok (Fin f, s, viol) /\
    r = mkResult true (Fin f) (CulturalAlgorithm._build_final_schedule s) []
          (_calc_splits s) (Some (sumZ (map duration jobs))) (Some viol) None.
Proof.
  intros Hlaw Hrun Hsucc.
  destruct (cultural_solve_well_evaluated jobs g g' r Hrun Hsucc)
    as (order & _ & Hsort & _).
  assert (Hcap : first_over_capacity jobs = None).
  { unfold CulturalAlgorithm.solve in Hrun.
    destruct (first_over_capacity jobs); [|reflexivity].
    injection Hrun as <- _. discriminate Hsucc. }
  assert (Hne : order <> []).
  { intros ->. unfold CulturalAlgorithm.solve in Hrun. rewrite Hcap in Hrun.
    unfold CulturalAlgorithm.bind, CulturalAlgorithm.lift in Hrun.
    rewrite Hsort in Hrun. cbn in Hrun. injection Hrun as <- _.
    discriminate Hsucc. }
  destruct (cultural_solve_runs (F := F) Hlaw jobs order g Hcap Hsort Hne)
    as (r0 & g0 & Hrun0 & _ & _ & Hres).
  rewrite Hrun in Hrun0. injection Hrun0 as <- <-.
  destruct (Hres Hsucc) as (chrom & f & s & viol & Hc & Heval & Hr).
  exists order, chrom, f, s, viol. auto.
Qed.

Lemma cultural_response_comes_from_one_evaluation_witness :
  exists (r : ScheduleResult (fitness Q)) g' order chrom f s viol,
    CulturalAlgorithm.solve [job_A; job_B] 7%N = Ok (r, g') /\
    CulturalAlgorithm._topological_sort [job_A; job_B] = Ok (Some order) /\
    chromosome_ok (make_job_dict [job_A; job_B]) order chrom /\
    Evaluator._evaluate_chromosome (make_job_dict [job_A; job_B]) chrom order
    = Ok (Fin f, s, viol) /\
    r = mkResult true (Fin f) (CulturalAlgorithm._build_final_schedule s) []
          (_calc_splits s) (Some (sumZ (map duration [job_A; job_B])))
          (Some viol) None.
Proof.
  assert (Hrun : exists (r : ScheduleResult (fitness Q)) g',
             CulturalAlgorithm.solve [job_A; job_B] 7%N = Ok (r, g') /\
             success r = true)
    by (eexists _, _; split; [vm_compute; reflexivity|reflexivity]).
  destruct Hrun as (r & g' & Hrun & Hsucc).
  destruct (cultural_response_comes_from_one_evaluation (fo := Q_float) (rg := lcg)
              [job_A; job_B] 7%N g' r lcg_lawful Hrun Hsucc)
    as (order & chrom & f & s & viol & H1 & H2 & H3 & H4).
  exists r, g', order, chrom, f, s, viol. auto.
Defined.

(** ** The genetic operators *)

Lemma final_sizes_sum d :
  0 < d ->
  exists sizes,
    final_sizes d = Ok sizes /\ sumZ sizes = d /\ sizes <> [] /\
    Forall (fun s => 0 < s <= MAX_CHUNK_SIZE) sizes.
Proof.
  intros Hpos. rewrite (final_sizes_balanced _ Hpos). eexists. split; [reflexivity|].
  destruct (balanced_arith _ Hpos) as (Hn & Hr & Hq & Hq0 & Hq1 & _).
  set (n := (d + MAX_CHUNK_SIZE - 1) / MAX_CHUNK_SIZE) in *.
  pose proof (Z.div_mod d n ltac:(lia)) as Hdm.
  split; [rewrite sumZ_app, !sumZ_repeat; nia|].
  split.
  { intros E. apply (f_equal (@length Z)) in E.
    rewrite length_app, !repeat_length in E. cbn in E. lia. }
  apply Forall_app. split; apply Forall_repeat_nonempty; intros Hk; [|lia].
  split; [lia|]. apply Hq1. lia.
Qed.

Lemma final_sizes_nonpositive d :
  d <= 0 ->
  final_sizes d = if - MAX_CHUNK_SIZE <? d then Raise ZeroDivisionError else Ok [].
Proof.
  intros Hd. unfold final_sizes, MAX_CHUNK_SIZE.
  destruct (Z.ltb_spec (- (5)) d) as [Hlt|Hge].
  - replace ((d + 5 - 1) / 5) with 0; [reflexivity|].
    symmetry. apply Z.div_small. lia.
  - assert (Hn : (d + 5 - 1) / 5 < 0) by (apply Z.div_lt_upper_bound; lia).
    destruct (Z.eqb_spec ((d + 5 - 1) / 5) 0) as [E|_]; [lia|].
    unfold spread, range. replace (Z.to_nat ((d + 5 - 1) / 5)) with 0%nat by lia. reflexivity.
Qed.

(** X19. [_create_intelligent_split] on a job of positive duration returns
    the chunks of the balanced decomposition, numbered 0, 1, 2, ... in
    their [order] field and each on machine 0, 1 or 2, so that its own
    assertion on the total never fails; on a duration between -4 and 0 it
    raises [ZeroDivisionError], and on a duration of -5 or less it builds
    no chunk and fails its assertion. *)
Theorem intelligent_split_outcomes
    {R : Type} {rg : RandomGen R} (job : Job) (g : R) :
  lawful_random R ->
  (0 < duration job ->
   exists chunks g',
     CulturalAlgorithm._create_intelligent_split job g = Ok (chunks, g') /\
     final_sizes (duration job) = Ok (map c_size chunks) /\
     sumZ (map c_size chunks) = duration job /\
     map c_order chunks = range (Z.of_nat (length chunks)) /\
     Forall (fun c => 0 < c_size c <= MAX_CHUNK_SIZE /\
                      0 <= c_machine c < NUM_MACHINES) chunks) /\
  (- MAX_CHUNK_SIZE < duration job <= 0 ->
   CulturalAlgorithm._create_intelligent_split job g = Raise ZeroDivisionError) /\
  (duration job <= - MAX_CHUNK_SIZE ->
   CulturalAlgorithm._create_intelligent_split job g = Raise AssertionError).
Proof.
  intros Hlaw. unfold CulturalAlgorithm._create_intelligent_split,
    CulturalAlgorithm.bind, CulturalAlgorithm.lift, CulturalAlgorithm.draw,
    CulturalAlgorithm.ret.
  split; [|split].
  - intros Hpos.
    destruct (final_sizes_sum _ Hpos) as (sizes & Hsizes & Hsum & Hne & Hall).
    rewrite Hsizes. cbn [obind fst snd].
    destruct (shuffle_keeps R Hlaw (range NUM_MACHINES) g) as [H1 H2].
    destruct (shuffle (range NUM_MACHINES) g) as [machines g1]. cbn [fst snd] in *.
    destruct (spread_machines_returns machines sizes) with (i := 0)
      as (chunks & Hrun & Hs & Ho & Hm).
    { rewrite H1. reflexivity. }
    { intros x Hx. apply H2, range_elem in Hx. exact Hx. }
    rewrite Hrun. cbn [obind fst snd]. rewrite Hs, Hsum, Z.eqb_refl.
    exists chunks, g1. split; [reflexivity|]. split; [rewrite Hs; reflexivity|].
    split; [rewrite Hs; exact Hsum|]. split.
    + rewrite Ho. unfold range. rewrite Nat2Z.id, <- Hs, length_map.
      apply map_ext. intros k. lia.
    + rewrite <- Hs in Hall. apply List.Forall_forall. intros c Hc. split.
      * rewrite List.Forall_forall in Hall. apply Hall, in_map, Hc.
      * rewrite List.Forall_forall in Hm. apply Hm, Hc.
  - intros [Hlo Hhi]. rewrite (final_sizes_nonpositive _ Hhi).
    destruct (Z.ltb_spec (- MAX_CHUNK_SIZE) (duration job)); [reflexivity|lia].
  - intros Hd. rewrite (final_sizes_nonpositive (duration job))
      by (unfold MAX_CHUNK_SIZE in Hd; lia).
    destruct (Z.ltb_spec (- MAX_CHUNK_SIZE) (duration job)); [lia|].
    cbn [obind fst snd]. destruct (shuffle (range NUM_MACHINES) g) as [machines g1].
    cbn [CulturalAlgorithm.spread_machines obind fst snd map sumZ fold_right].
    destruct (Z.eqb_spec 0 (duration job)) as [E|_]; [|reflexivity].
    unfold MAX_CHUNK_SIZE in Hd. lia.
Qed.

Lemma intelligent_split_outcomes_witness :
  exists chunks g',
    CulturalAlgorithm._create_intelligent_split (mkJob 1 "A" 12 [] 1) 7%N
    = Ok (chunks, g') /\
    final_sizes 12 = Ok (map c_size chunks) /\
    sumZ (map c_size chunks) = 12 /\
    map c_order chunks = range (Z.of_nat (length chunks)) /\
    Forall (fun c => 0 < c_size c <= MAX_CHUNK_SIZE /\
                     0 <= c_machine c < NUM_MACHINES) chunks.
Proof.
  apply (proj1 (intelligent_split_outcomes (rg := lcg) (mkJob 1 "A" 12 [] 1) 7%N
                  lcg_lawful)).
  reflexivity.
Defined.

Lemma two_gene_chromosome_ok m1 m2 :
  0 <= m1 < NUM_MACHINES -> 0 <= m2 < NUM_MACHINES ->
  chromosome_ok (make_job_dict [job_A; job_B]) [job_A; job_B]
                [(1, [mkChunk m1 5 0]); (2, [mkChunk m2 5 0])].
Proof.
  intros H1 H2. split; [|split].
  - constructor; [|constructor; [|constructor]]; cbn [fst snd].
    + exists job_A. split; [reflexivity|]. split; [reflexivity|].
      constructor; [cbn; unfold MAX_CHUNK_SIZE; lia|constructor].
    + exists job_B. split; [reflexivity|]. split; [reflexivity|].
      constructor; [cbn; unfold MAX_CHUNK_SIZE; lia|constructor].
  - constructor; [|constructor; [|constructor]]; cbn [fst snd];
      (constructor; [cbn [c_machine]; assumption|constructor]).
  - intros job [<-|[<-|[]]]; eexists; eexists; reflexivity.
Qed.

(** X20. [_crossover] never raises.  From two parents that are
    well-formed chromosomes for the order it builds a well-formed child,
    and the gene of every job in the child is the gene that job has in
    one of the two parents. *)
Theorem crossover_takes_each_gene_from_a_parent
    {R : Type} {rg : RandomGen R} (job_dict : gmap Z Job) (order : list Job)
    (p1 p2 : chromosome) (g : R) :
  (forall job, In job order -> job_dict !! id job = Some job) ->
  chromosome_ok job_dict order p1 -> chromosome_ok job_dict order p2 ->
  exists child g',
    CulturalAlgorithm._crossover p1 p2 order g = Ok (child, g') /\
    chromosome_ok job_dict order child /\
    forall job, In job order ->
      dict_get (id job) child = dict_get (id job) p1 \/
      dict_get (id job) child = dict_get (id job) p2.
Proof.
  intros Hdict Hp1 Hp2. unfold CulturalAlgorithm._crossover.
  destruct (crossover_from_returns job_dict order Hdict p1 p2 order Hp1 Hp2 [] [] g)
    as (child & g' & Hrun & H1 & H2 & H3 & H4);
    try constructor; try (intros; discriminate); auto.
  { intros j []. }
  exists child, g'. split; [exact Hrun|]. split; [repeat split; assumption|].
  intros job Hjob. destruct (H3 job Hjob) as (c & cs & Hg).
  destruct (H4 _ _ Hg) as [E|E]; [left|right]; rewrite Hg, E; reflexivity.
Qed.

Lemma crossover_takes_each_gene_from_a_parent_witness :
  exists child g',
    CulturalAlgorithm._crossover
      [(1, [mkChunk 0 5 0]); (2, [mkChunk 1 5 0])]
      [(1, [mkChunk 2 5 0]); (2, [mkChunk 2 5 0])] [job_A; job_B] 7%N
    = Ok (child, g') /\
    chromosome_ok (make_job_dict [job_A; job_B]) [job_A; job_B] child /\
    forall job, In job [job_A; job_B] ->
      dict_get (id job) child
      = dict_get (id job) [(1, [mkChunk 0 5 0]); (2, [mkChunk 1 5 0])] \/
      dict_get (id job) child
      = dict_get (id job) [(1, [mkChunk 2 5 0]); (2, [mkChunk 2 5 0])].
Proof.
  apply (crossover_takes_each_gene_from_a_parent (rg := lcg)
           (make_job_dict [job_A; job_B]) [job_A; job_B]).
  - intros job [<-|[<-|[]]]; reflexivity.
  - apply two_gene_chromosome_ok; unfold NUM_MACHINES; lia.
  - apply two_gene_chromosome_ok; unfold NUM_MACHINES; lia.
Defined.

(** X21. [_mutate] on a well-formed chromosome, with a belief space whose
    reputation table names machines 0, 1 and 2 only, raises nothing and
    returns a well-formed chromosome that differs from the given one in
    the gene of at most one job of the order; that gene still fits its
    job (sizes summing to the duration, none above 5, machines 0 to 2). *)
Theorem mutation_redraws_at_most_one_gene
    {F : Type} {R : Type} {rg : RandomGen R}
    (job_dict : gmap Z Job) (order : list Job)
    (bs : BeliefSpace.t F) (chrom : chromosome) (g : R) :
  lawful_random R ->
  (forall job, In job order -> job_dict !! id job = Some job) ->
  reputation_in_range (BeliefSpace.machine_reputation bs) ->
  chromosome_ok job_dict order chrom ->
  exists chrom' g',
    CulturalAlgorithm._mutate bs chrom order g = Ok (chrom', g') /\
    chromosome_ok job_dict order chrom' /\
    (chrom' = chrom \/
     exists job chunks,
       In job order /\ gene_ok job chunks /\
       dict_get (id job) chrom' = Some chunks /\
       forall k, k <> id job -> dict_get k chrom' = dict_get k chrom).
Proof.
  intros Hlaw Hdict Hrep Hc.
  destruct (mutate_returns Hlaw job_dict order Hdict bs chrom g Hrep Hc)
    as (chrom' & g' & Hrun & Hc' & Hcase).
  exists chrom', g'. split; [exact Hrun|]. split; [exact Hc'|].
  destruct Hcase as [->|(job & chunks & Hjob & Hgene & ->)]; [left; reflexivity|].
  right. exists job, chunks. split; [exact Hjob|]. split; [exact Hgene|]. split.
  - rewrite dict_get_set, Z.eqb_refl. reflexivity.
  - intros k Hk. rewrite dict_get_set.
    destruct (Z.eqb_spec k (id job)); [congruence|reflexivity].
Qed.

Lemma mutation_redraws_at_most_one_gene_witness :
  exists chrom' g',
    CulturalAlgorithm._mutate (BeliefSpace.init (F := Q) NUM_MACHINES)
      [(1, [mkChunk 0 5 0]); (2, [mkChunk 1 5 0])] [job_A; job_B] 7%N
    = Ok (chrom', g') /\
    chromosome_ok (make_job_dict [job_A; job_B]) [job_A; job_B] chrom' /\
    (chrom' = [(1, [mkChunk 0 5 0]); (2, [mkChunk 1 5 0])] \/
     exists job chunks,
       In job [job_A; job_B] /\ gene_ok job chunks /\
       dict_get (id job) chrom' = Some chunks /\
       forall k, k <> id job ->
         dict_get k chrom'
         = dict_get k [(1, [mkChunk 0 5 0]); (2, [mkChunk 1 5 0])]).
Proof.
  apply (mutation_redraws_at_most_one_gene (rg := lcg)
           (make_job_dict [job_A; job_B]) [job_A; job_B]).
  - exact lcg_lawful.
  - intros job [<-|[<-|[]]]; reflexivity.
  - intros j scores Hj. unfold BeliefSpace.init in Hj.
    cbn [BeliefSpace.machine_reputation] in Hj. rewrite lookup_empty in Hj.
    discriminate Hj.
  - apply two_gene_chromosome_ok; unfold NUM_MACHINES; lia.
Defined.

(** ** One generation of the search *)




(** X23. [_select_parents] raises nothing: it returns as many parents as
    there are scored individuals (none for an empty list), and every
    parent is the chromosome of one of the scored individuals. *)
Theorem parents_are_scored_chromosomes
    {F : Type} {fo : FloatOps F} {R : Type} {rg : RandomGen R}
    (fitness_scores : list (BeliefSpace.individual F)) (g : R) :
  lawful_random R ->
  exists parents g',
    CulturalAlgorithm._select_parents fitness_scores g = Ok (parents, g') /\
    length parents = length fitness_scores /\
    forall p, In p parents ->
      exists x, In x fitness_scores /\ p = BeliefSpace.ind_chromosome x.
Proof.
  intros Hlaw. unfold CulturalAlgorithm._select_parents.
  destruct fitness_scores as [|x scores] eqn:E.
  - exists [], g. split; [reflexivity|]. split; [reflexivity|intros p []].
  - rewrite <- E. apply (select_n_returns Hlaw). rewrite E. discriminate.
Qed.

Lemma parents_are_scored_chromosomes_witness :
  exists parents g',
    CulturalAlgorithm._select_parents (F := Q)
      [(Fin 10%Q, [(1, [mkChunk 0 5 0])], [], []);
       (Fin 7%Q, [(1, [mkChunk 1 5 0])], [], [])] 7%N = Ok (parents, g') /\
    length parents = 2%nat /\
    forall p, In p parents ->
      exists x, In x [(Fin 10%Q, [(1, [mkChunk 0 5 0])], [], []);
                      (Fin 7%Q, [(1, [mkChunk 1 5 0])], [], [])] /\
                p = BeliefSpace.ind_chromosome x.
Proof.
  apply (parents_are_scored_chromosomes (fo := Q_float) (rg := lcg)
           [(Fin 10%Q, [(1, [mkChunk 0 5 0])], [], []);
            (Fin 7%Q, [(1, [mkChunk 1 5 0])], [], [])] 7%N).
  exact lcg_lawful.
Defined.



